(** * kkumtl-demo: formatter, cursor, splice, history and storage core

    A shallow embedding of the JavaScript sources of the novel-writing
    assistant.  JavaScript strings are sequences of UTF-16 code units; the
    regular expressions of the sources are transcribed one by one and run by
    a small backtracking matcher that follows the ECMAScript matching order;
    the DOM appears as a tree of text and element nodes together with the
    fragment serialiser and parser the formatter relies on. *)

From Stdlib Require Import List NArith ZArith Lia String Ascii Bool DecimalString Sorted.
From stdpp Require Import gmap.
Import ListNotations.

Set Default Goal Selector "!".
Set Warnings "-register-all".

(* ===================================================================== *)
(** ** JavaScript strings *)
(* ===================================================================== *)

Module Js.

(** A string is its list of UTF-16 code units. *)
Abbreviation str := (list N).

(** ASCII literal to code units. *)
Definition lit (s : string) : str := map N_of_ascii (list_ascii_of_string s).

Definition dq : N := 34.     (* double quote *)
Definition sq : N := 39.     (* single quote / apostrophe *)
Definition star : N := 42.   (* asterisk *)
Definition amp : N := 38.
Definition lt : N := 60.
Definition gt : N := 62.
Definition semi : N := 59.
Definition nbsp : N := 160.
Definition nl : N := 10.
Definition cr : N := 13.
Definition nul : N := 0.
Definition emdash : N := 8212.
Definition period : N := 46.
Definition question : N := 63.
Definition exclamation : N := 33.

(** ECMAScript WhiteSpace and LineTerminator: the set of [String.prototype.trim]
    and of the regular expression class [\s]. *)
Definition is_ws (c : N) : bool :=
  ((9 <=? c) && (c <=? 13) || (c =? 32) || (c =? 160) || (c =? 5760)
   || ((8192 <=? c) && (c <=? 8202)) || (c =? 8232) || (c =? 8233)
   || (c =? 8239) || (c =? 8287) || (c =? 12288) || (c =? 65279))%N.

(** LineTerminator: what the regular expression [.] refuses. *)
Definition is_line_terminator (c : N) : bool :=
  ((c =? 10) || (c =? 13) || (c =? 8232) || (c =? 8233))%N.

Fixpoint trimStart (s : str) : str :=
  match s with
  | c :: t => if is_ws c then trimStart t else s
  | [] => []
  end.

Definition trimEnd (s : str) : str := rev (trimStart (rev s)).

Definition trim (s : str) : str := trimEnd (trimStart s).

Fixpoint startsWith (s p : str) {struct p} : bool :=
  match p, s with
  | [], _ => true
  | a :: p', b :: s' => (a =? b)%N && startsWith s' p'
  | _ :: _, [] => false
  end.

Definition endsWith (s p : str) : bool := startsWith (rev s) (rev p).

(** [s.substring(a)] and [s.substring(a, b)] for non-negative integer
    arguments: indices beyond the length are clamped, and the two-argument
    form swaps its arguments when they are out of order. *)
Definition substring1 (s : str) (a : nat) : str := skipn a s.

Definition substring (s : str) (a b : nat) : str :=
  if (a <=? b)%nat then firstn (b - a) (skipn a s) else firstn (a - b) (skipn b s).

(** Index of the last occurrence of the code unit [c], or [-1]. *)
Fixpoint lastIndex_from (s : str) (c : N) (i : Z) (acc : Z) : Z :=
  match s with
  | [] => acc
  | x :: t => lastIndex_from t c (i + 1) (if (x =? c)%N then i else acc)
  end.

(** [s.lastIndexOf(c)] for a one-unit search string. *)
Definition lastIndexOf (s : str) (c : N) : Z := lastIndex_from s c 0 (-1).

(** [s.lastIndexOf(c, pos)]: the search starts at [pos] clamped to
    [0 .. length], going backwards. *)
Definition lastIndexOf_at (s : str) (c : N) (pos : Z) : Z :=
  lastIndex_from (firstn (S (Z.to_nat (Z.max pos 0))) s) c 0 (-1).

(** A string is falsy exactly when it is empty. *)
Definition falsy (s : str) : bool := match s with [] => true | _ => false end.

End Js.

(* ===================================================================== *)
(** ** Regular expressions *)
(* ===================================================================== *)

Module Regex.
Import Js.

(** The fragment of ECMAScript patterns the sources use.  Quantifiers only
    ever apply to a single character class there. *)
Inductive re : Type :=
| Eps
| Cls (p : N -> bool)                       (* one code unit of a class *)
| Bol                                       (* ^ (no multiline flag) *)
| Eol                                       (* $ *)
| Cat (a b : re)
| Alt (a b : re)                            (* a|b, left first *)
| Grp (n : nat) (a : re)                    (* n-th capturing group *)
| Rep (greedy : bool) (lo : nat) (p : N -> bool)  (* p* p+ p*? on a class *)
| Opt (p : N -> bool).                      (* p? *)

Definition chr (c : N) : N -> bool := fun x => (x =? c)%N.
Definition isnt (c : N) : N -> bool := fun x => negb (x =? c)%N.
Definition one_of (l : str) : N -> bool := fun x => existsb (N.eqb x) l.
Definition none_of (l : str) : N -> bool := fun x => negb (existsb (N.eqb x) l).

(** A literal string. *)
Fixpoint Lit (s : str) : re :=
  match s with
  | [] => Eps
  | c :: t => Cat (Cls (chr c)) (Lit t)
  end.

Definition caps := list (nat * str).
Definition result := (nat * caps)%type.
Definition cont := nat -> str -> caps -> option result.

(** Captured text of group [n]; [None] is JavaScript's [undefined]. *)
Fixpoint group (n : nat) (cs : caps) : option str :=
  match cs with
  | [] => None
  | (j, s) :: t => if (j =? n)%nat then Some s else group n t
  end.

(** Greedy repetition: take as many as possible, give back one at a time. *)
Fixpoint rep_greedy (p : N -> bool) (lo i : nat) (rest : str) (cs : caps)
         (k : cont) {struct rest} : option result :=
  match rest with
  | c :: t =>
      if p c then
        match rep_greedy p (pred lo) (S i) t cs k with
        | Some x => Some x
        | None => if (lo =? 0)%nat then k i rest cs else None
        end
      else if (lo =? 0)%nat then k i rest cs else None
  | [] => if (lo =? 0)%nat then k i rest cs else None
  end.

(** Lazy repetition: take as few as possible, extend one at a time. *)
Fixpoint rep_lazy (p : N -> bool) (lo i : nat) (rest : str) (cs : caps)
         (k : cont) {struct rest} : option result :=
  match lo, rest with
  | O, c :: t =>
      match k i rest cs with
      | Some x => Some x
      | None => if p c then rep_lazy p O (S i) t cs k else None
      end
  | O, [] => k i rest cs
  | S lo', c :: t => if p c then rep_lazy p lo' (S i) t cs k else None
  | S _, [] => None
  end.

(** Backtracking matcher in continuation-passing style: [i] is the index
    of the next code unit in the subject, [rest] the subject from there. *)
Fixpoint m (r : re) (i : nat) (rest : str) (cs : caps) (k : cont)
         {struct r} : option result :=
  match r with
  | Eps => k i rest cs
  | Cls p =>
      match rest with
      | c :: t => if p c then k (S i) t cs else None
      | [] => None
      end
  | Bol => if (i =? 0)%nat then k i rest cs else None
  | Eol => match rest with [] => k i rest cs | _ :: _ => None end
  | Cat a b => m a i rest cs (fun i' rest' cs' => m b i' rest' cs' k)
  | Alt a b =>
      match m a i rest cs k with
      | Some x => Some x
      | None => m b i rest cs k
      end
  | Grp n a =>
      m a i rest cs (fun i' rest' cs' => k i' rest' ((n, firstn (i' - i) rest) :: cs'))
  | Rep g lo p => if g then rep_greedy p lo i rest cs k else rep_lazy p lo i rest cs k
  | Opt p =>
      match rest with
      | c :: t =>
          if p c then
            match k (S i) t cs with
            | Some x => Some x
            | None => k i rest cs
            end
          else k i rest cs
      | [] => k i rest cs
      end
  end.

(** One match attempt at index [i]: the length of the match and its groups. *)
Definition exec (r : re) (i : nat) (rest : str) : option result :=
  m r i rest [] (fun i' _ cs => Some (i' - i, cs)).

(** [s.replace(/r/g, f)]: matches are looked for from left to right; after
    a match the search resumes at its end ([skip] counts the code units of
    the current match still to pass); after an empty match it resumes one
    unit further. *)
Fixpoint replace_from (r : re) (f : str -> caps -> str) (skip i : nat)
         (rest : str) {struct rest} : str :=
  match rest with
  | [] =>
      match skip with
      | O => match exec r i [] with Some (_, cs) => f [] cs | None => [] end
      | S _ => []
      end
  | c :: t =>
      match skip with
      | S n => replace_from r f n (S i) t
      | O =>
          match exec r i rest with
          | Some (len, cs) =>
              f (firstn len rest) cs ++
              match len with
              | O => c :: replace_from r f 0 (S i) t
              | S n => replace_from r f n (S i) t
              end
          | None => c :: replace_from r f 0 (S i) t
          end
      end
  end.

Definition replace_g (r : re) (f : str -> caps -> str) (s : str) : str :=
  replace_from r f 0 0 s.

(** [s.split(/r/)] for a pattern without capturing groups: [cur] is the
    piece being collected, most recent unit first. *)
Fixpoint split_from (r : re) (skip i : nat) (rest cur : str) {struct rest}
  : list str :=
  match rest with
  | [] => [rev cur]
  | c :: t =>
      match skip with
      | S n => split_from r n (S i) t cur
      | O =>
          match exec r i rest with
          | Some (S n, _) => rev cur :: split_from r n (S i) t []
          | Some (O, _) =>
              match cur with
              | [] => split_from r 0 (S i) t [c]
              | _ :: _ => rev cur :: split_from r 0 (S i) t [c]
              end
          | None => split_from r 0 (S i) t (c :: cur)
          end
      end
  end.

Definition split (r : re) (s : str) : list str :=
  match s with
  | [] => match exec r 0 [] with Some _ => [] | None => [[]] end
  | _ :: _ => split_from r 0 0 s []
  end.

(** [/r/.test(s)]: is there a match starting at some index? *)
Fixpoint test_from (r : re) (i : nat) (rest : str) : bool :=
  match exec r i rest with
  | Some _ => true
  | None => match rest with [] => false | _ :: t => test_from r (S i) t end
  end.

Definition test (r : re) (s : str) : bool := test_from r 0 s.

End Regex.

(* ===================================================================== *)
(** ** Provider responses and callbacks (shared by both Gemini modules) *)
(* ===================================================================== *)

Module Provider.
Import Js.

(** A JavaScript error value: [error.name] and [error.message]. *)
Record js_error := Err { err_name : str; err_message : str }.

(** [new Error(msg)] *)
Definition Error (msg : str) : js_error := Err (lit "Error") msg.

(** The outcome of [response.json()]: the promise rejects (body is not
    JSON), or it gives [null], or it gives a value of which the code reads
    [error?.message] and [candidates?.[0]?.content?.parts?.[0]?.text]
    ([None] stands for [undefined]). *)
Inductive body :=
| BadJson (e : js_error)
| JsonNull
| Json (error_message : option str) (text : option str).

(** The outcome of [await fetch(url, ...)]: the promise rejects (network
    failure, or [AbortError] after [stopGeneration]), or a response arrives. *)
Inductive fetch_result :=
| FetchRejected (e : js_error)
| Response (ok : bool) (status : N) (statusText : str) (b : body).

(** What the generation functions do to their caller: the callbacks they
    invoke, in order. *)
Inductive event :=
| OnChunk (chunk accumulated : str)
| OnComplete (text : str)
| OnError (e : js_error).

(** Template literal [${n}] for a non-negative integer. *)
Definition decimal (n : N) : str :=
  lit (DecimalString.NilZero.string_of_uint (N.to_uint n)).

(** [a || b] on strings that may be [undefined]. *)
Definition or_else (a : option str) (b : str) : str :=
  match a with
  | Some (c :: t) => c :: t
  | _ => b
  end.

Definition TypeError_null : js_error :=
  Err (lit "TypeError") (lit "Cannot read properties of null").

Definition EMPTY_RESPONSE : js_error :=
  Error (lit "EMPTY_RESPONSE: The AI returned an empty response").

Definition GENERATION_CANCELLED : js_error :=
  Error (lit "GENERATION_CANCELLED: Generation was stopped by user").

Definition str_eqb (a b : str) : bool := bool_decide (a = b).

(** The [catch] block both modules share. *)
Definition on_catch (error : js_error) : list event :=
  if str_eqb (err_name error) (lit "AbortError")
  then [OnError GENERATION_CANCELLED]
  else [OnError error].

End Provider.

(* ===================================================================== *)
(** ** Gemini module with prefill (src/unnamed/part_000) *)
(* ===================================================================== *)

Module Gemini.
Import Js Regex Provider.

(** The [for (let i = Math.min(trimmedPrefill.length, 50); i > 0; i--)]
    loop of [stripPrefill], entered with [i]. *)
Fixpoint overlap_loop (generated trimmedGenerated trimmedPrefill : str) (i : nat) : str :=
  match i with
  | O => generated
  | S j =>
      let prefillSuffix := substring1 trimmedPrefill (length trimmedPrefill - i) in
      if startsWith trimmedGenerated prefillSuffix
      then trimStart (substring1 trimmedGenerated i)
      else overlap_loop generated trimmedGenerated trimmedPrefill j
  end.

Definition stripPrefill (generated prefill : str) : str :=
  if falsy prefill || falsy generated then generated else
  let trimmedGenerated := trimStart generated in
  let trimmedPrefill := trim prefill in
  if startsWith trimmedGenerated trimmedPrefill
  then trimStart (substring1 trimmedGenerated (length trimmedPrefill))
  else overlap_loop generated trimmedGenerated trimmedPrefill
         (Nat.min (length trimmedPrefill) 50).

(** The test of the loop for the overlap length [j]. *)
Definition overlap (tp tg : str) (j : nat) : Prop :=
  startsWith tg (substring1 tp (length tp - j)) = true.

(** The pattern [/[.!?][dq sq]?$/], where the class [dq sq] holds the
    double and the single quote. *)
Definition properEndings : re :=
  Cat (Cls (one_of (lit ".!?"))) (Cat (Opt (one_of [dq; sq])) Eol).

(** [/[,;:\-—]$/] *)
Definition incompleteEndings : re :=
  Cat (Cls (one_of (lit ",;:-" ++ [emdash]))) Eol.

Definition ensureProperEnding (text : str) : str :=
  if falsy text || falsy (trim text) then text else
  let trimmed := trim text in
  if test properEndings trimmed then trimmed else
  if endsWith trimmed (lit "...") then trimmed else
  let backtracked :=
    if test incompleteEndings trimmed then
      let lastPeriod := lastIndexOf trimmed period in
      let lastQuestion := lastIndexOf trimmed question in
      let lastExclamation := lastIndexOf trimmed exclamation in
      let lastComplete := Z.max (Z.max lastPeriod lastQuestion) lastExclamation in
      (* lastComplete > trimmed.length * 0.5 *)
      if (Z.of_nat (length trimmed) <? 2 * lastComplete)%Z then
        let endIndex := Z.to_nat (lastComplete + 1) in
        let endIndex' :=
          match nth_error trimmed endIndex with
          | Some c => if (c =? dq)%N || (c =? sq)%N then S endIndex else endIndex
          | None => endIndex
          end in
        Some (substring trimmed 0 endIndex')
      else None
    else None in
  match backtracked with
  | Some r => r
  | None =>
      let lastQuote := lastIndexOf trimmed dq in
      let secondLastQuote := lastIndexOf_at trimmed dq (lastQuote - 1) in
      if (secondLastQuote <? lastQuote)%Z
         && negb (lastQuote =? Z.of_nat (length trimmed) - 1)%Z
      then trimmed ++ [period; dq]
      else trimmed ++ [period]
  end.

(** The body of the [try] block of [generateWithoutStreaming]: the error
    thrown, or the text passed to [onComplete]. *)
Definition try_block (fr : fetch_result) (prefill : str) : js_error + str :=
  match fr with
  | FetchRejected e => inl e
  | Response false status statusText b =>
      match b with
      | JsonNull => inl TypeError_null
      | BadJson _ =>
          (* .catch(() => ({})) *)
          inl (Error (lit "API_ERROR_" ++ decimal status ++ lit ": "
                      ++ or_else None (or_else (Some statusText) (lit "Unknown error"))))
      | Json em _ =>
          inl (Error (lit "API_ERROR_" ++ decimal status ++ lit ": "
                      ++ or_else em (or_else (Some statusText) (lit "Unknown error"))))
      end
  | Response true _ _ b =>
      match b with
      | BadJson e => inl e
      | JsonNull => inl TypeError_null
      | Json _ t =>
          let text := or_else t [] in
          if falsy text then inl EMPTY_RESPONSE else
          let text := stripPrefill text prefill in
          if falsy text || (length (trim text) =? 0)%nat then inl EMPTY_RESPONSE else
          inr text
      end
  end.

(** [generateWithoutStreaming(model, requestBody, prefill, onComplete, onError)]:
    the callbacks invoked, and the error the returned promise rejects with,
    if any. *)
Definition generateWithoutStreaming (fr : fetch_result) (prefill : str)
  : list event * option js_error :=
  match try_block fr prefill with
  | inr text => ([OnComplete text], None)
  | inl error => (on_catch error, None)
  end.

End Gemini.

(* ===================================================================== *)
(** ** Gemini module without prefill (src/js/gemini.js) *)
(* ===================================================================== *)

Module GeminiJs.
Import Js Provider.

Definition try_block (fr : fetch_result) : js_error + str :=
  match fr with
  | FetchRejected e => inl e
  | Response false status statusText b =>
      match b with
      | JsonNull => inl TypeError_null
      | BadJson _ =>
          inl (Error (lit "API_ERROR_" ++ decimal status ++ lit ": "
                      ++ or_else None statusText))
      | Json em _ =>
          inl (Error (lit "API_ERROR_" ++ decimal status ++ lit ": "
                      ++ or_else em statusText))
      end
  | Response true _ _ b =>
      match b with
      | BadJson e => inl e
      | JsonNull => inl TypeError_null
      | Json _ t =>
          let text := or_else t [] in
          if falsy text then inl EMPTY_RESPONSE else inr text
      end
  end.

Definition generateWithoutStreaming (fr : fetch_result)
  : list event * option js_error :=
  match try_block fr with
  | inr text => ([OnComplete text], None)
  | inl error => (on_catch error, None)
  end.

End GeminiJs.

(* ===================================================================== *)
(** ** The DOM the formatter works on *)
(* ===================================================================== *)

Module Dom.
Import Js.

(** A node is a text node or an element with its attributes and children. *)
Inductive node :=
| Text (data : str)
| Element (tag : str) (attrs : list (str * str)) (children : list node).

(** [node.textContent] of one node, and of the children of an element. *)
Fixpoint textContent_node (n : node) : str :=
  match n with
  | Text d => d
  | Element _ _ cs => flat_map textContent_node cs
  end.

Definition textContent (cs : list node) : str := flat_map textContent_node cs.

(** Number of nodes of a subtree. *)
Fixpoint size_node (n : node) : nat :=
  match n with
  | Text _ => 1
  | Element _ _ cs => S (list_sum (map size_node cs))
  end.

(** *** Boundary points, ranges and the selection *)

(** A boundary point is the position [(document, 0)], which precedes the
    whole page and is where [document.createRange()] starts, or a position
    inside the editable element: the node reached from the editable element
    by the child indices [path], and an offset in it (code units in a text
    node, children in an element). *)
Inductive boundary :=
| DocStart
| At (path : list nat) (offset : nat).

Record range := Range { r_start : boundary; r_end : boundary }.

(** Document order on tree positions: lexicographic on child indices, a
    position before its descendants. *)
Fixpoint lex_ltb (a b : list nat) : bool :=
  match a, b with
  | [], [] => false
  | [], _ :: _ => true
  | _ :: _, [] => false
  | x :: a', y :: b' => (x <? y)%nat || ((x =? y)%nat && lex_ltb a' b')
  end.

Definition bp_ltb (a b : boundary) : bool :=
  match a, b with
  | DocStart, DocStart => false
  | DocStart, At _ _ => true
  | At _ _, DocStart => false
  | At p k, At q l => lex_ltb (p ++ [k]) (q ++ [l])
  end.

(** [range.setStart(node, offset)] and [range.setEnd(node, offset)]. *)
Definition setStart (r : range) (b : boundary) : range :=
  if bp_ltb (r_end r) b then Range b b else Range b (r_end r).

Definition setEnd (r : range) (b : boundary) : range :=
  if bp_ltb b (r_start r) then Range b b else Range (r_start r) b.

(** [document.createRange()] *)
Definition createRange : range := Range DocStart DocStart.

(** The editable element: its children and the page's selection
    ([None] when [selection.rangeCount] is 0).  Selections in other parts
    of the page are not modelled. *)
Record editor := Editor { childNodes : list node; selection : option range }.

(** Code units of text that precede the boundary [(path, k)] inside the
    children [cs] of the node the path starts from. *)
Fixpoint chars_before (cs : list node) (path : list nat) (k : nat) : nat :=
  match path with
  | [] => length (textContent (firstn k cs))
  | j :: path' =>
      length (textContent (firstn j cs)) +
      match nth_error cs j with
      | Some (Text d) => Nat.min k (length d)
      | Some (Element _ _ cs') => chars_before cs' path' k
      | None => 0
      end
  end.

(** Length of [toString()] of the range from the start of the editable
    element to the boundary. *)
Definition offset_of (cs : list node) (b : boundary) : nat :=
  match b with
  | DocStart => 0
  | At path k => chars_before cs path k
  end.

(** The selection after the children of the editable element have been
    replaced: a boundary inside it falls back to its start. *)
Definition collapse_boundary (b : boundary) : boundary :=
  match b with
  | DocStart => DocStart
  | At _ _ => At [] 0
  end.

Definition collapse_selection (s : option range) : option range :=
  match s with
  | None => None
  | Some r => Some (Range (collapse_boundary (r_start r)) (collapse_boundary (r_end r)))
  end.

(** [element.textContent = text] *)
Definition set_textContent (e : editor) (text : str) : editor :=
  Editor (match text with [] => [] | _ :: _ => [Text text] end)
         (collapse_selection (selection e)).

(** *** Serialisation: the [innerHTML] getter *)

Definition escape_text_char (c : N) : str :=
  if (c =? amp)%N then lit "&amp;"
  else if (c =? nbsp)%N then lit "&nbsp;"
  else if (c =? lt)%N then lit "&lt;"
  else if (c =? gt)%N then lit "&gt;"
  else [c].

Definition escape_text (s : str) : str := flat_map escape_text_char s.

Definition escape_attr_char (c : N) : str :=
  if (c =? amp)%N then lit "&amp;"
  else if (c =? nbsp)%N then lit "&nbsp;"
  else if (c =? dq)%N then lit "&quot;"
  else if (c =? lt)%N then lit "&lt;"
  else if (c =? gt)%N then lit "&gt;"
  else [c].

Definition serialize_attr (a : str * str) : str :=
  lit " " ++ fst a ++ lit "=" ++ [dq] ++ flat_map escape_attr_char (snd a) ++ [dq].

Definition void_elements : list str :=
  map lit ["area"; "base"; "br"; "col"; "embed"; "hr"; "img"; "input";
           "link"; "meta"; "source"; "track"; "wbr"]%string.

Definition is_void (tag : str) : bool := bool_decide (tag ∈ void_elements).

Fixpoint serialize_node (n : node) : str :=
  match n with
  | Text d => escape_text d
  | Element tag attrs cs =>
      lit "<" ++ tag ++ flat_map serialize_attr attrs ++ lit ">" ++
      (if is_void tag then []
       else flat_map serialize_node cs ++ lit "</" ++ tag ++ lit ">")
  end.

(** [element.innerHTML] *)
Definition innerHTML (cs : list node) : str := flat_map serialize_node cs.

(** *** Parsing: the [innerHTML] setter

    The parser covers the markup the formatters can emit: text, the
    character references of the serialiser, [<span class=...>] start tags
    and [</span>] end tags.  Any other use of [<] or [&] is outside the
    model ([None]). *)

Inductive token :=
| TChar (c : N)
| TOpen (cls : str)
| TClose.

(** Input stream preprocessing: CR LF and a lone CR become LF. *)
Fixpoint normalize_newlines (s : str) : str :=
  match s with
  | [] => []
  | c :: t =>
      if (c =? cr)%N then
        match t with
        | d :: t' => if (d =? nl)%N then nl :: normalize_newlines t'
                     else nl :: normalize_newlines t
        | [] => [nl]
        end
      else c :: normalize_newlines t
  end.

Definition decode_reference (name : str) : option N :=
  if bool_decide (name = lit "amp") then Some amp
  else if bool_decide (name = lit "lt") then Some lt
  else if bool_decide (name = lit "gt") then Some gt
  else if bool_decide (name = lit "nbsp") then Some nbsp
  else None.

(** The text between [<] and [>] of a tag. *)
Definition classify_tag (t : str) : option token :=
  if bool_decide (t = lit "/span") then Some TClose
  else if startsWith t (lit "span class=" ++ [dq]) then
    let v := skipn 12 t in
    match rev v with
    | q :: rcls =>
        if (q =? dq)%N && forallb (fun c => negb ((c =? dq)%N || (c =? amp)%N)) rcls
        then Some (TOpen (rev rcls)) else None
    | [] => None
    end
  else None.

Inductive tstate :=
| SData
| SRef (acc : str)
| STag (acc : str).

(** The tokenizer, one code unit at a time; [acc] collects the name of a
    character reference or the text of a tag, most recent unit first.
    U+0000 in text is dropped, as the tree builder does in a body. *)
Fixpoint tokenize (st : tstate) (s : str) : option (list token) :=
  match s with
  | [] => match st with SData => Some [] | _ => None end
  | c :: t =>
      match st with
      | SData =>
          if (c =? amp)%N then tokenize (SRef []) t
          else if (c =? lt)%N then tokenize (STag []) t
          else if (c =? nul)%N then tokenize SData t
          else option_map (cons (TChar c)) (tokenize SData t)
      | SRef acc =>
          if (c =? semi)%N then
            match decode_reference (rev acc) with
            | Some x => option_map (cons (TChar x)) (tokenize SData t)
            | None => None
            end
          else tokenize (SRef (c :: acc)) t
      | STag acc =>
          if (c =? gt)%N then
            match classify_tag (rev acc) with
            | Some tok => option_map (cons tok) (tokenize SData t)
            | None => None
            end
          else tokenize (STag (c :: acc)) t
      end
  end.

Definition span (cls : str) (cs : list node) : node :=
  Element (lit "span") [(lit "class", cls)] cs.

(** Append a character to the children collected so far (most recent
    first): it extends a text node that ends the list. *)
Definition add_char (c : N) (cur : list node) : list node :=
  match cur with
  | Text d :: rest => Text (d ++ [c]) :: rest
  | _ => Text [c] :: cur
  end.

(** Close the open elements at the end of the input. *)
Fixpoint close_all (cur : list node) (stack : list (str * list node)) : list node :=
  match stack with
  | [] => rev cur
  | (cls, parent) :: st => close_all (span cls (rev cur) :: parent) st
  end.

(** Tree construction: [cur] holds the children of the current node, most
    recent first; [stack] the open [span] elements with the children their
    parents had when they were opened.  An end tag without an open [span]
    is ignored. *)
Fixpoint build (toks : list token) (cur : list node)
         (stack : list (str * list node)) : list node :=
  match toks with
  | [] => close_all cur stack
  | TChar c :: r => build r (add_char c cur) stack
  | TOpen cls :: r => build r [] ((cls, cur) :: stack)
  | TClose :: r =>
      match stack with
      | (cls, parent) :: st => build r (span cls (rev cur) :: parent) st
      | [] => build r cur []
      end
  end.

Definition parse_fragment (html : str) : option (list node) :=
  option_map (fun toks => build toks [] []) (tokenize SData (normalize_newlines html)).

(** [element.innerHTML = html] *)
Definition set_innerHTML (e : editor) (html : str) : option editor :=
  option_map (fun cs => Editor cs (collapse_selection (selection e)))
             (parse_fragment html).

End Dom.

(* ===================================================================== *)
(** ** Cursor bookkeeping shared by the two realtime formatters *)
(* ===================================================================== *)

Module Cursor.
Import Js Dom.

(** A saved caret position [{start, end}]. *)
Record position := Position { pos_start : nat; pos_end : nat }.

(** [saveCursorPosition(element)], the same in both realtime formatters. *)
Definition saveCursorPosition (e : editor) : option position :=
  match selection e with
  | None => None
  | Some r =>
      let start := offset_of (childNodes e) (r_start r) in
      let len := offset_of (childNodes e) (r_end r) - offset_of (childNodes e) (r_start r) in
      Some (Position start (start + len))
  end.

(** The variables of the [while] loop of [restoreCursorPosition]; a node on
    the stack comes with its path from the editable element. *)
Record walk_state := Walk {
  charIndex : nat;
  nodeStack : list (list nat * node);
  foundStart : bool;
  stop : bool;
  rng : range
}.

(** [let i = node.childNodes.length; while (i--) nodeStack.push(node.childNodes[i])]:
    the head of the list is the top of the stack. *)
Fixpoint push_children (path : list nat) (i : nat) (cs : list node)
         (stack : list (list nat * node)) : list (list nat * node) :=
  match cs with
  | [] => stack
  | c :: cs' => (path ++ [i], c) :: push_children path (S i) cs' stack
  end.

(** One pass through the loop body for the popped [node]; [off d len] is
    the offset handed to [setStart]/[setEnd] for a target [d] units into a
    text node of length [len]. *)
Definition walk_step (off : nat -> nat -> nat) (s e : nat)
           (path : list nat) (n : node) (stack' : list (list nat * node))
           (st : walk_state) : walk_state :=
  match n with
  | Text d =>
      let nextCharIndex := charIndex st + length d in
      let hitStart := negb (foundStart st) && (charIndex st <=? s)%nat && (s <=? nextCharIndex)%nat in
      let r1 := if hitStart then setStart (rng st) (At path (off (s - charIndex st) (length d)))
                else rng st in
      let found1 := hitStart || foundStart st in
      let hitEnd := found1 && (charIndex st <=? e)%nat && (e <=? nextCharIndex)%nat in
      let r2 := if hitEnd then setEnd r1 (At path (off (e - charIndex st) (length d))) else r1 in
      Walk nextCharIndex stack' found1 hitEnd r2
  | Element _ _ cs =>
      Walk (charIndex st) (push_children path 0 cs stack') (foundStart st) (stop st) (rng st)
  end.

(** [while (!stop && (node = nodeStack.pop())) { ... }] *)
Fixpoint walk (fuel : nat) (off : nat -> nat -> nat) (s e : nat)
         (st : walk_state) : option walk_state :=
  if stop st then Some st else
  match nodeStack st with
  | [] => Some st
  | (path, n) :: stack' =>
      match fuel with
      | O => None
      | S fuel' => walk fuel' off s e (walk_step off s e path n stack' st)
      end
  end.

(** The editable element itself, the first node on the stack. *)
Definition root (e : editor) : node := Element (lit "div") [] (childNodes e).

Definition walk_init (e : editor) : walk_state :=
  Walk 0 [([], root e)] false false createRange.

(** The loop, then [selection.removeAllRanges(); selection.addRange(range)]. *)
Definition place (off : nat -> nat -> nat) (s t : nat) (e : editor) : option editor :=
  match walk (size_node (root e)) off s t (walk_init e) with
  | Some st => Some (Editor (childNodes e) (Some (rng st)))
  | None => None
  end.

(** *** The text nodes of a subtree in document order

    Used to state what the loop of [restoreCursorPosition] computes. *)

Fixpoint texts_list (f : list nat -> node -> list (list nat * str))
         (path : list nat) (i : nat) (cs : list node) : list (list nat * str) :=
  match cs with
  | [] => []
  | c :: cs' => f (path ++ [i]) c ++ texts_list f path (S i) cs'
  end.

(** The text nodes below the node at [path], each with its own path. *)
Fixpoint texts_node (path : list nat) (n : node) : list (list nat * str) :=
  match n with
  | Text d => [(path, d)]
  | Element _ _ cs => texts_list texts_node path 0 cs
  end.

Definition texts_stack (stack : list (list nat * node)) : list (list nat * str) :=
  flat_map (fun pn => texts_node (fst pn) (snd pn)) stack.

Definition stack_size (stack : list (list nat * node)) : nat :=
  list_sum (map (fun pn => size_node (snd pn)) stack).

(** Total length of a list of text nodes. *)
Definition total (ts : list (list nat * str)) : nat :=
  list_sum (map (fun pd => length (snd pd)) ts).

(** The loop on the text nodes alone: element nodes only unfold into their
    children. *)
Fixpoint scan (off : nat -> nat -> nat) (s e : nat) (ts : list (list nat * str))
         (c : nat) (found : bool) (r : range) : range :=
  match ts with
  | [] => r
  | (p, d) :: ts' =>
      let st' := walk_step off s e p (Text d) [] (Walk c [] found false r) in
      if stop st' then rng st'
      else scan off s e ts' (charIndex st') (foundStart st') (rng st')
  end.

(** Two tree positions that part at some child index, the first going to
    the smaller index. *)
Definition diverge (p q : list nat) : Prop :=
  exists r x y t t', p = r ++ x :: t /\ q = r ++ y :: t' /\ x < y.

Definition in_order (a b : list nat * str) : Prop := diverge (fst a) (fst b).

(** What [chars_before] gives for a boundary in a text node: the text of
    the text nodes before it, and the offset. *)
Definition located (n : node) (pre : list nat) : Prop :=
  forall l1 p d l2,
    texts_node pre n = l1 ++ (p, d) :: l2 ->
    exists rel, p = pre ++ rel /\
      match n with
      | Text d0 => rel = [] /\ l1 = [] /\ d = d0
      | Element _ _ cs =>
          forall o, chars_before cs rel o = total l1 + Nat.min o (length d)
      end.

End Cursor.

(* ===================================================================== *)
(** ** Realtime formatter, current variant (src/unnamed/part_005) *)
(* ===================================================================== *)

Module Formatter.
Import Js Regex Dom Cursor.

(** [restoreCursorPosition(element, savedPosition)] with bounds checking. *)
Definition restoreCursorPosition (e : editor) (savedPosition : option position)
  : option editor :=
  match savedPosition with
  | None => Some e
  | Some p =>
      let totalLength := length (textContent (childNodes e)) in
      let safeStart := Nat.min (pos_start p) totalLength in
      let safeEnd := Nat.min (pos_end p) totalLength in
      place Nat.min safeStart safeEnd e
  end.

(** The group [n] inside a template literal. *)
Definition grp (n : nat) (cs : caps) : str :=
  match group n cs with
  | Some s => s
  | None => lit "undefined"
  end.

Definition span_open (cls : string) : str :=
  lit "<span class=" ++ [dq] ++ lit cls ++ [dq] ++ lit ">".

Definition span_close : str := lit "</span>".

(** The pattern: dq, group 1 = one or more units other than dq, dq. *)
Definition re_dialogue : re :=
  Cat (Cls (chr dq)) (Cat (Grp 1 (Rep true 1 (isnt dq))) (Cls (chr dq))).

(** The pattern [/(^|[\s])'([^']+)'/g]. *)
Definition re_thoughts : re :=
  Cat (Grp 1 (Alt Bol (Cls is_ws)))
      (Cat (Cls (chr sq)) (Cat (Grp 2 (Rep true 1 (isnt sq))) (Cls (chr sq)))).

(** The pattern [/\*([^*]+)\*/g]. *)
Definition re_emphasis : re :=
  Cat (Cls (chr star)) (Cat (Grp 1 (Rep true 1 (isnt star))) (Cls (chr star))).

(** [escapeHtml(text)]: the text is put in a fresh [div] and its
    [innerHTML] is read back. *)
Definition escapeHtml (text : str) : str :=
  innerHTML (childNodes (set_textContent (Editor [] None) text)).

Definition format_dialogue (h : str) : str :=
  replace_g re_dialogue
    (fun _ cs => span_open "dialogue" ++ [dq] ++ grp 1 cs ++ [dq] ++ span_close) h.

Definition format_thoughts (h : str) : str :=
  replace_g re_thoughts
    (fun _ cs => grp 1 cs ++ span_open "thoughts" ++ [sq] ++ grp 2 cs ++ [sq] ++ span_close) h.

Definition format_emphasis (h : str) : str :=
  replace_g re_emphasis
    (fun _ cs => span_open "emphasis" ++ grp 1 cs ++ span_close) h.

(** The markup [applyRealtimeFormatting] builds from the plain text. *)
Definition formatted (text : str) : str :=
  format_emphasis (format_thoughts (format_dialogue (escapeHtml text))).

Definition applyRealtimeFormatting (e : editor) : option editor :=
  let cursorPos := saveCursorPosition e in
  let text := textContent (childNodes e) in
  let formattedHtml := formatted text in
  if bool_decide (innerHTML (childNodes e) = formattedHtml) then Some e
  else
    match set_innerHTML e formattedHtml with
    | Some e' => restoreCursorPosition e' cursorPos
    | None => None
    end.

Definition getPlainText (e : editor) : str := textContent (childNodes e).

Definition setPlainText (e : editor) (text : str) : option editor :=
  let cursorPos := saveCursorPosition e in
  match applyRealtimeFormatting (set_textContent e text) with
  | Some e' =>
      match cursorPos with
      | Some _ => restoreCursorPosition e' cursorPos
      | None => Some e'
      end
  | None => None
  end.

Definition getCursorOffset (e : editor) : nat :=
  match saveCursorPosition e with
  | Some pos => pos_start pos
  | None => 0
  end.

Definition setCursorOffset (e : editor) (offset : nat) : option editor :=
  restoreCursorPosition e (Some (Position offset offset)).

End Formatter.

(* ===================================================================== *)
(** ** Realtime formatter, earlier variant (src/unnamed/part_004, first module) *)
(* ===================================================================== *)

Module FormatterOld.
Import Js Regex Dom Cursor.

(** [restoreCursorPosition(element, savedPosition)] without bounds checking. *)
Definition restoreCursorPosition (e : editor) (savedPosition : option position)
  : option editor :=
  match savedPosition with
  | None => Some e
  | Some p => place (fun d _ => d) (pos_start p) (pos_end p) e
  end.

(** The pattern [/&quot;([^&quot;]+)&quot;/g]: the class excludes the six
    units of the entity text. *)
Definition re_dialogue : re :=
  Cat (Lit (lit "&quot;"))
      (Cat (Grp 1 (Rep true 1 (none_of (lit "&quot;")))) (Lit (lit "&quot;"))).

(** The pattern [/&#39;([^&#39;]+)&#39;/g]. *)
Definition re_thoughts : re :=
  Cat (Lit (lit "&#39;"))
      (Cat (Grp 1 (Rep true 1 (none_of (lit "&#39;")))) (Lit (lit "&#39;"))).

Definition re_emphasis : re := Formatter.re_emphasis.

Definition escapeHtml (text : str) : str :=
  innerHTML (childNodes (set_textContent (Editor [] None) text)).

Definition formatted (text : str) : str :=
  let formattedHtml := escapeHtml text in
  let formattedHtml :=
    replace_g re_dialogue
      (fun _ cs => Formatter.span_open "dialogue" ++ [dq] ++ Formatter.grp 1 cs ++ [dq]
                   ++ Formatter.span_close) formattedHtml in
  let formattedHtml :=
    replace_g re_thoughts
      (fun _ cs => Formatter.span_open "thoughts" ++ [sq] ++ Formatter.grp 1 cs ++ [sq]
                   ++ Formatter.span_close) formattedHtml in
  replace_g re_emphasis
    (fun _ cs => Formatter.span_open "emphasis" ++ Formatter.grp 1 cs
                 ++ Formatter.span_close) formattedHtml.

Definition applyRealtimeFormatting (e : editor) : option editor :=
  let cursorPos := saveCursorPosition e in
  let text := textContent (childNodes e) in
  let formattedHtml := formatted text in
  if bool_decide (innerHTML (childNodes e) = formattedHtml) then Some e
  else
    match set_innerHTML e formattedHtml with
    | Some e' => restoreCursorPosition e' cursorPos
    | None => None
    end.

Definition getPlainText (e : editor) : str := textContent (childNodes e).

Definition setPlainText (e : editor) (text : str) : option editor :=
  let cursorPos := saveCursorPosition e in
  match applyRealtimeFormatting (set_textContent e text) with
  | Some e' =>
      match cursorPos with
      | Some _ => restoreCursorPosition e' cursorPos
      | None => Some e'
      end
  | None => None
  end.

Definition getCursorOffset (e : editor) : nat :=
  match saveCursorPosition e with
  | Some pos => pos_start pos
  | None => 0
  end.

Definition setCursorOffset (e : editor) (offset : nat) : option editor :=
  restoreCursorPosition e (Some (Position offset offset)).

End FormatterOld.

(* ===================================================================== *)
(** ** Preview formatter (src/js/formatter.js) *)
(* ===================================================================== *)

Module Preview.
Import Js Regex.

Record colors := Colors {
  dialogueColor : str;
  thoughtsColor : str;
  emphasisColor : str
}.

(** [text.replace(/[&<>]/g, char => escapeMap[char])] *)
Definition escapeHtml (text : str) : str :=
  replace_g (Cls (one_of (lit "&<>")))
    (fun char _ =>
       if bool_decide (char = [amp]) then lit "&amp;"
       else if bool_decide (char = [lt]) then lit "&lt;"
       else if bool_decide (char = [gt]) then lit "&gt;"
       else lit "undefined")
    text.

Definition grp (n : nat) (cs : caps) : str :=
  match group n cs with
  | Some s => s
  | None => lit "undefined"
  end.

Definition span_open (cls : string) (color : str) : str :=
  lit "<span class=" ++ [dq] ++ lit cls ++ [dq] ++ lit " style=" ++ [dq]
  ++ lit "color: " ++ color ++ [dq] ++ lit ">".

Definition span_close : str := lit "</span>".

(** The pattern [/\n\n+/]. *)
Definition re_paragraph : re :=
  Cat (Cls (chr nl)) (Rep true 1 (chr nl)).

Definition re_dialogue : re :=
  Cat (Cls (chr dq)) (Cat (Grp 1 (Rep true 1 (isnt dq))) (Cls (chr dq))).

(** The pattern [/'([^']+)'/g]. *)
Definition re_thoughts : re :=
  Cat (Cls (chr sq)) (Cat (Grp 1 (Rep true 1 (isnt sq))) (Cls (chr sq))).

Definition re_emphasis : re :=
  Cat (Cls (chr star)) (Cat (Grp 1 (Rep true 1 (isnt star))) (Cls (chr star))).

(** The last pattern of [formatText]: group 1 is a whole span written by
    the earlier steps ([<span class=], one of the three class names in
    double quotes, [[^>]*>], a lazy [.*?] and [</span>]); group 2 is a run
    [[^<]+]. *)
Definition re_remaining : re :=
  Alt
    (Grp 1
       (Cat (Lit (lit "<span class=" ++ [dq]))
       (Cat (Alt (Lit (lit "dialogue")) (Alt (Lit (lit "thoughts")) (Lit (lit "emphasis"))))
       (Cat (Cls (chr dq))
       (Cat (Rep true 0 (isnt gt))
       (Cat (Cls (chr gt))
       (Cat (Rep false 0 (fun c => negb (is_line_terminator c)))
            (Lit (lit "</span>")))))))))
    (Grp 2 (Rep true 1 (isnt lt))).

(** The callback of [paragraphs.map]. *)
Definition format_paragraph (c : colors) (paragraph : str) : str :=
  if falsy (trim paragraph) then [] else
  let formatted := paragraph in
  let formatted :=
    replace_g re_dialogue
      (fun _ cs => span_open "dialogue" (dialogueColor c) ++ [dq]
                   ++ escapeHtml (grp 1 cs) ++ [dq] ++ span_close) formatted in
  let formatted :=
    replace_g re_thoughts
      (fun _ cs => span_open "thoughts" (thoughtsColor c) ++ [sq]
                   ++ escapeHtml (grp 1 cs) ++ [sq] ++ span_close) formatted in
  let formatted :=
    replace_g re_emphasis
      (fun _ cs => span_open "emphasis" (emphasisColor c)
                   ++ escapeHtml (grp 1 cs) ++ span_close) formatted in
  let formatted :=
    replace_g re_remaining
      (fun _ cs =>
         match group 1 cs with
         | Some (x :: span) => x :: span
         | _ => escapeHtml (grp 2 cs)
         end) formatted in
  lit "<p>" ++ formatted ++ lit "</p>".

Definition formatText (text : str) (c : colors) : str :=
  if falsy text then [] else
  let paragraphs := split re_paragraph text in
  let formattedParagraphs := map (format_paragraph c) paragraphs in
  concat formattedParagraphs.

End Preview.

(* ===================================================================== *)
(** ** Markup as items

    The markup the realtime formatters produce is a sequence of items: the
    code units of the text, each written as the serialiser escapes it, and
    the tags put around them.  The statements about the formatters are made
    on this reading of their output. *)
(* ===================================================================== *)

Module Markup.
Import Js Regex Dom.

Inductive item :=
| Ch (c : N)
| Tag (t : str).

Definition render_item (x : item) : str :=
  match x with
  | Ch c => escape_text_char c
  | Tag t => t
  end.

Definition render (xs : list item) : str := flat_map render_item xs.

(** The text the items carry. *)
Definition chars (xs : list item) : str :=
  flat_map (fun x => match x with Ch c => [c] | Tag _ => [] end) xs.

Definition T_dialogue : str := Formatter.span_open "dialogue".
Definition T_thoughts : str := Formatter.span_open "thoughts".
Definition T_emphasis : str := Formatter.span_open "emphasis".
Definition T_close : str := Formatter.span_close.

Definition known_tags : list str := [T_dialogue; T_thoughts; T_emphasis; T_close].

Definition tag_ok (x : item) : Prop :=
  match x with
  | Ch _ => True
  | Tag t => In t known_tags
  end.

(** No tag contains the unit [d]. *)
Definition tag_free (d : N) (x : item) : Prop :=
  match x with
  | Ch _ => True
  | Tag t => Forall (fun c => c <> d) t
  end.

(** A unit the serialiser writes as itself and that no character
    reference contains. *)
Definition plain (d : N) : Prop :=
  escape_text_char d = [d] /\ forall c, In d (escape_text_char c) -> c = d.

(** The pattern of a run between two units [d], with the run as group 1. *)
Definition delim (d : N) : re :=
  Cat (Cls (chr d)) (Cat (Grp 1 (Rep true 1 (isnt d))) (Cls (chr d))).

(** The replacement that puts such a run in a span, keeping the two
    delimiters or not. *)
Definition wrap (open : str) (keep : bool) (d : N) : str -> caps -> str :=
  fun _ cs =>
    open ++ (if keep then [d] else []) ++ Formatter.grp 1 cs
         ++ (if keep then [d] else []) ++ Formatter.span_close.

Definition keep_item (keep : bool) (d : N) : list item :=
  if keep then [Ch d] else [].

(** [wrapped d open keep xs ys]: [ys] is [xs] with some runs between two
    units [d] put in a span. *)
Inductive wrapped (d : N) (open : str) (keep : bool) : list item -> list item -> Prop :=
| wrapped_nil : wrapped d open keep [] []
| wrapped_keep x xs ys :
    wrapped d open keep xs ys -> wrapped d open keep (x :: xs) (x :: ys)
| wrapped_span cx xs ys :
    cx <> [] ->
    wrapped d open keep xs ys ->
    wrapped d open keep
      (Ch d :: cx ++ Ch d :: xs)
      (Tag open :: keep_item keep d ++ cx ++ keep_item keep d ++ Tag T_close :: ys).

(** [thought_wrapped b xs ys]: [ys] is [xs] with some runs between two
    single quotes put in a thoughts span, the opening quote being the first
    item of the whole text ([b] tells whether [xs] starts the text) or coming
    after a whitespace unit. *)
Inductive thought_wrapped : bool -> list item -> list item -> Prop :=
| thought_nil b : thought_wrapped b [] []
| thought_keep b x xs ys :
    thought_wrapped false xs ys -> thought_wrapped b (x :: xs) (x :: ys)
| thought_start cx xs ys :
    cx <> [] ->
    thought_wrapped false xs ys ->
    thought_wrapped true
      (Ch sq :: cx ++ Ch sq :: xs)
      (Tag T_thoughts :: Ch sq :: cx ++ Ch sq :: Tag T_close :: ys)
| thought_ws b w cx xs ys :
    is_ws w = true -> escape_text_char w = [w] ->
    cx <> [] ->
    thought_wrapped false xs ys ->
    thought_wrapped b
      (Ch w :: Ch sq :: cx ++ Ch sq :: xs)
      (Ch w :: Tag T_thoughts :: Ch sq :: cx ++ Ch sq :: Tag T_close :: ys).

(** What may come before a thoughts start tag. *)
Definition okprev (p : option item) : Prop :=
  p = None \/ exists w, p = Some (Ch w) /\ is_ws w = true /\ escape_text_char w = [w].

(** Every thoughts start tag comes first or after a whitespace unit, and
    before a single quote. *)
Fixpoint guarded (prev : option item) (xs : list item) : Prop :=
  match xs with
  | [] => True
  | x :: xs' =>
      (x = Tag T_thoughts -> okprev prev /\ exists xs'', xs' = Ch sq :: xs'')
      /\ guarded (Some x) xs'
  end.

(** The replacement of the thoughts pattern in the current formatter. *)
Definition thoughts_callback : str -> caps -> str :=
  fun _ cs => Formatter.grp 1 cs ++ Formatter.span_open "thoughts" ++ [sq]
              ++ Formatter.grp 2 cs ++ [sq] ++ Formatter.span_close.

(** A piece of markup inside which no thoughts match can start, whatever
    follows: no single quote, and no whitespace at its end. *)
Fixpoint safe (t : str) : bool :=
  match t with
  | [] => true
  | c :: t' =>
      negb (c =? sq)%N && match t' with [] => negb (is_ws c) | _ :: _ => safe t' end
  end.

(** The text without the unit [d]. *)
Definition drop_unit (d : N) (s : str) : str :=
  List.filter (fun c => negb (c =? d)%N) s.

Definition no_thoughts (xs : list item) : Prop :=
  Forall (fun x => x <> Tag T_thoughts) xs.

(** The item before the end of [l], or [p] when [l] is empty. *)
Definition last_item (p : option item) (l : list item) : option item :=
  fold_left (fun _ x => Some x) l p.

(** The token the parser reads for an item. *)
Definition token_of (x : item) : token :=
  match x with
  | Ch c => TChar c
  | Tag t =>
      if bool_decide (t = T_close) then TClose
      else if bool_decide (t = T_dialogue) then TOpen (lit "dialogue")
      else if bool_decide (t = T_thoughts) then TOpen (lit "thoughts")
      else TOpen (lit "emphasis")
  end.

(** Text that HTML parsing gives back as it is: no U+0000, no CR. *)
Definition preserved (s : str) : Prop :=
  Forall (fun c => c <> nul /\ c <> cr) s.

(** The text of the character tokens. *)
Definition token_text (toks : list token) : str :=
  flat_map (fun t => match t with TChar c => [c] | _ => [] end) toks.

(** The text in the open elements of the tree builder. *)
Fixpoint stack_text (stack : list (str * list node)) : str :=
  match stack with
  | [] => []
  | (_, parent) :: st => stack_text st ++ textContent (rev parent)
  end.

(** *** Emphasis runs

    An emphasis run is a match of the emphasis pattern in the plain text
    itself, the matches taken from left to right as [replace] does. *)

(** [text.replace(/\*([^*]+)\*/g, '$1')]: the text without the two
    asterisks of each of its emphasis runs. *)
Definition emphasis_dropped (text : str) : str :=
  replace_g Formatter.re_emphasis (fun _ cs => Formatter.grp 1 cs) text.

(** [/\*([^*]+)\*/.test(text)]: the text has an emphasis run. *)
Definition has_emphasis (text : str) : bool := test Formatter.re_emphasis text.

(** Number of occurrences of the unit [d]. *)
Definition occurrences (d : N) (s : str) : nat :=
  length (List.filter (fun c => (c =? d)%N) s).

(** Every start tag stands right before a unit of [Q] and every end tag
    right after one; [prev] is the item before [xs]. *)
Fixpoint anchored (Q : N -> Prop) (prev : option item) (xs : list item) : Prop :=
  match xs with
  | [] => True
  | x :: xs' =>
      match x with
      | Ch _ => True
      | Tag t =>
          if bool_decide (t = T_close)
          then exists q, prev = Some (Ch q) /\ Q q
          else exists q xs'', xs' = Ch q :: xs'' /\ Q q
      end /\ anchored Q (Some x) xs'
  end.

(** Between two units [d] there are never tags alone. *)
Definition no_gap (d : N) (xs : list item) : Prop :=
  forall l cx r, xs = l ++ Ch d :: cx ++ Ch d :: r -> cx <> [] -> chars cx <> [].

Definition is_char (x : item) : Prop :=
  match x with
  | Ch _ => True
  | Tag _ => False
  end.

(** Every [<] of the markup starts [<sp] or [</]. *)
Fixpoint tags_only_span (s : str) : Prop :=
  match s with
  | [] => True
  | c :: t =>
      (c = lt -> startsWith t (lit "sp") = true \/ startsWith t (lit "/") = true)
      /\ tags_only_span t
  end.

(** *** Paragraph breaks

    A paragraph break is two line feeds in a row. *)
Definition starts_nl (s : str) : bool :=
  match s with
  | [] => false
  | c :: _ => (c =? nl)%N
  end.

Fixpoint ends_nl (s : str) : bool :=
  match s with
  | [] => false
  | [c] => (c =? nl)%N
  | _ :: t => ends_nl t
  end.

Fixpoint has_break (s : str) : bool :=
  match s with
  | [] => false
  | a :: t => ((a =? nl)%N && starts_nl t) || has_break t
  end.

(** What a replacement [out] for the part [mt] of a text has to satisfy to
    bring no paragraph break into the text. *)
Definition break_safe (out mt : str) : Prop :=
  out <> [] /\ has_break out = false
  /\ (starts_nl out = true -> starts_nl mt = true)
  /\ (ends_nl out = true -> ends_nl mt = true).

(** [out] has no more paragraph breaks and line feeds at its ends than [s]. *)
Definition break_free_as (s out : str) : Prop :=
  has_break out = false
  /\ (starts_nl out = true -> starts_nl s = true)
  /\ (ends_nl out = true -> ends_nl s = true)
  /\ (s <> [] -> out <> []) /\ (s = [] -> out = []).

(** The patterns of the earlier formatter start with the text of an
    entity that escaping never produces. *)
Definition entity_pattern (r : Regex.re) : Prop :=
  r = FormatterOld.re_dialogue \/ r = FormatterOld.re_thoughts.

End Markup.

(* ===================================================================== *)
(** ** Storage module (src/js/storage.js) *)
(* ===================================================================== *)

Module Storage.
Import Js.

(** *** History *)

(** [array.pop()]: the last element and the array without it. *)
Fixpoint pop {A} (l : list A) : option (A * list A) :=
  match l with
  | [] => None
  | x :: t =>
      match pop t with
      | None => Some (x, [])
      | Some (y, t') => Some (y, x :: t')
      end
  end.

Definition MAX_HISTORY_SIZE : nat := 50.

(** The two module-level arrays; the end of a list is the top of the stack. *)
Record history := History { undoStack : list str; redoStack : list str }.

Definition pushHistory (content : str) (h : history) : history :=
  let same_as_last :=
    match pop (undoStack h) with
    | Some (top, _) => bool_decide (top = content)
    | None => false
    end in
  if same_as_last then h else
  let u := undoStack h ++ [content] in
  let u := if (MAX_HISTORY_SIZE <? length u)%nat then tl u else u in
  History u [].

(** [undo(currentContent)]: the returned value ([None] is [null]) and the
    stacks afterwards. *)
Definition undo (currentContent : str) (h : history) : option str * history :=
  match pop (undoStack h) with
  | None => (None, h)
  | Some (x, undo') => (Some x, History undo' (redoStack h ++ [currentContent]))
  end.

Definition redo (currentContent : str) (h : history) : option str * history :=
  match pop (redoStack h) with
  | None => (None, h)
  | Some (x, redo') => (Some x, History (undoStack h ++ [currentContent]) redo')
  end.

Definition clearHistory (h : history) : history := History [] [].

(** *** Settings and formatting preferences *)

(** JSON values; a number keeps its literal text. *)
Inductive json :=
| JNull
| JBool (b : bool)
| JNum (literal : str)
| JStr (s : str)
| JArr (items : list json)
| JObj (members : list (str * json)).

(** A JavaScript object as a finite map from property keys to values. *)
Abbreviation object := (gmap str json).

Fixpoint indexed {A} (i : nat) (l : list A) : list (str * A) :=
  match l with
  | [] => []
  | x :: t => (Provider.decimal (N.of_nat i), x) :: indexed (S i) t
  end.

(** The own enumerable properties of a value, in enumeration order: the
    members of an object (a repeated key appears again later), the indices
    of an array or of a string, nothing for the other primitives. *)
Definition own_properties (v : json) : list (str * json) :=
  match v with
  | JObj ms => ms
  | JArr items => indexed 0 items
  | JStr s => indexed 0 (map (fun c => JStr [c]) s)
  | JNull | JBool _ | JNum _ => []
  end.

(** [{ ...target, ...v }]: every own property of [v] is defined on the
    copy, a later one replacing an earlier one of the same key. *)
Definition spread (target : object) (v : json) : object :=
  fold_left (fun o kv => <[fst kv := snd kv]> o) (own_properties v) target.

(** The value the last property of key [k] in an enumeration carries. *)
Definition last_binding (k : str) (ps : list (str * json)) : option json :=
  fold_left (fun acc kv => if bool_decide (fst kv = k) then Some (snd kv) else acc) ps None.

Definition KEY_SETTINGS : str := lit "novelWriter_settings".
Definition KEY_FORMATTING : str := lit "novelWriter_formatting".

Definition DEFAULT_SETTINGS : json :=
  JObj [ (lit "model", JStr (lit "gemini-1.5-pro"));
         (lit "temperature", JNum (lit "0.8"));
         (lit "maxWords", JNum (lit "150"));
         (lit "paragraphLength", JStr (lit "medium"));
         (lit "language", JStr (lit "EN"));
         (lit "genre", JStr (lit "fantasy"));
         (lit "style", JStr (lit "descriptive"));
         (lit "tone", JStr (lit "neutral"));
         (lit "pov", JStr (lit "third-limited"));
         (lit "streaming", JBool true) ].

Definition DEFAULT_FORMATTING : json :=
  JObj [ (lit "fontFamily", JStr (lit "'Merriweather', serif"));
         (lit "fontSize", JNum (lit "18"));
         (lit "lineHeight", JNum (lit "1.8"));
         (lit "paragraphSpacing", JNum (lit "1.5"));
         (lit "dialogueColor", JStr (lit "#e67e22"));
         (lit "thoughtsColor", JStr (lit "#3498db"));
         (lit "emphasisColor", JStr (lit "#9b59b6"));
         (lit "textColor", JStr (lit "#2c3e50"));
         (lit "bgColor", JStr (lit "#fdf6e3")) ].

Section Load.
(** [JSON.parse]: the parsed value, or [None] when it throws. *)
Variable JSON_parse : str -> option json.

(** [localStorage]: [getItem] is the lookup, [null] for a missing key. *)
Variable localStorage : gmap str str.

(** The outcome of a function body: its value, or the exception that
    escapes it. *)
Definition safeJsonParse (data : option str) (defaultValue : json)
  : Provider.js_error + json :=
  match data with
  | None | Some [] => inr defaultValue
  | Some (c :: t) =>
      match JSON_parse (c :: t) with
      | Some v => inr v
      | None => (* catch: console.warn(...) *) inr defaultValue
      end
  end.

Definition load (key : str) (defaults : json) : Provider.js_error + object :=
  let data := localStorage !! key in
  match safeJsonParse data (JObj []) with
  | inr saved => inr (spread (spread ∅ defaults) saved)
  | inl e => inl e
  end.

Definition loadSettings : Provider.js_error + object :=
  load KEY_SETTINGS DEFAULT_SETTINGS.

Definition loadFormatting : Provider.js_error + object :=
  load KEY_FORMATTING DEFAULT_FORMATTING.
End Load.

End Storage.

(* ===================================================================== *)
(** ** Application module: generation (src/unnamed/part_001 and part_002) *)
(* ===================================================================== *)

(** The application reaches the formatter through the [FormatterModule]
    object; either realtime formatter provides it. *)
Class FormatterModule := {
  getCursorOffset : Dom.editor -> nat;
  getPlainText : Dom.editor -> Js.str;
  setPlainText : Dom.editor -> Js.str -> option Dom.editor;
  setCursorOffset : Dom.editor -> nat -> option Dom.editor
}.

#[export] Instance formatter_current : FormatterModule := {|
  getCursorOffset := Formatter.getCursorOffset;
  getPlainText := Formatter.getPlainText;
  setPlainText := Formatter.setPlainText;
  setCursorOffset := Formatter.setCursorOffset
|}.

Definition formatter_earlier : FormatterModule := {|
  getCursorOffset := FormatterOld.getCursorOffset;
  getPlainText := FormatterOld.getPlainText;
  setPlainText := FormatterOld.setPlainText;
  setCursorOffset := FormatterOld.setCursorOffset
|}.

Module App.
Import Js Dom Provider.

(** The part of [RateLimitModule] that [handleGenerate] consults. *)
Record rate_limit := RateLimit {
  canGenerate : bool;
  checkInputTokenLimit : str -> bool
}.

(** [state.isGenerating], the editable element, the history stacks and the
    number of generations counted so far. *)
Record app_state := AppState {
  isGenerating : bool;
  editorTextarea : editor;
  history : Storage.history;
  generationCount : nat
}.

(** The two constants the callbacks close over. *)
Record session := Session { textBefore : str; textAfter : str }.

Section WithFormatter.
Context {F : FormatterModule}.

Definition splice (ss : session) (generatedText : str) (st : app_state)
  : option editor :=
  let newText := textBefore ss ++ generatedText ++ textAfter ss in
  match setPlainText (editorTextarea st) newText with
  | Some e =>
      let newCursorPos := length (textBefore ss) + length generatedText in
      setCursorOffset e newCursorPos
  | None => None
  end.

(** The [onChunk] callback. *)
Definition onChunk (ss : session) (chunk generatedText : str) (st : app_state)
  : option app_state :=
  match splice ss generatedText st with
  | Some e => Some (AppState (isGenerating st) e (history st) (generationCount st))
  | None => None
  end.

(** The [onComplete] callback. *)
Definition onComplete (ss : session) (generatedText : str) (st : app_state)
  : option app_state :=
  match splice ss generatedText st with
  | Some e =>
      let finalText := textBefore ss ++ generatedText ++ textAfter ss in
      Some (AppState false e (Storage.pushHistory finalText (history st))
                     (S (generationCount st)))
  | None => None
  end.

(** The [onError] callback. *)
Definition onError (st : app_state) : app_state :=
  AppState false (editorTextarea st) (history st) (generationCount st).

Definition deliver (ss : session) (ev : event) (st : app_state) : option app_state :=
  match ev with
  | OnChunk chunk generatedText => onChunk ss chunk generatedText st
  | OnComplete generatedText => onComplete ss generatedText st
  | OnError _ => Some (onError st)
  end.

(** The callbacks of one generation, in the order the provider module
    invokes them. *)
Fixpoint deliver_all (ss : session) (evs : list event) (st : app_state)
  : option app_state :=
  match evs with
  | [] => Some st
  | ev :: evs' =>
      match deliver ss ev st with
      | Some st' => deliver_all ss evs' st'
      | None => None
      end
  end.

(** The part of [handleGenerate] before [GeminiModule.generateText] is
    called: [None] when it returns early. *)
Definition start (initialized : bool) (rl : rate_limit) (st : app_state)
  : option (session * app_state) :=
  if isGenerating st || negb initialized then None else
  if negb (canGenerate rl) then None else
  let editor := editorTextarea st in
  let cursorPos := getCursorOffset editor in
  let fullText := getPlainText editor in
  let textBefore := substring fullText 0 cursorPos in
  let textAfter := substring1 fullText cursorPos in
  if negb (checkInputTokenLimit rl textBefore) then None else
  Some (Session textBefore textAfter,
        AppState true editor (Storage.pushHistory fullText (history st))
                 (generationCount st)).

(** [handleGenerate()]: [generateText] stands for the provider module,
    given as the callbacks it invokes for the two texts. *)
Definition handleGenerate (initialized : bool) (rl : rate_limit)
           (generateText : str -> str -> list event) (st : app_state)
  : option app_state :=
  match start initialized rl st with
  | None => Some st
  | Some (ss, st') => deliver_all ss (generateText (textBefore ss) (textAfter ss)) st'
  end.
End WithFormatter.

(** The text a callback event carries for the buffer, if any. *)
Definition accumulated (ev : event) : option str :=
  match ev with
  | OnChunk _ generatedText => Some generatedText
  | OnComplete generatedText => Some generatedText
  | OnError _ => None
  end.

End App.

(* ===================================================================== *)
(** ** Text statistics (src/unnamed/part_005, src/js/formatter.js,
       src/js/storage.js) *)
(* ===================================================================== *)

Module Stats.
Import Js Regex Dom Cursor.

(** The pattern [/\s+/]. *)
Definition re_spaces : re := Rep true 1 is_ws.

(** [s.split(sep)] for a separator string of one code unit; [cur] is the
    piece being collected, most recent unit first. *)
Fixpoint split_unit (sep : N) (s cur : str) : list str :=
  match s with
  | [] => [rev cur]
  | c :: t =>
      if (c =? sep)%N then rev cur :: split_unit sep t []
      else split_unit sep t (c :: cur)
  end.

(** [countWords(text)] *)
Definition countWords (text : str) : nat :=
  if falsy text || falsy (trim text) then 0
  else length (List.filter (fun word => (0 <? length word)%nat)
                           (split re_spaces (trim text))).

(** [countCharacters(text)] *)
Definition countCharacters (text : str) : nat :=
  if falsy text then 0 else length text.

(** [countParagraphs(text)] *)
Definition countParagraphs (text : str) : nat :=
  if falsy text || falsy (trim text) then 0
  else length (List.filter (fun p => negb (falsy (trim p)))
                           (split Preview.re_paragraph text)).

(** The [wordCount] field [saveDocument(content)] of src/js/storage.js
    computes: [content.split(/\s+/).filter(w => w.length > 0).length]. *)
Definition saved_wordCount (content : str) : nat :=
  length (List.filter (fun w => (0 <? length w)%nat) (split re_spaces content)).

Record line_column := LineColumn { line : nat; column : nat }.

(** The last three statements of both [getCursorPosition] functions:
    [None] stands for the [TypeError] of reading [length] of [undefined]. *)
Definition line_column_of (textBeforeCursor : str) : option line_column :=
  let lines := split_unit nl textBeforeCursor [] in
  match nth_error lines (length lines - 1) with
  | Some l => Some (LineColumn (length lines) (length l + 1))
  | None => None
  end.

(** [getCursorPosition(element)] of the realtime formatter. *)
Definition getCursorPosition (e : editor) : option line_column :=
  match saveCursorPosition e with
  | None => Some (LineColumn 1 1)
  | Some pos => line_column_of (substring (textContent (childNodes e)) 0 (pos_start pos))
  end.

(** [getCursorPosition(textarea)] of the preview formatter, for a textarea
    with the given [value] and [selectionStart]. *)
Definition getCursorPosition_textarea (value : str) (selectionStart : nat)
  : option line_column :=
  line_column_of (substring value 0 selectionStart).

(** *** Reference counts

    The number of maximal runs of units that are not white space;
    [in_word] tells whether the unit before was part of such a run. *)
Fixpoint words_from (in_word : bool) (s : str) : nat :=
  match s with
  | [] => 0
  | c :: t =>
      if is_ws c then words_from false t
      else (if in_word then 0 else 1) + words_from true t
  end.

Definition word_runs (s : str) : nat := words_from false s.

(** Occurrences of the unit [c]. *)
Definition count_unit (c : N) (s : str) : nat :=
  length (List.filter (fun x => (x =? c)%N) s).

End Stats.

(* ===================================================================== *)
(** ** History calls (src/js/storage.js) *)
(* ===================================================================== *)

Module History.
Import Js Storage.

(** [canUndo()] and [canRedo()] *)
Definition canUndo (h : history) : bool := (0 <? length (undoStack h))%nat.
Definition canRedo (h : history) : bool := (0 <? length (redoStack h))%nat.

(** A call of one of the history functions of the module. *)
Inductive call :=
| PushHistory (content : str)
| Undo (currentContent : str)
| Redo (currentContent : str)
| ClearHistory.

(** The two stacks after the call. *)
Definition step (h : history) (c : call) : history :=
  match c with
  | PushHistory content => pushHistory content h
  | Undo currentContent => snd (undo currentContent h)
  | Redo currentContent => snd (redo currentContent h)
  | ClearHistory => clearHistory h
  end.

Definition run (calls : list call) (h : history) : history := fold_left step calls h.

End History.

(* ===================================================================== *)
(** ** Rate limits (src/unnamed/part_003) *)
(* ===================================================================== *)

Module RateLimit.
Import Js Provider Storage.

Definition MAX_GENERATIONS_PER_IP : nat := 10.
Definition MAX_TOKENS_PER_GENERATION : nat := 500.
Definition STORAGE_KEY : str := lit "novelWriter_rateLimit".

(** The module state.  [ip] is [None] while it is [undefined]; the count
    is a non-negative integer. *)
Record state := State {
  ip : option json;
  generationCount : nat;
  isAdmin : bool
}.

Definition initial : state := State (Some JNull) 0 false.

(** A number that may be [Infinity]. *)
Inductive number :=
| Infinity
| Finite (n : nat).

Section Persist.
Variable JSON_stringify : json -> str.
(** [Date.now()] at the call. *)
Variable now : N.

(** [saveGenerationCount()]; a member whose value is [undefined] is left
    out by [JSON.stringify]. *)
Definition saveGenerationCount (s : state) (localStorage : gmap str str)
  : gmap str str :=
  let data :=
    JObj ((match ip s with Some v => [(lit "ip", v)] | None => [] end)
          ++ [(lit "count", JNum (decimal (N.of_nat (generationCount s))));
              (lit "timestamp", JNum (decimal now))]) in
  <[STORAGE_KEY := JSON_stringify data]> localStorage.

(** [incrementGenerationCount()] *)
Definition incrementGenerationCount (s : state) (localStorage : gmap str str)
  : state * gmap str str :=
  let s' := State (ip s) (S (generationCount s)) (isAdmin s) in
  (s', saveGenerationCount s' localStorage).
End Persist.

Definition getGenerationCount (s : state) : nat := generationCount s.

(** [getRemainingGenerations()]: [Math.max(0, MAX - count)]. *)
Definition getRemainingGenerations (s : state) : number :=
  if isAdmin s then Infinity
  else Finite (MAX_GENERATIONS_PER_IP - generationCount s).

Record check := Check { allowed : bool; reason : str }.

(** [canGenerate()] *)
Definition canGenerate (s : state) : check :=
  if isAdmin s then Check true []
  else if (MAX_GENERATIONS_PER_IP <=? generationCount s)%nat then
    Check false
      (lit "You have reached the maximum number of generations ("
       ++ decimal (N.of_nat MAX_GENERATIONS_PER_IP)
       ++ lit "). Please contact an administrator for extended access.")
  else Check true [].

(** [getMaxTokens()] *)
Definition getMaxTokens (s : state) : number :=
  if isAdmin s then Infinity else Finite MAX_TOKENS_PER_GENERATION.

(** [clampMaxWords(requestedWords)] for a non-negative integer request;
    [Math.floor(500 * 0.75)] is 375. *)
Definition clampMaxWords (s : state) (requestedWords : nat) : nat :=
  if isAdmin s then requestedWords
  else
    let maxWords := MAX_TOKENS_PER_GENERATION * 3 / 4 in
    Nat.min requestedWords maxWords.

End RateLimit.

(* ===================================================================== *)
(** ** Streaming generation (src/js/gemini.js) *)
(* ===================================================================== *)

Module Streaming.
Import Js Provider Storage Stats.

(** What the reader of the response body gives: decoded text, read after
    read, until the stream is done or a read rejects. *)
Inductive reads :=
| Done
| Value (decoded : str) (next : reads)
| ReadRejected (e : js_error).

(** The outcome of [await fetch(url, ...)] for the streaming request:
    [b] is what [response.json()] gives, [rs] what the reader gives. *)
Inductive response :=
| FetchRejected (e : js_error)
| Response (ok : bool) (status : N) (statusText : str) (b : body) (rs : reads).

Section Sse.
(** [JSON.parse(jsonStr)] followed by the optional chain to the text. *)
Variable parse : str -> body.

(** The body of the [for (const line of lines)] loop: the callback it
    invokes, if any, and [fullText] afterwards. *)
Definition process_line (line fullText : str) : list event * str :=
  if startsWith line (lit "data: ") then
    let jsonStr := skipn 6 line in
    if bool_decide (trim jsonStr = lit "[DONE]") then ([], fullText)
    else
      match parse jsonStr with
      | Json _ t =>
          let text := or_else t [] in
          if falsy text then ([], fullText)
          else ([OnChunk text (fullText ++ text)], fullText ++ text)
      | BadJson _ | JsonNull => (* catch: console.warn(...) *) ([], fullText)
      end
  else ([], fullText).

Fixpoint process_lines (lines : list str) (fullText : str) : list event * str :=
  match lines with
  | [] => ([], fullText)
  | line :: rest =>
      let (evs1, fullText1) := process_line line fullText in
      let (evs2, fullText2) := process_lines rest fullText1 in
      (evs1 ++ evs2, fullText2)
  end.

(** The [while (true)] loop, then [onComplete(fullText)]; a rejected read
    goes to the [catch] block. *)
Fixpoint read_loop (rs : reads) (buffer fullText : str) : list event :=
  match rs with
  | Done => [OnComplete fullText]
  | ReadRejected e => on_catch e
  | Value decoded next =>
      let buffer := buffer ++ decoded in
      let lines := split_unit nl buffer [] in
      (* buffer = lines.pop() || '' *)
      let (buffer, lines) :=
        match pop lines with
        | Some (l, ls) => (l, ls)
        | None => ([], lines)
        end in
      let (evs, fullText) := process_lines lines fullText in
      evs ++ read_loop next buffer fullText
  end.

(** [generateWithStreaming(model, requestBody, onChunk, onComplete, onError)]:
    the callbacks invoked, in order. *)
Definition generateWithStreaming (r : response) : list event :=
  match r with
  | FetchRejected e => on_catch e
  | Response false status statusText b _ =>
      match b with
      | JsonNull => on_catch TypeError_null
      | BadJson _ =>
          on_catch (Error (lit "API_ERROR_" ++ decimal status ++ lit ": "
                           ++ or_else None statusText))
      | Json em _ =>
          on_catch (Error (lit "API_ERROR_" ++ decimal status ++ lit ": "
                           ++ or_else em statusText))
      end
  | Response true _ _ _ rs => read_loop rs [] []
  end.
End Sse.

(** The decoded text of the whole stream and how the stream ends. *)
Fixpoint payload (rs : reads) : str :=
  match rs with
  | Done | ReadRejected _ => []
  | Value decoded next => decoded ++ payload next
  end.

Fixpoint ending (rs : reads) : reads :=
  match rs with
  | Value _ next => ending next
  | Done => Done
  | ReadRejected e => ReadRejected e
  end.

(** A run of callbacks that starts from the accumulated text [prev]: chunk
    callbacks, each with a non-empty chunk and the text accumulated so
    far, then exactly one final callback. *)
Fixpoint accumulates (prev : str) (evs : list event) : Prop :=
  match evs with
  | [] => False
  | OnChunk chunk acc :: rest =>
      chunk <> [] /\ acc = prev ++ chunk /\ accumulates acc rest
  | OnComplete text :: rest => text = prev /\ rest = []
  | OnError _ :: rest => rest = []
  end.

End Streaming.

(* ===================================================================== *)
(** ** Undo and redo handlers (src/unnamed/part_002) *)
(* ===================================================================== *)

Module Handlers.
Import Js Dom Provider App.

(** The word and character counts shown under the editor. *)
Record stats := Stats { wordCount : nat; charCount : nat }.

Section WithFormatter.
Context {F : FormatterModule}.

(** [updateStats()] *)
Definition updateStats (e : editor) : stats :=
  let text := getPlainText e in
  Stats (Stats.countWords text) (Stats.countCharacters text).

(** [handleUndo()] *)
Definition handleUndo (st : app_state) (shown : stats) : option (app_state * stats) :=
  let currentContent := getPlainText (editorTextarea st) in
  match Storage.undo currentContent (history st) with
  | (Some previousContent, h) =>
      match setPlainText (editorTextarea st) previousContent with
      | Some e => Some (AppState (isGenerating st) e h (generationCount st), updateStats e)
      | None => None
      end
  | (None, h) =>
      Some (AppState (isGenerating st) (editorTextarea st) h (generationCount st), shown)
  end.

(** [handleRedo()] *)
Definition handleRedo (st : app_state) (shown : stats) : option (app_state * stats) :=
  let currentContent := getPlainText (editorTextarea st) in
  match Storage.redo currentContent (history st) with
  | (Some nextContent, h) =>
      match setPlainText (editorTextarea st) nextContent with
      | Some e => Some (AppState (isGenerating st) e h (generationCount st), updateStats e)
      | None => None
      end
  | (None, h) =>
      Some (AppState (isGenerating st) (editorTextarea st) h (generationCount st), shown)
  end.

(** The limits [handleGenerate] sees when the rate limit module is in
    state [s]; [checkInput] stands for [checkInputTokenLimit]. *)
Definition limits_of (s : RateLimit.state) (checkInput : str -> bool) : rate_limit :=
  RateLimit (RateLimit.allowed (RateLimit.canGenerate s)) checkInput.

End WithFormatter.

End Handlers.

(* ===================================================================== *)
(** ** The prefill of a request (unnamed/part_000) *)

Module Prefill.
Import Js Regex.

Definition in_range (a b : N) : N -> bool := fun c => ((a <=? c) && (c <=? b))%N.

(** The class of the lookahead of [sentenceEnders]: [A-Z], the Hangul
    syllables U+AC00..U+D7A3, Hiragana U+3041..U+3093, Katakana
    U+30A1..U+30F3 and the ideographs U+4E00..U+9FAF. *)
Definition sentence_start (c : N) : bool :=
  in_range 65 90 c || in_range 44032 55203 c || in_range 12353 12435 c
  || in_range 12449 12531 c || in_range 19968 40879 c.

(** The consuming part of [sentenceEnders]: a period, exclamation or
    question mark, an optional quote, and white space. *)
Definition sentenceEnders : re :=
  Cat (Cls (one_of (lit ".!?"))) (Cat (Opt (one_of [dq; sq])) (Rep true 1 is_ws)).

(** One attempt of a pattern [r(?=[ahead])] at index [i]: the lookahead
    tests the next code unit without consuming it, and a failure makes the
    pattern backtrack. *)
Definition exec_ahead (r : re) (ahead : N -> bool) (i : nat) (rest : str)
  : option result :=
  m r i rest []
    (fun i' rest' cs =>
       match rest' with
       | c :: _ => if ahead c then Some (i' - i, cs) else None
       | [] => None
       end).

(** [[...s.matchAll(/r(?=[ahead])/g)]]: index and text of each match, from
    left to right; the search resumes at the end of a match, and one unit
    further after an empty one. *)
Fixpoint matchAll_from (r : re) (ahead : N -> bool) (skip i : nat) (rest : str)
         {struct rest} : list (nat * str) :=
  match rest with
  | [] =>
      match skip with
      | O => match exec_ahead r ahead i [] with Some _ => [(i, [])] | None => [] end
      | S _ => []
      end
  | c :: t =>
      match skip with
      | S n => matchAll_from r ahead n (S i) t
      | O =>
          match exec_ahead r ahead i rest with
          | Some (len, _) =>
              (i, firstn len rest) ::
              match len with
              | O => matchAll_from r ahead 0 (S i) t
              | S n => matchAll_from r ahead n (S i) t
              end
          | None => matchAll_from r ahead 0 (S i) t
          end
      end
  end.

(** Index of the last occurrence of the non-empty string [p], or [-1]. *)
Fixpoint lastIndexOf_str_from (s p : str) (i acc : Z) : Z :=
  match s with
  | [] => acc
  | _ :: t => lastIndexOf_str_from t p (i + 1) (if startsWith s p then i else acc)
  end.

Definition lastIndexOf_str (s p : str) : Z := lastIndexOf_str_from s p 0 (-1).

(** [s.indexOf(c)] for a one-unit search string. *)
Fixpoint indexOf_from (s : str) (c : N) (i : Z) : Z :=
  match s with
  | [] => (-1)%Z
  | x :: t => if (x =? c)%N then i else indexOf_from t c (i + 1)
  end.

Definition indexOf (s : str) (c : N) : Z := indexOf_from s c 0.

Definition getLastSentence (text : str) : str :=
  if falsy text || falsy (trim text) then [] else
  let trimmed := trim text in
  let matches := matchAll_from sentenceEnders sentence_start 0 0 trimmed in
  match last matches with
  | Some (index, matched) =>
      let lastSentenceStart := index + length matched in
      substring1 trimmed lastSentenceStart
  | None =>
      let lastParagraphBreak := lastIndexOf_str trimmed [nl; nl] in
      if negb (lastParagraphBreak =? -1)%Z
         && (Z.of_nat (length trimmed) - 500 <? lastParagraphBreak)%Z
      then substring1 trimmed (Z.to_nat (lastParagraphBreak + 2))
      else if (200 <? length trimmed)%nat then
        let substr := substring1 trimmed (length trimmed - 200) in
        let firstSpace := indexOf substr 32 in
        if negb (firstSpace =? -1)%Z
        then substring1 substr (Z.to_nat (firstSpace + 1))
        else substr
      else trimmed
  end.

(** [maxOutputTokens: Math.ceil((settings.maxWords || 150) * 1.5)] for a
    non-negative integer setting [w]: the ceiling of [1.5 w] is the integer
    quotient of [3 w + 1] by 2. *)
Definition maxOutputTokens (maxWords : nat) : nat :=
  let w := if (maxWords =? 0)%nat then 150 else maxWords in
  (3 * w + 1) / 2.

Inductive role : Type := User | Model.

(** The [contents] of the request body of [generateText], given the user
    prompt it has assembled: the user turn, and the prefill as a model turn
    under [if (lastSentence && textBefore.trim())]. *)
Definition contents (userPrompt textBefore : str) : list (role * str) :=
  let lastSentence := getLastSentence textBefore in
  (User, userPrompt) ::
  (if negb (falsy lastSentence) && negb (falsy (trim textBefore))
   then [(Model, lastSentence)] else []).

End Prefill.

(** ** [JSON.parse]

    The built-in that [safeJsonParse] calls, on the JSON grammar: white
    space is space, tab, LF and CR; a value is an object, an array, a
    string, a number, [true], [false] or [null]; anything else is the
    [SyntaxError] ([None]).  A number keeps its literal text. *)

Module JSON.
Import Js Storage.

Definition is_json_ws (c : N) : bool :=
  ((c =? 32) || (c =? 9) || (c =? 10) || (c =? 13))%N.

Fixpoint skip_ws (s : str) : str :=
  match s with
  | c :: t => if is_json_ws c then skip_ws t else s
  | [] => []
  end.

Definition is_digit (c : N) : bool := ((48 <=? c) && (c <=? 57))%N.

Definition hex_value (c : N) : option N :=
  if is_digit c then Some (c - 48)%N
  else if ((97 <=? c) && (c <=? 102))%N then Some (c - 87)%N
  else if ((65 <=? c) && (c <=? 70))%N then Some (c - 55)%N
  else None.

(** The unit a two-character escape stands for. *)
Definition escape_unit (e : N) : option N :=
  if (e =? 34)%N then Some 34%N          (* quotation mark *)
  else if (e =? 92)%N then Some 92%N     (* reverse solidus *)
  else if (e =? 47)%N then Some 47%N     (* solidus *)
  else if (e =? 98)%N then Some 8%N      (* b *)
  else if (e =? 102)%N then Some 12%N    (* f *)
  else if (e =? 110)%N then Some 10%N    (* n *)
  else if (e =? 114)%N then Some 13%N    (* r *)
  else if (e =? 116)%N then Some 9%N     (* t *)
  else None.

(** A string from behind its opening quotation mark: its value and the
    text behind the closing quotation mark. *)
Fixpoint string_tail (s : str) (acc : str) {struct s} : option (str * str) :=
  match s with
  | [] => None
  | c :: t =>
      if (c =? dq)%N then Some (rev acc, t)
      else if (c <? 32)%N then None
      else if (c =? 92)%N then
        match t with
        | e :: t' =>
            if (e =? 117)%N then
              match t' with
              | h1 :: h2 :: h3 :: h4 :: t'' =>
                  match hex_value h1, hex_value h2, hex_value h3, hex_value h4 with
                  | Some a, Some b, Some c', Some d =>
                      string_tail t'' ((((a * 16 + b) * 16 + c') * 16 + d)%N :: acc)
                  | _, _, _, _ => None
                  end
              | _ => None
              end
            else
              match escape_unit e with
              | Some x => string_tail t' (x :: acc)
              | None => None
              end
        | [] => None
        end
      else string_tail t (c :: acc)
  end.

(** The longest run of digits and the text behind it. *)
Fixpoint digits (s : str) : str * str :=
  match s with
  | c :: t => if is_digit c then (c :: fst (digits t), snd (digits t)) else ([], s)
  | [] => ([], [])
  end.

(** A number: an optional minus, [0] or digits without a leading zero, an
    optional fraction, an optional exponent. *)
Definition number (s : str) : option (str * str) :=
  let (sign, s1) :=
    match s with
    | c :: t => if (c =? 45)%N then ([c], t) else ([], s)
    | [] => ([], s)
    end in
  let (int, s2) := digits s1 in
  match int with
  | [] => None
  | d0 :: more =>
      if (d0 =? 48)%N && negb (falsy more) then None else
      let (frac, s3) :=
        match s2 with
        | c :: t => if (c =? 46)%N then (Some (c :: fst (digits t)), snd (digits t))
                    else (None, s2)
        | [] => (None, s2)
        end in
      match frac with
      | Some [_] => None
      | _ =>
          let (expo, s4) :=
            match s3 with
            | c :: t =>
                if ((c =? 101) || (c =? 69))%N then
                  let (sg, t1) :=
                    match t with
                    | x :: t' => if ((x =? 43) || (x =? 45))%N then ([x], t') else ([], t)
                    | [] => ([], t)
                    end in
                  (Some (c :: sg, fst (digits t1)), snd (digits t1))
                else (None, s3)
            | [] => (None, s3)
            end in
          let mantissa := sign ++ int ++ match frac with Some f => f | None => [] end in
          match expo with
          | Some (_, []) => None
          | Some (e, ds) => Some (mantissa ++ e ++ ds, s4)
          | None => Some (mantissa, s4)
          end
      end
  end.

(** What is being read: a value, the members of an object behind its
    brace, or the elements of an array behind its bracket. *)
Inductive reading :=
| AValue
| Members (acc : list (str * json))
| Elements (acc : list json).

(** The parser; the fuel bounds the number of values, members and elements
    on a path, which the length of the text bounds. *)
Fixpoint read (fuel : nat) (what : reading) (s : str) : option (json * str) :=
  match fuel with
  | O => None
  | S n =>
      match what, skip_ws s with
      | _, [] => None
      | AValue, c :: t =>
          if (c =? 123)%N then
            match skip_ws t with
            | c2 :: t2 => if (c2 =? 125)%N then Some (JObj [], t2)
                          else read n (Members []) (c2 :: t2)
            | [] => None
            end
          else if (c =? 91)%N then
            match skip_ws t with
            | c2 :: t2 => if (c2 =? 93)%N then Some (JArr [], t2)
                          else read n (Elements []) (c2 :: t2)
            | [] => None
            end
          else if (c =? dq)%N then
            match string_tail t [] with
            | Some (x, r) => Some (JStr x, r)
            | None => None
            end
          else if startsWith (c :: t) (lit "true") then Some (JBool true, skipn 4 (c :: t))
          else if startsWith (c :: t) (lit "false") then Some (JBool false, skipn 5 (c :: t))
          else if startsWith (c :: t) (lit "null") then Some (JNull, skipn 4 (c :: t))
          else
            match number (c :: t) with
            | Some (x, r) => Some (JNum x, r)
            | None => None
            end
      | Members acc, c :: t =>
          if (c =? dq)%N then
            match string_tail t [] with
            | Some (k, r) =>
                match skip_ws r with
                | c2 :: r2 =>
                    if (c2 =? 58)%N then
                      match read n AValue r2 with
                      | Some (v, r3) =>
                          match skip_ws r3 with
                          | c3 :: r4 =>
                              if (c3 =? 44)%N then read n (Members (acc ++ [(k, v)])) r4
                              else if (c3 =? 125)%N then Some (JObj (acc ++ [(k, v)]), r4)
                              else None
                          | [] => None
                          end
                      | None => None
                      end
                    else None
                | [] => None
                end
            | None => None
            end
          else None
      | Elements acc, c :: t =>
          match read n AValue (c :: t) with
          | Some (v, r3) =>
              match skip_ws r3 with
              | c3 :: r4 =>
                  if (c3 =? 44)%N then read n (Elements (acc ++ [v])) r4
                  else if (c3 =? 93)%N then Some (JArr (acc ++ [v]), r4)
                  else None
              | [] => None
              end
          | None => None
          end
      end
  end.

(** [JSON.parse(text)] without a reviver. *)
Definition parse (text : str) : option json :=
  match read (S (length text)) AValue text with
  | Some (v, r) => match skip_ws r with [] => Some v | _ :: _ => None end
  | None => None
  end.

End JSON.

(** ** Sample inputs *)
(* ===================================================================== *)

Module Samples.
Import Js Provider Storage.

(** A saved settings object with only [genre], and a corrupt formatting
    entry. *)
Definition saved_genre : str :=
  lit "{" ++ [dq] ++ lit "genre" ++ [dq] ++ lit ":" ++ [dq] ++ lit "horror" ++ [dq]
  ++ lit "}".

Definition sample_storage : gmap str str :=
  <[KEY_SETTINGS := saved_genre]> (<[KEY_FORMATTING := lit "{oops"]> ∅).

(** The thought-versus-contraction example of the specification. *)
Definition contraction_example : str := lit "He said don't go. 'Never,' she whispered.".

Definition sample_colors : Preview.colors :=
  Preview.Colors (lit "#e67e22") (lit "#3498db") (lit "#9b59b6").

(** The splice example of the specification: the two texts around the
    caret, an editor holding them with the caret in between, and the
    callbacks of a provider that streams two chunks. *)
Definition splice_before : str := lit "It was dark. ".
Definition splice_after : str := lit " The end.".

Definition splice_editor : Dom.editor :=
  Dom.Editor [Dom.Text (splice_before ++ splice_after)]
             (Some (Dom.Range (Dom.At [0] 13) (Dom.At [0] 13))).

Definition splice_state : App.app_state :=
  App.AppState false splice_editor (History [] []) 0.

Definition splice_events (_ _ : str) : list event :=
  [OnChunk (lit "She") (lit "She");
   OnChunk (lit " walked on.") (lit "She walked on.");
   OnComplete (lit "She walked on.")].

Definition open_limits : App.rate_limit := App.RateLimit true (fun _ => true).

(** A quoted run with a paragraph break inside. *)
Definition break_example : str := [dq] ++ lit "a" ++ [nl; nl] ++ lit "b" ++ [dq].

(** A server-sent stream of two data lines cut in the middle of the second
    line, and a stand-in for [JSON.parse] on its payloads. *)
Definition sse_parse (s : str) : body :=
  if bool_decide (s = lit "{A}") then Json None (Some (lit "She"))
  else if bool_decide (s = lit "{B}") then Json None (Some (lit " walked on."))
  else BadJson (Err (lit "SyntaxError") (lit "Unexpected token")).

(** The splice example after [handleGenerate] has started, and after the
    provider has completed with the text [She walked on.] *)
Definition splice_session : App.session := App.Session splice_before splice_after.

Definition splice_started : App.app_state :=
  App.AppState true splice_editor (History [splice_before ++ splice_after] []) 0.

Definition splice_completed : App.app_state :=
  App.AppState false
    (Dom.Editor [Dom.Text (splice_before ++ lit "She walked on." ++ splice_after)]
                (Some (Dom.Range (Dom.At [0] 27) (Dom.At [0] 27))))
    (History [splice_before ++ splice_after;
              splice_before ++ lit "She walked on." ++ splice_after] [])
    1.

Definition sse_reads : Streaming.reads :=
  Streaming.Value (lit "data: {A}" ++ [nl] ++ lit "da")
    (Streaming.Value (lit "ta: {B}" ++ [nl] ++ lit "data: [DONE]") Streaming.Done).

End Samples.

(* ===================================================================== *)
(** * Properties *)
(* ===================================================================== *)

(** ** Strings *)

Module JsFacts.
Import Js.

Lemma startsWith_prefix (s p : str) : startsWith s p = true <-> p `prefix_of` s.
Proof.
  revert s; induction p as [|a p IH]; intros s; simpl.
  - split; [intros _; apply prefix_nil | reflexivity].
  - destruct s as [|b s].
    + split; [discriminate | intros [k Hk]; discriminate].
    + rewrite andb_true_iff, N.eqb_eq, IH. split.
      * intros [-> H]. now apply prefix_cons.
      * intros [k Hk]. injection Hk as -> ->. split; [reflexivity | now exists k].
Qed.

Lemma startsWith_app (p r : str) : startsWith (p ++ r) p = true.
Proof. apply startsWith_prefix. now exists r. Qed.

Lemma trimStart_suffix (s : str) : trimStart s `suffix_of` s.
Proof.
  induction s as [|c s IH]; simpl; [reflexivity|].
  destruct (is_ws c); [now apply suffix_cons_r | reflexivity].
Qed.

Lemma trimStart_idem (s : str) : trimStart (trimStart s) = trimStart s.
Proof.
  induction s as [|c s IH]; simpl; [reflexivity|].
  destruct (is_ws c) eqn:E; [assumption | simpl; now rewrite E].
Qed.

Lemma falsy_nil (s : str) : falsy s = true <-> s = [].
Proof. destruct s; simpl; split; congruence. Qed.

Lemma app_split_mid {A} (a b l1 l2 : list A) (x : A) :
  a ++ b = l1 ++ x :: l2 ->
  (exists l2a, a = l1 ++ x :: l2a /\ l2 = l2a ++ b)
  \/ (exists l1b, l1 = a ++ l1b /\ b = l1b ++ x :: l2).
Proof.
  intros H. apply app_eq_app in H. destruct H as [l [[Ha Hb]|[Ha Hb]]].
  - destruct l as [|y l].
    + right. exists []. rewrite app_nil_r in Ha. simpl in Hb. subst. now rewrite app_nil_r.
    + left. injection Hb as <- ->. now exists l.
  - right. now exists l.
Qed.

End JsFacts.

(** ** History: undo and redo *)

Module StorageFacts.
Import Js Storage.

Lemma pop_snoc {A} (u : list A) (x : A) : pop (u ++ [x]) = Some (x, u).
Proof.
  induction u as [|y u IH]; simpl; [reflexivity|]. now rewrite IH.
Qed.

Lemma pop_nil_iff {A} (l : list A) : pop l = None <-> l = [].
Proof.
  destruct l as [|x t]; simpl; [easy|].
  destruct (pop t) as [[y t']|]; split; discriminate.
Qed.

Lemma pop_tl_snoc {A} (y : A) (u : list A) (x : A) :
  pop (tl ((y :: u) ++ [x])) = Some (x, u).
Proof. simpl. apply pop_snoc. Qed.

Lemma undo_after_push (c x : str) (h : history) :
  fst (undo c (pushHistory x h)) = Some x.
Proof.
  unfold pushHistory, undo.
  destruct (pop (undoStack h)) as [[top rest]|] eqn:Hp.
  - case_bool_decide as Heq.
    + subst top. rewrite Hp. reflexivity.
    + cbn [undoStack]. destruct (MAX_HISTORY_SIZE <? _)%nat.
      * destruct (undoStack h) as [|y u]; [discriminate|].
        rewrite pop_tl_snoc. reflexivity.
      * rewrite pop_snoc. reflexivity.
  - apply pop_nil_iff in Hp. rewrite Hp. reflexivity.
Qed.

(** C9. [undo(c)] on a non-empty undo stack returns its top (the snapshot
    pushed last) and pushes [c] on the redo stack; [redo] called right
    after with the returned snapshot returns [c] and puts both stacks back
    as they were; with an empty source stack [undo] and [redo] return
    [null] and change nothing. *)
Theorem undo_redo_inverse (c x : str) (u r : list str) :
  undo c (History (u ++ [x]) r) = (Some x, History u (r ++ [c]))
  /\ redo x (snd (undo c (History (u ++ [x]) r))) = (Some c, History (u ++ [x]) r)
  /\ undo c (History [] r) = (None, History [] r)
  /\ redo c (History u []) = (None, History u [])
  /\ fst (undo c (pushHistory x (History u r))) = Some x.
Proof.
  assert (Hu : undo c (History (u ++ [x]) r) = (Some x, History u (r ++ [c]))).
  { unfold undo; cbn [undoStack redoStack]. now rewrite pop_snoc. }
  repeat split.
  - exact Hu.
  - rewrite Hu. unfold redo; cbn [snd undoStack redoStack]. now rewrite pop_snoc.
  - apply undo_after_push.
Qed.

End StorageFacts.

(** ** The matcher *)

Module RegexFacts.
Import Js Regex.

(** A successful greedy repetition took [w], all of the class and at least
    [lo] long, and the continuation succeeded after it. *)
Lemma rep_greedy_sound (p : N -> bool) (k : cont) (x : result) :
  forall rest lo i cs,
    rep_greedy p lo i rest cs k = Some x ->
    exists w rest', rest = w ++ rest' /\ Forall (fun c => p c = true) w
                    /\ lo <= length w /\ k (i + length w) rest' cs = Some x.
Proof.
  induction rest as [|c t IH]; intros lo i cs H; simpl in H.
  - destruct lo; [|discriminate]. exists [], []. simpl. rewrite Nat.add_0_r. auto.
  - destruct (p c) eqn:Hc.
    + destruct (rep_greedy p (pred lo) (S i) t cs k) as [y|] eqn:Hr.
      * injection H as <-. destruct (IH _ _ _ Hr) as (w & rest' & -> & Hw & Hlo & Hk).
        exists (c :: w), rest'. simpl. rewrite <- Nat.add_succ_comm.
        repeat split; [now constructor | lia | exact Hk].
      * destruct lo; [|discriminate]. exists [], (c :: t). simpl.
        rewrite Nat.add_0_r. auto.
    + destruct lo; [|discriminate]. exists [], (c :: t). simpl.
      rewrite Nat.add_0_r. auto.
Qed.

Lemma rep_lazy_sound (p : N -> bool) (k : cont) (x : result) :
  forall rest lo i cs,
    rep_lazy p lo i rest cs k = Some x ->
    exists w rest', rest = w ++ rest' /\ Forall (fun c => p c = true) w
                    /\ lo <= length w /\ k (i + length w) rest' cs = Some x.
Proof.
  induction rest as [|c t IH]; intros lo i cs H; simpl in H.
  - destruct lo; [|discriminate]. exists [], []. simpl. rewrite Nat.add_0_r. auto.
  - destruct lo as [|lo].
    + destruct (k i (c :: t) cs) as [y|] eqn:Hk.
      * injection H as <-. exists [], (c :: t). simpl. rewrite Nat.add_0_r. auto.
      * destruct (p c) eqn:Hc; [|discriminate].
        destruct (IH _ _ _ H) as (w & rest' & -> & Hw & Hlo & Hk').
        exists (c :: w), rest'. simpl. rewrite <- Nat.add_succ_comm.
        repeat split; [now constructor | lia | exact Hk'].
    + destruct (p c) eqn:Hc; [|discriminate].
      destruct (IH _ _ _ H) as (w & rest' & -> & Hw & Hlo & Hk').
      exists (c :: w), rest'. simpl. rewrite <- Nat.add_succ_comm.
      repeat split; [now constructor | lia | exact Hk'].
Qed.

(** Greedy repetition up to a unit outside the class (or the end of the
    subject): when the continuation succeeds there, that is the result. *)
Lemma rep_greedy_max (p : N -> bool) (k : cont) (x : result) (rest' : str) :
  match rest' with [] => True | c :: _ => p c = false end ->
  forall w lo i cs,
    Forall (fun c => p c = true) w -> lo <= length w ->
    k (i + length w) rest' cs = Some x ->
    rep_greedy p lo i (w ++ rest') cs k = Some x.
Proof.
  intros Hstop. induction w as [|c w IH]; intros lo i cs Hw Hlo Hk; simpl in *.
  - rewrite Nat.add_0_r in Hk. assert (lo = 0) as -> by lia.
    destruct rest' as [|c t]; simpl; [exact Hk|]. now rewrite Hstop.
  - apply Forall_cons in Hw. destruct Hw as [Hc Hw]. rewrite Hc.
    rewrite (IH (pred lo) (S i) cs Hw); [reflexivity | lia |].
    now rewrite Nat.add_succ_comm.
Qed.

(** Whatever matches consumes a prefix of the subject and then runs the
    continuation. *)
Lemma m_consumes (r : re) :
  forall i rest cs k x,
    m r i rest cs k = Some x ->
    exists w rest' cs', rest = w ++ rest' /\ k (i + length w) rest' cs' = Some x.
Proof.
  induction r as [|p| | |a IHa b IHb|a IHa b IHb|n a IHa|g lo p|p];
    intros i rest cs k x H; simpl in H.
  - exists [], rest, cs. simpl. rewrite Nat.add_0_r. auto.
  - destruct rest as [|c t]; [discriminate|]. destruct (p c); [|discriminate].
    exists [c], t, cs. simpl. rewrite Nat.add_1_r. auto.
  - destruct (i =? 0)%nat; [|discriminate].
    exists [], rest, cs. simpl. rewrite Nat.add_0_r. auto.
  - destruct rest; [|discriminate].
    exists [], [], cs. simpl. rewrite Nat.add_0_r. auto.
  - destruct (IHa _ _ _ _ _ H) as (w1 & r1 & cs1 & -> & H1).
    destruct (IHb _ _ _ _ _ H1) as (w2 & r2 & cs2 & -> & H2).
    exists (w1 ++ w2), r2, cs2. rewrite <- app_assoc, length_app, Nat.add_assoc. auto.
  - destruct (m a i rest cs k) as [y|] eqn:Ha.
    + injection H as <-. now apply IHa in Ha.
    + now apply IHb in H.
  - destruct (IHa _ _ _ _ _ H) as (w & r' & cs' & -> & H1).
    exists w, r'. eexists. split; [reflexivity | exact H1].
  - destruct g.
    + destruct (rep_greedy_sound _ _ _ _ _ _ _ H) as (w & r' & -> & _ & _ & Hk).
      now exists w, r', cs.
    + destruct (rep_lazy_sound _ _ _ _ _ _ _ H) as (w & r' & -> & _ & _ & Hk).
      now exists w, r', cs.
  - destruct rest as [|c t].
    + exists [], [], cs. simpl. rewrite Nat.add_0_r. auto.
    + destruct (p c).
      * destruct (k (S i) t cs) as [y|] eqn:Hk.
        -- injection H as <-. exists [c], t, cs. simpl. rewrite Nat.add_1_r. auto.
        -- exists [], (c :: t), cs. simpl. rewrite Nat.add_0_r. auto.
      * exists [], (c :: t), cs. simpl. rewrite Nat.add_0_r. auto.
Qed.

(** A match is a prefix of the subject. *)
Lemma exec_length (r : re) (i : nat) (rest : str) (len : nat) (cs : caps) :
  exec r i rest = Some (len, cs) -> len <= length rest.
Proof.
  unfold exec. intros H. apply m_consumes in H.
  destruct H as (w & rest' & cs' & -> & [= <- _]). rewrite length_app. lia.
Qed.

(** *** Global replace, step by step *)

Lemma replace_skip (r : re) (f : str -> caps -> str) :
  forall w i rest,
    replace_from r f (length w) i (w ++ rest) = replace_from r f 0 (i + length w) rest.
Proof.
  induction w as [|c w IH]; intros i rest; simpl.
  - now rewrite Nat.add_0_r.
  - rewrite IH. now rewrite Nat.add_succ_comm.
Qed.

(** The search as the language definition words it: a match at the current
    index is replaced and the search resumes at its end (one unit further
    after an empty match); otherwise the unit is copied. *)
Lemma replace_from_eq (r : re) (f : str -> caps -> str) (i : nat) (rest : str) :
  replace_from r f 0 i rest =
  match exec r i rest with
  | Some (len, cs) =>
      f (firstn len rest) cs ++
      match len with
      | O => match rest with
             | [] => []
             | c :: t => c :: replace_from r f 0 (S i) t
             end
      | S _ => replace_from r f 0 (i + len) (skipn len rest)
      end
  | None => match rest with
            | [] => []
            | c :: t => c :: replace_from r f 0 (S i) t
            end
  end.
Proof.
  destruct rest as [|c t]; cbn [replace_from].
  - destruct (exec r i []) as [[len cs]|] eqn:He; [|reflexivity].
    apply exec_length in He. simpl in He. assert (len = 0) as -> by lia.
    simpl. now rewrite app_nil_r.
  - destruct (exec r i (c :: t)) as [[len cs]|] eqn:He; [|reflexivity].
    destruct len as [|n]; [reflexivity|]. f_equal.
    apply exec_length in He. simpl in He.
    rewrite <- (take_drop n t) at 1.
    replace n with (length (take n t)) at 1 by (rewrite length_take; lia).
    rewrite replace_skip. rewrite length_take.
    replace (n `min` length t) with n by lia.
    simpl. f_equal. lia.
Qed.

End RegexFacts.

(** ** The realtime formatter on items *)

Module MarkupFacts.
Import Js Regex Dom Markup JsFacts RegexFacts.

Lemma render_app (a b : list item) : render (a ++ b) = render a ++ render b.
Proof. unfold render. apply flat_map_app. Qed.

Lemma chars_app (a b : list item) : chars (a ++ b) = chars a ++ chars b.
Proof. unfold chars. apply flat_map_app. Qed.

Lemma render_cons (x : item) (xs : list item) : render (x :: xs) = render_item x ++ render xs.
Proof. reflexivity. Qed.

(** The shape [d ([^d]+) d] inside a larger pattern: what it consumes and
    what it captures. *)
Lemma m_delim_sound (d : N) (n i : nat) (rest : str) (cs : caps) (k : cont) (x : result) :
  m (Cat (Cls (chr d)) (Cat (Grp n (Rep true 1 (isnt d))) (Cls (chr d)))) i rest cs k = Some x ->
  exists content rest',
    rest = d :: content ++ d :: rest'
    /\ content <> [] /\ Forall (fun c => c <> d) content
    /\ k (i + S (S (length content))) rest' ((n, content) :: cs) = Some x.
Proof.
  cbn [m]. destruct rest as [|c t]; [discriminate|].
  unfold chr at 1. destruct (N.eqb_spec c d) as [->|]; [|discriminate].
  intros H. apply rep_greedy_sound in H.
  destruct H as (w & rest' & -> & Hw & Hlo & Hk).
  destruct rest' as [|c' t']; [discriminate|].
  unfold chr in Hk. destruct (N.eqb_spec c' d) as [->|]; [|discriminate].
  exists w, t'.
  split; [reflexivity|]. split; [destruct w; [simpl in Hlo; lia | discriminate]|].
  split.
  - eapply Forall_impl; [exact Hw|]. intros c Hc. unfold isnt in Hc. simpl in Hc.
    intros ->. rewrite N.eqb_refl in Hc. discriminate.
  - replace (S i + length w - S i) with (length w) in Hk by lia.
    rewrite take_app_length in Hk.
    replace (i + S (S (length w))) with (S (S i + length w)) by lia. exact Hk.
Qed.

Lemma m_delim_complete (d : N) (n i : nat) (content rest' : str) (cs : caps) (k : cont)
      (x : result) :
  content <> [] -> Forall (fun c => c <> d) content ->
  k (i + S (S (length content))) rest' ((n, content) :: cs) = Some x ->
  m (Cat (Cls (chr d)) (Cat (Grp n (Rep true 1 (isnt d))) (Cls (chr d))))
    i (d :: content ++ d :: rest') cs k = Some x.
Proof.
  intros Hne Hc Hk. cbn [m]. unfold chr at 1. rewrite N.eqb_refl.
  apply rep_greedy_max.
  - unfold isnt. now rewrite N.eqb_refl.
  - eapply Forall_impl; [exact Hc|]. intros c Hcd. unfold isnt.
    destruct (N.eqb_spec c d); [contradiction | reflexivity].
  - destruct content; [contradiction | simpl; lia].
  - unfold chr. rewrite N.eqb_refl.
    replace (S i + length content - S i) with (length content) by lia.
    rewrite take_app_length.
    replace (S (S i + length content)) with (i + S (S (length content))) by lia.
    exact Hk.
Qed.

(** *** A run between two delimiters *)

Section Delim.
Variable d : N.

Lemma exec_delim_sound (i : nat) (rest : str) (len : nat) (cs : caps) :
  exec (delim d) i rest = Some (len, cs) ->
  exists content rest',
    rest = d :: content ++ d :: rest'
    /\ content <> [] /\ Forall (fun c => c <> d) content
    /\ len = S (S (length content)) /\ cs = [(1, content)].
Proof.
  unfold exec, delim. cbn [m]. destruct rest as [|c t]; [discriminate|].
  unfold chr at 1. destruct (N.eqb_spec c d) as [->|]; [|discriminate].
  intros H. apply rep_greedy_sound in H.
  destruct H as (w & rest' & -> & Hw & Hlo & Hk).
  destruct rest' as [|c' t']; [discriminate|].
  unfold chr in Hk. destruct (N.eqb_spec c' d) as [->|]; [|discriminate].
  injection Hk as <- <-. exists w, t'.
  split; [reflexivity|]. split; [destruct w; [simpl in Hlo; lia | discriminate]|].
  split.
  - eapply Forall_impl; [exact Hw|]. intros c Hc. unfold isnt in Hc. simpl in Hc.
    intros ->. rewrite N.eqb_refl in Hc. discriminate.
  - split; [lia|].
    replace (i + length w - i) with (length w) by lia.
    now rewrite take_app_length.
Qed.

Lemma exec_delim_first (i : nat) (c : N) (t : str) :
  c <> d -> exec (delim d) i (c :: t) = None.
Proof.
  intros Hc. unfold exec, delim. cbn [m]. unfold chr at 1.
  now destruct (N.eqb_spec c d).
Qed.

Lemma exec_delim_nil (i : nat) : exec (delim d) i [] = None.
Proof. reflexivity. Qed.

Variable f : str -> caps -> str.

(** Units other than the delimiter are copied. *)
Lemma replace_copy (t : str) :
  Forall (fun c => c <> d) t ->
  forall i rest,
    replace_from (delim d) f 0 i (t ++ rest)
    = t ++ replace_from (delim d) f 0 (i + length t) rest.
Proof.
  induction 1 as [|c t Hc _ IH]; intros i rest; simpl.
  - now rewrite Nat.add_0_r.
  - rewrite exec_delim_first by exact Hc. rewrite IH.
    replace (i + S (length t)) with (S i + length t) by lia. reflexivity.
Qed.

End Delim.

(** The first delimiter of the markup is an item of its own. *)
Lemma align_first (d : N) :
  plain d ->
  forall xs content rest',
    Forall (tag_free d) xs ->
    render xs = content ++ d :: rest' ->
    Forall (fun c => c <> d) content ->
    exists cx xs2, xs = cx ++ Ch d :: xs2 /\ render cx = content /\ render xs2 = rest'.
Proof.
  intros Hd. induction xs as [|x xs IH]; intros content rest' Hfree Hr Hc.
  - now destruct content.
  - apply Forall_cons in Hfree. destruct Hfree as [Hx Hfree].
    rewrite render_cons in Hr.
    assert (Hcase : x = Ch d \/ Forall (fun c => c <> d) (render_item x)).
    { destruct x as [c|t]; [|now right]. destruct (N.eq_dec c d) as [->|Hne]; [now left|].
      right. apply List.Forall_forall. intros y Hy ->. apply Hne. now apply (proj2 Hd). }
    destruct Hcase as [->|Hxd].
    + assert (Hrd : render_item (Ch d) = [d]) by apply Hd.
      rewrite Hrd in Hr. destruct content as [|c content].
      * injection Hr as Hr. now exists [], xs.
      * injection Hr as -> _. apply Forall_cons in Hc. now destruct Hc.
    + apply app_split_mid in Hr. destruct Hr as [(l2a & Hr & _)|(l1b & -> & Hr)].
      * rewrite Hr in Hxd. apply Forall_app in Hxd. destruct Hxd as [_ Hxd].
        apply Forall_cons in Hxd. now destruct Hxd.
      * apply Forall_app in Hc. destruct Hc as [_ Hc].
        destruct (IH _ _ Hfree Hr Hc) as (cx & xs2 & -> & <- & <-).
        now exists (x :: cx), xs2.
Qed.

Lemma render_keep_item (keep : bool) (d : N) :
  plain d -> render (keep_item keep d) = if keep then [d] else [].
Proof.
  intros [Hd _]. destruct keep; simpl; [|reflexivity]. now rewrite Hd.
Qed.

Lemma item_cases (d : N) (x : item) :
  plain d -> tag_free d x ->
  x = Ch d \/ Forall (fun c => c <> d) (render_item x).
Proof.
  intros Hd Hx. destruct x as [c|t]; [|now right].
  destruct (N.eq_dec c d) as [->|Hne]; [now left|].
  right. apply List.Forall_forall. intros y Hy ->. apply Hne. now apply (proj2 Hd).
Qed.

(** The replace step of a delimiter pattern, on items. *)
Lemma delim_stage (d : N) (open : str) (keep : bool) :
  plain d ->
  forall n xs i,
    length xs <= n -> Forall (tag_free d) xs ->
    exists ys,
      replace_from (delim d) (wrap open keep d) 0 i (render xs) = render ys
      /\ wrapped d open keep xs ys.
Proof.
  intros Hd. induction n as [|n IH]; intros xs i Hn Hfree.
  - destruct xs; [|simpl in Hn; lia]. exists []. split; [reflexivity | constructor].
  - destruct xs as [|x xs]; [exists []; split; [reflexivity | constructor]|].
    apply Forall_cons in Hfree. destruct Hfree as [Hx Hfree]. simpl in Hn.
    rewrite render_cons.
    destruct (item_cases d x Hd Hx) as [->|Hxd].
    + replace (render_item (Ch d)) with [d] by (symmetry; apply Hd).
      rewrite replace_from_eq. cbn [app].
      destruct (exec (delim d) i (d :: render xs)) as [[len cs]|] eqn:He.
      * apply exec_delim_sound in He.
        destruct He as (content & rest' & Hr & Hne & Hc & -> & ->).
        injection Hr as Hr.
        destruct (align_first d Hd xs content rest' Hfree Hr Hc) as (cx & xs2 & -> & <- & <-).
        destruct (IH xs2 (i + S (S (length (render cx))))) as (ys2 & Hys & Hw).
        { rewrite length_app in Hn. simpl in Hn. lia. }
        { apply Forall_app in Hfree. destruct Hfree as [_ Hfree].
          apply Forall_cons in Hfree. now destruct Hfree. }
        exists (Tag open :: keep_item keep d ++ cx ++ keep_item keep d ++ Tag T_close :: ys2).
        split.
        -- rewrite Hr.
           replace (skipn (S (S (length (render cx)))) (d :: render cx ++ d :: render xs2))
             with (render xs2).
           2:{ cbn [skipn]. replace (render cx ++ d :: render xs2)
                 with ((render cx ++ [d]) ++ render xs2) by now rewrite <- app_assoc.
               replace (S (length (render cx))) with (length (render cx ++ [d]))
                 by (rewrite length_app; simpl; lia).
               now rewrite drop_app_length. }
           rewrite Hys. unfold wrap. cbn [Formatter.grp group Nat.eqb].
           rewrite render_cons, !render_app, render_keep_item by exact Hd.
           rewrite render_cons. cbn [render_item]. unfold T_close.
           rewrite <- !app_assoc. reflexivity.
        -- constructor; [|exact Hw]. intros ->. now apply Hne.
      * destruct (IH xs (S i)) as (ys & Hys & Hw); [lia | exact Hfree |].
        exists (Ch d :: ys). split.
        -- rewrite render_cons. replace (render_item (Ch d)) with [d] by (symmetry; apply Hd).
           cbn [app]. now rewrite Hys.
        -- now constructor.
    + rewrite replace_copy by exact Hxd.
      destruct (IH xs (i + length (render_item x))) as (ys & Hys & Hw); [lia | exact Hfree |].
      exists (x :: ys). split.
      * rewrite render_cons. now rewrite Hys.
      * now constructor.
Qed.

(** *** The thoughts pattern of the current formatter *)

Lemma exec_thoughts_sound (i : nat) (rest : str) (len : nat) (cs : caps) :
  exec Formatter.re_thoughts i rest = Some (len, cs) ->
  (i = 0 /\ exists content rest',
      rest = sq :: content ++ sq :: rest'
      /\ content <> [] /\ Forall (fun c => c <> sq) content
      /\ len = S (S (length content))
      /\ group 1 cs = Some [] /\ group 2 cs = Some content)
  \/ (exists w content rest',
        is_ws w = true
        /\ rest = w :: sq :: content ++ sq :: rest'
        /\ content <> [] /\ Forall (fun c => c <> sq) content
        /\ len = S (S (S (length content)))
        /\ group 1 cs = Some [w] /\ group 2 cs = Some content).
Proof.
  unfold exec, Formatter.re_thoughts.
  change (m (Cat (Grp 1 (Alt Bol (Cls is_ws))) ?r) i rest [] ?k)
    with (match (if (i =? 0)%nat
                 then m r i rest [(1, firstn (i - i) rest)] k else None) with
          | Some x => Some x
          | None =>
              match rest with
              | c :: t => if is_ws c
                          then m r (S i) t [(1, firstn (S i - i) rest)] k
                          else None
              | [] => None
              end
          end).
  destruct (Nat.eqb_spec i 0) as [->|Hi].
  - destruct (m _ 0 rest _ _) as [x|] eqn:H0.
    + intros [= ->]. left. split; [reflexivity|].
      apply m_delim_sound in H0.
      destruct H0 as (content & rest' & -> & Hne & Hc & [= <- <-]).
      exists content, rest'. repeat split; auto.
    + destruct rest as [|c t]; [discriminate|].
      destruct (is_ws c) eqn:Hws; [|discriminate].
      intros H. right. apply m_delim_sound in H.
      destruct H as (content & rest' & -> & Hne & Hc & [= <- <-]).
      exists c, content, rest'. repeat split; auto.
  - destruct rest as [|c t]; [discriminate|].
    destruct (is_ws c) eqn:Hws; [|discriminate].
    intros H. right. apply m_delim_sound in H.
    destruct H as (content & rest' & -> & Hne & Hc & [= <- <-]).
    exists c, content, rest'. replace (S i - i) with 1 by lia.
    repeat split; auto. lia.
Qed.

Lemma exec_thoughts_none (i : nat) (c : N) (t : str) :
  c <> sq ->
  is_ws c = false \/ match t with c2 :: _ => c2 <> sq | [] => True end ->
  exec Formatter.re_thoughts i (c :: t) = None.
Proof.
  intros Hc Hnext. unfold exec, Formatter.re_thoughts. cbn [m].
  unfold chr. destruct (N.eqb_spec c sq) as [|_]; [contradiction|].
  assert (Hws : (if is_ws c
                 then match t with
                      | [] => None
                      | c0 :: t0 =>
                          if (c0 =? sq)%N
                          then rep_greedy (isnt sq) 1 (S (S i)) t0 [(1, firstn (S i - i) (c :: t))]
                                 (fun i' rest' cs' =>
                                    (fun (i'0 : nat) (rest'0 : str) (cs'0 : caps) =>
                                       match rest'0 with
                                       | [] => None
                                       | c1 :: t1 =>
                                           if (c1 =? sq)%N
                                           then Some (S i'0 - i, cs'0)
                                           else None
                                       end) i' rest' ((2, firstn (i' - S (S i)) t0) :: cs'))
                          else None
                      end
                 else None) = None).
  { destruct (is_ws c); [|reflexivity]. destruct Hnext as [|Hn]; [discriminate|].
    destruct t as [|c2 t]; [reflexivity|]. now destruct (N.eqb_spec c2 sq). }
  destruct (i =? 0)%nat; exact Hws.
Qed.

Lemma exec_thoughts_nil (i : nat) : exec Formatter.re_thoughts i [] = None.
Proof. unfold exec, Formatter.re_thoughts. cbn [m]. now destruct (i =? 0)%nat. Qed.

Lemma safe_head (c c2 : N) (t : str) : safe (c :: c2 :: t) = true -> c <> sq /\ c2 <> sq /\ safe (c2 :: t) = true.
Proof.
  cbn [safe]. intros H. apply andb_true_iff in H. destruct H as [H1 H2].
  split; [intros ->; discriminate|]. split; [|exact H2].
  cbn [safe] in H2. apply andb_true_iff in H2. destruct H2 as [H2 _].
  intros ->. discriminate.
Qed.

(** Safe markup is copied. *)
Lemma replace_copy_thoughts (f : str -> caps -> str) (t : str) :
  safe t = true ->
  forall i rest,
    replace_from Formatter.re_thoughts f 0 i (t ++ rest)
    = t ++ replace_from Formatter.re_thoughts f 0 (i + length t) rest.
Proof.
  induction t as [|c t IH]; intros Hs i rest.
  - simpl. now rewrite Nat.add_0_r.
  - destruct t as [|c2 t].
    + cbn [safe] in Hs. apply andb_true_iff in Hs. destruct Hs as [H1 H2].
      cbn [app replace_from]. rewrite exec_thoughts_none.
      * now rewrite Nat.add_1_r.
      * intros ->. discriminate.
      * left. now destruct (is_ws c).
    + destruct (safe_head _ _ _ Hs) as (H1 & H2 & H3).
      change ((c :: c2 :: t) ++ rest) with (c :: (c2 :: t) ++ rest).
      cbn [replace_from]. rewrite exec_thoughts_none; [|exact H1|right; exact H2].
      rewrite (IH H3).
      replace (i + length (c :: c2 :: t)) with (S i + length (c2 :: t)) by (simpl; lia).
      reflexivity.
Qed.

Lemma plain_dq : plain dq.
Proof.
  split; [reflexivity|]. intros c. unfold escape_text_char.
  repeat match goal with |- context [if ?b then _ else _] => destruct b end;
    simpl; intuition (try discriminate; congruence).
Qed.

Lemma plain_sq : plain sq.
Proof.
  split; [reflexivity|]. intros c. unfold escape_text_char.
  repeat match goal with |- context [if ?b then _ else _] => destruct b end;
    simpl; intuition (try discriminate; congruence).
Qed.

Lemma plain_star : plain star.
Proof.
  split; [reflexivity|]. intros c. unfold escape_text_char.
  repeat match goal with |- context [if ?b then _ else _] => destruct b end;
    simpl; intuition (try discriminate; congruence).
Qed.

Lemma known_tag_cases (t : str) :
  In t known_tags -> t = T_dialogue \/ t = T_thoughts \/ t = T_emphasis \/ t = T_close.
Proof. simpl. intuition. Qed.

Lemma known_tag_safe (t : str) :
  In t known_tags ->
  safe t = true /\ t <> []
  /\ Forall (fun c => c <> sq) t /\ Forall (fun c => c <> star) t.
Proof.
  intros H. apply known_tag_cases in H.
  destruct H as [-> | [-> | [-> | ->]]];
    (split; [reflexivity|]); (split; [discriminate|]);
    split; vm_compute; repeat constructor; discriminate.
Qed.

Lemma tags_ok_free (d : N) (xs : list item) :
  d = sq \/ d = star -> Forall tag_ok xs -> Forall (tag_free d) xs.
Proof.
  intros Hd H. eapply Forall_impl; [exact H|]. intros [c|t] Hx; simpl in *; [exact I|].
  destruct (known_tag_safe t Hx) as (_ & _ & H1 & H2). destruct Hd; subst d; assumption.
Qed.

(** An item is a single quote, a whitespace unit written as itself, or
    markup that is copied. *)
Lemma item_cases_thoughts (x : item) :
  tag_ok x ->
  x = Ch sq
  \/ (exists w, x = Ch w /\ is_ws w = true /\ escape_text_char w = [w])
  \/ (safe (render_item x) = true /\ render_item x <> []).
Proof.
  destruct x as [c|t]; simpl; intros Hx.
  - unfold escape_text_char.
    destruct (N.eqb_spec c amp); [right; right; split; [reflexivity | discriminate]|].
    destruct (N.eqb_spec c nbsp); [right; right; split; [reflexivity | discriminate]|].
    destruct (N.eqb_spec c lt); [right; right; split; [reflexivity | discriminate]|].
    destruct (N.eqb_spec c gt); [right; right; split; [reflexivity | discriminate]|].
    destruct (N.eqb_spec c sq) as [->|Hsq]; [now left|].
    destruct (is_ws c) eqn:Hws.
    + right; left. exists c. repeat split; [exact Hws|].
      unfold escape_text_char.
      destruct (N.eqb_spec c amp); [contradiction|].
      destruct (N.eqb_spec c nbsp); [contradiction|].
      destruct (N.eqb_spec c lt); [contradiction|].
      destruct (N.eqb_spec c gt); [contradiction | reflexivity].
    + right; right. split; [|discriminate]. cbn [safe]. rewrite Hws.
      destruct (N.eqb_spec c sq); [contradiction | reflexivity].
  - right; right. destruct (known_tag_safe t Hx) as (H1 & H2 & _). auto.
Qed.

(** Markup that starts with a single quote starts with the item of one. *)
Lemma render_head_sq (xs : list item) (r : str) :
  Forall tag_ok xs -> render xs = sq :: r ->
  exists xs', xs = Ch sq :: xs' /\ render xs' = r.
Proof.
  intros Hok Hr. destruct xs as [|x xs]; [discriminate|].
  apply Forall_cons in Hok. destruct Hok as [Hx _]. rewrite render_cons in Hr.
  destruct x as [c|t].
  - simpl in Hr. unfold escape_text_char in Hr.
    destruct (N.eqb_spec c amp); [discriminate|].
    destruct (N.eqb_spec c nbsp); [discriminate|].
    destruct (N.eqb_spec c lt); [discriminate|].
    destruct (N.eqb_spec c gt); [discriminate|].
    injection Hr as -> Hr. now exists xs.
  - simpl in Hx. apply known_tag_cases in Hx.
    destruct Hx as [-> | [-> | [-> | ->]]]; discriminate.
Qed.

(** The thoughts step of the current formatter, on items. *)
Lemma thoughts_stage :
  forall n xs i,
    length xs <= n -> Forall tag_ok xs ->
    exists ys,
      replace_from Formatter.re_thoughts thoughts_callback 0 i (render xs) = render ys
      /\ thought_wrapped (i =? 0)%nat xs ys.
Proof.
  induction n as [|n IH]; intros xs i Hn Hok.
  - destruct xs; [|simpl in Hn; lia]. exists []. split; [|constructor].
    cbn [render flat_map replace_from]. now rewrite exec_thoughts_nil.
  - destruct xs as [|x xs].
    { exists []. split; [|constructor].
      cbn [render flat_map replace_from]. now rewrite exec_thoughts_nil. }
    pose proof Hok as Hok'.
    apply Forall_cons in Hok. destruct Hok as [Hx Hok]. simpl in Hn.
    assert (Hfree : Forall (tag_free sq) xs) by (apply tags_ok_free; auto).
    rewrite render_cons.
    assert (Hkeep : forall c, render_item x = [c] ->
              exec Formatter.re_thoughts i (c :: render xs) = None ->
              exists ys,
                replace_from Formatter.re_thoughts thoughts_callback 0 i ([c] ++ render xs)
                = render ys /\ thought_wrapped (i =? 0)%nat (x :: xs) ys).
    { intros c Hc He. destruct (IH xs (S i)) as (ys & Hys & Hw); [lia | exact Hok |].
      exists (x :: ys). split.
      - rewrite replace_from_eq. cbn [app]. rewrite He, Hys, render_cons, Hc. reflexivity.
      - now constructor. }
    destruct (item_cases_thoughts x Hx) as [->|[(w & -> & Hws & Hw)|[Hsafe Hne]]].
    + (* a single quote *)
      replace (render_item (Ch sq)) with [sq] by reflexivity.
      destruct (exec Formatter.re_thoughts i (sq :: render xs)) as [[len cs]|] eqn:He;
        [|now apply Hkeep].
      rewrite replace_from_eq. cbn [app]. rewrite He.
      apply exec_thoughts_sound in He.
      destruct He as [(-> & content & rest' & Hr & Hcne & Hc & -> & Hg1 & Hg2)
                     |(w & content & rest' & Hws & Hr & _)].
      2:{ injection Hr as <- _. discriminate. }
      injection Hr as Hr.
      destruct (align_first sq plain_sq xs content rest' Hfree Hr Hc)
        as (cx & xs2 & -> & <- & <-).
      destruct (IH xs2 (0 + S (S (length (render cx))))) as (ys2 & Hys & Hw).
      { rewrite length_app in Hn. simpl in Hn. lia. }
      { apply Forall_app in Hok. destruct Hok as [_ Hok].
        apply Forall_cons in Hok. now destruct Hok. }
      exists (Tag T_thoughts :: Ch sq :: cx ++ Ch sq :: Tag T_close :: ys2). split.
      * rewrite Hr.
        replace (skipn (S (S (length (render cx)))) (sq :: render cx ++ sq :: render xs2))
          with (render xs2).
        2:{ cbn [skipn]. replace (render cx ++ sq :: render xs2)
              with ((render cx ++ [sq]) ++ render xs2) by now rewrite <- app_assoc.
            replace (S (length (render cx))) with (length (render cx ++ [sq]))
              by (rewrite length_app; simpl; lia).
            now rewrite drop_app_length. }
        rewrite Hys. unfold thoughts_callback, Formatter.grp. rewrite Hg1, Hg2.
        rewrite !render_cons, render_app, !render_cons. cbn [render_item].
        change (escape_text_char sq) with [sq]. unfold T_thoughts, T_close.
        rewrite <- !app_assoc. reflexivity.
      * apply thought_start; [|exact Hw]. intros ->. now apply Hcne.
    + (* a whitespace unit *)
      change (render_item (Ch w)) with (escape_text_char w) in *. rewrite Hw in *.
      destruct (exec Formatter.re_thoughts i (w :: render xs)) as [[len cs]|] eqn:He;
        [|apply Hkeep; [reflexivity | exact He]].
      rewrite replace_from_eq. cbn [app]. rewrite He.
      apply exec_thoughts_sound in He.
      destruct He as [(-> & content & rest' & Hr & _)
                     |(w' & content & rest' & _ & Hr & Hcne & Hc & -> & Hg1 & Hg2)].
      { injection Hr as -> _. discriminate. }
      injection Hr as <- Hr.
      destruct (render_head_sq xs _ Hok Hr) as (xs' & -> & Hr').
      apply Forall_cons in Hok. destruct Hok as [_ Hok].
      apply Forall_cons in Hfree. destruct Hfree as [_ Hfree].
      destruct (align_first sq plain_sq xs' content rest' Hfree Hr' Hc)
        as (cx & xs2 & -> & <- & <-).
      destruct (IH xs2 (i + S (S (S (length (render cx)))))) as (ys2 & Hys & Hwr).
      { simpl in Hn. rewrite length_app in Hn. simpl in Hn. lia. }
      { apply Forall_app in Hok. destruct Hok as [_ Hok].
        apply Forall_cons in Hok. now destruct Hok. }
      replace (i + S (S (S (length (render cx)))) =? 0)%nat with false in Hwr
        by (symmetry; apply Nat.eqb_neq; lia).
      exists (Ch w :: Tag T_thoughts :: Ch sq :: cx ++ Ch sq :: Tag T_close :: ys2). split.
      * rewrite Hr.
        replace (skipn (S (S (S (length (render cx)))))
                       (w :: sq :: render cx ++ sq :: render xs2))
          with (render xs2).
        2:{ cbn [skipn]. replace (render cx ++ sq :: render xs2)
              with ((render cx ++ [sq]) ++ render xs2) by now rewrite <- app_assoc.
            replace (S (length (render cx))) with (length (render cx ++ [sq]))
              by (rewrite length_app; simpl; lia).
            now rewrite drop_app_length. }
        rewrite Hys. unfold thoughts_callback, Formatter.grp. rewrite Hg1, Hg2.
        rewrite !render_cons, render_app, !render_cons. cbn [render_item].
        rewrite Hw. change (escape_text_char sq) with [sq]. unfold T_thoughts, T_close.
        rewrite <- !app_assoc. reflexivity.
      * apply thought_ws; auto. intros ->. now apply Hcne.
    + (* markup that is copied *)
      rewrite replace_copy_thoughts by exact Hsafe.
      destruct (IH xs (i + length (render_item x))) as (ys & Hys & Hw); [lia | exact Hok |].
      replace (i + length (render_item x) =? 0)%nat with false in Hw.
      2:{ symmetry. apply Nat.eqb_neq. destruct (render_item x); [contradiction|simpl; lia]. }
      exists (x :: ys). split.
      * now rewrite render_cons, Hys.
      * now constructor.
Qed.

(** *** What the relations preserve *)

Lemma chars_keep_item (keep : bool) (d : N) :
  chars (keep_item keep d) = if keep then [d] else [].
Proof. now destruct keep. Qed.

Lemma chars_Ch (c : N) (xs : list item) : chars (Ch c :: xs) = c :: chars xs.
Proof. reflexivity. Qed.

Lemma chars_Tag (t : str) (xs : list item) : chars (Tag t :: xs) = chars xs.
Proof. reflexivity. Qed.

Lemma chars_cons (x : item) (xs : list item) : chars (x :: xs) = chars [x] ++ chars xs.
Proof. apply (chars_app [x] xs). Qed.

Ltac chars_norm := repeat (rewrite chars_Ch || rewrite chars_Tag || rewrite chars_app).

Lemma wrapped_chars (d : N) (open : str) (xs ys : list item) :
  wrapped d open true xs ys -> chars ys = chars xs.
Proof.
  induction 1 as [|x xs ys _ IH|cx xs ys _ _ IH]; [reflexivity| |].
  - now rewrite (chars_cons x ys), (chars_cons x xs), IH.
  - cbn [keep_item app]. chars_norm. now rewrite IH.
Qed.

Lemma drop_unit_app (d : N) (a b : str) :
  drop_unit d (a ++ b) = drop_unit d a ++ drop_unit d b.
Proof. unfold drop_unit. apply List.filter_app. Qed.

Lemma drop_unit_cons_same (d : N) (s : str) : drop_unit d (d :: s) = drop_unit d s.
Proof. unfold drop_unit. simpl. now rewrite N.eqb_refl. Qed.

(** Without the delimiters kept, the text is the same up to some of them. *)
Lemma wrapped_chars_dropped (d : N) (open : str) (xs ys : list item) :
  wrapped d open false xs ys ->
  drop_unit d (chars ys) = drop_unit d (chars xs)
  /\ (Forall (fun c => c <> d) (chars xs) -> ys = xs).
Proof.
  induction 1 as [|x xs ys _ [IH1 IH2]|cx xs ys _ _ [IH1 IH2]].
  - split; reflexivity.
  - split.
    + now rewrite (chars_cons x ys), (chars_cons x xs), !drop_unit_app, IH1.
    + intros Hall. rewrite chars_cons in Hall.
      apply Forall_app in Hall. destruct Hall as [_ Hall]. now rewrite IH2.
  - split.
    + cbn [keep_item app]. chars_norm.
      rewrite drop_unit_cons_same, !drop_unit_app, drop_unit_cons_same, IH1. reflexivity.
    + intros Hall. rewrite chars_Ch in Hall.
      apply Forall_cons in Hall. now destruct Hall.
Qed.

Lemma wrapped_tag_ok (d : N) (open : str) (keep : bool) (xs ys : list item) :
  In open known_tags ->
  wrapped d open keep xs ys -> Forall tag_ok xs -> Forall tag_ok ys.
Proof.
  intros Ho. induction 1 as [|x xs ys _ IH|cx xs ys _ _ IH]; intros Hok.
  - constructor.
  - apply Forall_cons in Hok. destruct Hok. constructor; auto.
  - apply Forall_cons in Hok. destruct Hok as [_ Hok].
    apply Forall_app in Hok. destruct Hok as [Hcx Hok].
    apply Forall_cons in Hok. destruct Hok as [_ Hok].
    constructor; [exact Ho|].
    apply Forall_app. split; [destruct keep; repeat constructor|].
    apply Forall_app. split; [exact Hcx|].
    apply Forall_app. split; [destruct keep; repeat constructor|].
    constructor; [simpl; tauto | now apply IH].
Qed.

Lemma wrapped_no_thoughts (d : N) (open : str) (keep : bool) (xs ys : list item) :
  open <> T_thoughts ->
  wrapped d open keep xs ys -> no_thoughts xs -> no_thoughts ys.
Proof.
  intros Ho. unfold no_thoughts.
  induction 1 as [|x xs ys _ IH|cx xs ys _ _ IH]; intros Hok.
  - constructor.
  - apply Forall_cons in Hok. destruct Hok. constructor; auto.
  - apply Forall_cons in Hok. destruct Hok as [_ Hok].
    apply Forall_app in Hok. destruct Hok as [Hcx Hok].
    apply Forall_cons in Hok. destruct Hok as [_ Hok].
    constructor; [congruence|].
    apply Forall_app. split; [destruct keep; repeat constructor; discriminate|].
    apply Forall_app. split; [exact Hcx|].
    apply Forall_app. split; [destruct keep; repeat constructor; discriminate|].
    constructor; [discriminate | now apply IH].
Qed.

Lemma thought_wrapped_chars (b : bool) (xs ys : list item) :
  thought_wrapped b xs ys -> chars ys = chars xs.
Proof.
  induction 1 as [b|b x xs ys _ IH|cx xs ys _ _ IH|b w cx xs ys _ _ _ _ IH].
  - reflexivity.
  - now rewrite (chars_cons x ys), (chars_cons x xs), IH.
  - chars_norm. now rewrite IH.
  - chars_norm. now rewrite IH.
Qed.

Lemma thought_wrapped_tag_ok (b : bool) (xs ys : list item) :
  thought_wrapped b xs ys -> Forall tag_ok xs -> Forall tag_ok ys.
Proof.
  induction 1 as [b|b x xs ys _ IH|cx xs ys _ _ IH|b w cx xs ys _ _ _ _ IH]; intros Hok.
  - constructor.
  - apply Forall_cons in Hok. destruct Hok. constructor; auto.
  - apply Forall_cons in Hok. destruct Hok as [_ Hok].
    apply Forall_app in Hok. destruct Hok as [Hcx Hok].
    apply Forall_cons in Hok. destruct Hok as [_ Hok].
    constructor; [simpl; tauto|]. constructor; [exact I|].
    apply Forall_app. split; [exact Hcx|].
    constructor; [exact I|]. constructor; [simpl; tauto | now apply IH].
  - apply Forall_cons in Hok. destruct Hok as [_ Hok].
    apply Forall_cons in Hok. destruct Hok as [_ Hok].
    apply Forall_app in Hok. destruct Hok as [Hcx Hok].
    apply Forall_cons in Hok. destruct Hok as [_ Hok].
    constructor; [exact I|]. constructor; [simpl; tauto|]. constructor; [exact I|].
    apply Forall_app. split; [exact Hcx|].
    constructor; [exact I|]. constructor; [simpl; tauto | now apply IH].
Qed.

(** *** The guard of the thoughts pattern *)

Lemma last_item_cons (p : option item) (x : item) (l : list item) :
  last_item p (x :: l) = last_item (Some x) l.
Proof. reflexivity. Qed.

Lemma last_item_snoc (p : option item) (l : list item) (x : item) :
  last_item p (l ++ [x]) = Some x.
Proof. unfold last_item. now rewrite fold_left_app. Qed.

Lemma guarded_app_no (l r : list item) :
  no_thoughts l -> forall p, guarded (last_item p l) r -> guarded p (l ++ r).
Proof.
  induction 1 as [|x l Hx _ IH]; intros p Hr; [exact Hr|].
  simpl. split; [intros ->; contradiction|]. apply IH. exact Hr.
Qed.

Lemma no_thoughts_app (a b : list item) :
  no_thoughts (a ++ b) <-> no_thoughts a /\ no_thoughts b.
Proof. apply Forall_app. Qed.

Lemma thought_wrapped_guarded (b : bool) (xs ys : list item) :
  thought_wrapped b xs ys -> no_thoughts xs ->
  forall p, (b = true -> p = None) -> guarded p ys.
Proof.
  induction 1 as [b|b x xs ys _ IH|cx xs ys _ _ IH|b w cx xs ys Hws Hw _ _ IH];
    intros Hno p Hp.
  - exact I.
  - apply Forall_cons in Hno. destruct Hno as [Hx Hno].
    simpl. split; [intros ->; contradiction|]. apply IH; [exact Hno | discriminate].
  - apply Forall_cons in Hno. destruct Hno as [_ Hno].
    apply no_thoughts_app in Hno. destruct Hno as [Hcx Hno].
    apply Forall_cons in Hno. destruct Hno as [_ Hno].
    rewrite (Hp eq_refl). simpl. split; [intros _; split; [now left | eauto]|].
    split; [discriminate|].
    replace (cx ++ Ch sq :: Tag T_close :: ys) with ((cx ++ [Ch sq; Tag T_close]) ++ ys)
      by now rewrite <- app_assoc.
    apply guarded_app_no.
    + apply no_thoughts_app. split; [exact Hcx|]. repeat constructor; discriminate.
    + apply IH; [exact Hno | discriminate].
  - apply Forall_cons in Hno. destruct Hno as [_ Hno].
    apply Forall_cons in Hno. destruct Hno as [_ Hno].
    apply no_thoughts_app in Hno. destruct Hno as [Hcx Hno].
    apply Forall_cons in Hno. destruct Hno as [_ Hno].
    simpl. split; [discriminate|].
    split; [intros _; split; [right; eauto | eauto]|].
    split; [discriminate|].
    replace (cx ++ Ch sq :: Tag T_close :: ys) with ((cx ++ [Ch sq; Tag T_close]) ++ ys)
      by now rewrite <- app_assoc.
    apply guarded_app_no.
    + apply no_thoughts_app. split; [exact Hcx|]. repeat constructor; discriminate.
    + apply IH; [exact Hno | discriminate].
Qed.

Lemma okprev_transfer (p p' : option item) :
  p = p' \/ p = Some (Ch star) -> okprev p -> okprev p'.
Proof.
  intros [<- | ->] H; [exact H|].
  destruct H as [H|(w & [= <-] & Hws & _)]; discriminate.
Qed.

Lemma wrapped_head_Ch (d : N) (open : str) (keep : bool) (c : N) (xs ys : list item) :
  wrapped d open keep (Ch c :: xs) ys -> c <> d -> exists ys', ys = Ch c :: ys'.
Proof.
  intros H Hc. inversion H; subst; [eauto | contradiction].
Qed.

Section Emphasis.
Variable open : str.
Hypothesis Hopen : open <> T_thoughts.

Let transfer (xs ys : list item) : Prop :=
  forall p p', p = p' \/ p = Some (Ch star) -> guarded p xs -> guarded p' ys.

Lemma guarded_mid (xs1 ys1 : list item) :
  transfer xs1 ys1 ->
  forall cx q q',
    q = q' \/ q = Some (Ch star) ->
    guarded q (cx ++ Ch star :: xs1) ->
    guarded q' (cx ++ Tag T_close :: ys1).
Proof.
  intros IH. induction cx as [|x cx IHcx]; intros q q' Hq Hg; simpl in *.
  - destruct Hg as [_ Hg]. split; [discriminate|]. apply (IH (Some (Ch star))); auto.
  - destruct Hg as [Hx Hg]. split.
    + intros ->. destruct (Hx eq_refl) as [Hp [xs'' Hnext]]. split.
      * eapply okprev_transfer; eauto.
      * destruct cx as [|y cx]; simpl in *; [discriminate|].
        injection Hnext as -> _. eauto.
    + apply (IHcx (Some x)); auto.
Qed.

Lemma wrapped_guarded (xs ys : list item) :
  wrapped star open false xs ys -> transfer xs ys.
Proof.
  induction 1 as [|x xs ys Hw IH|cx xs ys _ _ IH]; intros p p' Hp Hg.
  - exact I.
  - simpl in *. destruct Hg as [Hx Hg]. split.
    + intros ->. destruct (Hx eq_refl) as [Hok [xs'' ->]]. split.
      * eapply okprev_transfer; eauto.
      * destruct (wrapped_head_Ch _ _ _ _ _ _ Hw) as [ys' ->]; [discriminate|]. eauto.
    + apply (IH (Some x)); auto.
  - cbn [keep_item app]. simpl in Hg. destruct Hg as [_ Hg].
    simpl. split; [intros [= E]; contradiction|].
    apply (guarded_mid xs ys IH cx (Some (Ch star))); auto.
Qed.

End Emphasis.

(** *** The three steps of the current formatter *)

Lemma escape_text_render (text : str) : escape_text text = render (map Ch text).
Proof.
  induction text as [|c t IH]; [reflexivity|].
  unfold escape_text in *. simpl. rewrite IH. reflexivity.
Qed.

Lemma escapeHtml_render (text : str) : Formatter.escapeHtml text = render (map Ch text).
Proof.
  unfold Formatter.escapeHtml, set_textContent. destruct text as [|c t]; [reflexivity|].
  cbn [childNodes innerHTML flat_map serialize_node]. rewrite app_nil_r.
  apply escape_text_render.
Qed.

Lemma chars_map_Ch (text : str) : chars (map Ch text) = text.
Proof. induction text as [|c t IH]; [reflexivity|]. rewrite map_cons, chars_Ch. now f_equal. Qed.

Lemma formatted_items (text : str) :
  exists xs1 xs2 xs3,
    Formatter.formatted text = render xs3
    /\ wrapped dq T_dialogue true (map Ch text) xs1
    /\ thought_wrapped true xs1 xs2
    /\ wrapped star T_emphasis false xs2 xs3.
Proof.
  destruct (delim_stage dq T_dialogue true plain_dq (length (map Ch text)) (map Ch text) 0)
    as (xs1 & H1 & W1); [lia | |].
  { apply List.Forall_forall. intros x Hx. apply in_map_iff in Hx.
    destruct Hx as (c & <- & _). exact I. }
  assert (Hok1 : Forall tag_ok xs1).
  { eapply wrapped_tag_ok; [|exact W1|]; [simpl; tauto|].
    apply List.Forall_forall. intros x Hx. apply in_map_iff in Hx.
    destruct Hx as (c & <- & _). exact I. }
  destruct (thoughts_stage (length xs1) xs1 0) as (xs2 & H2 & W2); [lia | exact Hok1 |].
  assert (Hok2 : Forall tag_ok xs2) by (eapply thought_wrapped_tag_ok; eauto).
  destruct (delim_stage star T_emphasis false plain_star (length xs2) xs2 0)
    as (xs3 & H3 & W3); [lia | apply tags_ok_free; auto |].
  exists xs1, xs2, xs3. split; [|auto].
  unfold Formatter.formatted, Formatter.format_emphasis, Formatter.format_thoughts,
    Formatter.format_dialogue, replace_g.
  rewrite escapeHtml_render.
  change (replace_from Formatter.re_dialogue _ 0 0 (render (map Ch text)))
    with (replace_from (delim dq) (wrap T_dialogue true dq) 0 0 (render (map Ch text))).
  rewrite H1.
  change (replace_from Formatter.re_thoughts _ 0 0 (render xs1))
    with (replace_from Formatter.re_thoughts thoughts_callback 0 0 (render xs1)).
  rewrite H2. exact H3.
Qed.

(** *** Where a thoughts span can start *)

Lemma no_lt_in_escape (c : N) : ~ In lt (escape_text_char c).
Proof.
  unfold escape_text_char.
  destruct (N.eqb_spec c amp); [vm_compute; intuition discriminate|].
  destruct (N.eqb_spec c nbsp); [vm_compute; intuition discriminate|].
  destruct (N.eqb_spec c lt); [vm_compute; intuition discriminate|].
  destruct (N.eqb_spec c gt); [vm_compute; intuition discriminate|].
  simpl. intuition.
Qed.

Lemma known_tag_lt (t : str) :
  In t known_tags -> exists t', t = lt :: t' /\ ~ In lt t'.
Proof.
  intros H. apply known_tag_cases in H.
  destruct H as [-> | [-> | [-> | ->]]]; eexists; (split; [reflexivity|]);
    vm_compute; intuition discriminate.
Qed.

Lemma tag_prefix_unique (t r post : str) :
  In t known_tags -> t ++ r = T_thoughts ++ post -> t = T_thoughts /\ r = post.
Proof.
  intros H E. apply known_tag_cases in H.
  destruct H as [-> | [-> | [-> | ->]]]; try (vm_compute in E; discriminate).
  split; [reflexivity|]. now apply app_inv_head in E.
Qed.

(** An occurrence of the thoughts start tag in the markup is an item. *)
Lemma align_tag (ws : list item) :
  Forall tag_ok ws ->
  forall pre post,
    render ws = pre ++ T_thoughts ++ post ->
    exists ws1 ws2, ws = ws1 ++ Tag T_thoughts :: ws2
                    /\ render ws1 = pre /\ render ws2 = post.
Proof.
  induction 1 as [|x ws Hx Hok IH]; intros pre post Hr.
  - destruct pre; discriminate.
  - rewrite render_cons in Hr.
    change (T_thoughts ++ post) with (lt :: skipn 1 T_thoughts ++ post) in Hr.
    apply app_split_mid in Hr. destruct Hr as [(l2a & Hr & Hrest)|(l1b & -> & Hr)].
    + destruct x as [c|t].
      * exfalso. apply (no_lt_in_escape c). simpl in Hr. rewrite Hr.
        apply in_or_app. right. now left.
      * simpl in Hr, Hx. destruct (known_tag_lt t Hx) as (t' & Ht & Hnot).
        assert (pre = []) as ->.
        { destruct pre as [|c pre]; [reflexivity|]. exfalso. apply Hnot.
          rewrite Ht in Hr. injection Hr as _ ->. apply in_or_app. right. now left. }
        simpl in Hr. destruct (tag_prefix_unique t (render ws) post Hx) as [-> <-].
        { rewrite Hr. cbn [app]. rewrite <- Hrest. reflexivity. }
        now exists [], ws.
    + destruct (IH l1b post Hr) as (ws1 & ws2 & -> & <- & <-).
      now exists (x :: ws1), ws2.
Qed.

Lemma guarded_at (ws1 ws2 : list item) :
  forall p, guarded p (ws1 ++ Tag T_thoughts :: ws2) ->
            okprev (last_item p ws1) /\ exists ws2', ws2 = Ch sq :: ws2'.
Proof.
  induction ws1 as [|x ws1 IH]; intros p Hg; simpl in Hg.
  - destruct Hg as [Hx _]. now apply Hx.
  - destruct Hg as [_ Hg]. rewrite last_item_cons. now apply IH.
Qed.

Lemma formatted_guarded (text : str) :
  exists ws, Formatter.formatted text = render ws /\ Forall tag_ok ws /\ guarded None ws.
Proof.
  destruct (formatted_items text) as (xs1 & xs2 & xs3 & Hf & W1 & W2 & W3).
  assert (Hok0 : Forall tag_ok (map Ch text)).
  { apply List.Forall_forall. intros x Hx. apply in_map_iff in Hx.
    destruct Hx as (c & <- & _). exact I. }
  assert (Hno0 : no_thoughts (map Ch text)).
  { apply List.Forall_forall. intros x Hx. apply in_map_iff in Hx.
    destruct Hx as (c & <- & _). discriminate. }
  assert (Hok1 : Forall tag_ok xs1) by (eapply wrapped_tag_ok; [|exact W1|exact Hok0]; simpl; tauto).
  assert (Hno1 : no_thoughts xs1) by (eapply wrapped_no_thoughts; [|exact W1|exact Hno0]; discriminate).
  assert (Hok2 : Forall tag_ok xs2) by (eapply thought_wrapped_tag_ok; eauto).
  assert (Hok3 : Forall tag_ok xs3) by (eapply wrapped_tag_ok; [|exact W3|exact Hok2]; simpl; tauto).
  exists xs3. split; [exact Hf|]. split; [exact Hok3|].
  eapply (wrapped_guarded T_emphasis); [discriminate | exact W3 | left; reflexivity |].
  eapply thought_wrapped_guarded; eauto.
Qed.

Lemma format_thoughts_at_start (content rest : str) :
  content <> [] -> Forall (fun c => c <> sq) content ->
  exists tail,
    Formatter.format_thoughts (sq :: content ++ sq :: rest)
    = T_thoughts ++ sq :: content ++ sq :: T_close ++ tail.
Proof.
  intros Hne Hc. unfold Formatter.format_thoughts, replace_g.
  rewrite replace_from_eq.
  assert (He : exec Formatter.re_thoughts 0 (sq :: content ++ sq :: rest)
               = Some (S (S (length content)), [(2, content); (1, [])])).
  { unfold exec, Formatter.re_thoughts.
    change (m (Cat (Grp 1 (Alt Bol (Cls is_ws))) ?r) 0 ?s [] ?k)
      with (match m r 0 s [(1, firstn (0 - 0) s)] k with
            | Some x => Some x
            | None => None
            end).
    erewrite m_delim_complete; [reflexivity | exact Hne | exact Hc |].
    cbn. reflexivity. }
  rewrite He. cbn [Formatter.grp group Nat.eqb app].
  unfold T_thoughts, T_close. rewrite <- !app_assoc. cbn [app].
  rewrite <- !app_assoc. cbn [app]. eexists. reflexivity.
Qed.

(** C4, for the current realtime formatter.  Wherever its markup has a
    thoughts start tag, the tag is at the very start or after a whitespace
    unit, and the opening single quote follows; a run between two single
    quotes at the start of the text is wrapped whatever follows its closing
    quote; and in the example of the specification the apostrophe of the
    contraction stays plain while the quoted word is wrapped. *)
Theorem thoughts_guard :
  (forall text pre post,
     Formatter.formatted text = pre ++ T_thoughts ++ post ->
     (pre = [] \/ exists pre' w, pre = pre' ++ [w] /\ is_ws w = true)
     /\ exists post', post = sq :: post')
  /\ (forall content rest,
        content <> [] -> Forall (fun c => c <> sq) content ->
        exists tail,
          Formatter.format_thoughts (sq :: content ++ sq :: rest)
          = T_thoughts ++ sq :: content ++ sq :: T_close ++ tail)
  /\ Formatter.formatted Samples.contraction_example
     = lit "He said don't go. " ++ T_thoughts ++ lit "'Never,'" ++ T_close
       ++ lit " she whispered.".
Proof.
  split; [|split; [exact format_thoughts_at_start | vm_compute; reflexivity]].
  intros text pre post Hf.
  destruct (formatted_guarded text) as (ws & Hr & Hok & Hg).
  rewrite Hr in Hf.
  destruct (align_tag ws Hok pre post Hf) as (ws1 & ws2 & -> & <- & <-).
  destruct (guarded_at ws1 ws2 None Hg) as [Hp [ws2' ->]].
  split; [|now exists (render ws2')].
  destruct ws1 as [|x ws1] using rev_ind; [now left|]. right.
  rewrite last_item_snoc in Hp.
  destruct Hp as [|(w & [= ->] & Hws & Hw)]; [discriminate|].
  exists (render ws1), w. split; [|exact Hws].
  rewrite render_app. simpl. rewrite Hw. reflexivity.
Qed.

Lemma thoughts_guard_witness :
  (exists pre' w, lit "He said don't go. " = pre' ++ [w] /\ is_ws w = true)
  /\ exists tail,
       Formatter.format_thoughts (lit "'Never,'x")
       = T_thoughts ++ lit "'Never,'" ++ T_close ++ tail.
Proof.
  destruct thoughts_guard as (H1 & H2 & _). split.
  - destruct (H1 Samples.contraction_example (lit "He said don't go. ")
                 (lit "'Never,'" ++ T_close ++ lit " she whispered.")) as [[H|H] _].
    + vm_compute. reflexivity.
    + discriminate.
    + exact H.
  - destruct (H2 (lit "Never,") (lit "x")) as [tail Ht].
    + discriminate.
    + vm_compute. repeat constructor; discriminate.
    + exists tail. exact Ht.
Defined.

(** C4 as stated fails outside the current realtime formatter: the preview
    formatter opens a thoughts span at the apostrophe of the contraction and
    leaves the quoted word out, and the earlier realtime formatter wraps
    nothing at all. *)
Lemma thoughts_guard_not_in_every_variant :
  Preview.formatText Samples.contraction_example Samples.sample_colors
  = lit "<p>He said don" ++ Preview.span_open "thoughts" (lit "#3498db")
    ++ lit "'t go. '" ++ Preview.span_close ++ lit "Never,' she whispered.</p>"
  /\ FormatterOld.formatted Samples.contraction_example = Samples.contraction_example.
Proof. split; vm_compute; reflexivity. Qed.

(** *** Parsing the markup back *)

Lemma tokenize_tag (t : str) (rest : str) :
  In t known_tags ->
  tokenize SData (t ++ rest) = option_map (cons (token_of (Tag t))) (tokenize SData rest).
Proof.
  intros H. apply known_tag_cases in H.
  destruct H as [-> | [-> | [-> | ->]]]; vm_compute; reflexivity.
Qed.

Lemma tokenize_char (c : N) (rest : str) :
  c <> nul ->
  tokenize SData (escape_text_char c ++ rest)
  = option_map (cons (TChar c)) (tokenize SData rest).
Proof.
  intros Hc. unfold escape_text_char.
  destruct (N.eqb_spec c amp) as [->|Ha]; [reflexivity|].
  destruct (N.eqb_spec c nbsp) as [->|Hn]; [reflexivity|].
  destruct (N.eqb_spec c lt) as [->|Hl]; [reflexivity|].
  destruct (N.eqb_spec c gt) as [->|Hg]; [reflexivity|].
  cbn [app tokenize].
  destruct (N.eqb_spec c amp); [contradiction|].
  destruct (N.eqb_spec c lt); [contradiction|].
  destruct (N.eqb_spec c nul); [contradiction | reflexivity].
Qed.

Lemma tokenize_render (xs : list item) :
  Forall tag_ok xs -> Forall (fun c => c <> nul) (chars xs) ->
  tokenize SData (render xs) = Some (map token_of xs).
Proof.
  induction 1 as [|x xs Hx _ IH]; intros Hc; [reflexivity|].
  rewrite render_cons. destruct x as [c|t].
  - rewrite chars_Ch in Hc. apply Forall_cons in Hc. destruct Hc as [Hc Hcs].
    cbn [render_item]. rewrite tokenize_char by exact Hc. now rewrite IH.
  - rewrite chars_Tag in Hc. cbn [render_item]. rewrite tokenize_tag by exact Hx.
    now rewrite IH.
Qed.

Lemma normalize_no_cr (s : str) : Forall (fun c => c <> cr) s -> normalize_newlines s = s.
Proof.
  induction 1 as [|c s Hc _ IH]; [reflexivity|]. simpl.
  destruct (N.eqb_spec c cr); [contradiction|]. now rewrite IH.
Qed.

Lemma render_no_cr (xs : list item) :
  Forall tag_ok xs -> Forall (fun c => c <> cr) (chars xs) ->
  Forall (fun c => c <> cr) (render xs).
Proof.
  induction 1 as [|x xs Hx _ IH]; intros Hc; [constructor|].
  rewrite render_cons. apply Forall_app. destruct x as [c|t].
  - rewrite chars_Ch in Hc. apply Forall_cons in Hc. destruct Hc as [Hc Hcs].
    split; [|now apply IH]. cbn [render_item]. unfold escape_text_char.
    repeat match goal with |- context [if ?b then _ else _] => destruct b end;
      repeat constructor; try discriminate; exact Hc.
  - rewrite chars_Tag in Hc. split; [|now apply IH]. cbn [render_item].
    simpl in Hx. apply known_tag_cases in Hx.
    destruct Hx as [-> | [-> | [-> | ->]]]; vm_compute; repeat constructor; discriminate.
Qed.

Lemma textContent_snoc (l : list node) (n : node) :
  textContent (l ++ [n]) = textContent l ++ textContent_node n.
Proof.
  unfold textContent. rewrite flat_map_app. simpl. now rewrite app_nil_r.
Qed.

Lemma add_char_text (c : N) (cur : list node) :
  textContent (rev (add_char c cur)) = textContent (rev cur) ++ [c].
Proof.
  unfold add_char. destruct cur as [|[d|tag attrs cs] cur]; simpl.
  - reflexivity.
  - rewrite !textContent_snoc. simpl. now rewrite app_assoc.
  - now rewrite textContent_snoc.
Qed.

Lemma close_all_text (stack : list (str * list node)) :
  forall cur, textContent (close_all cur stack) = stack_text stack ++ textContent (rev cur).
Proof.
  induction stack as [|[cls parent] st IH]; intros cur; simpl; [reflexivity|].
  rewrite IH. simpl. rewrite textContent_snoc. unfold span. simpl.
  now rewrite app_assoc.
Qed.

(** The tree builder keeps the text of the character tokens, in order. *)
Lemma build_text (toks : list token) :
  forall cur stack,
    textContent (build toks cur stack)
    = stack_text stack ++ textContent (rev cur) ++ token_text toks.
Proof.
  induction toks as [|[c|cls|] toks IH]; intros cur stack; simpl.
  - rewrite close_all_text. now rewrite app_nil_r.
  - rewrite IH, add_char_text. now rewrite <- app_assoc.
  - rewrite IH. simpl. now rewrite app_assoc.
  - destruct stack as [|[cls parent] st].
    + now rewrite IH.
    + rewrite IH. simpl. rewrite textContent_snoc. unfold span. simpl.
      now rewrite !app_assoc.
Qed.

Lemma token_text_items (xs : list item) : token_text (map token_of xs) = chars xs.
Proof.
  induction xs as [|[c|t] xs IH]; [reflexivity| |].
  - rewrite chars_Ch. simpl. now rewrite IH.
  - rewrite chars_Tag. cbn [map]. unfold token_text in *. cbn [flat_map].
    rewrite IH. cbn [token_of]. repeat case_bool_decide; reflexivity.
Qed.

(** Markup of known tags around preserved text parses, and the text of the
    parsed nodes is the text of the items. *)
Lemma parse_render (xs : list item) :
  Forall tag_ok xs -> preserved (chars xs) ->
  exists cs, parse_fragment (render xs) = Some cs /\ textContent cs = chars xs.
Proof.
  intros Hok Hp. unfold parse_fragment.
  rewrite normalize_no_cr.
  2:{ apply render_no_cr; [exact Hok|]. eapply Forall_impl; [exact Hp|]. now intros c [_ H]. }
  rewrite tokenize_render; [|exact Hok|eapply Forall_impl; [exact Hp|]; now intros c [H _]].
  eexists. split; [reflexivity|].
  rewrite build_text. simpl. apply token_text_items.
Qed.

(** *** The text of the markup of the two realtime formatters *)

Lemma preserved_drop (d : N) (s : str) :
  d <> nul -> d <> cr -> (preserved (drop_unit d s) <-> preserved s).
Proof.
  intros Hn Hc. unfold preserved, drop_unit.
  induction s as [|c s IH]; [tauto|]. simpl.
  destruct (N.eqb_spec c d) as [->|Hne]; simpl.
  - rewrite IH. split; [intros H; constructor; auto|].
    intros H. apply Forall_cons in H. tauto.
  - split; intros H; apply Forall_cons in H; destruct H as [H1 H2];
      constructor; tauto.
Qed.

Lemma all_chars_ok (text : str) : Forall tag_ok (map Ch text).
Proof.
  apply List.Forall_forall. intros x Hx. apply in_map_iff in Hx.
  destruct Hx as (c & <- & _). exact I.
Qed.

(** The markup of the current realtime formatter is well formed, and its
    text is the input without the asterisks of the emphasis runs. *)
Lemma formatted_text (text : str) :
  preserved text ->
  exists xs,
    Formatter.formatted text = render xs
    /\ Forall tag_ok xs /\ preserved (chars xs)
    /\ drop_unit star (chars xs) = drop_unit star text
    /\ (Forall (fun c => c <> star) text -> chars xs = text).
Proof.
  intros Hp. destruct (formatted_items text) as (xs1 & xs2 & xs3 & Hf & W1 & W2 & W3).
  pose proof (wrapped_chars _ _ _ _ W1) as E1. rewrite chars_map_Ch in E1.
  pose proof (thought_wrapped_chars _ _ _ W2) as E2.
  destruct (wrapped_chars_dropped _ _ _ _ W3) as [E3 E3'].
  assert (Hok1 : Forall tag_ok xs1).
  { eapply wrapped_tag_ok; [|exact W1|apply all_chars_ok]. simpl; tauto. }
  assert (Hok2 : Forall tag_ok xs2) by (eapply thought_wrapped_tag_ok; eauto).
  assert (Hok3 : Forall tag_ok xs3).
  { eapply wrapped_tag_ok; [|exact W3|exact Hok2]. simpl; tauto. }
  assert (E : drop_unit star (chars xs3) = drop_unit star text) by congruence.
  exists xs3. repeat split; auto.
  - apply (preserved_drop star); [discriminate..|]. rewrite E.
    apply (preserved_drop star); [discriminate..|exact Hp].
  - intros Hs. rewrite E3'; congruence.
Qed.

Lemma replace_none (r : re) (f : str -> caps -> str) (i : nat) (c : N) (rest : str) :
  exec r i (c :: rest) = None ->
  replace_from r f 0 i (c :: rest) = c :: replace_from r f 0 (S i) rest.
Proof. intros H. simpl. now rewrite H. Qed.

Lemma entity_heads :
  Lit (lit "&quot;") = Cat (Cls (chr amp)) (Cat (Cls (chr 113%N)) (Lit (lit "uot;")))
  /\ Lit (lit "&#39;") = Cat (Cls (chr amp)) (Cat (Cls (chr 35%N)) (Lit (lit "39;"))).
Proof. split; reflexivity. Qed.

Lemma entity_no_match (r : re) (i : nat) (c : N) (rest : str) :
  entity_pattern r -> c <> amp -> exec r i (c :: rest) = None.
Proof.
  destruct entity_heads as [E1 E2].
  intros [-> | ->] Hc; unfold exec, FormatterOld.re_dialogue, FormatterOld.re_thoughts;
    rewrite ?E1, ?E2; cbn [m]; unfold chr;
    destruct (N.eqb_spec c amp); try reflexivity; contradiction.
Qed.

Lemma entity_no_match_amp (r : re) (i : nat) (c : N) (rest : str) :
  entity_pattern r -> c <> 113%N -> c <> 35%N -> exec r i (amp :: c :: rest) = None.
Proof.
  destruct entity_heads as [E1 E2].
  intros [-> | ->] Hq Hh; unfold exec, FormatterOld.re_dialogue, FormatterOld.re_thoughts;
    rewrite ?E1, ?E2; cbn [m]; unfold chr; rewrite N.eqb_refl.
  - destruct (N.eqb_spec c 113); [contradiction | reflexivity].
  - destruct (N.eqb_spec c 35); [contradiction | reflexivity].
Qed.

Lemma entity_no_match_nil (r : re) (i : nat) : entity_pattern r -> exec r i [] = None.
Proof. intros [-> | ->]; reflexivity. Qed.

Lemma entity_copy_char (r : re) (f : str -> caps -> str) (c : N) (rest : str) (i : nat) :
  entity_pattern r ->
  replace_from r f 0 i (escape_text_char c ++ rest)
  = escape_text_char c ++ replace_from r f 0 (length (escape_text_char c) + i) rest.
Proof.
  intros Hr. unfold escape_text_char.
  destruct (N.eqb_spec c amp) as [->|Ha];
    [|destruct (N.eqb_spec c nbsp) as [->|Hn];
      [|destruct (N.eqb_spec c lt) as [->|Hl];
        [|destruct (N.eqb_spec c gt) as [->|Hg]]]];
    repeat match goal with
           | |- context [lit ?s] =>
               let v := eval vm_compute in (lit s) in change (lit s) with v
           end;
    cbn [app length Nat.add];
    repeat (rewrite replace_none;
            [|first [apply entity_no_match_amp; [exact Hr|discriminate..]
                    |apply entity_no_match; [exact Hr|first [discriminate|assumption]]]]);
    reflexivity.
Qed.

Lemma entity_stage_id (r : re) (f : str -> caps -> str) (text : str) :
  entity_pattern r ->
  forall i, replace_from r f 0 i (render (map Ch text)) = render (map Ch text).
Proof.
  intros Hr. induction text as [|c t IH]; intros i.
  - simpl. now rewrite entity_no_match_nil.
  - rewrite map_cons, render_cons. cbn [render_item].
    now rewrite entity_copy_char, IH.
Qed.

(** The earlier formatter only ever wraps emphasis runs. *)
Lemma formatted_old_text (text : str) :
  preserved text ->
  exists xs,
    FormatterOld.formatted text = render xs
    /\ Forall tag_ok xs /\ preserved (chars xs)
    /\ drop_unit star (chars xs) = drop_unit star text
    /\ (Forall (fun c => c <> star) text -> chars xs = text).
Proof.
  intros Hp.
  destruct (delim_stage star T_emphasis false plain_star (length (map Ch text))
              (map Ch text) 0) as (xs & H & W);
    [lia | apply tags_ok_free; [auto | apply all_chars_ok] |].
  destruct (wrapped_chars_dropped _ _ _ _ W) as [E E']. rewrite chars_map_Ch in E, E'.
  exists xs. split; [|split; [|split; [|split]]].
  - unfold FormatterOld.formatted, FormatterOld.escapeHtml, replace_g.
    change (innerHTML (childNodes (set_textContent (Editor [] None) text)))
      with (Formatter.escapeHtml text).
    rewrite escapeHtml_render.
    rewrite (entity_stage_id FormatterOld.re_dialogue) by (left; reflexivity).
    rewrite (entity_stage_id FormatterOld.re_thoughts) by (right; reflexivity).
    exact H.
  - eapply wrapped_tag_ok; [|exact W|apply all_chars_ok]. simpl; tauto.
  - apply (preserved_drop star); [discriminate..|]. rewrite E.
    apply (preserved_drop star); [discriminate..|exact Hp].
  - exact E.
  - intros Hs. rewrite (E' Hs). apply chars_map_Ch.
Qed.

End MarkupFacts.

(** ** Settings and formatting preferences *)

Module LoadFacts.
Import Js Storage Provider Samples.

Lemma fold_binding (k : str) (ps : list (str * json)) (acc : option json) :
  fold_left (fun acc kv => if bool_decide (fst kv = k) then Some (snd kv) else acc) ps acc
  = match last_binding k ps with Some v => Some v | None => acc end.
Proof.
  unfold last_binding. revert acc.
  induction ps as [|[k' v] ps IH]; intros acc; simpl; [reflexivity|].
  rewrite IH. rewrite (IH (if bool_decide (k' = k) then Some v else None)).
  destruct (fold_left _ ps None); [reflexivity|].
  now case_bool_decide.
Qed.

Lemma lookup_fold_insert (ps : list (str * json)) (o : gmap str json) (k : str) :
  fold_left (fun o kv => <[fst kv := snd kv]> o) ps o !! k
  = match last_binding k ps with Some v => Some v | None => o !! k end.
Proof.
  revert o. induction ps as [|[k' v] ps IH]; intros o; simpl.
  - reflexivity.
  - rewrite IH. unfold last_binding at 2. simpl. rewrite fold_binding.
    destruct (last_binding k ps); [reflexivity|].
    rewrite lookup_insert. case_bool_decide; case_decide; congruence.
Qed.

Lemma lookup_spread (o : gmap str json) (v : json) (k : str) :
  spread o v !! k
  = match last_binding k (own_properties v) with Some x => Some x | None => o !! k end.
Proof. apply lookup_fold_insert. Qed.

Section Load.
Variable JSON_parse : str -> option json.
Variable localStorage : gmap str str.

Lemma safeJsonParse_total (data : option str) (d : json) :
  exists v, safeJsonParse JSON_parse data d = inr v.
Proof.
  unfold safeJsonParse. destruct data as [[|c t]|]; eauto.
  destruct (JSON_parse (c :: t)); eauto.
Qed.

Lemma load_defaults_complete (key : str) (defaults : json) :
  exists o,
    load JSON_parse localStorage key defaults = inr o
    /\ (forall k, is_Some (last_binding k (own_properties defaults)) -> is_Some (o !! k))
    /\ (localStorage !! key = None \/ localStorage !! key = Some []
        \/ (exists d, localStorage !! key = Some d /\ JSON_parse d = None) ->
        o = spread ∅ defaults)
    /\ (forall d saved,
          localStorage !! key = Some d -> d <> [] -> JSON_parse d = Some saved ->
          forall k, o !! k = match last_binding k (own_properties saved) with
                             | Some v => Some v
                             | None => last_binding k (own_properties defaults)
                             end).
Proof.
  destruct (safeJsonParse_total (localStorage !! key) (JObj [])) as [saved Hs].
  exists (spread (spread ∅ defaults) saved).
  assert (Hk : forall k, spread (spread ∅ defaults) saved !! k
                 = match last_binding k (own_properties saved) with
                   | Some v => Some v
                   | None => last_binding k (own_properties defaults)
                   end).
  { intros k. rewrite !lookup_spread, lookup_empty.
    destruct (last_binding k (own_properties saved)); [reflexivity|].
    now destruct (last_binding k (own_properties defaults)). }
  split; [unfold load; now rewrite Hs|]. split; [|split].
  - intros k [d Hd]. rewrite Hk, Hd.
    destruct (last_binding k (own_properties saved)); eauto.
  - intros Hc. assert (saved = JObj []) as ->; [|reflexivity].
    unfold safeJsonParse in Hs. destruct Hc as [Hn|[Hn|(d & Hd & Hp)]].
    + rewrite Hn in Hs. congruence.
    + rewrite Hn in Hs. congruence.
    + rewrite Hd in Hs. destruct d as [|c t]; [congruence|].
      rewrite Hp in Hs. congruence.
  - intros d saved' Hd Hne Hp k. unfold safeJsonParse in Hs. rewrite Hd in Hs.
    destruct d as [|c t]; [contradiction|]. rewrite Hp in Hs.
    injection Hs as <-. apply Hk.
Qed.

(** C10. [loadSettings] and [loadFormatting] return normally for every
    state of the storage and every behaviour of [JSON.parse], with an
    object that has every key of the defaults.  When the entry is missing
    or empty, or [JSON.parse] throws on it, the object is the defaults;
    when [JSON.parse] gives a value for the stored text, each key has the
    value the parsed value gives it, and the default where the parsed value
    has no such property. *)
Theorem load_total_defaults_complete :
  (exists o,
     loadSettings JSON_parse localStorage = inr o
     /\ (forall k, is_Some (last_binding k (own_properties DEFAULT_SETTINGS)) ->
                   is_Some (o !! k))
     /\ (localStorage !! KEY_SETTINGS = None \/ localStorage !! KEY_SETTINGS = Some []
         \/ (exists d, localStorage !! KEY_SETTINGS = Some d /\ JSON_parse d = None) ->
         o = spread ∅ DEFAULT_SETTINGS)
     /\ (forall d saved,
           localStorage !! KEY_SETTINGS = Some d -> d <> [] -> JSON_parse d = Some saved ->
           forall k, o !! k = match last_binding k (own_properties saved) with
                              | Some v => Some v
                              | None => last_binding k (own_properties DEFAULT_SETTINGS)
                              end))
  /\
  (exists o,
     loadFormatting JSON_parse localStorage = inr o
     /\ (forall k, is_Some (last_binding k (own_properties DEFAULT_FORMATTING)) ->
                   is_Some (o !! k))
     /\ (localStorage !! KEY_FORMATTING = None \/ localStorage !! KEY_FORMATTING = Some []
         \/ (exists d, localStorage !! KEY_FORMATTING = Some d /\ JSON_parse d = None) ->
         o = spread ∅ DEFAULT_FORMATTING)
     /\ (forall d saved,
           localStorage !! KEY_FORMATTING = Some d -> d <> [] -> JSON_parse d = Some saved ->
           forall k, o !! k = match last_binding k (own_properties saved) with
                              | Some v => Some v
                              | None => last_binding k (own_properties DEFAULT_FORMATTING)
                              end)).
Proof.
  split; apply load_defaults_complete.
Qed.
End Load.

Lemma load_total_defaults_complete_witness :
  (exists o, loadSettings JSON.parse sample_storage = inr o
             /\ o !! lit "genre" = Some (JStr (lit "horror"))
             /\ o !! lit "tone" = Some (JStr (lit "neutral")))
  /\ loadFormatting JSON.parse sample_storage = inr (spread ∅ DEFAULT_FORMATTING).
Proof.
  destruct (load_total_defaults_complete JSON.parse sample_storage)
    as [(o & Ho & _ & _ & Hk) (o' & Ho' & _ & Hc & _)].
  split.
  - exists o. split; [exact Ho|].
    assert (Hsaved : forall k,
              o !! k = match last_binding k
                               (own_properties (JObj [(lit "genre", JStr (lit "horror"))])) with
                       | Some v => Some v
                       | None => last_binding k (own_properties DEFAULT_SETTINGS)
                       end).
    { apply (Hk saved_genre); [vm_compute; reflexivity | discriminate
                               | vm_compute; reflexivity]. }
    split; rewrite Hsaved; vm_compute; reflexivity.
  - rewrite Ho'. f_equal. apply Hc. right; right. exists (lit "{oops").
    split; vm_compute; reflexivity.
Defined.

End LoadFacts.

(** ** Non-streaming generation *)

Module GeminiFacts.
Import Js Regex Provider JsFacts.

(** C8. When the provider answers without text, or with text that is blank
    once the prefill is stripped, the non-streaming path calls [onError]
    with the [EMPTY_RESPONSE] error and nothing else, and its promise does
    not reject; the module without prefill does the same for an answer
    without text. *)
Theorem empty_response_reported
  (status : N) (statusText : str) (em t : option str) (prefill : str) :
  (or_else t [] = [] ->
     Gemini.generateWithoutStreaming (Response true status statusText (Json em t)) prefill
       = ([OnError EMPTY_RESPONSE], None)
     /\ GeminiJs.generateWithoutStreaming (Response true status statusText (Json em t))
       = ([OnError EMPTY_RESPONSE], None))
  /\ (trim (Gemini.stripPrefill (or_else t []) prefill) = [] ->
      Gemini.generateWithoutStreaming (Response true status statusText (Json em t)) prefill
       = ([OnError EMPTY_RESPONSE], None)).
Proof.
  split.
  - intros H. unfold Gemini.generateWithoutStreaming, GeminiJs.generateWithoutStreaming,
      Gemini.try_block, GeminiJs.try_block. rewrite H. split; reflexivity.
  - intros H. unfold Gemini.generateWithoutStreaming, Gemini.try_block.
    destruct (falsy (or_else t [])); [reflexivity|].
    rewrite H. simpl. rewrite orb_true_r. reflexivity.
Qed.

Lemma empty_response_reported_witness :
  (Gemini.generateWithoutStreaming (Response true 200 (lit "OK") (Json None None)) (lit "the door")
     = ([OnError EMPTY_RESPONSE], None)
   /\ GeminiJs.generateWithoutStreaming (Response true 200 (lit "OK") (Json None None))
     = ([OnError EMPTY_RESPONSE], None))
  /\ Gemini.generateWithoutStreaming
       (Response true 200 (lit "OK") (Json None (Some (lit "the door  ")))) (lit "the door")
     = ([OnError EMPTY_RESPONSE], None).
Proof.
  split.
  - apply (empty_response_reported 200 (lit "OK") None None (lit "the door")).
    reflexivity.
  - apply (empty_response_reported 200 (lit "OK") None (Some (lit "the door  ")) (lit "the door")).
    vm_compute. reflexivity.
Defined.

(** The promise of [generateWithoutStreaming] never rejects, and exactly
    one callback is invoked, whatever the outcome of the request. *)
Lemma generateWithoutStreaming_one_callback (fr : fetch_result) (prefill : str) :
  snd (Gemini.generateWithoutStreaming fr prefill) = None
  /\ length (fst (Gemini.generateWithoutStreaming fr prefill)) = 1
  /\ snd (GeminiJs.generateWithoutStreaming fr) = None
  /\ length (fst (GeminiJs.generateWithoutStreaming fr)) = 1.
Proof.
  unfold Gemini.generateWithoutStreaming, GeminiJs.generateWithoutStreaming, on_catch.
  destruct (Gemini.try_block fr prefill) as [e|x], (GeminiJs.try_block fr) as [e'|x'];
    repeat split; simpl; try reflexivity;
    try (destruct (str_eqb _ _); reflexivity).
Qed.

(** The text handed to [onComplete] is the answer with the prefill
    stripped, nothing more. *)
Lemma completion_is_stripped (fr : fetch_result) (prefill text : str) :
  fst (Gemini.generateWithoutStreaming fr prefill) = [OnComplete text] ->
  exists status statusText em t,
    fr = Response true status statusText (Json em (Some t))
    /\ text = Gemini.stripPrefill t prefill.
Proof.
  unfold Gemini.generateWithoutStreaming.
  destruct (Gemini.try_block fr prefill) as [e|x] eqn:Hb.
  - unfold on_catch. simpl. destruct (str_eqb _ _); discriminate.
  - simpl. intros [= <-]. unfold Gemini.try_block in Hb.
    destruct fr as [e|[] status statusText [e| |em t]]; try discriminate.
    destruct t as [[|c t]|]; simpl in Hb; try discriminate.
    destruct (_ || _); [discriminate|]. injection Hb as <-.
    now exists status, statusText, em, (c :: t).
Qed.

(** *** Prefill stripping *)

Lemma overlap_loop_hit (g tg tp : str) (n i : nat) :
  1 <= i <= n -> Gemini.overlap tp tg i ->
  (forall j, i < j <= n -> ~ Gemini.overlap tp tg j) ->
  Gemini.overlap_loop g tg tp n = trimStart (substring1 tg i).
Proof.
  induction n as [|n IH]; intros Hi Ho Hmax; [lia|].
  simpl. destruct (startsWith tg (substring1 tp (length tp - S n))) eqn:E.
  - destruct (Nat.eq_dec i (S n)) as [->|Hne]; [reflexivity|].
    exfalso. apply (Hmax (S n)); [lia | exact E].
  - apply IH.
    + destruct (Nat.eq_dec i (S n)) as [->|Hne]; [|lia].
      unfold Gemini.overlap in Ho. congruence.
    + exact Ho.
    + intros j Hj. apply Hmax. lia.
Qed.

Lemma overlap_loop_miss (g tg tp : str) (n : nat) :
  (forall j, 1 <= j <= n -> ~ Gemini.overlap tp tg j) ->
  Gemini.overlap_loop g tg tp n = g.
Proof.
  induction n as [|n IH]; intros Hno; [reflexivity|].
  simpl. destruct (startsWith tg (substring1 tp (length tp - S n))) eqn:E.
  - exfalso. apply (Hno (S n)); [lia | exact E].
  - apply IH. intros j Hj. apply Hno. lia.
Qed.

Lemma suffix_is_substring (v tp : str) :
  v `suffix_of` tp -> substring1 tp (length tp - length v) = v.
Proof.
  intros [k ->]. unfold substring1. rewrite length_app.
  replace (length k + length v - length v) with (length k) by lia.
  apply drop_app_length.
Qed.

Lemma substring_is_suffix (tp : str) (j : nat) :
  j <= length tp ->
  substring1 tp (length tp - j) `suffix_of` tp
  /\ length (substring1 tp (length tp - j)) = j.
Proof.
  intros Hj. unfold substring1. split.
  - apply suffix_drop.
  - rewrite length_skipn. lia.
Qed.

Lemma overlap_iff (tp tg : str) (j : nat) :
  j <= length tp ->
  Gemini.overlap tp tg j <->
  exists v, v `suffix_of` tp /\ v `prefix_of` tg /\ length v = j.
Proof.
  intros Hj. unfold Gemini.overlap. rewrite startsWith_prefix. split.
  - intros H. exists (substring1 tp (length tp - j)).
    destruct (substring_is_suffix tp j Hj). auto.
  - intros (v & Hs & Hp & <-). now rewrite suffix_is_substring.
Qed.

(** C6. For a non-empty prefill: when the left-trimmed generated text
    starts with the trimmed prefill, the prefill is removed; otherwise the
    longest suffix of the trimmed prefill, of at most 50 units, that starts
    the left-trimmed generated text is removed; what is kept is
    left-trimmed; without any such overlap the generated text comes back
    unchanged.  The example of the specification is the last part. *)
Theorem stripPrefill_overlap (generated prefill : str) :
  prefill <> [] ->
  let tg := trimStart generated in
  let tp := trim prefill in
  (tp `prefix_of` tg ->
     Gemini.stripPrefill generated prefill = trimStart (drop (length tp) tg))
  /\ (forall v,
        ~ tp `prefix_of` tg ->
        v `suffix_of` tp -> v `prefix_of` tg -> 1 <= length v <= 50 ->
        (forall w, w `suffix_of` tp -> w `prefix_of` tg -> length w <= 50 ->
                   length w <= length v) ->
        Gemini.stripPrefill generated prefill = trimStart (drop (length v) tg))
  /\ (~ tp `prefix_of` tg ->
      (forall v, v `suffix_of` tp -> v `prefix_of` tg -> 1 <= length v <= 50 -> False) ->
      Gemini.stripPrefill generated prefill = generated)
  /\ Gemini.stripPrefill (lit "the door creaked open and she stepped inside.")
                         (lit "the door creaked")
     = lit "open and she stepped inside.".
Proof.
  intros Hp tg tp.
  assert (Hfp : falsy prefill = false) by (destruct prefill; [congruence | reflexivity]).
  assert (Hgen : generated = [] -> Gemini.stripPrefill generated prefill = []).
  { intros ->. unfold Gemini.stripPrefill. now rewrite Hfp. }
  assert (Hunf : generated <> [] ->
            Gemini.stripPrefill generated prefill =
            if startsWith tg tp then trimStart (substring1 tg (length tp))
            else Gemini.overlap_loop generated tg tp (Nat.min (length tp) 50)).
  { intros Hg. unfold Gemini.stripPrefill. rewrite Hfp.
    destruct generated; [congruence | reflexivity]. }
  split; [|split; [|split; [|vm_compute; reflexivity]]].
  - intros Hpre. destruct generated as [|c g].
    + rewrite Hgen by reflexivity. subst tg. simpl in *.
      apply prefix_nil_inv in Hpre. rewrite Hpre. reflexivity.
    + rewrite Hunf by discriminate.
      apply startsWith_prefix in Hpre. now rewrite Hpre.
  - intros v Hnp Hs Hpf Hlen Hmax. destruct generated as [|c g].
    + subst tg. simpl in Hpf. apply prefix_nil_inv in Hpf. subst v. simpl in Hlen. lia.
    + rewrite Hunf by discriminate.
      destruct (startsWith tg tp) eqn:E; [apply startsWith_prefix in E; contradiction|].
      assert (Hvt : length v <= length tp) by (now apply suffix_length).
      apply overlap_loop_hit.
      * lia.
      * apply overlap_iff; [lia|]. now exists v.
      * intros j Hj Ho. apply overlap_iff in Ho; [|lia].
        destruct Ho as (w & Hws & Hwp & Hwl).
        specialize (Hmax w Hws Hwp). lia.
  - intros Hnp Hno. destruct generated as [|c g]; [now apply Hgen|].
    rewrite Hunf by discriminate.
    destruct (startsWith tg tp) eqn:E; [apply startsWith_prefix in E; contradiction|].
    apply overlap_loop_miss. intros j Hj Ho. apply overlap_iff in Ho; [|lia].
    destruct Ho as (w & Hws & Hwp & Hwl). apply (Hno w Hws Hwp). lia.
Qed.

Lemma stripPrefill_overlap_witness :
  Gemini.stripPrefill (lit "  the door creaked open") (lit "the door creaked ")
    = lit "open"
  /\ Gemini.stripPrefill (lit "aked open the gate") (lit "the door creaked")
    = lit "open the gate"
  /\ Gemini.stripPrefill (lit " She ran.") (lit "the door creaked") = lit " She ran.".
Proof.
  split; [|split].
  - destruct (stripPrefill_overlap (lit "  the door creaked open") (lit "the door creaked "))
      as (H & _); [discriminate|].
    apply H. now exists (lit " open").
  - destruct (stripPrefill_overlap (lit "aked open the gate") (lit "the door creaked"))
      as (_ & H & _); [discriminate|].
    apply (H (lit "aked")).
    + intros [k Hk]. vm_compute in Hk. discriminate.
    + now exists (lit "the door cre").
    + now exists (lit " open the gate").
    + vm_compute. lia.
    + intros w Hs Hpf _.
      pose proof (suffix_length _ _ Hs) as Hl.
      rewrite <- (suffix_is_substring _ _ Hs) in Hpf.
      apply startsWith_prefix in Hpf.
      change (length w <= 4).
      remember (length w) as n eqn:Hn. clear Hn Hs w.
      vm_compute in Hl.
      do 17 (destruct n as [|n]; [first [ lia | vm_compute in Hpf; discriminate ] |]).
      lia.
  - destruct (stripPrefill_overlap (lit " She ran.") (lit "the door creaked"))
      as (_ & _ & H & _); [discriminate|].
    apply H.
    + intros [k Hk]. vm_compute in Hk. discriminate.
    + intros w Hs Hpf Hlen.
      pose proof (suffix_length _ _ Hs) as Hl.
      rewrite <- (suffix_is_substring _ _ Hs) in Hpf.
      apply startsWith_prefix in Hpf.
      remember (length w) as n eqn:Hn. clear Hn Hs w.
      vm_compute in Hl.
      do 17 (destruct n as [|n]; [first [ lia | vm_compute in Hpf; discriminate ] |]).
      lia.
Defined.

(** C5. The non-streaming path hands the stripped text to [onComplete]
    as it is: a text that ends in a comma arrives with its comma, although
    [ensureProperEnding] would have repaired it; and [ensureProperEnding]
    itself closes a quotation that is already closed. *)
Theorem completion_skips_ending_repair :
  Gemini.generateWithoutStreaming
    (Response true 200 (lit "OK") (Json None (Some (lit "and then, suddenly,")))) []
    = ([OnComplete (lit "and then, suddenly,")], None)
  /\ Gemini.ensureProperEnding (lit "and then, suddenly,") = lit "and then, suddenly,."
  /\ Gemini.ensureProperEnding (lit "He walked away and left. And,")
     = lit "He walked away and left."
  /\ Gemini.ensureProperEnding ([dq] ++ lit "Hi," ++ [dq] ++ lit " she said and left")
     = [dq] ++ lit "Hi," ++ [dq] ++ lit " she said and left." ++ [dq].
Proof. repeat split; vm_compute; reflexivity. Qed.

End GeminiFacts.

(** ** Cursor restore and capture *)

Module CursorFacts.
Import Js Dom Cursor JsFacts.

(** Induction on nodes with the hypothesis for all children. *)
Lemma node_ind' (P : node -> Prop) :
  (forall d, P (Text d)) ->
  (forall tag attrs cs, Forall P cs -> P (Element tag attrs cs)) ->
  forall n, P n.
Proof.
  intros HT HE. fix IH 1. intros [d|tag attrs cs]; [apply HT|].
  apply HE. induction cs as [|c cs IHcs]; constructor; [apply IH | exact IHcs].
Qed.

Lemma size_node_pos (n : node) : 1 <= size_node n.
Proof. destruct n; simpl; lia. Qed.

Lemma total_nil : total [] = 0.
Proof. reflexivity. Qed.

Lemma total_cons (p : list nat) (d : str) (l : list (list nat * str)) :
  total ((p, d) :: l) = length d + total l.
Proof. reflexivity. Qed.

Lemma total_app (a b : list (list nat * str)) : total (a ++ b) = total a + total b.
Proof. unfold total. now rewrite map_app, list_sum_app. Qed.

Lemma textContent_app (a b : list node) :
  textContent (a ++ b) = textContent a ++ textContent b.
Proof. unfold textContent. apply flat_map_app. Qed.

(** *** The loop visits the text nodes in document order *)

Lemma texts_stack_push (p : list nat) (cs : list node) (i : nat) (S : list (list nat * node)) :
  texts_stack (push_children p i cs S) = texts_list texts_node p i cs ++ texts_stack S.
Proof.
  revert i. induction cs as [|c cs IH]; intros i; simpl; [reflexivity|].
  unfold texts_stack in *. simpl. now rewrite IH, app_assoc.
Qed.

Lemma stack_size_push (p : list nat) (cs : list node) (i : nat) (S : list (list nat * node)) :
  stack_size (push_children p i cs S) = list_sum (map size_node cs) + stack_size S.
Proof.
  revert i. induction cs as [|c cs IH]; intros i; simpl; [reflexivity|].
  unfold stack_size in *. simpl. rewrite IH. lia.
Qed.

(** With fuel for every node on the stack the loop ends by itself, and its
    range is the one of the scan of the text nodes. *)
Lemma walk_scan (off : nat -> nat -> nat) (s e fuel : nat) :
  forall S c f r,
    stack_size S <= fuel ->
    exists st', walk fuel off s e (Walk c S f false r) = Some st'
                /\ rng st' = scan off s e (texts_stack S) c f r.
Proof.
  induction fuel as [|fuel IH]; intros S c f r Hsz.
  - destruct S as [|[p n] S].
    + eexists; split; reflexivity.
    + unfold stack_size in Hsz. simpl in Hsz. pose proof (size_node_pos n). lia.
  - destruct S as [|[p n] S].
    + eexists; split; reflexivity.
    + cbn [walk stop nodeStack]. destruct n as [d|tag attrs cs].
      * unfold texts_stack. cbn [flat_map fst snd texts_node app scan].
        unfold walk_step. cbn [charIndex foundStart rng stop].
        set (hitStart := negb f && (c <=? s)%nat && (s <=? c + length d)%nat).
        set (r1 := if hitStart then _ else r).
        set (hitEnd := (hitStart || f) && (c <=? e)%nat && (e <=? c + length d)%nat).
        destruct hitEnd eqn:He.
        -- destruct fuel; eexists; (split; [reflexivity|]); reflexivity.
        -- apply IH. unfold stack_size in *. simpl in Hsz. lia.
      * cbn [walk_step charIndex foundStart stop rng].
        destruct (IH (push_children p 0 cs S) c f r) as (st' & Hw & Hr).
        { rewrite stack_size_push. unfold stack_size in *. simpl in Hsz. lia. }
        exists st'. split; [exact Hw|]. rewrite Hr, texts_stack_push.
        unfold texts_stack. simpl. reflexivity.
Qed.

(** *** Static facts about the text nodes of a tree *)

Lemma total_texts (n : node) : forall pre, total (texts_node pre n) = length (textContent_node n).
Proof.
  induction n as [d|tag attrs cs IH] using node_ind'; intros pre.
  - unfold total. simpl. lia.
  - simpl. generalize 0 as i. induction IH as [|c cs Hc _ IHcs]; intros i; simpl.
    + reflexivity.
    + rewrite total_app, length_app, Hc, IHcs. reflexivity.
Qed.

Lemma total_texts_list (cs : list node) (pre : list nat) (i : nat) :
  total (texts_list texts_node pre i cs) = length (textContent cs).
Proof.
  revert i. induction cs as [|c cs IH]; intros i; simpl; [reflexivity|].
  rewrite total_app, total_texts, IH. unfold textContent. simpl.
  now rewrite length_app.
Qed.

Lemma diverge_not_before (p q : list nat) (o o' : nat) :
  diverge p q -> lex_ltb (q ++ [o']) (p ++ [o]) = false.
Proof.
  intros (r & x & y & t & t' & -> & -> & Hxy).
  induction r as [|z r IH]; simpl.
  - apply orb_false_iff. split.
    + apply Nat.ltb_ge. lia.
    + apply andb_false_iff. left. apply Nat.eqb_neq. lia.
  - rewrite Nat.ltb_irrefl, Nat.eqb_refl. simpl. exact IH.
Qed.

Lemma lex_ltb_same_path (p : list nat) (a b : nat) :
  lex_ltb (p ++ [a]) (p ++ [b]) = (a <? b)%nat.
Proof.
  induction p as [|x p IH]; simpl.
  - now rewrite andb_false_r, orb_false_r.
  - now rewrite Nat.ltb_irrefl, Nat.eqb_refl.
Qed.

Lemma diverge_extend (p q r1 r2 : list nat) :
  diverge p q -> diverge (p ++ r1) (q ++ r2).
Proof.
  intros (r & x & y & t & t' & -> & -> & Hxy).
  exists r, x, y, (t ++ r1), (t' ++ r2). rewrite <- !app_assoc. simpl. auto.
Qed.

(** Every text node below [pre] has a path that extends [pre]. *)
Lemma texts_prefix (n : node) :
  forall pre, Forall (fun pd => exists rel, fst pd = pre ++ rel) (texts_node pre n).
Proof.
  induction n as [d|tag attrs cs IH] using node_ind'; intros pre.
  - constructor; [|constructor]. exists []. simpl. now rewrite app_nil_r.
  - simpl. generalize 0 as i. induction IH as [|c cs Hc _ IHcs]; intros i; simpl.
    + constructor.
    + apply Forall_app. split; [|apply IHcs].
      eapply Forall_impl; [apply Hc|]. intros [p d] [rel Hrel]. simpl in *.
      exists ([i] ++ rel). now rewrite app_assoc.
Qed.

Lemma texts_list_prefix (cs : list node) (pre : list nat) (i : nat) :
  Forall (fun pd => exists j rel, i <= j /\ fst pd = pre ++ j :: rel)
         (texts_list texts_node pre i cs).
Proof.
  revert i. induction cs as [|c cs IH]; intros i; simpl; [constructor|].
  apply Forall_app. split.
  - eapply Forall_impl; [apply texts_prefix|]. intros [p d] [rel Hrel]. simpl in *.
    exists i, rel. split; [lia|]. now rewrite Hrel, <- app_assoc.
  - eapply Forall_impl; [apply IH|]. intros [p d] (j & rel & Hj & Hrel).
    exists j, rel. split; [lia | exact Hrel].
Qed.

Lemma sorted_app (l1 l2 : list (list nat * str)) :
  StronglySorted in_order l1 -> StronglySorted in_order l2 ->
  (forall a b, In a l1 -> In b l2 -> in_order a b) ->
  StronglySorted in_order (l1 ++ l2).
Proof.
  intros H1 H2 H12. induction H1 as [|a l1 Hs IH Ha]; simpl; [exact H2|].
  constructor.
  - apply IH. intros x y Hx Hy. apply H12; [now right | exact Hy].
  - apply Forall_app. split; [exact Ha|].
    apply List.Forall_forall. intros y Hy. apply H12; [now left | exact Hy].
Qed.

(** The text nodes come out in document order. *)
Lemma texts_sorted (n : node) : forall pre, StronglySorted in_order (texts_node pre n).
Proof.
  induction n as [d|tag attrs cs IH] using node_ind'; intros pre.
  - repeat constructor.
  - simpl. generalize 0 as i. induction IH as [|c cs Hc _ IHcs]; intros i; simpl.
    + constructor.
    + apply sorted_app; [apply Hc | apply IHcs |].
      intros [p d] [q d'] Hp Hq.
      pose proof (texts_prefix c (pre ++ [i])) as H1.
      pose proof (texts_list_prefix cs pre (S i)) as H2.
      rewrite List.Forall_forall in H1, H2.
      destruct (H1 _ Hp) as [rel Hrel]. destruct (H2 _ Hq) as (j & rel' & Hj & Hrel').
      simpl in *. unfold in_order. simpl. subst p q.
      exists pre, i, j, rel, rel'. rewrite <- app_assoc. simpl. repeat split; lia.
Qed.

Lemma located_list (cs : list node) :
  Forall (fun c => forall pre, located c pre) cs ->
  forall front pre l1 p d l2,
    texts_list texts_node pre (length front) cs = l1 ++ (p, d) :: l2 ->
    exists rel, p = pre ++ rel /\
      forall o, chars_before (front ++ cs) rel o
                = length (textContent front) + total l1 + Nat.min o (length d).
Proof.
  induction 1 as [|c cs Hc _ IH]; intros front pre l1 p d l2 Ht; simpl in Ht.
  - now destruct l1.
  - apply app_split_mid in Ht. destruct Ht as [(l2a & Ht & _)|(l1b & -> & Ht)].
    + destruct (Hc _ _ _ _ _ Ht) as (rel & -> & Hrel).
      exists (length front :: rel). split; [now rewrite <- app_assoc|].
      intros o. cbn [chars_before].
      rewrite take_app_length.
      replace (nth_error (front ++ c :: cs) (length front)) with (Some c)
        by (rewrite nth_error_app2, Nat.sub_diag by lia; reflexivity).
      destruct c as [d0|tag attrs cs'].
      * destruct Hrel as (-> & -> & ->). unfold total. simpl. lia.
      * destruct rel as [|j rel].
        -- rewrite Hrel. lia.
        -- rewrite Hrel. lia.
    + replace (S (length front)) with (length (front ++ [c])) in Ht
        by (rewrite length_app; simpl; lia).
      destruct (IH _ _ _ _ _ _ Ht) as (rel & -> & Hrel).
      exists rel. split; [reflexivity|]. intros o.
      rewrite <- app_assoc in Hrel. simpl in Hrel. rewrite Hrel.
      rewrite textContent_app, length_app, total_app, total_texts.
      unfold textContent at 2. simpl. rewrite app_nil_r. lia.
Qed.

Lemma located_node (n : node) : forall pre, located n pre.
Proof.
  induction n as [d0|tag attrs cs IH] using node_ind'; intros pre l1 p d l2 Ht.
  - simpl in Ht. destruct l1 as [|x l1].
    + injection Ht as <- <- _. exists []. now rewrite app_nil_r.
    + injection Ht as _ Ht. now destruct l1.
  - simpl in Ht. destruct (located_list cs IH [] pre l1 p d l2 Ht) as (rel & -> & Hrel).
    exists rel. split; [reflexivity|]. intros o.
    specialize (Hrel o). simpl in Hrel. rewrite Hrel. lia.
Qed.

Lemma offset_of_text (cs : list node) (l1 l2 : list (list nat * str)) (p : list nat)
      (d : str) (o : nat) :
  texts_list texts_node [] 0 cs = l1 ++ (p, d) :: l2 ->
  o <= length d ->
  offset_of cs (At p o) = total l1 + o.
Proof.
  intros Ht Ho.
  assert (Hall : Forall (fun c => forall pre, located c pre) cs).
  { apply List.Forall_forall. intros c _. apply located_node. }
  destruct (located_list cs Hall [] [] l1 p d l2 Ht) as (rel & -> & Hrel).
  specialize (Hrel o). simpl in Hrel. simpl. rewrite Hrel. lia.
Qed.

Lemma chars_before_le (path : list nat) :
  forall cs k, chars_before cs path k <= length (textContent cs).
Proof.
  induction path as [|j path IH]; intros cs k; simpl.
  - rewrite <- (take_drop k cs) at 2. rewrite textContent_app, length_app. lia.
  - destruct (nth_error cs j) as [n|] eqn:Hn.
    + apply nth_error_split in Hn. destruct Hn as (a & b & -> & <-).
      rewrite take_app_length, textContent_app, length_app.
      unfold textContent at 3. simpl. rewrite length_app.
      destruct n as [d|tag attrs cs'].
      * simpl. lia.
      * specialize (IH cs' k). simpl. unfold textContent in IH. lia.
    + rewrite <- (take_drop j cs) at 2. rewrite textContent_app, length_app. lia.
Qed.

(** *** What the scan finds *)

Section Scan.
Variable off : nat -> nat -> nat.
Hypothesis Hoff : forall x len, x <= len -> off x len = x.
Variables s e : nat.

Lemma scan_end : forall ts c r,
  c <= e -> e <= c + total ts -> ts <> [] ->
  Forall (fun pd => forall o, bp_ltb (At (fst pd) o) (r_start r) = false) ts ->
  exists l1 q d l2,
    ts = l1 ++ (q, d) :: l2
    /\ c + total l1 <= e <= c + total l1 + length d
    /\ scan off s e ts c true r = Range (r_start r) (At q (e - (c + total l1))).
Proof.
  induction ts as [|[p d] ts IH]; intros c r Hc He Hne Hord; [contradiction|].
  cbn [scan walk_step charIndex foundStart rng stop negb andb orb].
  apply Forall_cons in Hord. destruct Hord as [Hp Hord]. cbn [fst] in Hp.
  replace (c <=? e)%nat with true by (symmetry; now apply Nat.leb_le).
  destruct (Nat.leb_spec e (c + length d)) as [Hle|Hgt].
  - exists [], p, d, ts. rewrite total_nil, Nat.add_0_r.
    split; [reflexivity|]. split; [lia|].
    unfold setEnd. rewrite Hoff by lia. now rewrite Hp.
  - assert (Hts : ts <> []).
    { intros ->. rewrite total_cons, total_nil in He. lia. }
    rewrite total_cons in He.
    destruct (IH (c + length d) r) as (l1 & q & d' & l2 & -> & Hr & Hs);
      [lia | lia | exact Hts | exact Hord |].
    exists ((p, d) :: l1), q, d', l2. rewrite total_cons.
    split; [reflexivity|]. split; [lia|].
    cbn [andb]. rewrite Hs. do 2 f_equal. lia.
Qed.

Lemma scan_start : forall ts c,
  c <= s -> s <= e -> e <= c + total ts -> ts <> [] ->
  StronglySorted in_order ts ->
  exists l1 p d l2 l1' q d' l2',
    ts = l1 ++ (p, d) :: l2 /\ ts = l1' ++ (q, d') :: l2'
    /\ c + total l1 <= s <= c + total l1 + length d
    /\ c + total l1' <= e <= c + total l1' + length d'
    /\ scan off s e ts c false createRange
       = Range (At p (s - (c + total l1))) (At q (e - (c + total l1'))).
Proof.
  induction ts as [|[p d] ts IH]; intros c Hc Hse He Hne Hsorted; [contradiction|].
  apply StronglySorted_inv in Hsorted. destruct Hsorted as [Hsorted Hp].
  rewrite total_cons in He.
  cbn [scan walk_step charIndex foundStart rng stop negb andb orb].
  replace (c <=? s)%nat with true by (symmetry; now apply Nat.leb_le).
  replace (c <=? e)%nat with true by (symmetry; apply Nat.leb_le; lia).
  destruct (Nat.leb_spec s (c + length d)) as [Hs|Hs]; cbn [andb orb].
  - rewrite Hoff by lia. unfold setStart, createRange. cbn [r_end bp_ltb].
    destruct (Nat.leb_spec e (c + length d)) as [Hle|Hgt].
    + exists [], p, d, ts, [], p, d, ts. rewrite total_nil, Nat.add_0_r.
      repeat (split; [first [reflexivity | lia]|]).
      unfold setEnd. cbn [r_start bp_ltb]. rewrite Hoff by lia.
      rewrite lex_ltb_same_path.
      replace (e - c <? s - c)%nat with false by (symmetry; apply Nat.ltb_ge; lia).
      reflexivity.
    + assert (Hts : ts <> []) by (intros ->; rewrite total_nil in He; lia).
      destruct (scan_end ts (c + length d) (Range (At p (s - c)) (At p (s - c))))
        as (l1 & q & d' & l2 & -> & Hr & Hscan); [lia | lia | exact Hts | |].
      { eapply Forall_impl; [exact Hp|]. intros [q d'] Hd o. simpl.
        apply diverge_not_before. exact Hd. }
      exists [], p, d, (l1 ++ (q, d') :: l2), ((p, d) :: l1), q, d', l2.
      rewrite total_cons, total_nil, Nat.add_0_r.
      repeat (split; [first [reflexivity | lia]|]).
      rewrite Hscan. cbn [r_start]. do 2 f_equal. lia.
  - assert (Hts : ts <> []) by (intros ->; rewrite total_nil in He; lia).
    destruct (IH (c + length d)) as (l1 & p' & d1 & l2 & l1' & q & d' & l2' & E1 & E2 & H1 & H2 & Hscan);
      [lia | lia | lia | exact Hts | exact Hsorted |].
    exists ((p, d) :: l1), p', d1, l2, ((p, d) :: l1'), q, d', l2'.
    rewrite !total_cons.
    split; [now rewrite E1|]. split; [now rewrite E2|].
    split; [lia|]. split; [lia|].
    rewrite Hscan. f_equal; f_equal; lia.
Qed.

End Scan.

(** *** Restoring, then capturing *)

Lemma texts_of_root (e : editor) :
  texts_stack [([], root e)] = texts_list texts_node [] 0 (childNodes e).
Proof. unfold texts_stack. simpl. apply app_nil_r. Qed.

(** Placing the selection at offsets [s <= t] within the text and reading
    it back gives [s] and [t]. *)
Lemma place_capture (off : nat -> nat -> nat) (e : editor) (s t : nat) :
  (forall x len, x <= len -> off x len = x) ->
  s <= t -> t <= length (textContent (childNodes e)) ->
  exists e', place off s t e = Some e'
             /\ childNodes e' = childNodes e
             /\ saveCursorPosition e' = Some (Position s t).
Proof.
  intros Hoff Hst Ht. unfold place, walk_init.
  destruct (walk_scan off s t (size_node (root e)) [([], root e)] 0 false createRange)
    as (st' & Hw & Hr).
  { unfold stack_size. simpl. lia. }
  rewrite Hw. eexists. split; [reflexivity|]. split; [reflexivity|].
  rewrite Hr, texts_of_root. unfold saveCursorPosition. cbn [selection childNodes].
  pose proof (total_texts_list (childNodes e) [] 0) as Htot.
  destruct (texts_list texts_node [] 0 (childNodes e)) as [|x ts] eqn:Hts.
  - rewrite total_nil in Htot. assert (s = 0) by lia. assert (t = 0) by lia. subst.
    reflexivity.
  - rewrite <- Hts in *.
    destruct (scan_start off Hoff s t (texts_list texts_node [] 0 (childNodes e)) 0)
      as (l1 & p & d & l2 & l1' & q & d' & l2' & E1 & E2 & H1 & H2 & Hscan).
    + lia.
    + exact Hst.
    + lia.
    + rewrite Hts. discriminate.
    + rewrite <- texts_of_root. unfold texts_stack. simpl. rewrite app_nil_r.
      apply (texts_sorted (root e) []).
    + rewrite Hscan. cbn [r_start r_end].
      rewrite (offset_of_text _ _ _ _ _ _ E1) by lia.
      rewrite (offset_of_text _ _ _ _ _ _ E2) by lia.
      f_equal. f_equal; lia.
Qed.

Lemma offset_of_le (cs : list node) (b : boundary) :
  offset_of cs b <= length (textContent cs).
Proof. destruct b as [|p k]; simpl; [lia | apply chars_before_le]. Qed.

(** In the current variant the positions are clamped to the text length. *)
Lemma restore_capture_current (e : editor) (p : position) :
  pos_start p <= pos_end p ->
  exists e', Formatter.restoreCursorPosition e (Some p) = Some e'
             /\ childNodes e' = childNodes e
             /\ saveCursorPosition e' =
                Some (Position (Nat.min (pos_start p) (length (textContent (childNodes e))))
                               (Nat.min (pos_end p) (length (textContent (childNodes e))))).
Proof.
  intros Hp. unfold Formatter.restoreCursorPosition.
  apply place_capture; [intros x len Hx; lia | lia | lia].
Qed.

(** Capturing, restoring and capturing again gives the first capture. *)
Lemma capture_restore_capture (e : editor) :
  exists e', Formatter.restoreCursorPosition e (saveCursorPosition e) = Some e'
             /\ childNodes e' = childNodes e
             /\ saveCursorPosition e' = saveCursorPosition e.
Proof.
  destruct (saveCursorPosition e) as [[s t]|] eqn:Hsave.
  - unfold saveCursorPosition in Hsave. destruct (selection e) as [r|]; [|discriminate].
    injection Hsave as Hs Ht.
    pose proof (offset_of_le (childNodes e) (r_start r)).
    pose proof (offset_of_le (childNodes e) (r_end r)).
    destruct (restore_capture_current e (Position s t)) as (e' & He & Hc & Hsv).
    { simpl. lia. }
    exists e'. split; [exact He|]. split; [exact Hc|]. rewrite Hsv. simpl.
    f_equal. f_equal; lia.
  - exists e. simpl. rewrite Hsave. auto.
Qed.

(** C3. In the formatter with bounds checking, restoring a position with
    [start <= end] and capturing again gives both offsets clamped to the
    text length, and restoring what was just captured leaves the captured
    offsets as they were.  The earlier formatter does not clamp: on the text
    [abc] the position 5 leaves the range at the start of the document. *)
Theorem restore_capture_clamped (e : editor) (p : position) :
  pos_start p <= pos_end p ->
  (exists e', Formatter.restoreCursorPosition e (Some p) = Some e'
              /\ childNodes e' = childNodes e
              /\ saveCursorPosition e' =
                 Some (Position (Nat.min (pos_start p) (length (textContent (childNodes e))))
                                (Nat.min (pos_end p) (length (textContent (childNodes e))))))
  /\ (exists e', Formatter.restoreCursorPosition e (saveCursorPosition e) = Some e'
                 /\ childNodes e' = childNodes e
                 /\ saveCursorPosition e' = saveCursorPosition e)
  /\ FormatterOld.restoreCursorPosition (Editor [Text (lit "abc")] None) (Some (Position 5 5))
     = Some (Editor [Text (lit "abc")] (Some createRange))
  /\ saveCursorPosition (Editor [Text (lit "abc")] (Some createRange)) = Some (Position 0 0).
Proof.
  intros Hp. split; [now apply restore_capture_current|].
  split; [apply capture_restore_capture|].
  split; reflexivity.
Qed.

Lemma restore_capture_clamped_witness :
  exists e', Formatter.restoreCursorPosition
               (Editor [Text (lit "It was "); span (lit "emphasis") [Text (lit "dark")]] None)
               (Some (Position 9 40)) = Some e'
             /\ saveCursorPosition e' = Some (Position 9 11).
Proof.
  destruct (restore_capture_clamped
              (Editor [Text (lit "It was "); span (lit "emphasis") [Text (lit "dark")]] None)
              (Position 9 40)) as [(e' & He & _ & Hs) _].
  - simpl. lia.
  - exists e'. split; [exact He | exact Hs].
Defined.

End CursorFacts.

(** ** Emphasis runs and the text read back *)

Module EmphasisFacts.
Import Js Regex Dom Markup JsFacts RegexFacts MarkupFacts.

Section Delim.
Variable d : N.

Lemma exec_delim_complete (i : nat) (content rest' : str) :
  content <> [] -> Forall (fun c => c <> d) content ->
  exec (delim d) i (d :: content ++ d :: rest')
  = Some (S (S (length content)), [(1, content)]).
Proof.
  intros Hne Hc. unfold exec, delim. apply m_delim_complete; auto.
  cbn beta. do 2 f_equal. lia.
Qed.

(** The pattern has no anchor: a match does not depend on the index. *)
Lemma exec_delim_index (i j : nat) (rest : str) :
  exec (delim d) i rest = exec (delim d) j rest.
Proof.
  destruct (exec (delim d) i rest) as [[len cs]|] eqn:E.
  - apply exec_delim_sound in E. destruct E as (content & rest' & -> & Hne & Hc & -> & ->).
    symmetry. now apply exec_delim_complete.
  - destruct (exec (delim d) j rest) as [[len cs]|] eqn:E2; [|reflexivity].
    apply exec_delim_sound in E2.
    destruct E2 as (content & rest' & -> & Hne & Hc & -> & ->).
    rewrite exec_delim_complete in E by auto. discriminate.
Qed.

Lemma replace_delim_index (f : str -> caps -> str) (rest : str) :
  forall skip i j,
    replace_from (delim d) f skip i rest = replace_from (delim d) f skip j rest.
Proof.
  induction rest as [|c t IH]; intros skip i j; cbn [replace_from].
  - destruct skip; [|reflexivity]. now rewrite (exec_delim_index i j).
  - destruct skip as [|n]; [|apply IH].
    rewrite (exec_delim_index i j).
    destruct (exec (delim d) j (c :: t)) as [[[|n] cs]|]; f_equal; try apply IH.
    f_equal. apply IH.
Qed.

Lemma test_delim_index (rest : str) :
  forall i j, test_from (delim d) i rest = test_from (delim d) j rest.
Proof.
  induction rest as [|c t IH]; intros i j; cbn [test_from];
    rewrite (exec_delim_index i j); destruct (exec (delim d) j _); auto.
Qed.

Variable f : str -> caps -> str.

(** A run is replaced and the search goes on behind it. *)
Lemma replace_delim_run (i : nat) (content rest : str) :
  content <> [] -> Forall (fun c => c <> d) content ->
  replace_from (delim d) f 0 i (d :: content ++ d :: rest)
  = f (d :: content ++ [d]) [(1, content)] ++ replace_from (delim d) f 0 0 rest.
Proof.
  intros Hne Hc. rewrite replace_from_eq, exec_delim_complete by auto.
  replace (firstn (S (S (length content))) (d :: content ++ d :: rest))
    with (d :: content ++ [d]).
  2:{ cbn [firstn]. f_equal.
      replace (content ++ d :: rest) with ((content ++ [d]) ++ rest)
        by now rewrite <- app_assoc.
      replace (S (length content)) with (length (content ++ [d]))
        by (rewrite length_app; simpl; lia).
      now rewrite take_app_length. }
  f_equal.
  replace (skipn (S (S (length content))) (d :: content ++ d :: rest)) with rest.
  2:{ cbn [skipn].
      replace (content ++ d :: rest) with ((content ++ [d]) ++ rest)
        by now rewrite <- app_assoc.
      replace (S (length content)) with (length (content ++ [d]))
        by (rewrite length_app; simpl; lia).
      now rewrite drop_app_length. }
  apply replace_delim_index.
Qed.

(** A unit that starts no run is copied. *)
Lemma replace_delim_copy (i : nat) (c : N) (rest : str) :
  exec (delim d) 0 (c :: rest) = None ->
  replace_from (delim d) f 0 i (c :: rest) = c :: replace_from (delim d) f 0 0 rest.
Proof.
  intros He. cbn [replace_from]. rewrite (exec_delim_index i 0), He. f_equal.
  apply replace_delim_index.
Qed.

(** Without a run nothing is replaced. *)
Lemma replace_delim_none (rest : str) :
  forall i, test_from (delim d) i rest = false -> replace_from (delim d) f 0 i rest = rest.
Proof.
  induction rest as [|c t IH]; intros i Ht; cbn [replace_from test_from] in *.
  - now rewrite exec_delim_nil.
  - destruct (exec (delim d) i (c :: t)); [discriminate|]. f_equal. now apply IH.
Qed.

End Delim.

(** *** Runs in the text and runs in the markup *)

Lemma escape_nonempty (c : N) : escape_text_char c <> [].
Proof.
  unfold escape_text_char.
  repeat match goal with |- context [if ?b then _ else _] => destruct b end; discriminate.
Qed.

Lemma escape_free (d c : N) :
  plain d -> c <> d -> Forall (fun y => y <> d) (escape_text_char c).
Proof.
  intros Hd Hc. apply List.Forall_forall. intros y Hy ->. apply Hc. now apply (proj2 Hd).
Qed.

(** A run of the text is a run of the markup. *)
Lemma chars_first_render (d : N) :
  plain d ->
  forall xs content rest,
    Forall (tag_free d) xs ->
    chars xs = content ++ d :: rest -> Forall (fun c => c <> d) content ->
    exists content' rest',
      render xs = content' ++ d :: rest'
      /\ Forall (fun c => c <> d) content'
      /\ (content <> [] -> content' <> []).
Proof.
  intros Hd. induction xs as [|x xs IH]; intros content rest Hfree Hc Hcd.
  - destruct content; discriminate.
  - apply Forall_cons in Hfree. destruct Hfree as [Hx Hfree]. destruct x as [c|t].
    + rewrite chars_Ch in Hc. destruct content as [|c0 content].
      * injection Hc as -> Hc. exists [], (render xs). rewrite render_cons.
        cbn [render_item]. rewrite (proj1 Hd). split; [reflexivity|]. split; [constructor|].
        intros H. now contradiction H.
      * injection Hc as -> Hc. apply Forall_cons in Hcd. destruct Hcd as [Hc0 Hcd].
        destruct (IH content rest Hfree Hc Hcd) as (content' & rest' & Hr & Hf & _).
        exists (escape_text_char c0 ++ content'), rest'. rewrite render_cons.
        cbn [render_item]. rewrite Hr, <- app_assoc. split; [reflexivity|]. split.
        -- apply Forall_app. split; [now apply escape_free | exact Hf].
        -- intros _ E. apply app_eq_nil in E. destruct E as [E _].
           now apply escape_nonempty in E.
    + rewrite chars_Tag in Hc.
      destruct (IH content rest Hfree Hc Hcd) as (content' & rest' & Hr & Hf & Hne).
      exists (t ++ content'), rest'. rewrite render_cons. cbn [render_item].
      rewrite Hr, <- app_assoc. split; [reflexivity|]. split.
      * apply Forall_app. split; [exact Hx | exact Hf].
      * intros H E. apply app_eq_nil in E. destruct E as [_ E]. now apply Hne in E.
Qed.

Lemma render_free_chars (d : N) (cx : list item) :
  plain d -> Forall (fun c => c <> d) (render cx) -> Forall (fun c => c <> d) (chars cx).
Proof.
  intros Hd. induction cx as [|x cx IH]; intros H; [constructor|].
  rewrite render_cons in H. apply Forall_app in H. destruct H as [Hx H].
  destruct x as [c|t].
  - rewrite chars_Ch. constructor; [|now apply IH].
    intros ->. cbn [render_item] in Hx. rewrite (proj1 Hd) in Hx.
    apply Forall_cons in Hx. now destruct Hx.
  - rewrite chars_Tag. now apply IH.
Qed.

Lemma no_gap_tail (d : N) (x : item) (xs : list item) : no_gap d (x :: xs) -> no_gap d xs.
Proof. intros H l cx r E. apply (H (x :: l) cx r). now rewrite E. Qed.

Lemma no_gap_app (d : N) (a b : list item) : no_gap d (a ++ b) -> no_gap d b.
Proof. induction a as [|x a IH]; [auto|]. intros H. apply IH. now apply no_gap_tail in H. Qed.

(** The emphasis step on items whose tags never stand alone between two
    asterisks: the runs of the markup are the runs of the text. *)
Lemma delim_stage_chars (d : N) (open : str) :
  plain d ->
  forall n xs i,
    length xs <= n -> Forall (tag_free d) xs -> no_gap d xs ->
    exists ys,
      replace_from (delim d) (wrap open false d) 0 i (render xs) = render ys
      /\ wrapped d open false xs ys
      /\ chars ys = replace_from (delim d) (fun _ cs => Formatter.grp 1 cs) 0 0 (chars xs).
Proof.
  intros Hd. induction n as [|n IH]; intros xs i Hn Hfree Hgap.
  - destruct xs; [|simpl in Hn; lia]. exists []. repeat split; constructor.
  - destruct xs as [|x xs]; [exists []; repeat split; constructor|].
    pose proof Hfree as Hfree0.
    apply Forall_cons in Hfree. destruct Hfree as [Hx Hfree]. simpl in Hn.
    rewrite render_cons.
    destruct (item_cases d x Hd Hx) as [->|Hxd].
    + replace (render_item (Ch d)) with [d] by (symmetry; apply Hd).
      rewrite replace_from_eq. cbn [app]. rewrite chars_Ch.
      destruct (exec (delim d) i (d :: render xs)) as [[len cs]|] eqn:He.
      * apply exec_delim_sound in He.
        destruct He as (content & rest' & Hr & Hne & Hc & -> & ->).
        injection Hr as Hr.
        destruct (align_first d Hd xs content rest' Hfree Hr Hc) as (cx & xs2 & -> & <- & <-).
        destruct (IH xs2 (i + S (S (length (render cx))))) as (ys2 & Hys & Hw & Hch).
        { rewrite length_app in Hn. simpl in Hn. lia. }
        { apply Forall_app in Hfree. destruct Hfree as [_ Hfree].
          apply Forall_cons in Hfree. now destruct Hfree. }
        { apply (no_gap_app d (Ch d :: cx ++ [Ch d])).
          cbn [app]. now rewrite <- app_assoc. }
        assert (Hcx : cx <> []) by (intros ->; now apply Hne).
        exists (Tag open :: cx ++ Tag T_close :: ys2). split; [|split].
        -- rewrite Hr.
           replace (skipn (S (S (length (render cx)))) (d :: render cx ++ d :: render xs2))
             with (render xs2).
           2:{ cbn [skipn]. replace (render cx ++ d :: render xs2)
                 with ((render cx ++ [d]) ++ render xs2) by now rewrite <- app_assoc.
               replace (S (length (render cx))) with (length (render cx ++ [d]))
                 by (rewrite length_app; simpl; lia).
               now rewrite drop_app_length. }
           rewrite Hys. unfold wrap. cbn [Formatter.grp group Nat.eqb].
           rewrite render_cons, !render_app. rewrite render_cons. cbn [render_item app].
           unfold T_close. rewrite <- !app_assoc. reflexivity.
        -- apply (wrapped_span d open false cx xs2 ys2 Hcx Hw).
        -- rewrite chars_app, chars_Ch, chars_Tag, chars_app, chars_Tag.
           rewrite replace_delim_run.
           ++ cbn [Formatter.grp group Nat.eqb]. now rewrite Hch.
           ++ apply (Hgap [] cx xs2); [reflexivity | exact Hcx].
           ++ now apply render_free_chars.
      * destruct (IH xs (S i)) as (ys & Hys & Hw & Hch);
          [lia | exact Hfree | now apply no_gap_tail in Hgap |].
        exists (Ch d :: ys). split; [|split].
        -- rewrite render_cons. replace (render_item (Ch d)) with [d] by (symmetry; apply Hd).
           cbn [app]. now rewrite Hys.
        -- now constructor.
        -- rewrite chars_Ch, replace_delim_copy; [now rewrite Hch|].
           destruct (exec (delim d) 0 (d :: chars xs)) as [[len cs]|] eqn:Hc; [|reflexivity].
           exfalso. apply exec_delim_sound in Hc.
           destruct Hc as (content & rest' & Hr & Hne & Hcd & _).
           injection Hr as Hr.
           destruct (chars_first_render d Hd xs content rest' Hfree Hr Hcd)
             as (content' & rest'' & Hr' & Hf' & Hne').
           rewrite Hr', exec_delim_complete in He by auto. discriminate.
    + rewrite replace_copy by exact Hxd.
      destruct (IH xs (i + length (render_item x))) as (ys & Hys & Hw & Hch);
        [lia | exact Hfree | now apply no_gap_tail in Hgap |].
      exists (x :: ys). split; [|split].
      * rewrite render_cons. now rewrite Hys.
      * now constructor.
      * destruct x as [c|t].
        -- rewrite !chars_Ch, replace_delim_copy; [now rewrite Hch|].
           apply exec_delim_first. intros ->. cbn [render_item] in Hxd.
           rewrite (proj1 Hd) in Hxd. apply Forall_cons in Hxd. now destruct Hxd.
        -- now rewrite !chars_Tag.
Qed.

(** *** Tags stand next to the quotes they wrap *)

Lemma no_gap_chars (d : N) (xs : list item) : Forall is_char xs -> no_gap d xs.
Proof.
  intros Hall l cx r -> Hne. destruct cx as [|x cx]; [contradiction|].
  apply Forall_app in Hall. destruct Hall as [_ Hall].
  apply Forall_cons in Hall. destruct Hall as [_ Hall].
  apply Forall_cons in Hall. destruct Hall as [Hx _].
  destruct x; [discriminate | contradiction].
Qed.

Lemma anchored_app_inv (Q : N -> Prop) (l r : list item) :
  forall p, anchored Q p (l ++ r) -> anchored Q (last_item p l) r.
Proof.
  induction l as [|x l IH]; intros p H; [exact H|].
  cbn [app anchored] in H. destruct H as [_ H]. rewrite last_item_cons. now apply IH.
Qed.

Lemma anchored_chars_app (Q : N -> Prop) (l r : list item) :
  Forall is_char l ->
  forall p, anchored Q (last_item p l) r -> anchored Q p (l ++ r).
Proof.
  induction 1 as [|x l Hx _ IH]; intros p H; [exact H|].
  cbn [app anchored]. split; [destruct x; [exact I | contradiction]|].
  apply IH. exact H.
Qed.

Lemma anchored_no_gap (Q : N -> Prop) (d : N) (xs : list item) (p : option item) :
  ~ Q d -> anchored Q p xs -> no_gap d xs.
Proof.
  intros HQ Ha l cx r -> Hne. apply anchored_app_inv in Ha.
  cbn [anchored] in Ha. destruct Ha as [_ Ha].
  destruct cx as [|x cx]; [contradiction|]. destruct x as [c|t]; [discriminate|].
  cbn [app anchored] in Ha. destruct Ha as [Hx _]. case_bool_decide.
  - destruct Hx as (q & [= <-] & Hq). contradiction.
  - destruct Hx as (q & xs'' & E & Hq). destruct cx as [|y cx].
    + injection E as <- _. contradiction.
    + injection E as -> _. discriminate.
Qed.

(** The dialogue step on plain text puts each start tag before a double
    quote and each end tag after one. *)
Lemma wrapped_anchored (d : N) (open : str) (Q : N -> Prop) (xs ys : list item) :
  open <> T_close -> Q d ->
  wrapped d open true xs ys -> Forall is_char xs ->
  forall p, anchored Q p ys.
Proof.
  intros Ho HQ. induction 1 as [|x xs ys _ IH|cx xs ys _ _ IH]; intros Hall p.
  - exact I.
  - apply Forall_cons in Hall. destruct Hall as [Hx Hall]. cbn [anchored].
    split; [destruct x; [exact I | contradiction]|]. now apply IH.
  - apply Forall_cons in Hall. destruct Hall as [_ Hall].
    apply Forall_app in Hall. destruct Hall as [Hcx Hall].
    apply Forall_cons in Hall. destruct Hall as [_ Hall].
    cbn [keep_item app anchored]. split.
    { case_bool_decide; [contradiction|]. eauto. }
    split; [exact I|]. apply anchored_chars_app; [exact Hcx|].
    cbn [anchored]. split; [exact I|]. split.
    + rewrite bool_decide_eq_true_2 by reflexivity. eauto.
    + now apply IH.
Qed.

Lemma thought_wrapped_head (c : N) (xs ys : list item) :
  thought_wrapped false (Ch c :: xs) ys -> exists ys', ys = Ch c :: ys'.
Proof. intros H. inversion H; subst; eauto. Qed.

Section Thoughts.
Let Q1 : N -> Prop := fun q => q = dq.
Let Q2 : N -> Prop := fun q => q = dq \/ q = sq.

Let transfer (xs ys : list item) : Prop :=
  forall p p', p = p' \/ p = Some (Ch sq) -> anchored Q1 p xs -> anchored Q2 p' ys.

Lemma anchored_mid (xs1 ys1 : list item) :
  transfer xs1 ys1 ->
  forall cx q,
    anchored Q1 q (cx ++ Ch sq :: xs1) ->
    anchored Q2 q (cx ++ Ch sq :: Tag T_close :: ys1).
Proof.
  intros IH. induction cx as [|x cx IHcx]; intros q Ha; cbn [app anchored] in *.
  - destruct Ha as [_ Ha]. split; [exact I|]. split.
    + rewrite bool_decide_eq_true_2 by reflexivity. exists sq. split; [reflexivity|].
      now right.
    + apply (IH (Some (Ch sq))); auto.
  - destruct Ha as [Hx Ha]. split; [|now apply IHcx].
    destruct x as [c|t]; [exact I|]. case_bool_decide.
    + destruct Hx as (q0 & -> & Hq). exists q0. split; [reflexivity | now left].
    + destruct Hx as (q0 & xs'' & E & Hq). exists q0.
      destruct cx as [|y cx]; cbn [app] in *.
      * injection E as <- _. eexists. split; [reflexivity | now left].
      * injection E as -> _. eexists. split; [reflexivity | now left].
Qed.

(** The thoughts step keeps the tags of the dialogue step where they are
    and puts its own next to single quotes. *)
Lemma thought_wrapped_anchored (b : bool) (xs ys : list item) :
  thought_wrapped b xs ys -> transfer xs ys.
Proof.
  induction 1 as [b|b x xs ys Hw IH|cx xs ys _ _ IH|b w cx xs ys _ _ _ _ IH];
    intros p p' Hp Ha.
  - exact I.
  - cbn [anchored] in *. destruct Ha as [Hx Ha]. split; [|apply (IH (Some x)); auto].
    destruct x as [c|t]; [exact I|]. case_bool_decide.
    + destruct Hx as (q & -> & Hq). destruct Hp as [<- | [= E]].
      * exists q. split; [reflexivity | now left].
      * subst q. discriminate.
    + destruct Hx as (q & xs'' & -> & Hq).
      destruct (thought_wrapped_head _ _ _ Hw) as [ys' ->].
      exists q, ys'. split; [reflexivity | now left].
  - cbn [anchored] in Ha. destruct Ha as [_ Ha]. cbn [anchored]. split.
    { rewrite bool_decide_eq_false_2 by discriminate.
      eexists _, _. split; [reflexivity | now right]. }
    split; [exact I|]. now apply (anchored_mid xs ys IH cx).
  - cbn [anchored] in Ha. destruct Ha as (_ & _ & Ha). cbn [anchored].
    split; [exact I|]. split.
    { rewrite bool_decide_eq_false_2 by discriminate.
      eexists _, _. split; [reflexivity | now right]. }
    split; [exact I|]. now apply (anchored_mid xs ys IH cx).
Qed.

Lemma stages_no_gap (text : str) (xs1 xs2 : list item) :
  wrapped dq T_dialogue true (map Ch text) xs1 ->
  thought_wrapped true xs1 xs2 ->
  no_gap star xs2.
Proof.
  intros W1 W2. apply (anchored_no_gap Q2 star xs2 None).
  - intros [H|H]; discriminate.
  - apply (thought_wrapped_anchored _ _ _ W2 None None); [now left|].
    apply (wrapped_anchored dq T_dialogue Q1 _ _ ltac:(discriminate) eq_refl W1).
    apply List.Forall_forall. intros x Hx. apply in_map_iff in Hx.
    destruct Hx as (c & <- & _). exact I.
Qed.

End Thoughts.

(** *** Counting asterisks *)

Lemma occurrences_app (d : N) (a b : str) :
  occurrences d (a ++ b) = occurrences d a + occurrences d b.
Proof. unfold occurrences. now rewrite List.filter_app, length_app. Qed.

Lemma occurrences_cons (d c : N) (s : str) :
  occurrences d (c :: s) = (if (c =? d)%N then 1 else 0) + occurrences d s.
Proof. unfold occurrences. simpl. now destruct (c =? d)%N. Qed.

Lemma occurrences_free (d : N) (s : str) :
  Forall (fun c => c <> d) s -> occurrences d s = 0.
Proof.
  induction 1 as [|c s Hc _ IH]; [reflexivity|]. rewrite occurrences_cons, IH.
  now destruct (N.eqb_spec c d).
Qed.

(** Each wrapped run costs two units [d]; nothing else changes the text. *)
Lemma wrapped_occurrences (d : N) (open : str) (xs ys : list item) :
  wrapped d open false xs ys ->
  occurrences d (chars ys) <= occurrences d (chars xs)
  /\ (occurrences d (chars ys) = occurrences d (chars xs) -> ys = xs).
Proof.
  induction 1 as [|x xs ys _ [IH1 IH2]|cx xs ys _ _ [IH1 IH2]].
  - split; reflexivity.
  - rewrite (chars_cons x ys), (chars_cons x xs), !occurrences_app. split; [lia|].
    intros E. f_equal. apply IH2. lia.
  - cbn [keep_item app]. rewrite chars_Tag, chars_Ch, !chars_app, chars_Tag, chars_Ch.
    rewrite occurrences_cons, !occurrences_app, occurrences_cons, N.eqb_refl.
    split; lia.
Qed.

Lemma occurrences_render (d : N) (xs : list item) :
  plain d -> Forall (tag_free d) xs ->
  occurrences d (render xs) = occurrences d (chars xs).
Proof.
  intros Hd. induction 1 as [|x xs Hx _ IH]; [reflexivity|].
  rewrite render_cons, occurrences_app, IH. destruct x as [c|t].
  - rewrite chars_Ch, occurrences_cons. f_equal. cbn [render_item].
    destruct (N.eqb_spec c d) as [->|Hne].
    + rewrite (proj1 Hd), occurrences_cons, N.eqb_refl. reflexivity.
    + apply occurrences_free. now apply escape_free.
  - rewrite chars_Tag. cbn [render_item]. rewrite occurrences_free by exact Hx. reflexivity.
Qed.

Lemma occurrences_escape (d : N) (s : str) :
  plain d -> occurrences d (escape_text s) = occurrences d s.
Proof.
  intros Hd. rewrite escape_text_render.
  rewrite occurrences_render; [now rewrite chars_map_Ch | exact Hd |].
  apply List.Forall_forall. intros x Hx. apply in_map_iff in Hx.
  destruct Hx as (c & <- & _). exact I.
Qed.

Lemma span_only_suffix (a b : str) : tags_only_span (a ++ b) -> tags_only_span b.
Proof. induction a as [|c a IH]; [auto|]. cbn [app tags_only_span]. intros [_ H]. auto. Qed.

Lemma span_only_free (a b : str) :
  ~ In lt a -> tags_only_span b -> tags_only_span (a ++ b).
Proof.
  induction a as [|c a IH]; intros Ha Hb; [exact Hb|]. cbn [app tags_only_span]. split.
  - intros ->. exfalso. apply Ha. now left.
  - apply IH; [|exact Hb]. intros H. apply Ha. now right.
Qed.

(** The markup of the formatters has no other tags than those of spans. *)
Lemma span_only_render (xs : list item) : Forall tag_ok xs -> tags_only_span (render xs).
Proof.
  induction 1 as [|x xs Hx _ IH]; [exact I|]. rewrite render_cons. destruct x as [c|t].
  - apply span_only_free; [apply no_lt_in_escape | exact IH].
  - cbn [render_item]. destruct (known_tag_lt t Hx) as (t' & Ht & Hno).
    simpl in Hx. apply known_tag_cases in Hx.
    assert (Hstart : startsWith (t' ++ render xs) (lit "sp") = true
                     \/ startsWith (t' ++ render xs) (lit "/") = true).
    { destruct Hx as [E | [E | [E | E]]]; rewrite E in Ht; vm_compute in Ht;
        injection Ht as <-; [left | left | left | right]; vm_compute; reflexivity. }
    subst t. cbn [app tags_only_span]. split; [intros _; exact Hstart|].
    now apply span_only_free.
Qed.

Lemma void_head (tag : str) :
  is_void tag = true ->
  forall r, startsWith (tag ++ r) (lit "sp") = false
            /\ startsWith (tag ++ r) (lit "/") = false.
Proof.
  unfold is_void, void_elements. intros H. apply bool_decide_eq_true in H.
  cbn [map] in H.
  repeat (apply elem_of_cons in H; destruct H as [-> | H];
          [intros r; split; vm_compute; reflexivity|]).
  now apply elem_of_nil in H.
Qed.

(** A tree serialised with span tags only has at least the units [d] of
    its text in its markup. *)
Lemma occurrences_tree (d : N) :
  plain d ->
  forall n rest,
    tags_only_span (serialize_node n ++ rest) ->
    occurrences d (textContent_node n) <= occurrences d (serialize_node n).
Proof.
  intros Hd. induction n as [data|tag attrs cs IH] using CursorFacts.node_ind';
    intros rest H.
  - cbn [textContent_node serialize_node]. now rewrite occurrences_escape.
  - cbn [textContent_node serialize_node] in *.
    change (lit "<") with [lt] in *. cbn [app tags_only_span] in H.
    destruct H as [Hhead H]. specialize (Hhead eq_refl).
    destruct (is_void tag) eqn:Hv.
    + exfalso. rewrite <- !app_assoc in Hhead.
      destruct (void_head tag Hv (flat_map serialize_attr attrs ++ lit ">" ++ [] ++ rest))
        as [H1 H2].
      destruct Hhead; congruence.
    + assert (Hcs : forall rest',
                tags_only_span (flat_map serialize_node cs ++ rest') ->
                occurrences d (flat_map textContent_node cs)
                <= occurrences d (flat_map serialize_node cs)).
      { clear H Hhead. induction IH as [|n cs Hn _ IHcs]; intros rest' H; [reflexivity|].
        cbn [flat_map] in *. rewrite <- app_assoc in H. rewrite !occurrences_app.
        pose proof (Hn _ H). apply span_only_suffix in H. specialize (IHcs _ H). lia. }
      rewrite <- !app_assoc in H.
      apply span_only_suffix, span_only_suffix, span_only_suffix in H.
      specialize (Hcs _ H). change ([lt] ++ ?x) with (lt :: x).
      rewrite occurrences_cons, !occurrences_app. lia.
Qed.

Lemma occurrences_innerHTML (d : N) (cs : list node) :
  plain d -> tags_only_span (innerHTML cs) ->
  occurrences d (textContent cs) <= occurrences d (innerHTML cs).
Proof.
  intros Hd. unfold textContent, innerHTML.
  induction cs as [|n cs IH]; intros H; [reflexivity|].
  cbn [flat_map] in *. rewrite !occurrences_app.
  pose proof (occurrences_tree d Hd n _ H). apply span_only_suffix in H.
  specialize (IH H). lia.
Qed.

(** *** The emphasis runs of a text *)

Lemma emphasis_dropped_items (text : str) :
  exists ys,
    wrapped star T_emphasis false (map Ch text) ys
    /\ chars ys = emphasis_dropped text.
Proof.
  destruct (delim_stage_chars star T_emphasis plain_star (length (map Ch text))
              (map Ch text) 0) as (ys & _ & W & Hc).
  - lia.
  - apply tags_ok_free; [auto | apply all_chars_ok].
  - apply no_gap_chars. apply List.Forall_forall. intros x Hx. apply in_map_iff in Hx.
    destruct Hx as (c & <- & _). exact I.
  - exists ys. split; [exact W|]. rewrite Hc, chars_map_Ch. reflexivity.
Qed.

Lemma emphasis_dropped_up_to_asterisks (text : str) :
  drop_unit star (emphasis_dropped text) = drop_unit star text.
Proof.
  destruct (emphasis_dropped_items text) as (ys & W & <-).
  destruct (wrapped_chars_dropped _ _ _ _ W) as [E _]. now rewrite chars_map_Ch in E.
Qed.

Lemma emphasis_dropped_none (text : str) :
  has_emphasis text = false -> emphasis_dropped text = text.
Proof. intros H. now apply (replace_delim_none star). Qed.

Lemma replace_delim_shorter (d : N) :
  forall n t i,
    length t <= n ->
    length (replace_from (delim d) (fun _ cs => Formatter.grp 1 cs) 0 i t) <= length t
    /\ (test_from (delim d) i t = true ->
        length (replace_from (delim d) (fun _ cs => Formatter.grp 1 cs) 0 i t) < length t).
Proof.
  induction n as [|n IH]; intros t i Hn.
  - destruct t; [|simpl in Hn; lia]. cbn. split; [lia | discriminate].
  - destruct t as [|c t]; [cbn; split; [lia | discriminate]|].
    cbn [test_from]. rewrite replace_from_eq.
    destruct (exec (delim d) i (c :: t)) as [[len cs]|] eqn:He.
    + apply exec_delim_sound in He.
      destruct He as (content & rest' & Hr & Hne & Hc & -> & ->).
      injection Hr as -> ->.
      replace (skipn (S (S (length content))) (d :: content ++ d :: rest')) with rest'.
      2:{ cbn [skipn].
          replace (content ++ d :: rest') with ((content ++ [d]) ++ rest')
            by now rewrite <- app_assoc.
          replace (S (length content)) with (length (content ++ [d]))
            by (rewrite length_app; simpl; lia).
          now rewrite drop_app_length. }
      cbn [Formatter.grp group Nat.eqb].
      destruct (IH rest' (i + S (S (length content)))) as [Hle _].
      { simpl in Hn. rewrite length_app in Hn. simpl in Hn. lia. }
      rewrite length_app. cbn [length]. rewrite length_app. cbn [length]. split; lia.
    + destruct (IH t (S i)) as [Hle Hlt]; [simpl in Hn; lia|]. cbn [length].
      split; [lia|]. intros Ht. specialize (Hlt Ht). lia.
Qed.

(** The text is unchanged exactly when it has no emphasis run. *)
Lemma emphasis_dropped_fixed (text : str) :
  emphasis_dropped text = text <-> has_emphasis text = false.
Proof.
  split; [|apply emphasis_dropped_none].
  intros E. destruct (has_emphasis text) eqn:Ht; [|reflexivity]. exfalso.
  destruct (replace_delim_shorter star (length text) text 0 (Nat.le_refl _)) as [_ Hlt].
  specialize (Hlt Ht). change (replace_from (delim star) _ 0 0 text)
    with (emphasis_dropped text) in Hlt. rewrite E in Hlt. lia.
Qed.

(** The first run after text without asterisks loses its two asterisks,
    and the search goes on behind it. *)
Lemma emphasis_dropped_run (a content b : str) :
  Forall (fun c => c <> star) a ->
  content <> [] -> Forall (fun c => c <> star) content ->
  emphasis_dropped (a ++ star :: content ++ star :: b)
  = a ++ content ++ emphasis_dropped b.
Proof.
  intros Ha Hne Hc. unfold emphasis_dropped, replace_g.
  change Formatter.re_emphasis with (delim star).
  rewrite replace_copy by exact Ha. rewrite replace_delim_run by auto.
  reflexivity.
Qed.

(** *** The markup of the two realtime formatters, exactly *)

Lemma markup_text (text : str) (xs2 xs3 : list item) :
  preserved text -> Forall tag_ok xs2 -> chars xs2 = text ->
  wrapped star T_emphasis false xs2 xs3 ->
  chars xs3 = replace_from (delim star) (fun _ cs => Formatter.grp 1 cs) 0 0 (chars xs2) ->
  Forall tag_ok xs3 /\ preserved (chars xs3)
  /\ chars xs3 = emphasis_dropped text
  /\ (occurrences star text <= occurrences star (render xs3) -> chars xs3 = text).
Proof.
  intros Hp Hok2 E2 W3 Hc.
  assert (Hok3 : Forall tag_ok xs3).
  { eapply wrapped_tag_ok; [|exact W3|exact Hok2]. simpl; tauto. }
  destruct (wrapped_chars_dropped _ _ _ _ W3) as [E3 _].
  destruct (wrapped_occurrences _ _ _ _ W3) as [Hle Heq].
  split; [exact Hok3|]. split; [|split].
  - apply (preserved_drop star); [discriminate..|]. rewrite E3, E2.
    apply (preserved_drop star); [discriminate..|exact Hp].
  - rewrite Hc, E2. reflexivity.
  - intros H. rewrite occurrences_render in H;
      [|apply plain_star|apply tags_ok_free; auto].
    rewrite <- E2 in *. rewrite Heq; [reflexivity | lia].
Qed.

(** The markup of the current realtime formatter is well formed and its
    text is the input without the asterisks of its emphasis runs. *)
Lemma formatted_exact (text : str) :
  preserved text ->
  exists xs,
    Formatter.formatted text = render xs
    /\ Forall tag_ok xs /\ preserved (chars xs)
    /\ chars xs = emphasis_dropped text
    /\ (occurrences star text <= occurrences star (render xs) -> chars xs = text).
Proof.
  intros Hp.
  destruct (delim_stage dq T_dialogue true plain_dq (length (map Ch text)) (map Ch text) 0)
    as (xs1 & H1 & W1); [lia | |].
  { apply List.Forall_forall. intros x Hx. apply in_map_iff in Hx.
    destruct Hx as (c & <- & _). exact I. }
  assert (Hok1 : Forall tag_ok xs1).
  { eapply wrapped_tag_ok; [|exact W1|apply all_chars_ok]. simpl; tauto. }
  destruct (thoughts_stage (length xs1) xs1 0) as (xs2 & H2 & W2); [lia | exact Hok1 |].
  assert (Hok2 : Forall tag_ok xs2) by (eapply thought_wrapped_tag_ok; eauto).
  destruct (delim_stage_chars star T_emphasis plain_star (length xs2) xs2 0)
    as (xs3 & H3 & W3 & Hc);
    [lia | apply tags_ok_free; auto | exact (stages_no_gap text xs1 xs2 W1 W2) |].
  pose proof (wrapped_chars _ _ _ _ W1) as E1. rewrite chars_map_Ch in E1.
  pose proof (thought_wrapped_chars _ _ _ W2) as E2.
  exists xs3. split.
  - unfold Formatter.formatted, Formatter.format_emphasis, Formatter.format_thoughts,
      Formatter.format_dialogue, replace_g.
    rewrite escapeHtml_render.
    change (replace_from Formatter.re_dialogue _ 0 0 (render (map Ch text)))
      with (replace_from (delim dq) (wrap T_dialogue true dq) 0 0 (render (map Ch text))).
    rewrite H1.
    change (replace_from Formatter.re_thoughts _ 0 0 (render xs1))
      with (replace_from Formatter.re_thoughts thoughts_callback 0 0 (render xs1)).
    rewrite H2. exact H3.
  - apply (markup_text text xs2 xs3); auto. congruence.
Qed.

(** The same for the earlier formatter, which only ever wraps emphasis
    runs. *)
Lemma formatted_old_exact (text : str) :
  preserved text ->
  exists xs,
    FormatterOld.formatted text = render xs
    /\ Forall tag_ok xs /\ preserved (chars xs)
    /\ chars xs = emphasis_dropped text
    /\ (occurrences star text <= occurrences star (render xs) -> chars xs = text).
Proof.
  intros Hp.
  destruct (delim_stage_chars star T_emphasis plain_star (length (map Ch text))
              (map Ch text) 0) as (xs & H & W & Hc).
  { lia. }
  { apply tags_ok_free; [auto | apply all_chars_ok]. }
  { apply no_gap_chars. apply List.Forall_forall. intros x Hx. apply in_map_iff in Hx.
    destruct Hx as (c & <- & _). exact I. }
  exists xs. split.
  - unfold FormatterOld.formatted, FormatterOld.escapeHtml, replace_g.
    change (innerHTML (childNodes (set_textContent (Editor [] None) text)))
      with (Formatter.escapeHtml text).
    rewrite escapeHtml_render.
    rewrite (entity_stage_id FormatterOld.re_dialogue) by (left; reflexivity).
    rewrite (entity_stage_id FormatterOld.re_thoughts) by (right; reflexivity).
    exact H.
  - apply (markup_text text (map Ch text) xs); auto.
    + apply all_chars_ok.
    + apply chars_map_Ch.
Qed.

(** Markup that is already in place belongs to a text without emphasis
    runs. *)
Lemma markup_in_place (cs : list node) (xs : list item) :
  Forall tag_ok xs ->
  innerHTML cs = render xs ->
  occurrences star (textContent cs) <= occurrences star (render xs).
Proof.
  intros Hok E. rewrite <- E. apply occurrences_innerHTML; [apply plain_star|].
  rewrite E. now apply span_only_render.
Qed.

End EmphasisFacts.

(* ===================================================================== *)
(** ** The editor buffer under formatting and splicing *)
(* ===================================================================== *)

Module EditorFacts.
Import Js Regex Dom Cursor Markup Provider JsFacts MarkupFacts CursorFacts EmphasisFacts.

Lemma place_total (off : nat -> nat -> nat) (s t : nat) (e : editor) :
  exists e', place off s t e = Some e' /\ childNodes e' = childNodes e.
Proof.
  unfold place, walk_init.
  destruct (walk_scan off s t (size_node (root e)) [([], root e)] 0 false createRange)
    as (st' & Hw & _).
  { unfold stack_size. simpl. lia. }
  rewrite Hw. eexists; split; reflexivity.
Qed.

Lemma restore_total (e : editor) (p : option position) :
  (exists e', Formatter.restoreCursorPosition e p = Some e' /\ childNodes e' = childNodes e)
  /\ (exists e', FormatterOld.restoreCursorPosition e p = Some e'
                 /\ childNodes e' = childNodes e).
Proof.
  destruct p as [p|]; simpl.
  - split; apply place_total.
  - split; exists e; auto.
Qed.

Lemma set_textContent_text (e : editor) (text : str) :
  textContent (childNodes (set_textContent e text)) = text.
Proof.
  unfold set_textContent. destruct text as [|c t]; simpl; [reflexivity|].
  now rewrite app_nil_r.
Qed.

(** Installing well-formed markup gives nodes with the text of its items. *)
Lemma set_innerHTML_render (e : editor) (xs : list item) :
  Forall tag_ok xs -> preserved (chars xs) ->
  exists e', set_innerHTML e (render xs) = Some e'
             /\ textContent (childNodes e') = chars xs.
Proof.
  intros Hok Hp. destruct (parse_render xs Hok Hp) as (cs & Hparse & Htext).
  unfold set_innerHTML. rewrite Hparse. eexists; split; [reflexivity | exact Htext].
Qed.

Lemma apply_current (e : editor) :
  preserved (textContent (childNodes e)) ->
  exists e', Formatter.applyRealtimeFormatting e = Some e'
    /\ drop_unit star (Formatter.getPlainText e')
       = drop_unit star (textContent (childNodes e))
    /\ (Forall (fun c => c <> star) (textContent (childNodes e)) ->
        Formatter.getPlainText e' = textContent (childNodes e)).
Proof.
  intros Hp. unfold Formatter.applyRealtimeFormatting, Formatter.getPlainText.
  case_bool_decide; [exists e; auto|].
  destruct (formatted_text _ Hp) as (xs & Hf & Hok & Hpx & Hd & Hs).
  rewrite Hf. destruct (set_innerHTML_render e xs Hok Hpx) as (e1 & -> & Ht).
  destruct (restore_total e1 (saveCursorPosition e)) as [(e2 & -> & Hc) _].
  exists e2. rewrite Hc, Ht. auto.
Qed.

Lemma apply_earlier (e : editor) :
  preserved (textContent (childNodes e)) ->
  exists e', FormatterOld.applyRealtimeFormatting e = Some e'
    /\ drop_unit star (FormatterOld.getPlainText e')
       = drop_unit star (textContent (childNodes e))
    /\ (Forall (fun c => c <> star) (textContent (childNodes e)) ->
        FormatterOld.getPlainText e' = textContent (childNodes e)).
Proof.
  intros Hp. unfold FormatterOld.applyRealtimeFormatting, FormatterOld.getPlainText.
  case_bool_decide; [exists e; auto|].
  destruct (formatted_old_text _ Hp) as (xs & Hf & Hok & Hpx & Hd & Hs).
  rewrite Hf. destruct (set_innerHTML_render e xs Hok Hpx) as (e1 & -> & Ht).
  destruct (restore_total e1 (saveCursorPosition e)) as [_ (e2 & -> & Hc)].
  exists e2. rewrite Hc, Ht. auto.
Qed.

(** The text read back after formatting, exactly. *)
Lemma apply_current_exact (e : editor) :
  preserved (textContent (childNodes e)) ->
  exists e', Formatter.applyRealtimeFormatting e = Some e'
    /\ Formatter.getPlainText e' = emphasis_dropped (textContent (childNodes e)).
Proof.
  intros Hp. unfold Formatter.applyRealtimeFormatting, Formatter.getPlainText.
  destruct (formatted_exact _ Hp) as (xs & Hf & Hok & Hpx & Hc & Hin).
  case_bool_decide as Heq.
  - exists e. split; [reflexivity|]. rewrite <- Hc. symmetry. apply Hin.
    apply markup_in_place; [exact Hok | congruence].
  - rewrite Hf. destruct (set_innerHTML_render e xs Hok Hpx) as (e1 & -> & Ht).
    destruct (restore_total e1 (saveCursorPosition e)) as [(e2 & -> & Hc2) _].
    exists e2. rewrite Hc2, Ht. auto.
Qed.

Lemma apply_earlier_exact (e : editor) :
  preserved (textContent (childNodes e)) ->
  exists e', FormatterOld.applyRealtimeFormatting e = Some e'
    /\ FormatterOld.getPlainText e' = emphasis_dropped (textContent (childNodes e)).
Proof.
  intros Hp. unfold FormatterOld.applyRealtimeFormatting, FormatterOld.getPlainText.
  destruct (formatted_old_exact _ Hp) as (xs & Hf & Hok & Hpx & Hc & Hin).
  case_bool_decide as Heq.
  - exists e. split; [reflexivity|]. rewrite <- Hc. symmetry. apply Hin.
    apply markup_in_place; [exact Hok | congruence].
  - rewrite Hf. destruct (set_innerHTML_render e xs Hok Hpx) as (e1 & -> & Ht).
    destruct (restore_total e1 (saveCursorPosition e)) as [_ (e2 & -> & Hc2)].
    exists e2. rewrite Hc2, Ht. auto.
Qed.

Lemma no_asterisk_no_emphasis (t : str) :
  Forall (fun c => c <> star) t -> has_emphasis t = false.
Proof.
  unfold has_emphasis, test. change Formatter.re_emphasis with (delim star).
  intros H. enough (forall i, test_from (delim star) i t = false) by auto.
  induction H as [|c t Hc _ IH]; intros i; cbn [test_from].
  - reflexivity.
  - rewrite exec_delim_first by exact Hc. apply IH.
Qed.

(** C2, amended.  When the text [t] of the editable element has no U+0000
    and no CR, [applyRealtimeFormatting] of either realtime formatter
    succeeds and [getPlainText] afterwards is [t] without the two asterisks
    of each of its emphasis runs, the runs being the matches of the emphasis
    pattern in [t] itself from left to right.  So the text read back is [t]
    exactly when [t] has no emphasis run, in particular when it has no
    asterisk; the first run after text without asterisks loses its two
    asterisks and keeps what is between them; and nothing but asterisks is
    ever lost. *)
Theorem plain_text_roundtrip (e : editor) :
  preserved (textContent (childNodes e)) ->
  let t := textContent (childNodes e) in
  (exists e', Formatter.applyRealtimeFormatting e = Some e'
     /\ Formatter.getPlainText e' = emphasis_dropped t)
  /\ (exists e', FormatterOld.applyRealtimeFormatting e = Some e'
        /\ FormatterOld.getPlainText e' = emphasis_dropped t)
  /\ (emphasis_dropped t = t <-> has_emphasis t = false)
  /\ (Forall (fun c => c <> star) t -> has_emphasis t = false)
  /\ (forall a content b,
        Forall (fun c => c <> star) a ->
        content <> [] -> Forall (fun c => c <> star) content ->
        emphasis_dropped (a ++ star :: content ++ star :: b)
        = a ++ content ++ emphasis_dropped b)
  /\ drop_unit star (emphasis_dropped t) = drop_unit star t.
Proof.
  intros Hp t. split; [now apply apply_current_exact|].
  split; [now apply apply_earlier_exact|].
  split; [apply emphasis_dropped_fixed|].
  split; [apply no_asterisk_no_emphasis|].
  split; [exact emphasis_dropped_run | apply emphasis_dropped_up_to_asterisks].
Qed.

Lemma plain_text_roundtrip_witness :
  exists e', Formatter.applyRealtimeFormatting
               (Editor [Text Samples.contraction_example] None) = Some e'
             /\ Formatter.getPlainText e' = Samples.contraction_example.
Proof.
  destruct (plain_text_roundtrip (Editor [Text Samples.contraction_example] None))
    as ((e' & He & Ht) & _ & Hfix & _).
  - vm_compute. repeat constructor; discriminate.
  - exists e'. split; [exact He|]. rewrite Ht. apply Hfix.
    vm_compute. reflexivity.
Defined.

(** C2 as stated fails on an emphasis run: the asterisks of the run are not
    in the text read back, in either realtime formatter. *)
Lemma plain_text_roundtrip_loses_asterisks :
  let e := Editor [Text (lit "x *a* y")] None in
  option_map Formatter.getPlainText (Formatter.applyRealtimeFormatting e)
  = Some (lit "x a y")
  /\ option_map FormatterOld.getPlainText (FormatterOld.applyRealtimeFormatting e)
     = Some (lit "x a y")
  /\ textContent (childNodes e) = lit "x *a* y".
Proof. repeat split; vm_compute; reflexivity. Qed.

(** *** Splicing generated text into the buffer *)

Lemma setPlainText_current (e : editor) (text : str) :
  preserved text ->
  exists e', Formatter.setPlainText e text = Some e'
    /\ drop_unit star (Formatter.getPlainText e') = drop_unit star text
    /\ (Forall (fun c => c <> star) text -> Formatter.getPlainText e' = text).
Proof.
  intros Hp. unfold Formatter.setPlainText.
  destruct (apply_current (set_textContent e text)) as (e1 & -> & Hd & Hs);
    rewrite set_textContent_text in *; [exact Hp|].
  destruct (saveCursorPosition e) as [p|]; [|exists e1; auto].
  destruct (restore_total e1 (Some p)) as [(e2 & -> & Hc) _].
  exists e2. unfold Formatter.getPlainText in *. rewrite Hc. auto.
Qed.

Lemma setPlainText_earlier (e : editor) (text : str) :
  preserved text ->
  exists e', FormatterOld.setPlainText e text = Some e'
    /\ drop_unit star (FormatterOld.getPlainText e') = drop_unit star text
    /\ (Forall (fun c => c <> star) text -> FormatterOld.getPlainText e' = text).
Proof.
  intros Hp. unfold FormatterOld.setPlainText.
  destruct (apply_earlier (set_textContent e text)) as (e1 & -> & Hd & Hs);
    rewrite set_textContent_text in *; [exact Hp|].
  destruct (saveCursorPosition e) as [p|]; [|exists e1; auto].
  destruct (restore_total e1 (Some p)) as [_ (e2 & -> & Hc)].
  exists e2. unfold FormatterOld.getPlainText in *. rewrite Hc. auto.
Qed.

Lemma setCursorOffset_current (e : editor) (o : nat) :
  exists e', Formatter.setCursorOffset e o = Some e'
    /\ Formatter.getPlainText e' = Formatter.getPlainText e
    /\ Formatter.getCursorOffset e' = Nat.min o (length (Formatter.getPlainText e)).
Proof.
  destruct (restore_capture_current e (Position o o)) as (e' & He & Hc & Hs);
    [simpl; lia|].
  exists e'. unfold Formatter.setCursorOffset, Formatter.getPlainText,
    Formatter.getCursorOffset. rewrite He, Hc, Hs. auto.
Qed.

Lemma setCursorOffset_earlier (e : editor) (o : nat) :
  o <= length (FormatterOld.getPlainText e) ->
  exists e', FormatterOld.setCursorOffset e o = Some e'
    /\ FormatterOld.getPlainText e' = FormatterOld.getPlainText e
    /\ FormatterOld.getCursorOffset e' = o.
Proof.
  intros Ho.
  destruct (place_capture (fun d _ => d) e o o) as (e' & He & Hc & Hs); auto.
  exists e'. unfold FormatterOld.setCursorOffset, FormatterOld.getPlainText,
    FormatterOld.getCursorOffset, FormatterOld.restoreCursorPosition.
  simpl. rewrite He, Hc, Hs. auto.
Qed.

Section Splice.
Context {F : FormatterModule}.

(** What the application needs from the formatter object. *)
Hypothesis set_text : forall e text,
  preserved text -> Forall (fun c => c <> star) text ->
  exists e', setPlainText e text = Some e' /\ getPlainText e' = text.
Hypothesis set_cursor : forall e o,
  o <= length (getPlainText e) ->
  exists e', setCursorOffset e o = Some e'
             /\ getPlainText e' = getPlainText e /\ getCursorOffset e' = o.

Lemma splice_spec (ss : App.session) (generatedText : str) (st : App.app_state) :
  let newText := App.textBefore ss ++ generatedText ++ App.textAfter ss in
  preserved newText -> Forall (fun c => c <> star) newText ->
  exists e', App.splice ss generatedText st = Some e'
    /\ getPlainText e' = newText
    /\ getCursorOffset e' = length (App.textBefore ss) + length generatedText.
Proof.
  intros newText Hp Hs. unfold App.splice. fold newText.
  destruct (set_text (App.editorTextarea st) newText Hp Hs) as (e1 & -> & Ht).
  destruct (set_cursor e1 (length (App.textBefore ss) + length generatedText))
    as (e2 & -> & Ht2 & Hc).
  { rewrite Ht. unfold newText. rewrite !length_app. lia. }
  exists e2. rewrite Ht2, Ht. auto.
Qed.

End Splice.

(** The two texts are what lies before and after the caret when the
    generation starts, and together they are the whole buffer. *)
Lemma start_captures {F : FormatterModule} (initialized : bool) (rl : App.rate_limit)
      (st st' : App.app_state) (ss : App.session) :
  App.start initialized rl st = Some (ss, st') ->
  App.textBefore ss
  = firstn (getCursorOffset (App.editorTextarea st)) (getPlainText (App.editorTextarea st))
  /\ App.textAfter ss
     = skipn (getCursorOffset (App.editorTextarea st)) (getPlainText (App.editorTextarea st))
  /\ App.textBefore ss ++ App.textAfter ss = getPlainText (App.editorTextarea st)
  /\ App.editorTextarea st' = App.editorTextarea st
  /\ App.isGenerating st' = true.
Proof.
  unfold App.start. intros H.
  destruct (App.isGenerating st || negb initialized); [discriminate|].
  destruct (negb (App.canGenerate rl)); [discriminate|].
  destruct (negb (App.checkInputTokenLimit rl _)); [discriminate|].
  injection H as <- <-. cbn [App.textBefore App.textAfter App.editorTextarea App.isGenerating].
  unfold substring, substring1. cbn [Nat.leb skipn]. rewrite Nat.sub_0_r.
  repeat split. apply firstn_skipn.
Qed.


(** *** Splicing any text *)

Lemma setPlainText_current_exact (e : editor) (text : str) :
  preserved text ->
  exists e', Formatter.setPlainText e text = Some e'
    /\ Formatter.getPlainText e' = emphasis_dropped text.
Proof.
  intros Hp. unfold Formatter.setPlainText.
  destruct (apply_current_exact (set_textContent e text)) as (e1 & -> & Ht);
    rewrite set_textContent_text in *; [exact Hp|].
  destruct (saveCursorPosition e) as [p|]; [|exists e1; auto].
  destruct (restore_total e1 (Some p)) as [(e2 & -> & Hc) _].
  exists e2. unfold Formatter.getPlainText in *. rewrite Hc. auto.
Qed.

Lemma setPlainText_earlier_exact (e : editor) (text : str) :
  preserved text ->
  exists e', FormatterOld.setPlainText e text = Some e'
    /\ FormatterOld.getPlainText e' = emphasis_dropped text.
Proof.
  intros Hp. unfold FormatterOld.setPlainText.
  destruct (apply_earlier_exact (set_textContent e text)) as (e1 & -> & Ht);
    rewrite set_textContent_text in *; [exact Hp|].
  destruct (saveCursorPosition e) as [p|]; [|exists e1; auto].
  destruct (restore_total e1 (Some p)) as [_ (e2 & -> & Hc)].
  exists e2. unfold FormatterOld.getPlainText in *. rewrite Hc. auto.
Qed.

(** What either realtime formatter does with any text and any offset. *)
Lemma formatter_sets_any (F : FormatterModule) :
  F = formatter_current \/ F = formatter_earlier ->
  (forall e text,
     preserved text ->
     exists e', @setPlainText F e text = Some e'
                /\ @getPlainText F e' = emphasis_dropped text)
  /\ (forall e o,
        exists e', @setCursorOffset F e o = Some e'
                   /\ @getPlainText F e' = @getPlainText F e
                   /\ (o <= length (@getPlainText F e) -> @getCursorOffset F e' = o)).
Proof.
  intros [-> | ->]; split.
  - exact setPlainText_current_exact.
  - intros e o. destruct (setCursorOffset_current e o) as (e' & He & Ht & Hc).
    exists e'. cbn [getPlainText getCursorOffset setCursorOffset formatter_current] in *.
    split; [exact He|]. split; [exact Ht|]. intros Ho. rewrite Hc. now apply Nat.min_l.
  - exact setPlainText_earlier_exact.
  - intros e o. cbn [getPlainText getCursorOffset setCursorOffset formatter_earlier].
    destruct (restore_total e (Some (Position o o))) as [_ (e' & He & Hc)].
    exists e'. split; [exact He|]. split.
    + unfold FormatterOld.getPlainText. now rewrite Hc.
    + intros Ho. destruct (setCursorOffset_earlier e o Ho) as (e2 & He2 & _ & Ho2).
      unfold FormatterOld.setCursorOffset in He2. congruence.
Qed.

Section SpliceAny.
Context {F : FormatterModule}.
Hypothesis HF : F = formatter_current \/ F = formatter_earlier.

Lemma splice_any (ss : App.session) (generatedText : str) (st : App.app_state) :
  let newText := App.textBefore ss ++ generatedText ++ App.textAfter ss in
  preserved newText ->
  exists e', App.splice ss generatedText st = Some e'
    /\ getPlainText e' = emphasis_dropped newText
    /\ (has_emphasis newText = false ->
        getPlainText e' = newText
        /\ getCursorOffset e' = length (App.textBefore ss) + length generatedText).
Proof.
  intros newText Hp. destruct (formatter_sets_any F HF) as [Hset Hcur].
  unfold App.splice. fold newText.
  destruct (Hset (App.editorTextarea st) newText Hp) as (e1 & -> & Ht).
  destruct (Hcur e1 (length (App.textBefore ss) + length generatedText))
    as (e2 & -> & Ht2 & Hc).
  exists e2. split; [reflexivity|]. split; [congruence|].
  intros Hno. apply emphasis_dropped_none in Hno. split; [congruence|].
  apply Hc. rewrite Ht, Hno. unfold newText. rewrite !length_app. lia.
Qed.

(** After any number of callbacks the buffer holds the text spliced by
    the last one, read back through the formatter. *)
Lemma deliver_all_any (ss : App.session) (evs : list event) :
  forall (ev : event) (g : str) (st : App.app_state),
    Forall (fun ev => exists g, App.accumulated ev = Some g
                                /\ preserved (App.textBefore ss ++ g ++ App.textAfter ss))
           (evs ++ [ev]) ->
    App.accumulated ev = Some g ->
    exists st', App.deliver_all ss (evs ++ [ev]) st = Some st'
      /\ getPlainText (App.editorTextarea st')
         = emphasis_dropped (App.textBefore ss ++ g ++ App.textAfter ss)
      /\ (has_emphasis (App.textBefore ss ++ g ++ App.textAfter ss) = false ->
          getPlainText (App.editorTextarea st')
          = App.textBefore ss ++ g ++ App.textAfter ss
          /\ getCursorOffset (App.editorTextarea st')
             = length (App.textBefore ss) + length g).
Proof.
  induction evs as [|a evs IH]; intros ev g st Hall Hg.
  - apply Forall_cons in Hall. destruct Hall as [(g' & Hg' & Hp) _].
    assert (g' = g) by congruence. subst g'.
    destruct (splice_any ss g st Hp) as (e' & He & Ht & Hc).
    destruct ev as [chunk t|t|err]; simpl in Hg; [| |discriminate];
      injection Hg as ->; cbn [app App.deliver_all App.deliver];
      unfold App.onChunk, App.onComplete; rewrite He;
      eexists; (split; [reflexivity|]); cbn [App.editorTextarea]; auto.
  - rewrite <- app_comm_cons in Hall. apply Forall_cons in Hall.
    destruct Hall as [(g' & Hg' & Hp) Hall].
    destruct (splice_any ss g' st Hp) as (e' & He & _).
    destruct a as [chunk t|t|err]; simpl in Hg'; [| |discriminate];
      injection Hg' as ->; rewrite <- app_comm_cons; cbn [App.deliver_all App.deliver];
      unfold App.onChunk, App.onComplete; rewrite He; apply IH; assumption.
Qed.

End SpliceAny.

(** C1, amended.  The two texts are captured once, from the buffer at the
    caret offset, when the generation starts, and the callbacks only read
    them.  With either realtime formatter, as long as the spliced texts have
    no U+0000 and no CR, every chunk callback and the completion callback
    succeed, and after each of them the buffer is
    [textBefore ++ generatedText ++ textAfter] without the two asterisks of
    each of its emphasis runs.  So when the spliced text has no emphasis
    run (in particular no asterisk) the buffer is the spliced text exactly,
    and the caret is then at [length textBefore + length generatedText].
    The example of the specification runs as it says. *)
Theorem splice_invariant :
  (forall (F : FormatterModule) initialized rl generateText st ss st0,
     App.start (F:=F) initialized rl st = Some (ss, st0) ->
     App.textBefore ss
     = firstn (@getCursorOffset F (App.editorTextarea st))
              (@getPlainText F (App.editorTextarea st))
     /\ App.textAfter ss
        = skipn (@getCursorOffset F (App.editorTextarea st))
                (@getPlainText F (App.editorTextarea st))
     /\ App.textBefore ss ++ App.textAfter ss = @getPlainText F (App.editorTextarea st)
     /\ App.handleGenerate (F:=F) initialized rl generateText st
        = App.deliver_all (F:=F) ss
            (generateText (App.textBefore ss) (App.textAfter ss)) st0)
  /\ (forall (F : FormatterModule) ss evs ev g st,
        F = formatter_current \/ F = formatter_earlier ->
        Forall (fun ev => exists g,
                  App.accumulated ev = Some g
                  /\ preserved (App.textBefore ss ++ g ++ App.textAfter ss))
               (evs ++ [ev]) ->
        App.accumulated ev = Some g ->
        exists st', App.deliver_all (F:=F) ss (evs ++ [ev]) st = Some st'
          /\ @getPlainText F (App.editorTextarea st')
             = emphasis_dropped (App.textBefore ss ++ g ++ App.textAfter ss)
          /\ (has_emphasis (App.textBefore ss ++ g ++ App.textAfter ss) = false ->
              @getPlainText F (App.editorTextarea st')
              = App.textBefore ss ++ g ++ App.textAfter ss
              /\ @getCursorOffset F (App.editorTextarea st')
                 = length (App.textBefore ss) + length g))
  /\ (forall t,
        (emphasis_dropped t = t <-> has_emphasis t = false)
        /\ (Forall (fun c => c <> star) t -> has_emphasis t = false)
        /\ drop_unit star (emphasis_dropped t) = drop_unit star t)
  /\ option_map (fun st => (Formatter.getPlainText (App.editorTextarea st),
                            Formatter.getCursorOffset (App.editorTextarea st)))
       (App.handleGenerate (F:=formatter_current) true Samples.open_limits
          Samples.splice_events Samples.splice_state)
     = Some (Samples.splice_before ++ lit "She walked on." ++ Samples.splice_after, 27).
Proof.
  split; [|split; [|split]].
  - intros F initialized rl generateText st ss st0 Hstart.
    destruct (start_captures initialized rl st st0 ss Hstart) as (H1 & H2 & H3 & _).
    repeat split; auto. unfold App.handleGenerate. now rewrite Hstart.
  - intros F ss evs ev g st HF Hall Hg. now apply (deliver_all_any HF).
  - intros t. split; [apply emphasis_dropped_fixed|].
    split; [apply no_asterisk_no_emphasis | apply emphasis_dropped_up_to_asterisks].
  - vm_compute. reflexivity.
Qed.

Lemma splice_invariant_witness :
  exists st',
    App.deliver_all (F:=formatter_current)
      (App.Session Samples.splice_before Samples.splice_after)
      [OnChunk (lit "She") (lit "She"); OnChunk (lit " walked on.") (lit "She walked on.")]
      Samples.splice_state = Some st'
    /\ Formatter.getPlainText (App.editorTextarea st')
       = Samples.splice_before ++ lit "She walked on." ++ Samples.splice_after
    /\ Formatter.getCursorOffset (App.editorTextarea st') = 27.
Proof.
  destruct splice_invariant as (_ & H & _).
  destruct (H formatter_current (App.Session Samples.splice_before Samples.splice_after)
              [OnChunk (lit "She") (lit "She")]
              (OnChunk (lit " walked on.") (lit "She walked on."))
              (lit "She walked on.") Samples.splice_state) as (st' & Hd & _ & Hc).
  - left; reflexivity.
  - constructor; [|constructor; [|constructor]].
    + exists (lit "She"). split; [reflexivity|].
      vm_compute; repeat constructor; discriminate.
    + exists (lit "She walked on."). split; [reflexivity|].
      vm_compute; repeat constructor; discriminate.
  - reflexivity.
  - destruct Hc as [Ht Hc]; [vm_compute; reflexivity|].
    exists st'. split; [exact Hd|]. split; [exact Ht | exact Hc].
Defined.

(** C1 as stated fails when the generated text has an emphasis run: the
    buffer read back lacks the asterisks, so it is not the concatenation,
    and the caret offset computed from the lengths falls behind the end of
    the generated text (at 5, the end of the buffer, instead of 3). *)
Lemma splice_invariant_fails_on_emphasis :
  let ss := App.Session (lit "x ") (lit " y") in
  option_map (fun st => (Formatter.getPlainText (App.editorTextarea st),
                         Formatter.getCursorOffset (App.editorTextarea st)))
    (App.onChunk (F:=formatter_current) ss (lit "*a*") (lit "*a*") Samples.splice_state)
  = Some (lit "x a y", 5)
  /\ option_map (fun st => FormatterOld.getPlainText (App.editorTextarea st))
       (App.onChunk (F:=formatter_earlier) ss (lit "*a*") (lit "*a*") Samples.splice_state)
     = Some (lit "x a y")
  /\ App.textBefore ss ++ lit "*a*" ++ App.textAfter ss = lit "x *a* y".
Proof. repeat split; vm_compute; reflexivity. Qed.

End EditorFacts.

(* ===================================================================== *)
(** ** Paragraph breaks and the formatters *)
(* ===================================================================== *)

Module BreakFacts.
Import Js Regex Markup JsFacts RegexFacts MarkupFacts.

Lemma starts_nl_app (a b : str) : a <> [] -> starts_nl (a ++ b) = starts_nl a.
Proof. destruct a; [contradiction | reflexivity]. Qed.

Lemma ends_nl_cons (c : N) (l : str) : l <> [] -> ends_nl (c :: l) = ends_nl l.
Proof. destruct l; [contradiction | reflexivity]. Qed.

Lemma ends_nl_app (a b : str) :
  ends_nl (a ++ b) = match b with [] => ends_nl a | _ :: _ => ends_nl b end.
Proof.
  induction a as [|c a IH].
  - destruct b; reflexivity.
  - destruct b as [|x b]; [now rewrite app_nil_r|].
    cbn [app]. rewrite (ends_nl_cons c (a ++ x :: b)) by (destruct a; discriminate).
    exact IH.
Qed.

Lemma has_break_app (a b : str) :
  has_break (a ++ b) = has_break a || has_break b || (ends_nl a && starts_nl b).
Proof.
  induction a as [|c a IH]; [simpl; now rewrite orb_false_r|].
  cbn [app has_break]. rewrite IH. destruct a as [|x a].
  - cbn [app has_break starts_nl ends_nl].
    destruct (c =? nl)%N, (starts_nl b), (has_break b); reflexivity.
  - rewrite (ends_nl_cons c (x :: a)) by discriminate. cbn [app starts_nl].
    destruct (c =? nl)%N, (x =? nl)%N, (has_break (x :: a)), (has_break b),
      (ends_nl (x :: a)), (starts_nl b); reflexivity.
Qed.

Lemma has_break_app_inv (a b : str) :
  has_break (a ++ b) = false ->
  has_break a = false /\ has_break b = false
  /\ (ends_nl a = true -> starts_nl b = true -> False).
Proof.
  rewrite has_break_app. destruct (has_break a), (has_break b), (ends_nl a), (starts_nl b);
    simpl; try discriminate; intros _; repeat split; try reflexivity; discriminate.
Qed.

Lemma has_break_app_intro (a b : str) :
  has_break a = false -> has_break b = false ->
  (ends_nl a = false \/ starts_nl b = false) ->
  has_break (a ++ b) = false.
Proof.
  intros Ha Hb H. rewrite has_break_app, Ha, Hb. simpl.
  destruct H as [-> | ->]; [reflexivity | apply andb_false_r].
Qed.

(** A global replace whose replacements are safe brings no break in. *)
Lemma replace_break_free (r : re) (f : str -> caps -> str) :
  (forall i rest len cs,
     has_break rest = false -> exec r i rest = Some (len, cs) ->
     1 <= len /\ break_safe (f (firstn len rest) cs) (firstn len rest)) ->
  forall n s i,
    length s <= n -> has_break s = false ->
    break_free_as s (replace_from r f 0 i s).
Proof.
  intros Hf. induction n as [|n IH]; intros s i Hn Hs; rewrite replace_from_eq.
  - destruct s; [|simpl in Hn; lia].
    destruct (exec r i []) as [[len cs]|] eqn:He.
    + destruct (Hf _ _ _ _ Hs He) as [Hlen _]. apply exec_length in He. simpl in He. lia.
    + repeat split; auto.
  - destruct (exec r i s) as [[len cs]|] eqn:He.
    + destruct (Hf _ _ _ _ Hs He) as [Hlen (Ho & Hnb & Hst & Hen)].
      pose proof (exec_length _ _ _ _ _ He) as Hle.
      destruct len as [|len]; [lia|].
      set (o := f (firstn (S len) s) cs) in *.
      pose proof (firstn_skipn (S len) s) as Hsplit.
      set (mt := firstn (S len) s) in *. set (s' := skipn (S len) s) in *.
      assert (Hmt : mt <> []).
      { unfold mt. destruct s; [simpl in Hle; lia | discriminate]. }
      assert (Hs' : length s' <= n).
      { unfold s'. rewrite length_skipn. lia. }
      rewrite <- Hsplit in Hs. apply has_break_app_inv in Hs.
      destruct Hs as (Hb1 & Hb2 & Hjoin).
      destruct (IH s' (i + S len) Hs' Hb2) as (P1 & P2 & P3 & P4 & P5).
      rewrite <- Hsplit. repeat split.
      * apply has_break_app_intro; auto.
        destruct (ends_nl o) eqn:E1; [|auto].
        destruct (starts_nl (replace_from r f 0 (i + S len) s')) eqn:E2; [|auto].
        exfalso. auto.
      * rewrite !starts_nl_app by assumption. exact Hst.
      * rewrite !ends_nl_app.
        destruct (replace_from r f 0 (i + S len) s') as [|x out'] eqn:Eo;
          destruct s' as [|y t']; auto.
        -- now specialize (P4 ltac:(discriminate)).
        -- now specialize (P5 eq_refl).
      * intros _ H. apply app_eq_nil in H. tauto.
      * intros H. apply app_eq_nil in H. tauto.
    + destruct s as [|c t]; [repeat split; auto|].
      apply (has_break_app_inv [c] t) in Hs. destruct Hs as (_ & Hb2 & Hjoin).
      destruct (IH t (S i) ltac:(simpl in Hn; lia) Hb2) as (P1 & P2 & P3 & P4 & P5).
      repeat split; try discriminate.
      * apply (has_break_app_intro [c]); [simpl; now rewrite andb_false_r | exact P1 |].
        destruct (ends_nl [c]) eqn:E1; [|auto].
        destruct (starts_nl (replace_from r f 0 (S i) t)) eqn:E2; [|auto].
        exfalso. auto.
      * auto.
      * change (ends_nl ([c] ++ replace_from r f 0 (S i) t) = true
                -> ends_nl ([c] ++ t) = true).
        rewrite (ends_nl_app [c] (replace_from r f 0 (S i) t)), (ends_nl_app [c] t).
        destruct (replace_from r f 0 (S i) t) as [|x out'] eqn:Eo;
          destruct t as [|y t']; auto.
        -- now specialize (P4 ltac:(discriminate)).
        -- now specialize (P5 eq_refl).
Qed.

Lemma break_free_as_refl (s : str) : has_break s = false -> break_free_as s s.
Proof. intros H. repeat split; auto. Qed.

Lemma nb_l (a b : str) :
  has_break a = false -> ends_nl a = false -> has_break b = false ->
  has_break (a ++ b) = false.
Proof. intros. apply has_break_app_intro; auto. Qed.

Lemma nb_r (a b : str) :
  has_break a = false -> starts_nl b = false -> has_break b = false ->
  has_break (a ++ b) = false.
Proof. intros. apply has_break_app_intro; auto. Qed.

Lemma headed_nonempty (c : N) (t s : str) : s = c :: t -> s <> [].
Proof. intros ->. discriminate. Qed.

(** Break-freeness of a right-nested concatenation of literal pieces and
    pieces known to be break free. *)
Ltac break_free_chain :=
  repeat first
    [ apply nb_r; [assumption | reflexivity | ]
    | apply nb_l; [vm_compute; reflexivity | vm_compute; reflexivity | ] ];
  first [assumption | vm_compute; reflexivity].

(** *** The preview formatter *)

Lemma escapeHtml_break_free (s : str) :
  has_break s = false -> break_free_as s (Preview.escapeHtml s).
Proof.
  intros Hs. unfold Preview.escapeHtml, replace_g.
  apply (replace_break_free _ _) with (n := length s); [|lia|exact Hs].
  intros i rest len cs _ He. unfold exec in He. cbn [m] in He.
  destruct rest as [|c t]; [discriminate|].
  destruct (one_of (lit "&<>") c); [|discriminate].
  injection He as <- <-. replace (S i - i) with 1 by lia. split; [lia|].
  cbn [firstn]. unfold break_safe.
  repeat case_bool_decide; repeat split; try discriminate.
Qed.

(** A callback of a delimiter pattern that only writes line feeds taken
    from a break-free group 1 keeps the text break free. *)
Lemma delim_break_safe (d : N) (f : str -> caps -> str) :
  (forall mt content,
     has_break content = false ->
     f mt [(1, content)] <> [] /\ has_break (f mt [(1, content)]) = false
     /\ starts_nl (f mt [(1, content)]) = false
     /\ ends_nl (f mt [(1, content)]) = false) ->
  forall i rest len cs,
    has_break rest = false -> exec (delim d) i rest = Some (len, cs) ->
    1 <= len /\ break_safe (f (firstn len rest) cs) (firstn len rest).
Proof.
  intros Hf i rest len cs Hnb He.
  destruct (exec_delim_sound d i rest len cs He) as (content & rest' & -> & _ & _ & -> & ->).
  split; [lia|].
  assert (Hc : has_break content = false).
  { apply (has_break_app_inv [d]) in Hnb. destruct Hnb as (_ & Hnb & _).
    apply has_break_app_inv in Hnb. tauto. }
  destruct (Hf (firstn (S (S (length content))) (d :: content ++ d :: rest')) content Hc)
    as (H1 & H2 & H3 & H4).
  unfold break_safe. rewrite H3, H4. repeat split; auto; discriminate.
Qed.

Lemma span_break_safe (cls : string) (color : str) (q : str) (mt content : str) :
  has_break color = false ->
  has_break (lit cls) = false ->
  has_break q = false -> starts_nl q = false -> ends_nl q = false ->
  has_break content = false ->
  let o := Preview.span_open cls color ++ q ++ Preview.escapeHtml content
           ++ q ++ Preview.span_close in
  o <> [] /\ has_break o = false /\ starts_nl o = false /\ ends_nl o = false.
Proof.
  intros Hcol Hcls Hq Hqs Hqe Hc o.
  destruct (escapeHtml_break_free content Hc) as (He & _).
  split; [|split; [|split; [reflexivity|]]].
  - apply (headed_nonempty lt (tl o)). reflexivity.
  - unfold o, Preview.span_open. rewrite <- !app_assoc.
    assert (Hqc : has_break (q ++ Preview.span_close) = false).
    { apply nb_l; [assumption | assumption | vm_compute; reflexivity]. }
    assert (Htail : has_break (q ++ Preview.escapeHtml content ++ q ++ Preview.span_close)
                    = false).
    { destruct q as [|x q'].
      - cbn [app]. apply nb_r; [assumption | reflexivity | vm_compute; reflexivity].
      - apply nb_l; [assumption | assumption |].
        apply nb_r; [assumption | exact Hqs | exact Hqc]. }
    break_free_chain.
  - unfold o. rewrite !app_assoc. rewrite ends_nl_app. reflexivity.
Qed.

(** A match of the last pattern is a whole span, recorded as group 1, or a
    run without a less-than sign, recorded as group 2 with no group 1. *)
Lemma exec_remaining (i : nat) (rest : str) (len : nat) (cs : caps) :
  exec Preview.re_remaining i rest = Some (len, cs) ->
  1 <= len
  /\ ((exists cs', cs = (1, firstn len rest) :: cs')
      \/ cs = [(2, firstn len rest)]).
Proof.
  assert (E : Lit (lit "<span class=" ++ [dq])
              = Cat (Cls (chr lt)) (Lit (lit "span class=" ++ [dq]))) by reflexivity.
  unfold exec, Preview.re_remaining. rewrite E.
  set (tail := Cat (Alt _ _) _). cbn [m]. intros H.
  match type of H with
  | match ?a with _ => _ end = _ => destruct a as [x|] eqn:HA
  end.
  - injection H as ->. destruct rest as [|c t]; [discriminate|].
    destruct (chr lt c); [|discriminate].
    apply m_consumes in HA. destruct HA as (w1 & rest1 & cs1 & -> & HA).
    apply m_consumes in HA. destruct HA as (w2 & rest2 & cs2 & -> & HA).
    injection HA as <- <-. split; [lia|]. left. eexists. reflexivity.
  - clear HA. apply rep_greedy_sound in H.
    destruct H as (w & rest' & -> & _ & Hlo & H). injection H as <- <-.
    split; [lia|]. right. reflexivity.
Qed.

Lemma remaining_break_safe (i : nat) (rest : str) (len : nat) (cs : caps) :
  has_break rest = false -> exec Preview.re_remaining i rest = Some (len, cs) ->
  1 <= len
  /\ break_safe match group 1 cs with
                | Some (x :: span) => x :: span
                | _ => Preview.escapeHtml (Preview.grp 2 cs)
                end (firstn len rest).
Proof.
  intros Hnb He. pose proof (exec_length _ _ _ _ _ He) as Hle.
  destruct (exec_remaining i rest len cs He) as [Hlen Hcs]. split; [exact Hlen|].
  assert (Hmt : firstn len rest <> []).
  { destruct rest; [simpl in Hle; lia|]. destruct len; [lia | discriminate]. }
  assert (Hb : has_break (firstn len rest) = false).
  { rewrite <- (firstn_skipn len rest) in Hnb. apply has_break_app_inv in Hnb. tauto. }
  destruct Hcs as [(cs' & ->) | ->].
  - cbn [group Nat.eqb]. destruct (firstn len rest) as [|x span]; [contradiction|].
    repeat split; auto.
  - unfold Preview.grp. cbn [group Nat.eqb].
    destruct (escapeHtml_break_free _ Hb) as (P1 & P2 & P3 & P4 & _).
    repeat split; auto.
Qed.

Lemma stage_break_free (d : N) (f : str -> caps -> str) (s : str) :
  (forall mt content,
     has_break content = false ->
     f mt [(1, content)] <> [] /\ has_break (f mt [(1, content)]) = false
     /\ starts_nl (f mt [(1, content)]) = false
     /\ ends_nl (f mt [(1, content)]) = false) ->
  has_break s = false ->
  has_break (replace_from (delim d) f 0 0 s) = false.
Proof.
  intros Hf Hs.
  apply (replace_break_free (delim d) f) with (n := length s); [|lia|exact Hs].
  apply delim_break_safe. exact Hf.
Qed.

(** Formatting a break-free paragraph gives break-free markup. *)
Lemma format_paragraph_break_free (c : Preview.colors) (paragraph : str) :
  has_break (Preview.dialogueColor c) = false ->
  has_break (Preview.thoughtsColor c) = false ->
  has_break (Preview.emphasisColor c) = false ->
  has_break paragraph = false ->
  has_break (Preview.format_paragraph c paragraph) = false
  /\ starts_nl (Preview.format_paragraph c paragraph) = false
  /\ ends_nl (Preview.format_paragraph c paragraph) = false.
Proof.
  intros Hd Ht He Hp. unfold Preview.format_paragraph.
  destruct (falsy (trim paragraph)); [repeat split|].
  unfold replace_g.
  set (s1 := replace_from Preview.re_dialogue _ 0 0 paragraph).
  set (s2 := replace_from Preview.re_thoughts _ 0 0 s1).
  set (s3 := replace_from Preview.re_emphasis _ 0 0 s2).
  set (s4 := replace_from Preview.re_remaining _ 0 0 s3).
  assert (H1 : has_break s1 = false).
  { apply (stage_break_free dq); [|exact Hp]. intros mt content Hc.
    apply (span_break_safe "dialogue" _ [dq] mt content); auto. }
  assert (H2 : has_break s2 = false).
  { apply (stage_break_free sq); [|exact H1]. intros mt content Hc.
    apply (span_break_safe "thoughts" _ [sq] mt content); auto. }
  assert (H3 : has_break s3 = false).
  { apply (stage_break_free star); [|exact H2]. intros mt content Hc.
    apply (span_break_safe "emphasis" _ [] mt content); auto. }
  assert (H4 : has_break s4 = false).
  { apply (replace_break_free Preview.re_remaining _) with (n := length s3);
      [|lia|exact H3].
    intros i rest len cs Hnb Hex. exact (remaining_break_safe i rest len cs Hnb Hex). }
  split; [|split].
  - break_free_chain.
  - reflexivity.
  - rewrite app_assoc, ends_nl_app. reflexivity.
Qed.

(** *** Splitting into paragraphs *)

Lemma rep_greedy_total (p : N -> bool) (k : cont) :
  (forall i rest cs, k i rest cs <> None) ->
  forall rest i cs, rep_greedy p 0 i rest cs k <> None.
Proof.
  intros Hk. induction rest as [|c t IH]; intros i cs; simpl; [apply Hk|].
  destruct (p c); [|apply Hk].
  destruct (rep_greedy p 0 (S i) t cs k) eqn:E; [discriminate|]. apply Hk.
Qed.

Lemma exec_paragraph_sound (i : nat) (rest : str) (len : nat) (cs : caps) :
  exec Preview.re_paragraph i rest = Some (len, cs) -> 2 <= len.
Proof.
  unfold exec, Preview.re_paragraph. cbn [m].
  destruct rest as [|c t]; [discriminate|]. destruct (chr nl c); [|discriminate].
  intros H. apply rep_greedy_sound in H.
  destruct H as (w & rest' & -> & _ & Hlo & H). injection H as <- _. lia.
Qed.

Lemma exec_paragraph_complete (i : nat) (rest : str) :
  exec Preview.re_paragraph i (nl :: nl :: rest) <> None.
Proof.
  unfold exec, Preview.re_paragraph. cbn [m rep_greedy]. unfold chr. rewrite N.eqb_refl.
  cbn [pred]. fold (chr nl).
  destruct (rep_greedy (chr nl) 0 (S (S i)) rest []
              (fun i' _ cs => Some (i' - i, cs))) eqn:E; [discriminate|].
  exfalso. revert E. apply rep_greedy_total. discriminate.
Qed.

(** The pieces [split] collects have no paragraph break: a piece never ends
    in a line feed with another line feed next in the text. *)
Lemma split_from_break_free (rest : str) :
  forall skip i cur,
    has_break (rev cur) = false ->
    (ends_nl (rev cur) = true -> skip = 0 /\ starts_nl rest = false) ->
    Forall (fun p => has_break p = false)
           (split_from Preview.re_paragraph skip i rest cur).
Proof.
  induction rest as [|a rest IH]; intros skip i cur Hnb Hend.
  - constructor; [exact Hnb | constructor].
  - cbn [split_from]. destruct skip as [|n].
    + destruct (exec Preview.re_paragraph i (a :: rest)) as [[len cs]|] eqn:He.
      * apply exec_paragraph_sound in He. destruct len as [|len]; [lia|].
        constructor; [exact Hnb|]. apply IH; [reflexivity | discriminate].
      * apply IH.
        -- cbn [rev]. apply has_break_app_intro;
             [exact Hnb | simpl; now rewrite andb_false_r |].
           destruct (ends_nl (rev cur)) eqn:E; [right | now left].
           destruct (Hend eq_refl) as [_ H]. exact H.
        -- cbn [rev]. rewrite ends_nl_app. cbn [ends_nl]. intros Ha.
           apply N.eqb_eq in Ha. subst a. split; [reflexivity|].
           destruct rest as [|b rest']; [reflexivity|]. cbn [starts_nl].
           destruct (N.eqb_spec b nl) as [->|]; [|reflexivity].
           exfalso. exact (exec_paragraph_complete i rest' He).
    + apply IH; [exact Hnb|]. intros E. destruct (Hend E) as [H _]. discriminate.
Qed.

Lemma split_break_free (text : str) :
  Forall (fun p => has_break p = false) (split Preview.re_paragraph text).
Proof.
  unfold split. destruct text as [|c t].
  - destruct (exec Preview.re_paragraph 0 []); repeat constructor.
  - apply split_from_break_free; [reflexivity | discriminate].
Qed.

Lemma concat_break_free (l : list str) :
  Forall (fun x => has_break x = false /\ starts_nl x = false /\ ends_nl x = false) l ->
  has_break (concat l) = false /\ starts_nl (concat l) = false.
Proof.
  induction 1 as [|x l (H1 & H2 & H3) _ [IH1 IH2]]; [split; reflexivity|].
  cbn [concat]. split.
  - apply nb_l; assumption.
  - destruct x; [exact IH2 | exact H2].
Qed.

(** C7, for the preview formatter.  [formatText] first splits the text at
    runs of two or more line feeds; no piece has a paragraph break; each
    piece is formatted on its own and the results are concatenated; and if
    the colour strings have no paragraph break, the markup has none, so no
    span of it encloses one.  On a quoted run with a break inside, the two
    halves stay plain. *)
Theorem preview_never_spans_break (text : str) (c : Preview.colors) :
  has_break (Preview.dialogueColor c) = false ->
  has_break (Preview.thoughtsColor c) = false ->
  has_break (Preview.emphasisColor c) = false ->
  Forall (fun p => has_break p = false) (split Preview.re_paragraph text)
  /\ (text <> [] ->
      Preview.formatText text c
      = concat (map (Preview.format_paragraph c) (split Preview.re_paragraph text)))
  /\ has_break (Preview.formatText text c) = false
  /\ Preview.formatText Samples.break_example Samples.sample_colors
     = lit "<p>" ++ [dq] ++ lit "a</p><p>b" ++ [dq] ++ lit "</p>".
Proof.
  intros Hd Ht He. split; [apply split_break_free|]. split; [|split].
  - intros Hne. unfold Preview.formatText. destruct text; [contradiction | reflexivity].
  - unfold Preview.formatText. destruct (falsy text); [reflexivity|].
    apply concat_break_free. apply Forall_map.
    eapply Forall_impl; [apply split_break_free|].
    intros p Hp. now apply format_paragraph_break_free.
  - vm_compute. reflexivity.
Qed.

Lemma preview_never_spans_break_witness :
  has_break (Preview.formatText Samples.break_example Samples.sample_colors) = false.
Proof.
  destruct (preview_never_spans_break Samples.break_example Samples.sample_colors)
    as (_ & _ & H & _); [reflexivity | reflexivity | reflexivity | exact H].
Defined.

(** C7 as stated fails in the realtime formatter: its dialogue pattern takes
    any unit but the double quote, line feeds included, so the quoted run
    with a paragraph break inside becomes one dialogue span. *)
Lemma realtime_spans_break :
  Formatter.formatted Samples.break_example
  = Formatter.span_open "dialogue" ++ Samples.break_example ++ Formatter.span_close
  /\ option_map Dom.childNodes
       (Formatter.applyRealtimeFormatting
          (Dom.Editor [Dom.Text Samples.break_example] None))
     = Some [Dom.span (lit "dialogue") [Dom.Text Samples.break_example]]
  /\ has_break Samples.break_example = true.
Proof. repeat split; vm_compute; reflexivity. Qed.

End BreakFacts.

(* ===================================================================== *)
(** ** Text statistics *)
(* ===================================================================== *)

Module StatsFacts.
Import Js Regex Dom Cursor Stats JsFacts RegexFacts BreakFacts.

Lemma trimStart_split (s : str) :
  exists w, s = w ++ trimStart s /\ Forall (fun c => is_ws c = true) w.
Proof.
  induction s as [|c s (w & Hs & Hw)]; [exists []; auto|]. simpl.
  destruct (is_ws c) eqn:E.
  - exists (c :: w). split; [simpl; congruence | constructor; auto].
  - exists []. auto.
Qed.

Lemma trimEnd_split (s : str) :
  exists w, s = trimEnd s ++ w /\ Forall (fun c => is_ws c = true) w.
Proof.
  unfold trimEnd. destruct (trimStart_split (rev s)) as (w & Hs & Hw).
  exists (rev w). split; [|now apply Forall_rev].
  rewrite <- rev_app_distr, <- Hs. symmetry. apply rev_involutive.
Qed.

Lemma trim_split (s : str) :
  exists w1 w2, s = w1 ++ trim s ++ w2
                /\ Forall (fun c => is_ws c = true) w1
                /\ Forall (fun c => is_ws c = true) w2.
Proof.
  destruct (trimStart_split s) as (w1 & H1 & Hw1).
  destruct (trimEnd_split (trimStart s)) as (w2 & H2 & Hw2).
  exists w1, w2. unfold trim. split; [congruence | auto].
Qed.

Lemma trimStart_all_ws (s : str) : Forall (fun c => is_ws c = true) s -> trimStart s = [].
Proof. induction 1 as [|c s Hc _ IH]; [reflexivity|]. simpl. now rewrite Hc. Qed.

Lemma trim_all_ws (s : str) : Forall (fun c => is_ws c = true) s -> trim s = [].
Proof. intros H. unfold trim, trimEnd. now rewrite (trimStart_all_ws s H). Qed.

Lemma trim_nil_all_ws (s : str) : trim s = [] -> Forall (fun c => is_ws c = true) s.
Proof.
  intros H. destruct (trim_split s) as (w1 & w2 & Hs & H1 & H2).
  rewrite H in Hs. rewrite Hs. apply Forall_app. auto.
Qed.

(** *** Words *)

Lemma words_from_all_ws (w : str) (b : bool) :
  Forall (fun c => is_ws c = true) w -> words_from b w = 0.
Proof.
  intros H. revert b. induction H as [|c w Hc _ IH]; intros b; [reflexivity|].
  simpl. now rewrite Hc.
Qed.

Lemma words_from_ws_prefix (w s : str) :
  Forall (fun c => is_ws c = true) w -> words_from false (w ++ s) = words_from false s.
Proof. induction 1 as [|c w Hc _ IH]; [reflexivity|]. simpl. now rewrite Hc. Qed.

Lemma words_from_ws_suffix (s w : str) (b : bool) :
  Forall (fun c => is_ws c = true) w -> words_from b (s ++ w) = words_from b s.
Proof.
  intros Hw. revert b. induction s as [|c s IH]; intros b; simpl.
  - now apply words_from_all_ws.
  - destruct (is_ws c); now rewrite IH.
Qed.

Lemma word_runs_trim (s : str) : word_runs (trim s) = word_runs s.
Proof.
  destruct (trim_split s) as (w1 & w2 & Hs & H1 & H2). unfold word_runs.
  rewrite Hs at 2. rewrite words_from_ws_prefix by exact H1.
  now rewrite words_from_ws_suffix by exact H2.
Qed.

Lemma words_from_join (a b : str) (c : N) (bl : bool) :
  is_ws c = true -> words_from bl (a ++ c :: b) = words_from bl a + words_from false b.
Proof.
  intros Hc. revert bl. induction a as [|x a IH]; intros bl; simpl.
  - now rewrite Hc.
  - destruct (is_ws x); rewrite IH; lia.
Qed.

Lemma exec_spaces_sound (i : nat) (rest : str) (len : nat) (cs : caps) :
  exec re_spaces i rest = Some (len, cs) ->
  1 <= len /\ len <= length rest /\ Forall (fun c => is_ws c = true) (firstn len rest).
Proof.
  unfold exec, re_spaces. cbn [m]. intros H. apply rep_greedy_sound in H.
  destruct H as (w & rest' & -> & Hw & Hlo & H). injection H as <- _.
  replace (i + length w - i) with (length w) by lia.
  rewrite length_app, take_app_length. repeat split; [lia | lia | exact Hw].
Qed.

Lemma exec_spaces_fail (i : nat) (c : N) (t : str) :
  is_ws c = false -> exec re_spaces i (c :: t) = None.
Proof. intros H. unfold exec, re_spaces. cbn [m rep_greedy]. now rewrite H. Qed.

Lemma exec_spaces_some (i : nat) (c : N) (t : str) :
  is_ws c = true -> exec re_spaces i (c :: t) <> None.
Proof.
  intros H. unfold exec, re_spaces. cbn [m rep_greedy pred]. rewrite H.
  destruct (rep_greedy is_ws 0 (S i) t [] (fun i' _ cs => Some (i' - i, cs))) eqn:E;
    [discriminate|].
  exfalso. revert E. apply rep_greedy_total. discriminate.
Qed.

(** The non-empty pieces of a split at white space are the words. *)
Lemma split_spaces_count (rest : str) :
  forall skip i cur,
    skip <= length rest ->
    Forall (fun c => is_ws c = true) (firstn skip rest) ->
    (0 < skip -> cur = []) ->
    length (List.filter (fun w => (0 <? length w)%nat)
                        (split_from re_spaces skip i rest cur))
    = (if falsy cur then 0 else 1) + words_from (negb (falsy cur)) rest.
Proof.
  induction rest as [|a rest IH]; intros skip i cur Hle Hws Hcur.
  - cbn [split_from List.filter words_from]. destruct cur as [|c cur]; [reflexivity|].
    cbn [rev falsy]. rewrite length_app. simpl.
    replace (length (rev cur) + 1) with (S (length (rev cur))) by lia. reflexivity.
  - cbn [split_from]. destruct skip as [|n].
    + destruct (is_ws a) eqn:Ea.
      * destruct (exec re_spaces i (a :: rest)) as [[len cs]|] eqn:He;
          [|exfalso; exact (exec_spaces_some i a rest Ea He)].
        destruct (exec_spaces_sound _ _ _ _ He) as (H1 & H2 & H3).
        destruct len as [|len]; [lia|].
        cbn [List.filter]. cbn [firstn] in H3. apply Forall_cons in H3.
        cbn [words_from]. rewrite Ea.
        assert (Hrec := IH len (S i) [] ltac:(simpl in H2; lia) (proj2 H3)
                           ltac:(reflexivity)).
        cbn [falsy negb] in Hrec.
        destruct cur as [|c cur].
        -- cbn [rev length Nat.ltb Nat.leb falsy]. exact Hrec.
        -- cbn [rev falsy]. rewrite length_app. cbn [length].
           replace (length (rev cur) + 1) with (S (length (rev cur))) by lia.
           change (0 <? S (length (rev cur)))%nat with true.
           cbn [length]. rewrite Hrec. reflexivity.
      * rewrite (exec_spaces_fail i a rest Ea).
        rewrite (IH 0 (S i) (a :: cur)); [|lia|constructor|lia].
        cbn [falsy negb words_from]. rewrite Ea. destruct cur; simpl; lia.
    + rewrite (Hcur ltac:(lia)). cbn [firstn] in Hws. apply Forall_cons in Hws.
      destruct Hws as [Ha Hws].
      rewrite (IH n (S i) []); [|simpl in Hle; lia|exact Hws|reflexivity].
      cbn [falsy negb words_from]. now rewrite Ha.
Qed.

(** The word count shown in the editor and the one saved with the document
    are both the number of maximal runs without white space, and such
    counts add up over a white-space unit. *)
Theorem word_counts (text : str) :
  countWords text = word_runs text
  /\ saved_wordCount text = word_runs text
  /\ (forall a b c, is_ws c = true ->
        countWords (a ++ c :: b) = countWords a + countWords b).
Proof.
  assert (Hsplit : forall s, s <> [] ->
            length (List.filter (fun w => (0 <? length w)%nat) (split re_spaces s))
            = word_runs s).
  { intros s Hs. destruct s as [|c t]; [contradiction|]. unfold split.
    rewrite split_spaces_count; [reflexivity | lia | constructor | lia]. }
  assert (Hcount : forall s, countWords s = word_runs s).
  { intros s. unfold countWords. destruct s as [|c t]; [reflexivity|].
    cbn [falsy orb]. destruct (trim (c :: t)) as [|x y] eqn:Et.
    - cbn [falsy]. rewrite <- word_runs_trim, Et. reflexivity.
    - cbn [falsy]. rewrite Hsplit by discriminate. rewrite <- Et. apply word_runs_trim. }
  split; [apply Hcount|]. split.
  - unfold saved_wordCount. destruct text as [|c t]; [reflexivity|].
    apply Hsplit. discriminate.
  - intros a b c Hc. rewrite !Hcount. unfold word_runs. now apply words_from_join.
Qed.

(** *** Paragraphs *)

Lemma split_from_all_ws (r : re) (rest : str) :
  forall skip i cur,
    Forall (fun c => is_ws c = true) rest -> Forall (fun c => is_ws c = true) cur ->
    Forall (fun p => Forall (fun c => is_ws c = true) p) (split_from r skip i rest cur).
Proof.
  induction rest as [|a rest IH]; intros skip i cur Hr Hc.
  - constructor; [now apply Forall_rev | constructor].
  - apply Forall_cons in Hr. destruct Hr as [Ha Hr]. cbn [split_from].
    destruct skip as [|n]; [|now apply IH].
    destruct (exec r i (a :: rest)) as [[[|len] cs]|].
    + destruct cur as [|c cur].
      * apply IH; [exact Hr | constructor; [exact Ha | constructor]].
      * constructor; [now apply Forall_rev|].
        apply IH; [exact Hr | constructor; [exact Ha | constructor]].
    + constructor; [now apply Forall_rev|]. apply IH; [exact Hr | constructor].
    + apply IH; [exact Hr | constructor; assumption].
Qed.

Lemma split_all_ws (r : re) (text : str) :
  Forall (fun c => is_ws c = true) text ->
  Forall (fun p => Forall (fun c => is_ws c = true) p) (split r text).
Proof.
  intros H. unfold split. destruct text as [|c t].
  - destruct (exec r 0 []); repeat constructor.
  - apply split_from_all_ws; [exact H | constructor].
Qed.

Lemma concat_map_nonblank (c : Preview.colors) (l : list str) :
  concat (map (Preview.format_paragraph c) l)
  = concat (map (Preview.format_paragraph c)
                (List.filter (fun p => negb (falsy (trim p))) l)).
Proof.
  induction l as [|p l IH]; [reflexivity|]. cbn [map concat List.filter].
  destruct (falsy (trim p)) eqn:E; cbn [negb map concat].
  - unfold Preview.format_paragraph at 1. rewrite E. exact IH.
  - now rewrite IH.
Qed.

(** A piece without quotes, asterisks and [<] goes through the three
    span steps unchanged and is escaped by the last one. *)
Lemma format_paragraph_plain (c : Preview.colors) (p : str) :
  trim p <> [] ->
  Forall (fun x => x <> dq /\ x <> sq /\ x <> star /\ x <> lt) p ->
  Preview.format_paragraph c p = lit "<p>" ++ Preview.escapeHtml p ++ lit "</p>".
Proof.
  intros Hne Hall. unfold Preview.format_paragraph.
  destruct (falsy (trim p)) eqn:Hf; [apply falsy_nil in Hf; contradiction|].
  assert (Hcopy : forall d f, Forall (fun x => x <> d) p ->
            replace_g (Markup.delim d) f p = p).
  { intros d f Hd. unfold replace_g.
    rewrite <- (app_nil_r p) at 1. rewrite MarkupFacts.replace_copy by exact Hd.
    cbn [replace_from]. rewrite MarkupFacts.exec_delim_nil. apply app_nil_r. }
  change Preview.re_dialogue with (Markup.delim dq).
  change Preview.re_thoughts with (Markup.delim sq).
  change Preview.re_emphasis with (Markup.delim star).
  rewrite Hcopy by (eapply Forall_impl; [exact Hall|]; cbn; tauto).
  rewrite Hcopy by (eapply Forall_impl; [exact Hall|]; cbn; tauto).
  rewrite Hcopy by (eapply Forall_impl; [exact Hall|]; cbn; tauto).
  do 2 f_equal. unfold replace_g at 1. rewrite replace_from_eq.
  destruct p as [|x p]; [now contradiction Hne|].
  assert (He : exec Preview.re_remaining 0 (x :: p)
               = Some (length (x :: p), [(2, x :: p)])).
  { assert (E : Lit (lit "<span class=" ++ [dq])
                = Cat (Cls (chr lt)) (Lit (lit "span class=" ++ [dq]))) by reflexivity.
    unfold exec, Preview.re_remaining. rewrite E.
    set (tail := Cat (Alt _ _) _). cbn [m].
    apply Forall_cons in Hall. destruct Hall as [(_ & _ & _ & Hx) Hp].
    unfold chr at 1. destruct (N.eqb_spec x lt) as [|_]; [contradiction|].
    rewrite <- (app_nil_r (x :: p)) at 1.
    apply rep_greedy_max; [exact I | | cbn [length]; lia |].
    - constructor.
      + unfold isnt. destruct (N.eqb_spec x lt); [contradiction | reflexivity].
      + eapply Forall_impl; [exact Hp|]. cbn. intros y (_ & _ & _ & Hy). unfold isnt.
        destruct (N.eqb_spec y lt); [contradiction | reflexivity].
    - cbn beta. rewrite Nat.add_0_l, Nat.sub_0_r, firstn_all. reflexivity. }
  rewrite He. cbn [group Nat.eqb Preview.grp length].
  change (S (length p)) with (length (x :: p)). rewrite skipn_all.
  cbn [replace_from].
  replace (exec Preview.re_remaining (0 + length (x :: p)) []) with (@None result)
    by reflexivity.
  apply app_nil_r.
Qed.

(** The preview shows the paragraphs that [countParagraphs] counts.  The
    pieces of the text between runs of two or more line feeds that are not
    blank are [countParagraphs(text)] many; [formatText] is the
    concatenation, in their order, of the blocks [format_paragraph] makes of
    these pieces; the block of a piece is one [<p>...</p>] around the
    formatted piece, which is the escaped piece itself when the piece has no
    quote, asterisk or [<]; a blank piece gives nothing. *)
Theorem paragraph_count_matches_preview (text : str) (c : Preview.colors) :
  let pieces := List.filter (fun p => negb (falsy (trim p)))
                            (split Preview.re_paragraph text) in
  length pieces = countParagraphs text
  /\ Preview.formatText text c = concat (map (Preview.format_paragraph c) pieces)
  /\ Forall (fun p =>
               trim p <> []
               /\ (exists body,
                     Preview.format_paragraph c p = lit "<p>" ++ body ++ lit "</p>")
               /\ (Forall (fun x => x <> dq /\ x <> sq /\ x <> star /\ x <> lt) p ->
                   Preview.format_paragraph c p
                   = lit "<p>" ++ Preview.escapeHtml p ++ lit "</p>"))
            pieces
  /\ (forall p, trim p = [] -> Preview.format_paragraph c p = []).
Proof.
  intros pieces.
  assert (Hblank : trim text = [] -> pieces = []).
  { intros Ht. apply trim_nil_all_ws in Ht. unfold pieces.
    pose proof (split_all_ws Preview.re_paragraph text Ht) as Hall.
    induction Hall as [|p l Hp _ IH]; [reflexivity|]. cbn [List.filter].
    now rewrite (trim_all_ws p Hp). }
  split; [|split; [|split]].
  - unfold countParagraphs. destruct text as [|x t].
    + now rewrite Hblank.
    + cbn [falsy orb]. destruct (trim (x :: t)) as [|y u] eqn:Et; [|reflexivity].
      now rewrite Hblank.
  - unfold Preview.formatText. destruct text as [|x t].
    + rewrite Hblank by reflexivity. reflexivity.
    + cbn [falsy]. apply concat_map_nonblank.
  - apply List.Forall_forall. intros p Hp.
    apply filter_In in Hp. destruct Hp as [_ Hp].
    assert (Hne : trim p <> []).
    { intros E. rewrite E in Hp. discriminate. }
    split; [exact Hne|]. split; [|now apply format_paragraph_plain].
    unfold Preview.format_paragraph. destruct (falsy (trim p)); [discriminate|].
    eexists. reflexivity.
  - intros p E. unfold Preview.format_paragraph. now rewrite E.
Qed.

(** *** Line and column *)

Lemma split_unit_spec (s : str) :
  forall cur,
    exists pieces pre lastline,
      split_unit nl s cur = pieces ++ [lastline]
      /\ length pieces = count_unit nl s
      /\ rev cur ++ s = pre ++ lastline
      /\ (Forall (fun c => c <> nl) cur -> Forall (fun c => c <> nl) lastline)
      /\ (count_unit nl s = 0 -> pre = [])
      /\ (0 < count_unit nl s -> exists pre', pre = pre' ++ [nl]).
Proof.
  induction s as [|c t IH]; intros cur.
  - exists [], [], (rev cur). cbn. rewrite app_nil_r.
    repeat split; auto; try lia. apply Forall_rev.
  - cbn [split_unit]. unfold count_unit. cbn [List.filter].
    destruct (N.eqb_spec c nl) as [->|Hc].
    + destruct (IH []) as (pieces & pre & lastline & Hs & Hn & Hcat & Hfree & H0 & H1).
      exists (rev cur :: pieces), (rev cur ++ nl :: pre), lastline.
      rewrite Hs. cbn [length]. fold (count_unit nl t). cbn [rev app] in Hcat.
      repeat split.
      * now rewrite Hn.
      * rewrite Hcat. now rewrite <- app_assoc.
      * intros _. apply Hfree. constructor.
      * lia.
      * intros _. destruct (count_unit nl t) as [|k] eqn:Ek.
        -- rewrite H0 by reflexivity. now exists (rev cur).
        -- destruct H1 as (pre' & ->); [lia|].
           exists (rev cur ++ nl :: pre'). now rewrite <- app_assoc.
    + destruct (IH (c :: cur)) as (pieces & pre & lastline & Hs & Hn & Hcat & Hfree & H0 & H1).
      exists pieces, pre, lastline. fold (count_unit nl t).
      cbn [rev] in Hcat. rewrite <- app_assoc in Hcat.
      split; [exact Hs|]. split; [exact Hn|]. split; [exact Hcat|].
      split; [|auto]. intros Hcur. apply Hfree. constructor; assumption.
Qed.

Lemma line_column_spec (tb : str) :
  exists pre lastline,
    line_column_of tb = Some (LineColumn (1 + count_unit nl tb) (1 + length lastline))
    /\ tb = pre ++ lastline
    /\ Forall (fun c => c <> nl) lastline
    /\ (pre = [] \/ exists pre', pre = pre' ++ [nl]).
Proof.
  destruct (split_unit_spec tb []) as (pieces & pre & lastline & Hs & Hn & Hcat & Hfree & H0 & H1).
  exists pre, lastline. unfold line_column_of. rewrite Hs, length_app. cbn [length].
  replace (length pieces + 1 - 1) with (length pieces) by lia.
  rewrite nth_error_app2 by lia. rewrite Nat.sub_diag. cbn [nth_error].
  rewrite Hn. repeat split.
  - do 2 f_equal; lia.
  - exact Hcat.
  - apply Hfree. constructor.
  - destruct (count_unit nl tb) as [|k]; [left; now apply H0 | right; apply H1; lia].
Qed.

(** [getCursorPosition] always returns a position: the line is one more
    than the number of line feeds before the caret, and the column is one
    more than the number of units after the last of them; without a
    selection it is line 1, column 1. *)
Theorem cursor_line_column (e : editor) (value : str) (selectionStart : nat) :
  (forall tb,
     (saveCursorPosition e = None /\ tb = []
      \/ exists pos, saveCursorPosition e = Some pos
                     /\ tb = firstn (pos_start pos) (textContent (childNodes e))) ->
     exists pre lastline,
       getCursorPosition e
       = Some (LineColumn (1 + count_unit nl tb) (1 + length lastline))
       /\ tb = pre ++ lastline
       /\ Forall (fun c => c <> nl) lastline
       /\ (pre = [] \/ exists pre', pre = pre' ++ [nl]))
  /\ (exists pre lastline,
        getCursorPosition_textarea value selectionStart
        = Some (LineColumn (1 + count_unit nl (firstn selectionStart value))
                           (1 + length lastline))
        /\ firstn selectionStart value = pre ++ lastline
        /\ Forall (fun c => c <> nl) lastline
        /\ (pre = [] \/ exists pre', pre = pre' ++ [nl])).
Proof.
  assert (Hsub : forall s n, substring s 0 n = firstn n s).
  { intros s n. unfold substring. cbn [Nat.leb skipn]. now rewrite Nat.sub_0_r. }
  split.
  - intros tb [[Hnone ->] | (pos & Hpos & ->)]; unfold getCursorPosition.
    + rewrite Hnone. exists [], []. repeat split; auto.
    + rewrite Hpos, Hsub. apply line_column_spec.
  - unfold getCursorPosition_textarea. rewrite Hsub. apply line_column_spec.
Qed.

Lemma cursor_line_column_witness :
  getCursorPosition
    (Editor [Text (lit "ab" ++ [nl] ++ lit "cde")] (Some (Range (At [0] 5) (At [0] 5))))
  = Some (LineColumn 2 3).
Proof.
  destruct (cursor_line_column
              (Editor [Text (lit "ab" ++ [nl] ++ lit "cde")]
                      (Some (Range (At [0] 5) (At [0] 5)))) [] 0) as [H _].
  destruct (H (lit "ab" ++ [nl] ++ lit "cd")) as (pre & lastline & Hg & Htb & Hl & Hpre).
  - right. exists (Position 5 5). split; reflexivity.
  - vm_compute. reflexivity.
Defined.

End StatsFacts.

(* ===================================================================== *)
(** ** Escaping, the caret offset and repeated formatting *)
(* ===================================================================== *)

Module RealtimeFacts.
Import Js Regex Dom Cursor Markup Provider JsFacts RegexFacts MarkupFacts CursorFacts
       EditorFacts.

(** *** Escaped text parses back as text *)

Lemma build_chars (s : str) :
  forall d, build (map TChar s) [Text d] [] = [Text (d ++ s)].
Proof.
  induction s as [|c s IH]; intros d; cbn [map build close_all rev app].
  - now rewrite app_nil_r.
  - cbn [add_char]. rewrite IH. now rewrite <- app_assoc.
Qed.

Lemma build_text_only (s : str) :
  build (map TChar s) [] [] = match s with [] => [] | _ :: _ => [Text s] end.
Proof.
  destruct s as [|c s]; [reflexivity|]. cbn [map build add_char]. apply build_chars.
Qed.

Lemma map_token_of_Ch (s : str) : map token_of (map Ch s) = map TChar s.
Proof. induction s as [|c s IH]; [reflexivity|]. cbn [map token_of]. now f_equal. Qed.

(** A global replace on a one-unit class rewrites unit by unit. *)
Lemma replace_class (p : N -> bool) (f : str -> caps -> str) (s : str) :
  forall i,
    replace_from (Cls p) f 0 i s
    = flat_map (fun c => if p c then f [c] [] else [c]) s.
Proof.
  induction s as [|c t IH]; intros i; [reflexivity|].
  cbn [replace_from flat_map]. unfold exec. cbn [m]. destruct (p c).
  - replace (S i - i) with 1 by lia. cbn [firstn]. now rewrite IH.
  - cbn [app]. now rewrite IH.
Qed.

Lemma preview_escape_char (c : N) :
  (if one_of (lit "&<>") c
   then (if bool_decide ([c] = [amp]) then lit "&amp;"
         else if bool_decide ([c] = [lt]) then lit "&lt;"
         else if bool_decide ([c] = [gt]) then lit "&gt;"
         else lit "undefined")
   else [c])
  = if (c =? amp)%N then lit "&amp;"
    else if (c =? lt)%N then lit "&lt;"
    else if (c =? gt)%N then lit "&gt;" else [c].
Proof.
  destruct (N.eqb_spec c amp) as [->|Ha]; [reflexivity|].
  destruct (N.eqb_spec c lt) as [->|Hl]; [reflexivity|].
  destruct (N.eqb_spec c gt) as [->|Hg]; [reflexivity|].
  unfold one_of. change (lit "&<>") with [amp; lt; gt]. cbn [existsb].
  destruct (N.eqb_spec c amp); [contradiction|].
  destruct (N.eqb_spec c lt); [contradiction|].
  destruct (N.eqb_spec c gt); [contradiction|]. reflexivity.
Qed.

Lemma preview_escape_flat (s : str) :
  Preview.escapeHtml s
  = flat_map (fun c => if (c =? amp)%N then lit "&amp;"
                       else if (c =? lt)%N then lit "&lt;"
                       else if (c =? gt)%N then lit "&gt;" else [c]) s.
Proof.
  unfold Preview.escapeHtml, replace_g. rewrite replace_class.
  induction s as [|c s IH]; [reflexivity|]. cbn [flat_map].
  now rewrite preview_escape_char, IH.
Qed.

Lemma tokenize_entities (rest : str) :
  tokenize SData (lit "&amp;" ++ rest) = option_map (cons (TChar amp)) (tokenize SData rest)
  /\ tokenize SData (lit "&lt;" ++ rest) = option_map (cons (TChar lt)) (tokenize SData rest)
  /\ tokenize SData (lit "&gt;" ++ rest) = option_map (cons (TChar gt)) (tokenize SData rest).
Proof. repeat split. Qed.

Lemma preview_escape_tokens (s : str) :
  preserved s ->
  normalize_newlines (Preview.escapeHtml s) = Preview.escapeHtml s
  /\ tokenize SData (Preview.escapeHtml s) = Some (map TChar s).
Proof.
  intros Hp. rewrite preview_escape_flat. split.
  - apply normalize_no_cr. induction Hp as [|c s [_ Hc] _ IH]; [constructor|].
    cbn [flat_map]. apply Forall_app. split; [|exact IH].
    repeat match goal with |- context [if ?b then _ else _] => destruct b end;
      repeat constructor; try discriminate; exact Hc.
  - induction Hp as [|c s [Hn _] _ IH]; [reflexivity|]. cbn [flat_map map].
    destruct (N.eqb_spec c amp) as [->|Ha];
      [|destruct (N.eqb_spec c lt) as [->|Hl];
        [|destruct (N.eqb_spec c gt) as [->|Hg]]].
    + destruct (tokenize_entities (flat_map
                  (fun c => if (c =? amp)%N then lit "&amp;"
                            else if (c =? lt)%N then lit "&lt;"
                            else if (c =? gt)%N then lit "&gt;" else [c]) s))
        as (-> & _ & _). now rewrite IH.
    + destruct (tokenize_entities (flat_map
                  (fun c => if (c =? amp)%N then lit "&amp;"
                            else if (c =? lt)%N then lit "&lt;"
                            else if (c =? gt)%N then lit "&gt;" else [c]) s))
        as (_ & -> & _). now rewrite IH.
    + destruct (tokenize_entities (flat_map
                  (fun c => if (c =? amp)%N then lit "&amp;"
                            else if (c =? lt)%N then lit "&lt;"
                            else if (c =? gt)%N then lit "&gt;" else [c]) s))
        as (_ & _ & ->). now rewrite IH.
    + cbn [app tokenize].
      destruct (N.eqb_spec c amp); [contradiction|].
      destruct (N.eqb_spec c lt); [contradiction|].
      destruct (N.eqb_spec c nul); [contradiction|]. now rewrite IH.
Qed.

(** Text escaped by either [escapeHtml] and given to the HTML parser comes
    back as one text node with the same text, never as an element. *)
Theorem escaped_text_parses_as_text (s : str) :
  preserved s ->
  parse_fragment (Formatter.escapeHtml s)
  = Some (match s with [] => [] | _ :: _ => [Text s] end)
  /\ parse_fragment (Preview.escapeHtml s)
     = Some (match s with [] => [] | _ :: _ => [Text s] end).
Proof.
  intros Hp. split; unfold parse_fragment.
  - rewrite escapeHtml_render.
    rewrite normalize_no_cr.
    2:{ apply render_no_cr; [apply all_chars_ok|]. rewrite chars_map_Ch.
        eapply Forall_impl; [exact Hp|]. now intros c [_ H]. }
    rewrite tokenize_render; [|apply all_chars_ok|].
    2:{ rewrite chars_map_Ch. eapply Forall_impl; [exact Hp|]. now intros c [H _]. }
    cbn [option_map]. now rewrite map_token_of_Ch, build_text_only.
  - destruct (preview_escape_tokens s Hp) as [-> ->].
    cbn [option_map]. now rewrite build_text_only.
Qed.

Lemma escaped_text_parses_as_text_witness :
  parse_fragment (Preview.escapeHtml (lit "<b>Tom & Jerry</b>"))
  = Some [Text (lit "<b>Tom & Jerry</b>")].
Proof.
  destruct (escaped_text_parses_as_text (lit "<b>Tom & Jerry</b>")) as [_ H].
  - vm_compute. repeat constructor; discriminate.
  - exact H.
Defined.

(** *** The caret offset *)




(** *** Formatting again *)

Lemma apply_once (t : str) :
  preserved t -> Forall (fun c => c <> star) t ->
  exists cs,
    textContent cs = t
    /\ forall e, textContent (childNodes e) = t ->
         exists e', Formatter.applyRealtimeFormatting e = Some e'
           /\ (innerHTML (childNodes e) = Formatter.formatted t /\ e' = e
               \/ innerHTML (childNodes e) <> Formatter.formatted t
                  /\ childNodes e' = cs).
Proof.
  intros Hp Hs. destruct (formatted_text t Hp) as (xs & Hf & Hok & Hpx & _ & Hc).
  destruct (parse_render xs Hok Hpx) as (cs & Hparse & Htext).
  exists cs. split; [rewrite Htext; now apply Hc|].
  intros e He. unfold Formatter.applyRealtimeFormatting. rewrite He.
  case_bool_decide as Heq; [exists e; auto|].
  unfold set_innerHTML. rewrite Hf, Hparse. cbn [option_map].
  destruct (restore_total (Editor cs (collapse_selection (selection e)))
              (saveCursorPosition e)) as [(e2 & -> & Hc2) _].
  exists e2. split; [reflexivity|]. right. rewrite <- Hf. auto.
Qed.

Lemma apply_once_earlier (t : str) :
  preserved t -> Forall (fun c => c <> star) t ->
  exists cs,
    textContent cs = t
    /\ forall e, textContent (childNodes e) = t ->
         exists e', FormatterOld.applyRealtimeFormatting e = Some e'
           /\ (innerHTML (childNodes e) = FormatterOld.formatted t /\ e' = e
               \/ innerHTML (childNodes e) <> FormatterOld.formatted t
                  /\ childNodes e' = cs).
Proof.
  intros Hp Hs. destruct (formatted_old_text t Hp) as (xs & Hf & Hok & Hpx & _ & Hc).
  destruct (parse_render xs Hok Hpx) as (cs & Hparse & Htext).
  exists cs. split; [rewrite Htext; now apply Hc|].
  intros e He. unfold FormatterOld.applyRealtimeFormatting. rewrite He.
  case_bool_decide as Heq; [exists e; auto|].
  unfold set_innerHTML. rewrite Hf, Hparse. cbn [option_map].
  destruct (restore_total (Editor cs (collapse_selection (selection e)))
              (saveCursorPosition e)) as [_ (e2 & -> & Hc2)].
  exists e2. split; [reflexivity|]. right. rewrite <- Hf. auto.
Qed.

(** Formatting is stable: on text without asterisks, U+0000 and CR, running
    [applyRealtimeFormatting] a second time leaves the nodes and the text
    exactly as the first run left them, in both realtime formatters. *)
Theorem formatting_is_stable (e e1 : editor) :
  preserved (textContent (childNodes e)) ->
  Forall (fun c => c <> star) (textContent (childNodes e)) ->
  (Formatter.applyRealtimeFormatting e = Some e1 ->
   exists e2, Formatter.applyRealtimeFormatting e1 = Some e2
              /\ childNodes e2 = childNodes e1
              /\ Formatter.getPlainText e2 = textContent (childNodes e))
  /\ (FormatterOld.applyRealtimeFormatting e = Some e1 ->
      exists e2, FormatterOld.applyRealtimeFormatting e1 = Some e2
                 /\ childNodes e2 = childNodes e1
                 /\ FormatterOld.getPlainText e2 = textContent (childNodes e)).
Proof.
  intros Hp Hs. split; intros H1.
  - destruct (apply_once _ Hp Hs) as (cs & Ht & Happ).
    destruct (Happ e eq_refl) as (e1' & H1' & Hcase).
    assert (e1' = e1) by congruence. subst e1'.
    assert (Ht1 : textContent (childNodes e1) = textContent (childNodes e)).
    { destruct Hcase as [[_ ->] | [_ ->]]; [reflexivity | exact Ht]. }
    destruct (Happ e1 Ht1) as (e2 & H2 & Hcase2). exists e2. split; [exact H2|].
    unfold Formatter.getPlainText.
    destruct Hcase2 as [[_ ->] | [Hne Hc2]]; [auto|].
    destruct Hcase as [[Heq ->] | [_ Hc1]]; [contradiction|].
    rewrite Hc2, Hc1. auto.
  - destruct (apply_once_earlier _ Hp Hs) as (cs & Ht & Happ).
    destruct (Happ e eq_refl) as (e1' & H1' & Hcase).
    assert (e1' = e1) by congruence. subst e1'.
    assert (Ht1 : textContent (childNodes e1) = textContent (childNodes e)).
    { destruct Hcase as [[_ ->] | [_ ->]]; [reflexivity | exact Ht]. }
    destruct (Happ e1 Ht1) as (e2 & H2 & Hcase2). exists e2. split; [exact H2|].
    unfold FormatterOld.getPlainText.
    destruct Hcase2 as [[_ ->] | [Hne Hc2]]; [auto|].
    destruct Hcase as [[Heq ->] | [_ Hc1]]; [contradiction|].
    rewrite Hc2, Hc1. auto.
Qed.

Lemma formatting_is_stable_witness :
  exists e2,
    Formatter.applyRealtimeFormatting
      (Editor [Text (lit "He said don't go. ");
               span (lit "thoughts") [Text (lit "'Never,'")];
               Text (lit " she whispered.")] None) = Some e2
    /\ childNodes e2 = [Text (lit "He said don't go. ");
                        span (lit "thoughts") [Text (lit "'Never,'")];
                        Text (lit " she whispered.")].
Proof.
  destruct (formatting_is_stable
              (Editor [Text Samples.contraction_example] None)
              (Editor [Text (lit "He said don't go. ");
                       span (lit "thoughts") [Text (lit "'Never,'")];
                       Text (lit " she whispered.")] None)) as [H _].
  - vm_compute. repeat constructor; discriminate.
  - vm_compute. repeat constructor; discriminate.
  - destruct H as (e2 & H2 & Hc & _); [vm_compute; reflexivity|].
    exists e2. split; [exact H2 | exact Hc].
Defined.

End RealtimeFacts.

(* ===================================================================== *)
(** ** The history stacks under any sequence of calls *)
(* ===================================================================== *)

Module HistoryFacts.
Import Js Storage History StorageFacts.

Lemma pop_inv {A} (l l' : list A) (x : A) : pop l = Some (x, l') -> l = l' ++ [x].
Proof.
  revert l' x. induction l as [|y t IH]; intros l' x H; [discriminate|].
  simpl in H. destruct (pop t) as [[z t']|] eqn:E.
  - injection H as <- <-. now rewrite (IH _ _ eq_refl).
  - injection H as <- <-. apply pop_nil_iff in E. now subst t.
Qed.

Lemma pop_last {A} (l : list A) : option_map fst (pop l) = last l.
Proof.
  induction l as [|y t IH]; [reflexivity|]. simpl.
  destruct t as [|z t']; [reflexivity|].
  change (last (y :: z :: t')) with (last (z :: t')). rewrite <- IH.
  destruct (pop (z :: t')) as [[w t'']|] eqn:E; [reflexivity|].
  apply pop_nil_iff in E. discriminate.
Qed.

Lemma step_bounded (h : history) (c : call) :
  length (undoStack h) + length (redoStack h) <= MAX_HISTORY_SIZE ->
  length (undoStack (step h c)) + length (redoStack (step h c)) <= MAX_HISTORY_SIZE.
Proof.
  intros Hb. destruct c as [x|x|x|]; cbn [step].
  - unfold pushHistory. destruct (pop (undoStack h)) as [[top rest]|];
      [case_bool_decide; [exact Hb|]|];
      cbn [undoStack redoStack length]; rewrite Nat.add_0_r;
      destruct (Nat.ltb_spec MAX_HISTORY_SIZE (length (undoStack h ++ [x]))) as [Hl|Hl];
      try exact Hl;
      destruct (undoStack h) as [|y u]; cbn [tl app length] in *;
      rewrite ?length_app in *; cbn [length] in *; unfold MAX_HISTORY_SIZE in *; lia.
  - unfold undo. destruct (pop (undoStack h)) as [[y u']|] eqn:E; [|exact Hb].
    apply pop_inv in E. cbn [snd undoStack redoStack]. rewrite E in Hb.
    rewrite !length_app in *. cbn [length] in *. lia.
  - unfold redo. destruct (pop (redoStack h)) as [[y r']|] eqn:E; [|exact Hb].
    apply pop_inv in E. cbn [snd undoStack redoStack]. rewrite E in Hb.
    rewrite !length_app in *. cbn [length] in *. lia.
  - cbn. unfold MAX_HISTORY_SIZE. lia.
Qed.

(** Whatever sequence of [pushHistory], [undo], [redo] and [clearHistory]
    calls is made, the two stacks together never hold more than
    [MAX_HISTORY_SIZE] snapshots. *)
Theorem history_never_exceeds_limit (calls : list call) (h : history) :
  length (undoStack h) + length (redoStack h) <= MAX_HISTORY_SIZE ->
  length (undoStack (run calls h)) + length (redoStack (run calls h)) <= MAX_HISTORY_SIZE.
Proof.
  revert h. induction calls as [|c calls IH]; intros h Hb; [exact Hb|].
  cbn [run fold_left]. apply IH. now apply step_bounded.
Qed.

Lemma history_never_exceeds_limit_witness :
  length (undoStack (run [PushHistory (lit "a"); PushHistory (lit "b"); Undo (lit "c")]
                         (History [] [])))
  + length (redoStack (run [PushHistory (lit "a"); PushHistory (lit "b"); Undo (lit "c")]
                           (History [] []))) <= MAX_HISTORY_SIZE.
Proof.
  apply (history_never_exceeds_limit
           [PushHistory (lit "a"); PushHistory (lit "b"); Undo (lit "c")] (History [] [])).
  simpl. unfold MAX_HISTORY_SIZE. lia.
Defined.

Lemma push_new (c : str) (h : history) :
  last (undoStack h) <> Some c ->
  exists u, undoStack (pushHistory c h) = u ++ [c]
            /\ redoStack (pushHistory c h) = []
            /\ (u = undoStack h
                \/ u = tl (undoStack h) /\ MAX_HISTORY_SIZE <= length (undoStack h)).
Proof.
  intros Hl. unfold pushHistory. rewrite <- pop_last in Hl.
  destruct (pop (undoStack h)) as [[top rest]|] eqn:E.
  - case_bool_decide as Heq; [subst top; now contradiction Hl|].
    cbn [undoStack redoStack].
    destruct (Nat.ltb_spec MAX_HISTORY_SIZE (length (undoStack h ++ [c]))) as [Hlt|Hge].
    + rewrite length_app in Hlt. cbn [length] in Hlt.
      destruct (undoStack h) as [|y u]; [discriminate|]. exists u.
      split; [reflexivity|]. split; [reflexivity|]. right. split; [reflexivity | lia].
    + eauto.
  - apply pop_nil_iff in E. rewrite E. cbn. exists []. auto.
Qed.

Lemma push_top (c : str) (h : history) :
  exists u, undoStack (pushHistory c h) = u ++ [c].
Proof.
  destruct (decide (last (undoStack h) = Some c)) as [Hl|Hl].
  - rewrite <- pop_last in Hl. unfold pushHistory.
    destruct (pop (undoStack h)) as [[top rest]|] eqn:E; [|discriminate].
    injection Hl as ->. rewrite bool_decide_true by reflexivity.
    exists rest. now apply pop_inv.
  - destruct (push_new c h Hl) as (u & Hu & _). now exists u.
Qed.

(** After two pushes of different snapshots the two are on top, in order. *)
Lemma push_two (a b : str) (h : history) :
  a <> b ->
  exists u, undoStack (pushHistory b (pushHistory a h)) = u ++ [a; b]
            /\ redoStack (pushHistory b (pushHistory a h)) = [].
Proof.
  intros Hab. destruct (push_top a h) as (u1 & H1).
  destruct (push_new b (pushHistory a h)) as (u & Hu & Hr & Hcase).
  { rewrite H1, last_snoc. congruence. }
  rewrite Hu, Hr. rewrite H1 in Hcase. destruct Hcase as [-> | [-> Hlen]].
  - exists u1. now rewrite <- app_assoc.
  - rewrite length_app in Hlen. cbn [length] in Hlen. unfold MAX_HISTORY_SIZE in Hlen.
    destruct u1 as [|y u1]; [simpl in Hlen; lia|].
    exists u1. cbn [tl app]. now rewrite <- app_assoc.
Qed.

(** Pushing the snapshot that is already on top changes nothing, not even
    the redo stack; any other push leaves the new snapshot on top and
    empties the redo stack.  So [pushHistory] is idempotent. *)
Theorem pushHistory_deduplicates (c : str) (h : history) :
  (last (undoStack h) = Some c -> pushHistory c h = h)
  /\ (last (undoStack h) <> Some c ->
      last (undoStack (pushHistory c h)) = Some c /\ redoStack (pushHistory c h) = [])
  /\ pushHistory c (pushHistory c h) = pushHistory c h.
Proof.
  assert (Hsame : forall h', last (undoStack h') = Some c -> pushHistory c h' = h').
  { intros h' Hl. unfold pushHistory. rewrite <- pop_last in Hl.
    destruct (pop (undoStack h')) as [[top rest]|]; [|discriminate].
    injection Hl as ->. now rewrite bool_decide_true. }
  split; [apply Hsame|]. split.
  - intros Hl. destruct (push_new c h Hl) as (u & -> & Hr & _).
    split; [apply last_snoc | exact Hr].
  - apply Hsame. destruct (push_top c h) as (u & ->). apply last_snoc.
Qed.

Lemma pushHistory_deduplicates_witness :
  pushHistory (lit "b") (History [lit "a"; lit "b"] [lit "c"])
  = History [lit "a"; lit "b"] [lit "c"].
Proof.
  destruct (pushHistory_deduplicates (lit "b") (History [lit "a"; lit "b"] [lit "c"]))
    as [H _].
  apply H. reflexivity.
Defined.

End HistoryFacts.

(* ===================================================================== *)
(** ** Streaming generation *)
(* ===================================================================== *)

Module StreamingFacts.
Import Js Provider Storage Stats Streaming StorageFacts.

(** *** Splitting a text that arrives in parts *)

Lemma split_unit_nonempty (sep : N) (s cur : str) : split_unit sep s cur <> [].
Proof.
  revert cur. induction s as [|c t IH]; intros cur; cbn [split_unit]; [discriminate|].
  destruct (c =? sep)%N; [discriminate | apply IH].
Qed.

Lemma split_unit_free (sep : N) (s : str) :
  forall cur, Forall (fun c => c <> sep) s -> split_unit sep s cur = [rev cur ++ s].
Proof.
  induction s as [|c t IH]; intros cur H; cbn [split_unit]; [now rewrite app_nil_r|].
  apply Forall_cons in H. destruct H as [Hc Ht].
  destruct (N.eqb_spec c sep); [contradiction|].
  rewrite IH by exact Ht. cbn [rev]. now rewrite <- app_assoc.
Qed.

Lemma split_unit_cur (sep : N) (s : str) :
  forall cur, split_unit sep s cur
              = match split_unit sep s [] with
                | first :: others => (rev cur ++ first) :: others
                | [] => []
                end.
Proof.
  induction s as [|c t IH]; intros cur; cbn [split_unit].
  - now rewrite app_nil_r.
  - destruct (c =? sep)%N; [now rewrite app_nil_r|].
    rewrite (IH (c :: cur)), (IH [c]).
    destruct (split_unit sep t []) as [|f o]; [reflexivity|].
    cbn [rev app]. now rewrite <- app_assoc.
Qed.

Lemma split_unit_last_free (sep : N) (s : str) :
  forall cur pieces lastp,
    Forall (fun c => c <> sep) cur ->
    split_unit sep s cur = pieces ++ [lastp] -> Forall (fun c => c <> sep) lastp.
Proof.
  induction s as [|c t IH]; intros cur pieces lastp Hcur H; cbn [split_unit] in H.
  - destruct pieces as [|p ps]; [|destruct ps; discriminate].
    injection H as <-. now apply Forall_rev.
  - destruct (N.eqb_spec c sep) as [->|Hc].
    + destruct pieces as [|p ps].
      * exfalso. injection H as _ H. exact (split_unit_nonempty _ _ _ H).
      * injection H as _ H. exact (IH [] ps lastp ltac:(constructor) H).
    + apply (IH (c :: cur) pieces lastp); [constructor; assumption | exact H].
Qed.

Lemma split_unit_prefix_free (sep : N) (w y : str) :
  forall cur, Forall (fun c => c <> sep) w ->
              split_unit sep (w ++ y) cur = split_unit sep y (rev w ++ cur).
Proof.
  induction w as [|c w IH]; intros cur H; [reflexivity|].
  apply Forall_cons in H. destruct H as [Hc Hw]. cbn [app split_unit].
  destruct (N.eqb_spec c sep); [contradiction|].
  rewrite IH by exact Hw. cbn [rev]. now rewrite <- app_assoc.
Qed.

(** The pieces of [x ++ y] are the closed pieces of [x], then the pieces of
    the open piece of [x] followed by [y]. *)
Lemma split_unit_app (sep : N) (x y : str) :
  forall cur pieces lastp,
    Forall (fun c => c <> sep) cur ->
    split_unit sep x cur = pieces ++ [lastp] ->
    split_unit sep (x ++ y) cur = pieces ++ split_unit sep (lastp ++ y) [].
Proof.
  induction x as [|c t IH]; intros cur pieces lastp Hcur H; cbn [split_unit app] in *.
  - destruct pieces as [|p ps]; [|destruct ps; discriminate].
    injection H as <-. cbn [app].
    rewrite split_unit_prefix_free by now apply Forall_rev.
    now rewrite rev_involutive, app_nil_r.
  - destruct (N.eqb_spec c sep) as [->|Hc].
    + destruct pieces as [|p ps].
      * exfalso. injection H as _ H. exact (split_unit_nonempty _ _ _ H).
      * injection H as <- H. cbn [app]. f_equal. apply IH; [constructor | exact H].
    + apply IH; [constructor; assumption | exact H].
Qed.

Lemma split_unit_snoc (sep : N) (s : str) :
  exists pieces lastp,
    split_unit sep s [] = pieces ++ [lastp] /\ Forall (fun c => c <> sep) lastp.
Proof.
  destruct (exists_last (split_unit_nonempty sep s [])) as (pieces & lastp & H).
  exists pieces, lastp. split; [exact H|].
  eapply split_unit_last_free; [|exact H]. constructor.
Qed.

(** *** The callbacks *)

Section Sse.
Variable parse : str -> body.

Lemma process_lines_app (a b : list str) (ft : str) :
  process_lines parse (a ++ b) ft
  = (fst (process_lines parse a ft)
     ++ fst (process_lines parse b (snd (process_lines parse a ft))),
     snd (process_lines parse b (snd (process_lines parse a ft)))).
Proof.
  revert ft. induction a as [|l a IH]; intros ft; cbn [app process_lines].
  - cbn [fst snd app]. now destruct (process_lines parse b ft).
  - destruct (process_line parse l ft) as [e1 f1]. rewrite IH.
    destruct (process_lines parse a f1) as [e2 f2]. cbn [fst snd].
    destruct (process_lines parse b f2) as [e3 f3]. cbn [fst snd].
    now rewrite app_assoc.
Qed.

(** How the stream ends: [onComplete] with the accumulated text, or the
    [catch] block. *)
Lemma read_loop_ending (rs : reads) (buffer ft : str) :
  ending rs = rs ->
  read_loop parse rs buffer ft
  = match rs with ReadRejected e => on_catch e | _ => [OnComplete ft] end.
Proof. destruct rs; [reflexivity | | reflexivity]. intros H. exfalso.
  assert (Hn : forall r, ending r <> Value decoded rs).
  { induction r; simpl; [discriminate | assumption | discriminate]. }
  exact (Hn _ H). Qed.

(** The callbacks are those of the closed lines of the whole decoded text,
    however the text was cut into reads. *)
Lemma read_loop_whole (rs : reads) :
  forall buffer ft,
    Forall (fun c => c <> nl) buffer ->
    read_loop parse rs buffer ft
    = fst (process_lines parse (removelast (split_unit nl (buffer ++ payload rs) [])) ft)
      ++ read_loop parse (ending rs) []
           (snd (process_lines parse
                   (removelast (split_unit nl (buffer ++ payload rs) [])) ft)).
Proof.
  induction rs as [|decoded next IH|e]; intros buffer ft Hb.
  - cbn [payload ending]. rewrite app_nil_r, split_unit_free by exact Hb. reflexivity.
  - cbn [read_loop payload ending].
    destruct (split_unit_snoc nl (buffer ++ decoded)) as (pieces & lastp & Hs & Hfree).
    rewrite Hs, pop_snoc.
    rewrite app_assoc, (split_unit_app nl _ (payload next) [] pieces lastp
                          ltac:(constructor) Hs).
    rewrite removelast_app by apply split_unit_nonempty.
    rewrite process_lines_app.
    destruct (process_lines parse pieces ft) as [evs ft1]. cbn [fst snd].
    rewrite (IH lastp ft1 Hfree). now rewrite app_assoc.
  - cbn [payload ending]. rewrite app_nil_r, split_unit_free by exact Hb. reflexivity.
Qed.

End Sse.

Lemma ending_idem (rs : reads) : ending (ending rs) = ending rs.
Proof. induction rs; simpl; auto. Qed.

Lemma payload_ending (rs : reads) : payload (ending rs) = [].
Proof. induction rs; simpl; auto. Qed.

(** The callbacks of a streamed generation do not depend on how the
    network cut the stream into reads: they are those of the closed lines
    of the whole decoded text.  A last line that is not closed by a line
    feed is never processed. *)
Theorem stream_cut_invariant (parse : str -> body) (status : N) (statusText : str)
        (b : body) (rs : reads) :
  generateWithStreaming parse (Response true status statusText b rs)
  = generateWithStreaming parse
      (Response true status statusText b (Value (payload rs) (ending rs)))
  /\ generateWithStreaming parse (Response true status statusText b rs)
     = fst (process_lines parse (removelast (split_unit nl (payload rs) [])) [])
       ++ match ending rs with
          | ReadRejected e => on_catch e
          | _ => [OnComplete
                    (snd (process_lines parse
                            (removelast (split_unit nl (payload rs) [])) []))]
          end
  /\ (Forall (fun c => c <> nl) (payload rs) ->
      generateWithStreaming parse (Response true status statusText b rs)
      = match ending rs with
        | ReadRejected e => on_catch e
        | _ => [OnComplete []]
        end).
Proof.
  cbn [generateWithStreaming].
  assert (Hwhole := read_loop_whole parse rs [] [] ltac:(constructor)).
  cbn [app] in Hwhole.
  assert (Hend : forall ft, read_loop parse (ending rs) [] ft
                            = match ending rs with
                              | ReadRejected e => on_catch e
                              | _ => [OnComplete ft]
                              end).
  { intros ft. apply read_loop_ending. apply ending_idem. }
  split; [|split].
  - rewrite Hwhole.
    rewrite (read_loop_whole parse (Value (payload rs) (ending rs)) [] []
               ltac:(constructor)).
    cbn [payload ending app]. now rewrite payload_ending, app_nil_r, ending_idem.
  - rewrite Hwhole, Hend. reflexivity.
  - intros Hfree. rewrite Hwhole, Hend.
    rewrite split_unit_free by exact Hfree. reflexivity.
Qed.

Lemma stream_cut_invariant_witness :
  generateWithStreaming Samples.sse_parse
    (Response true 200 (lit "OK") JsonNull (Value (lit "data: {A}") Done))
  = [OnComplete []].
Proof.
  destruct (stream_cut_invariant Samples.sse_parse 200 (lit "OK") JsonNull
              (Value (lit "data: {A}") Done)) as (_ & _ & H).
  apply H. vm_compute. repeat constructor; discriminate.
Defined.

Section Accumulation.
Variable parse : str -> body.

Lemma process_line_cases (l ft : str) :
  process_line parse l ft = ([], ft)
  \/ exists text, text <> []
       /\ process_line parse l ft = ([OnChunk text (ft ++ text)], ft ++ text).
Proof.
  unfold process_line. destruct (startsWith l (lit "data: ")); [|now left].
  case_bool_decide; [now left|].
  destruct (parse (skipn 6 l)) as [e| |em t]; [now left | now left |].
  destruct (or_else t []) as [|c text]; [now left|].
  right. exists (c :: text). split; [discriminate | reflexivity].
Qed.

Lemma process_lines_accumulates (lines : list str) :
  forall ft rest,
    accumulates (snd (process_lines parse lines ft)) rest ->
    accumulates ft (fst (process_lines parse lines ft) ++ rest).
Proof.
  induction lines as [|l lines IH]; intros ft rest H; [exact H|].
  cbn [process_lines] in *.
  destruct (process_line_cases l ft) as [E | (text & Hne & E)]; rewrite E in *.
  - specialize (IH ft rest). destruct (process_lines parse lines ft). now apply IH.
  - specialize (IH (ft ++ text) rest).
    destruct (process_lines parse lines (ft ++ text)) as [e2 f2].
    cbn [fst snd app accumulates] in *. auto.
Qed.

Lemma read_loop_accumulates (rs : reads) :
  forall buffer ft, accumulates ft (read_loop parse rs buffer ft).
Proof.
  induction rs as [|decoded next IH|e]; intros buffer ft; cbn [read_loop].
  - cbn. auto.
  - destruct (pop (split_unit nl (buffer ++ decoded) [])) as [[l ls]|].
    + pose proof (process_lines_accumulates ls ft) as H.
      destruct (process_lines parse ls ft) as [evs ft1]. apply H, IH.
    + pose proof (process_lines_accumulates (split_unit nl (buffer ++ decoded) []) ft) as H.
      destruct (process_lines parse _ ft) as [evs ft1]. apply H, IH.
  - unfold on_catch. destruct (str_eqb _ _); cbn; auto.
Qed.

End Accumulation.

Lemma on_catch_accumulates (e : js_error) (prev : str) : accumulates prev (on_catch e).
Proof. unfold on_catch. destruct (str_eqb _ _); cbn; auto. Qed.

Lemma generateWithStreaming_accumulates (parse : str -> body) (r : response) :
  accumulates [] (generateWithStreaming parse r).
Proof.
  destruct r as [e|ok status statusText b rs]; [apply on_catch_accumulates|].
  destruct ok; [apply read_loop_accumulates|].
  cbn [generateWithStreaming]. destruct b; apply on_catch_accumulates.
Qed.

Lemma accumulates_prefix (t : str) (chunks : list event) :
  forall prev, accumulates prev (chunks ++ [OnComplete t]) -> prev `prefix_of` t.
Proof.
  induction chunks as [|ev chunks IH]; intros prev H.
  - destruct H as [-> _]. reflexivity.
  - cbn [app accumulates] in H. destruct ev as [c acc|x|e].
    + destruct H as (_ & -> & H). apply IH in H. destruct H as [k ->].
      exists (c ++ k). now rewrite <- app_assoc.
    + destruct H as [_ H]. destruct chunks; discriminate.
    + destruct chunks; discriminate.
Qed.

(** Whatever the server sends, [generateWithStreaming] invokes chunk
    callbacks and then exactly one final callback; every chunk is
    non-empty and comes with the text accumulated so far, and
    [onComplete] gets the whole accumulated text. *)
Theorem stream_accumulates (parse : str -> body) (r : response) :
  accumulates [] (generateWithStreaming parse r).
Proof.
  destruct r as [e|[|] status statusText b rs]; cbn [generateWithStreaming].
  - unfold on_catch. destruct (str_eqb _ _); cbn; auto.
  - apply read_loop_accumulates.
  - destruct b; unfold on_catch; destruct (str_eqb _ _); cbn; auto.
Qed.

End StreamingFacts.

(* ===================================================================== *)
(** ** Undo after a generation, and the generation allowance *)
(* ===================================================================== *)

Module HandlerFacts.
Import Js Dom Provider Storage Markup App Handlers StorageFacts HistoryFacts EditorFacts.

(** What the application uses of either realtime formatter. *)
Lemma formatter_sets_text (F : FormatterModule) :
  F = formatter_current \/ F = formatter_earlier ->
  (forall e text,
     preserved text -> Forall (fun c => c <> star) text ->
     exists e', @setPlainText F e text = Some e' /\ @getPlainText F e' = text)
  /\ (forall e o,
        o <= length (@getPlainText F e) ->
        exists e', @setCursorOffset F e o = Some e'
                   /\ @getPlainText F e' = @getPlainText F e
                   /\ @getCursorOffset F e' = o).
Proof.
  intros [-> | ->]; split.
  - intros e text Hp Hs. destruct (setPlainText_current e text Hp) as (e' & He & _ & Ht).
    exists e'. split; [exact He | exact (Ht Hs)].
  - intros e o Ho. destruct (setCursorOffset_current e o) as (e' & He & Ht & Hc).
    exists e'. cbn [getPlainText getCursorOffset setCursorOffset formatter_current] in *.
    repeat split; auto. rewrite Hc. apply Nat.min_l. exact Ho.
  - intros e text Hp Hs. destruct (setPlainText_earlier e text Hp) as (e' & He & _ & Ht).
    exists e'. split; [exact He | exact (Ht Hs)].
  - intros e o Ho. exact (setCursorOffset_earlier e o Ho).
Qed.

(** [handleUndo] with a snapshot on top of the undo stack. *)
Lemma handleUndo_top (F : FormatterModule) (st : app_state) (shown : stats)
      (u r : list str) (x : str) :
  F = formatter_current \/ F = formatter_earlier ->
  history st = History (u ++ [x]) r ->
  preserved x -> Forall (fun c => c <> star) x ->
  exists e,
    handleUndo (F:=F) st shown
    = Some (AppState (isGenerating st) e
                     (History u (r ++ [@getPlainText F (editorTextarea st)]))
                     (generationCount st),
            updateStats (F:=F) e)
    /\ @getPlainText F e = x.
Proof.
  intros HF Hh Hp Hs. destruct (formatter_sets_text F HF) as [Hset _].
  unfold handleUndo, undo. rewrite Hh. cbn [undoStack redoStack]. rewrite pop_snoc.
  destruct (Hset (editorTextarea st) x Hp Hs) as (e & -> & Ht).
  exists e. split; [reflexivity | exact Ht].
Qed.

(** *** The generation allowance *)

Lemma deliver_all_count (F : FormatterModule) (ss : session) (evs : list event) :
  forall prev st st',
    Streaming.accumulates prev evs ->
    deliver_all (F:=F) ss evs st = Some st' ->
    generationCount st <= generationCount st' <= S (generationCount st).
Proof.
  induction evs as [|ev evs IH]; intros prev st st' Hacc Hd; [contradiction|].
  cbn [deliver_all] in Hd. destruct ev as [chunk acc|text|err]; cbn [deliver] in Hd.
  - destruct Hacc as (_ & _ & Hacc). unfold onChunk in Hd.
    destruct (splice ss acc st) as [e|]; [|discriminate].
    apply (IH _ _ _ Hacc) in Hd. cbn [generationCount] in Hd. exact Hd.
  - destruct Hacc as [_ ->]. unfold onComplete in Hd.
    destruct (splice ss text st) as [e|]; [|discriminate].
    cbn [deliver_all] in Hd. injection Hd as <-. cbn [generationCount]. lia.
  - cbn in Hacc. subst evs. cbn [deliver_all] in Hd. injection Hd as <-.
    cbn [onError generationCount]. lia.
Qed.

(** A user without admin rights never gets past [MAX_GENERATIONS_PER_IP]:
    one run of [handleGenerate] raises the count by at most one, and once
    the count has reached the maximum the run changes nothing at all. *)
Theorem generations_capped (F : FormatterModule) (initialized : bool)
        (st st' : app_state) (ip : option json) (checkInput : str -> bool)
        (generateText : str -> str -> list event) :
  (forall textBefore textAfter,
     exists prev, Streaming.accumulates prev (generateText textBefore textAfter)) ->
  handleGenerate (F:=F) initialized
    (limits_of (RateLimit.State ip (generationCount st) false) checkInput)
    generateText st = Some st' ->
  generationCount st <= generationCount st' <= S (generationCount st)
  /\ (RateLimit.MAX_GENERATIONS_PER_IP <= generationCount st -> st' = st)
  /\ (generationCount st <= RateLimit.MAX_GENERATIONS_PER_IP ->
      generationCount st' <= RateLimit.MAX_GENERATIONS_PER_IP).
Proof.
  intros Hprov Hgen. unfold handleGenerate in Hgen.
  destruct (start initialized _ st) as [[ss st0]|] eqn:Hstart.
  - unfold start in Hstart.
    destruct (isGenerating st || negb initialized); [discriminate|].
    unfold limits_of in Hstart. cbn [canGenerate] in Hstart.
    unfold RateLimit.canGenerate in Hstart. cbn [RateLimit.isAdmin] in Hstart.
    cbn [RateLimit.generationCount] in Hstart.
    destruct (Nat.leb_spec RateLimit.MAX_GENERATIONS_PER_IP (generationCount st))
      as [Hmax|Hlt]; cbn [RateLimit.allowed negb] in Hstart; [discriminate|].
    destruct (negb (checkInputTokenLimit _ _)); [discriminate|].
    injection Hstart as <- <-.
    destruct (Hprov (substring (getPlainText (editorTextarea st)) 0
                               (getCursorOffset (editorTextarea st)))
                    (substring1 (getPlainText (editorTextarea st))
                                (getCursorOffset (editorTextarea st))))
      as (prev & Hacc).
    cbn [textBefore textAfter] in Hgen.
    pose proof (deliver_all_count F _ _ _ _ _ Hacc Hgen) as Hc.
    cbn [generationCount] in Hc. repeat split; try lia.
  - injection Hgen as <-. repeat split; auto; lia.
Qed.

Lemma generations_capped_witness :
  generationCount Samples.splice_completed <= RateLimit.MAX_GENERATIONS_PER_IP.
Proof.
  destruct (generations_capped formatter_current true
              (AppState false Samples.splice_editor (History [] []) 0)
              Samples.splice_completed None (fun _ => true)
              (fun _ _ => fst (Gemini.generateWithoutStreaming
                                 (Response true 200 (lit "OK")
                                           (Json None (Some (lit "She walked on.")))) [])))
    as (_ & _ & H).
  - intros _ _. exists (lit "She walked on."). vm_compute. auto.
  - vm_compute. reflexivity.
  - apply H. unfold RateLimit.MAX_GENERATIONS_PER_IP. simpl. lia.
Defined.

(** *** Redo after undo *)

Lemma handleRedo_top (F : FormatterModule) (st : app_state) (shown : stats)
      (u r : list str) (x : str) :
  F = formatter_current \/ F = formatter_earlier ->
  history st = History u (r ++ [x]) ->
  preserved x -> Forall (fun c => c <> star) x ->
  exists e,
    handleRedo (F:=F) st shown
    = Some (AppState (isGenerating st) e
                     (History (u ++ [@getPlainText F (editorTextarea st)]) r)
                     (generationCount st),
            updateStats (F:=F) e)
    /\ @getPlainText F e = x.
Proof.
  intros HF Hh Hp Hs. destruct (formatter_sets_text F HF) as [Hset _].
  unfold handleRedo, redo. rewrite Hh. cbn [undoStack redoStack]. rewrite pop_snoc.
  destruct (Hset (editorTextarea st) x Hp Hs) as (e & -> & Ht).
  exists e. split; [reflexivity | exact Ht].
Qed.

(** [handleRedo] right after [handleUndo] brings back the text of the
    buffer and both history stacks, and an undo or redo with an empty
    stack changes nothing (texts without asterisk, U+0000 and CR). *)
Theorem redo_after_undo (F : FormatterModule) (st : app_state) (shown : stats)
        (u r : list str) (x : str) :
  F = formatter_current \/ F = formatter_earlier ->
  history st = History (u ++ [x]) r ->
  preserved x -> Forall (fun c => c <> star) x ->
  preserved (@getPlainText F (editorTextarea st)) ->
  Forall (fun c => c <> star) (@getPlainText F (editorTextarea st)) ->
  (exists st1 shown1 st2 shown2,
     handleUndo (F:=F) st shown = Some (st1, shown1)
     /\ @getPlainText F (editorTextarea st1) = x
     /\ handleRedo (F:=F) st1 shown1 = Some (st2, shown2)
     /\ @getPlainText F (editorTextarea st2) = @getPlainText F (editorTextarea st)
     /\ history st2 = history st)
  /\ (forall st0 shown0,
        undoStack (history st0) = [] ->
        handleUndo (F:=F) st0 shown0 = Some (st0, shown0))
  /\ (forall st0 shown0,
        redoStack (history st0) = [] ->
        handleRedo (F:=F) st0 shown0 = Some (st0, shown0)).
Proof.
  intros HF Hh Hp Hs Hpb Hsb. split; [|split].
  - destruct (handleUndo_top F st shown u r x HF Hh Hp Hs) as (e1 & H1 & Ht1).
    destruct (handleRedo_top F
                (AppState (isGenerating st) e1
                          (History u (r ++ [@getPlainText F (editorTextarea st)]))
                          (generationCount st))
                (updateStats (F:=F) e1) u r (@getPlainText F (editorTextarea st))
                HF eq_refl Hpb Hsb) as (e2 & H2 & Ht2).
    do 4 eexists. split; [exact H1|]. cbn [editorTextarea]. split; [exact Ht1|].
    split; [exact H2|]. cbn [editorTextarea history]. split; [exact Ht2|].
    rewrite Ht1. now rewrite Hh.
  - intros [g e [us rs] n] shown0 H. cbn [history undoStack] in H. subst us.
    reflexivity.
  - intros [g e [us rs] n] shown0 H. cbn [history redoStack] in H. subst rs.
    reflexivity.
Qed.

Lemma redo_after_undo_witness :
  exists st1 shown1 st2 shown2,
    handleUndo (F:=formatter_current) Samples.splice_completed (Stats 0 0)
    = Some (st1, shown1)
    /\ handleRedo (F:=formatter_current) st1 shown1 = Some (st2, shown2)
    /\ history st2 = history Samples.splice_completed.
Proof.
  destruct (redo_after_undo formatter_current Samples.splice_completed (Stats 0 0)
              [Samples.splice_before ++ Samples.splice_after] []
              (Samples.splice_before ++ lit "She walked on." ++ Samples.splice_after))
    as [(st1 & shown1 & st2 & shown2 & H1 & _ & H2 & _ & Hh) _].
  - left; reflexivity.
  - reflexivity.
  - vm_compute. repeat constructor; discriminate.
  - vm_compute. repeat constructor; discriminate.
  - vm_compute. repeat constructor; discriminate.
  - vm_compute. repeat constructor; discriminate.
  - exists st1, shown1, st2, shown2. split; [exact H1|]. split; [exact H2 | exact Hh].
Defined.

(** *** A streamed generation in the editor *)

Lemma deliver_accumulated (F : FormatterModule) (ss : session) (t : str)
      (chunks : list event) :
  F = formatter_current \/ F = formatter_earlier ->
  preserved (textBefore ss ++ t ++ textAfter ss) ->
  Forall (fun c => c <> star) (textBefore ss ++ t ++ textAfter ss) ->
  forall prev st,
    Streaming.accumulates prev (chunks ++ [OnComplete t]) ->
    exists st',
      deliver_all (F:=F) ss (chunks ++ [OnComplete t]) st = Some st'
      /\ @getPlainText F (editorTextarea st') = textBefore ss ++ t ++ textAfter ss
      /\ @getCursorOffset F (editorTextarea st') = length (textBefore ss) + length t
      /\ isGenerating st' = false
      /\ generationCount st' = S (generationCount st).
Proof.
  intros HF Hp Hs. destruct (formatter_sets_text F HF) as [Hset Hcur].
  induction chunks as [|ev chunks IH]; intros prev st Hacc.
  - cbn [app deliver_all deliver]. unfold onComplete.
    destruct (splice_spec Hset Hcur ss t st Hp Hs) as (e & -> & Ht & Hc).
    eexists. split; [reflexivity|]. cbn. auto.
  - cbn [app Streaming.accumulates] in Hacc. destruct ev as [c acc|x|e].
    + destruct Hacc as (_ & Hacc_eq & Hacc).
      destruct (StreamingFacts.accumulates_prefix t chunks acc Hacc) as [k Hk].
      assert (Hpa : preserved (textBefore ss ++ acc ++ textAfter ss)
                    /\ Forall (fun c => c <> star) (textBefore ss ++ acc ++ textAfter ss)).
      { rewrite Hk in Hp, Hs. unfold preserved in *. rewrite !Forall_app in *. tauto. }
      destruct Hpa as [Hpa Hsa].
      destruct (splice_spec Hset Hcur ss acc st Hpa Hsa) as (e & He & _).
      cbn [app deliver_all deliver]. unfold onChunk. rewrite He.
      destruct (IH acc (AppState (isGenerating st) e (history st) (generationCount st)) Hacc)
        as (st' & Hd & H1 & H2 & H3 & H4).
      exists st'. cbn [generationCount] in H4. auto.
    + destruct Hacc as [_ H]. destruct chunks; discriminate.
    + destruct chunks; discriminate.
Qed.

(** A generation that streams in lands as a whole: when the provider's
    callbacks are chunk callbacks with their accumulated texts followed by
    [onComplete(t)], and the spliced final text has no asterisk, U+0000 or
    CR, then after all of them the buffer is [textBefore + t + textAfter],
    the caret is right after [t], the generating flag is off and the
    generation count is one higher.  The callbacks of
    [generateWithStreaming] are of that kind. *)
Theorem streamed_generation_lands (F : FormatterModule) (ss : session)
        (parse : str -> body) (r : Streaming.response) (chunks : list event) (t : str)
        (st : app_state) :
  F = formatter_current \/ F = formatter_earlier ->
  Streaming.generateWithStreaming parse r = chunks ++ [OnComplete t] ->
  preserved (textBefore ss ++ t ++ textAfter ss) ->
  Forall (fun c => c <> star) (textBefore ss ++ t ++ textAfter ss) ->
  exists st',
    deliver_all (F:=F) ss (Streaming.generateWithStreaming parse r) st = Some st'
    /\ @getPlainText F (editorTextarea st') = textBefore ss ++ t ++ textAfter ss
    /\ @getCursorOffset F (editorTextarea st') = length (textBefore ss) + length t
    /\ isGenerating st' = false
    /\ generationCount st' = S (generationCount st).
Proof.
  intros HF Hr Hp Hs.
  pose proof (StreamingFacts.generateWithStreaming_accumulates parse r) as Hacc.
  rewrite Hr in *. exact (deliver_accumulated F ss t chunks HF Hp Hs [] st Hacc).
Qed.

Lemma streamed_generation_lands_witness :
  exists st',
    deliver_all (F:=formatter_current) Samples.splice_session
      (Streaming.generateWithStreaming Samples.sse_parse
         (Streaming.Response true 200 (lit "OK") JsonNull Samples.sse_reads))
      Samples.splice_started = Some st'
    /\ Formatter.getPlainText (editorTextarea st')
       = Samples.splice_before ++ lit "She walked on." ++ Samples.splice_after.
Proof.
  destruct (streamed_generation_lands formatter_current Samples.splice_session
              Samples.sse_parse
              (Streaming.Response true 200 (lit "OK") JsonNull Samples.sse_reads)
              [OnChunk (lit "She") (lit "She");
               OnChunk (lit " walked on.") (lit "She walked on.")]
              (lit "She walked on.") Samples.splice_started)
    as (st' & Hd & Ht & _).
  - left; reflexivity.
  - vm_compute. reflexivity.
  - vm_compute. repeat constructor; discriminate.
  - vm_compute. repeat constructor; discriminate.
  - exists st'. split; [exact Hd | exact Ht].
Defined.

(** *** Undo after a generation *)

(** The chunk callbacks leave the history alone; the completion callback
    pushes the final text. *)
Lemma deliver_history (F : FormatterModule) (ss : session) (t : str) (chunks : list event) :
  forall prev st st',
    Streaming.accumulates prev (chunks ++ [OnComplete t]) ->
    deliver_all (F:=F) ss (chunks ++ [OnComplete t]) st = Some st' ->
    history st' = pushHistory (textBefore ss ++ t ++ textAfter ss) (history st).
Proof.
  induction chunks as [|ev chunks IH]; intros prev st st' Hacc Hd.
  - cbn [app deliver_all deliver] in Hd. unfold onComplete in Hd.
    destruct (splice ss t st); [|discriminate]. now injection Hd as <-.
  - cbn [app Streaming.accumulates] in Hacc. destruct ev as [c acc|x|e].
    + destruct Hacc as (_ & _ & Hacc). cbn [app deliver_all deliver] in Hd.
      unfold onChunk in Hd. destruct (splice ss acc st) as [e1|]; [|discriminate].
      now rewrite (IH _ _ _ Hacc Hd).
    + destruct Hacc as [_ H]. destruct chunks; discriminate.
    + destruct chunks; discriminate.
Qed.

(** After a completed generation, streamed in chunks or not, the first
    undo puts the text with the generated part back, so the editor shows no
    change; only the second undo brings back the text from before the
    generation. *)
Theorem undo_after_generation (F : FormatterModule) (initialized : bool) (rl : rate_limit)
        (generateText : str -> str -> list event)
        (st st0 : app_state) (ss : session) (chunks : list event) (generatedText : str)
        (shown : stats) :
  F = formatter_current \/ F = formatter_earlier ->
  start (F:=F) initialized rl st = Some (ss, st0) ->
  generateText (textBefore ss) (textAfter ss) = chunks ++ [OnComplete generatedText] ->
  Streaming.accumulates [] (chunks ++ [OnComplete generatedText]) ->
  generatedText <> [] ->
  preserved (textBefore ss ++ generatedText ++ textAfter ss) ->
  Forall (fun c => c <> star) (textBefore ss ++ generatedText ++ textAfter ss) ->
  exists st1 st2 shown2 st3 shown3,
    handleGenerate (F:=F) initialized rl generateText st = Some st1
    /\ @getPlainText F (editorTextarea st1)
       = textBefore ss ++ generatedText ++ textAfter ss
    /\ handleUndo (F:=F) st1 shown = Some (st2, shown2)
    /\ @getPlainText F (editorTextarea st2) = @getPlainText F (editorTextarea st1)
    /\ handleUndo (F:=F) st2 shown2 = Some (st3, shown3)
    /\ @getPlainText F (editorTextarea st3) = @getPlainText F (editorTextarea st)
    /\ shown3 = updateStats (F:=F) (editorTextarea st3).
Proof.
  intros HF Hstart Hgen Hacc Hg Hp Hs.
  destruct (start_captures initialized rl st st0 ss Hstart) as (_ & _ & Hfull & _).
  assert (Hh0 : history st0
                = pushHistory (@getPlainText F (editorTextarea st)) (history st)).
  { unfold start in Hstart.
    destruct (isGenerating st || negb initialized); [discriminate|].
    destruct (negb (canGenerate rl)); [discriminate|].
    destruct (negb (checkInputTokenLimit rl _)); [discriminate|].
    now injection Hstart as _ <-. }
  destruct (deliver_accumulated F ss generatedText chunks HF Hp Hs [] st0 Hacc)
    as (st1 & Hd & Ht1 & _).
  pose proof (deliver_history F ss generatedText chunks [] st0 st1 Hacc Hd) as Hh1.
  destruct (push_two (@getPlainText F (editorTextarea st))
                     (textBefore ss ++ generatedText ++ textAfter ss) (history st))
    as (u & Hu & Hr).
  { rewrite <- Hfull. intros Heq. apply app_inv_head in Heq.
    apply (f_equal (@length _)) in Heq. rewrite length_app in Heq.
    destruct generatedText; [contradiction | simpl in Heq; lia]. }
  set (full := textBefore ss ++ generatedText ++ textAfter ss) in *.
  set (orig := @getPlainText F (editorTextarea st)) in *.
  assert (Hporig : preserved orig /\ Forall (fun c => c <> star) orig).
  { rewrite <- Hfull. unfold full, preserved in *.
    rewrite !Forall_app in *. tauto. }
  destruct (handleUndo_top F st1 shown (u ++ [orig]) [] full HF) as (e2 & H2 & Ht2); auto.
  { rewrite Hh1, Hh0. fold orig.
    destruct (pushHistory full (pushHistory orig (history st))) as [us rs].
    cbn [undoStack redoStack] in Hu, Hr. rewrite Hu, Hr, <- app_assoc. reflexivity. }
  destruct Hporig as [Hpo Hso].
  destruct (handleUndo_top F
              (AppState (isGenerating st1) e2
                        (History (u ++ [orig]) ([] ++ [@getPlainText F (editorTextarea st1)]))
                        (generationCount st1))
              (updateStats (F:=F) e2) u ([] ++ [@getPlainText F (editorTextarea st1)])
              orig HF eq_refl Hpo Hso)
    as (e3 & H3 & Ht3).
  exists st1. do 4 eexists. split.
  { unfold handleGenerate. rewrite Hstart, Hgen. exact Hd. }
  split; [exact Ht1|]. split; [exact H2|]. cbn [editorTextarea].
  split; [congruence|]. split; [exact H3|].
  cbn [editorTextarea]. split; [exact Ht3 | reflexivity].
Qed.

Lemma undo_after_generation_witness :
  exists st1 st2 shown2 st3 shown3,
    handleGenerate (F:=formatter_current) true Samples.open_limits Samples.splice_events
      Samples.splice_state = Some st1
    /\ handleUndo (F:=formatter_current) st1 (Stats 0 0) = Some (st2, shown2)
    /\ handleUndo (F:=formatter_current) st2 shown2 = Some (st3, shown3)
    /\ Formatter.getPlainText (editorTextarea st3)
       = Samples.splice_before ++ Samples.splice_after.
Proof.
  destruct (undo_after_generation formatter_current true Samples.open_limits
              Samples.splice_events Samples.splice_state Samples.splice_started
              Samples.splice_session
              [OnChunk (lit "She") (lit "She");
               OnChunk (lit " walked on.") (lit "She walked on.")]
              (lit "She walked on.") (Stats 0 0))
    as (st1 & st2 & shown2 & st3 & shown3 & H1 & _ & H2 & _ & H3 & Ht & _).
  - left; reflexivity.
  - vm_compute. reflexivity.
  - reflexivity.
  - vm_compute. repeat split; discriminate.
  - discriminate.
  - vm_compute. repeat constructor; discriminate.
  - vm_compute. repeat constructor; discriminate.
  - exists st1, st2, shown2, st3, shown3. split; [exact H1|]. split; [exact H2|].
    split; [exact H3 | exact Ht].
Defined.

End HandlerFacts.

(* ===================================================================== *)
(** ** Sentence endings *)
(* ===================================================================== *)

Module EndingFacts.
Import Js Regex Provider Gemini JsFacts RegexFacts StatsFacts.

(** *** Trimmed strings *)

Lemma trimStart_head (s : str) (c : N) (t : str) :
  trimStart s = c :: t -> is_ws c = false.
Proof.
  induction s as [|x s IH]; simpl; [discriminate|].
  destruct (is_ws x) eqn:E; [exact IH|]. intros [= <- _]. exact E.
Qed.

Lemma trimStart_fixed (c : N) (t : str) : is_ws c = false -> trimStart (c :: t) = c :: t.
Proof. intros H. simpl. now rewrite H. Qed.

Lemma trimEnd_snoc (s : str) (c : N) : is_ws c = false -> trimEnd (s ++ [c]) = s ++ [c].
Proof.
  intros H. unfold trimEnd. rewrite rev_app_distr. cbn [rev app].
  rewrite trimStart_fixed by exact H. cbn [rev]. now rewrite rev_involutive.
Qed.

Lemma trimEnd_last (s r : str) (c : N) : trimEnd s = r ++ [c] -> is_ws c = false.
Proof.
  unfold trimEnd. intros H. apply (f_equal (@rev N)) in H.
  rewrite rev_involutive, rev_app_distr in H. cbn [rev app] in H.
  now apply trimStart_head in H.
Qed.

Lemma trimEnd_keeps_head (c : N) (t : str) :
  is_ws c = false -> exists t', trimEnd (c :: t) = c :: t'.
Proof.
  intros Hc. destruct (trimEnd_split (c :: t)) as (w & Hs & Hw).
  destruct (trimEnd (c :: t)) as [|x t'] eqn:E.
  - cbn [app] in Hs. subst w. apply Forall_cons in Hw. destruct Hw as [Hw _]. congruence.
  - injection Hs as <- _. now exists t'.
Qed.

(** A non-empty trimmed string starts and ends with units that are not
    white space. *)
Lemma trim_ends (s : str) :
  trim s <> [] ->
  exists c t r d, trim s = c :: t /\ trim s = r ++ [d]
                  /\ is_ws c = false /\ is_ws d = false.
Proof.
  intros Hne. unfold trim in *.
  destruct (trimStart s) as [|c t] eqn:Es; [now contradiction Hne|].
  pose proof (trimStart_head _ _ _ Es) as Hc.
  destruct (trimEnd_keeps_head c t Hc) as (t' & Ht).
  destruct (exists_last Hne) as (r & d & Hr).
  exists c, t', r, d. repeat split; auto. now apply (trimEnd_last _ _ _ Hr).
Qed.

Lemma trim_fixed (c : N) (t r : str) (d : N) :
  c :: t = r ++ [d] -> is_ws c = false -> is_ws d = false -> trim (c :: t) = c :: t.
Proof.
  intros H Hc Hd. unfold trim. rewrite trimStart_fixed by exact Hc.
  rewrite H. now apply trimEnd_snoc.
Qed.

(** *** Testing a pattern *)

Lemma test_from_app (r : re) (pre rest : str) :
  forall i, exec r (i + length pre) rest <> None -> test_from r i (pre ++ rest) = true.
Proof.
  induction pre as [|c pre IH]; intros i H.
  - cbn [app length] in *. rewrite Nat.add_0_r in H.
    destruct rest; cbn [test_from]; destruct (exec r i _); congruence.
  - cbn [app test_from]. destruct (exec r i (c :: pre ++ rest)); [reflexivity|].
    apply IH. cbn [length] in H. now rewrite Nat.add_succ_r in H.
Qed.

Lemma proper_tail (pre : str) (c : N) :
  one_of (lit ".!?") c = true -> test properEndings (pre ++ [c]) = true.
Proof.
  intros Hc. apply test_from_app. unfold exec, properEndings. cbn [m]. now rewrite Hc.
Qed.

Lemma proper_tail_quote (pre : str) (c q : N) :
  one_of (lit ".!?") c = true -> one_of [dq; sq] q = true ->
  test properEndings (pre ++ [c; q]) = true.
Proof.
  intros Hc Hq. apply test_from_app. unfold exec, properEndings. cbn [m].
  now rewrite Hc, Hq.
Qed.

(** *** The last index of a unit *)

Lemma lastIndex_from_spec (c : N) (s : str) :
  forall i acc,
    lastIndex_from s c i acc = acc
    \/ ((i <= lastIndex_from s c i acc < i + Z.of_nat (length s))%Z
        /\ nth_error s (Z.to_nat (lastIndex_from s c i acc - i)) = Some c).
Proof.
  induction s as [|x s IH]; intros i acc; [now left|]. cbn [lastIndex_from].
  destruct (IH (i + 1)%Z (if (x =? c)%N then i else acc)) as [H | [Hr Hn]].
  - rewrite H. destruct (N.eqb_spec x c) as [->|]; [|now left].
    right. split; [cbn [length]; lia|]. now rewrite Z.sub_diag.
  - right. split; [cbn [length]; lia|].
    replace (Z.to_nat (lastIndex_from s c (i + 1) (if (x =? c)%N then i else acc) - i))
      with (S (Z.to_nat (lastIndex_from s c (i + 1)
                           (if (x =? c)%N then i else acc) - (i + 1)))) by lia.
    exact Hn.
Qed.

Lemma lastIndexOf_spec (c : N) (s : str) :
  lastIndexOf s c = (-1)%Z
  \/ ((0 <= lastIndexOf s c < Z.of_nat (length s))%Z
      /\ nth_error s (Z.to_nat (lastIndexOf s c)) = Some c).
Proof.
  unfold lastIndexOf. destruct (lastIndex_from_spec c s 0 (-1)) as [H | [Hr Hn]].
  - now left.
  - right. split; [lia|]. now rewrite Z.sub_0_r in Hn.
Qed.

Lemma last_complete_spec (T : str) :
  let lc := Z.max (Z.max (lastIndexOf T period) (lastIndexOf T question))
                  (lastIndexOf T exclamation) in
  (0 <= lc)%Z ->
  exists c, one_of (lit ".!?") c = true /\ nth_error T (Z.to_nat lc) = Some c.
Proof.
  intros lc Hlc. subst lc.
  destruct (lastIndexOf_spec period T) as [Hp | [Hp Hpn]],
           (lastIndexOf_spec question T) as [Hq | [Hq Hqn]],
           (lastIndexOf_spec exclamation T) as [He | [He Hen]];
    destruct (Z.max_spec (lastIndexOf T period) (lastIndexOf T question)) as [[_ E1] | [_ E1]];
    destruct (Z.max_spec (Z.max (lastIndexOf T period) (lastIndexOf T question))
                         (lastIndexOf T exclamation)) as [[_ E2] | [_ E2]];
    rewrite E2 in *; try rewrite E1 in *; try lia;
    first [ exists period; split; [reflexivity | assumption]
          | exists question; split; [reflexivity | assumption]
          | exists exclamation; split; [reflexivity | assumption] ].
Qed.

Lemma firstn_S_nth {A} (l : list A) (n : nat) (x : A) :
  nth_error l n = Some x -> firstn (S n) l = firstn n l ++ [x].
Proof.
  revert n. induction l as [|y l IH]; intros [|n] H; try discriminate.
  - injection H as ->. reflexivity.
  - cbn [firstn app]. f_equal. now apply IH.
Qed.

Lemma endsWith_app (s p : str) : endsWith s p = true -> exists pre, s = pre ++ p.
Proof.
  unfold endsWith. intros H. apply startsWith_prefix in H. destruct H as [k Hk].
  exists (rev k). apply (f_equal (@rev N)) in Hk.
  now rewrite rev_involutive, rev_app_distr, rev_involutive in Hk.
Qed.

(** The four ways [ensureProperEnding] answers on text that is not blank. *)
Lemma ending_cases (text : str) :
  trim text <> [] ->
  let T := trim text in
  let r := ensureProperEnding text in
  (r = T /\ test properEndings T = true)
  \/ r = T ++ [period]
  \/ r = T ++ [period; dq]
  \/ exists k c,
       nth_error T k = Some c /\ one_of (lit ".!?") c = true
       /\ length T < 2 * k
       /\ (r = firstn (S k) T
           \/ exists q, nth_error T (S k) = Some q /\ one_of [dq; sq] q = true
                        /\ r = firstn (S (S k)) T).
Proof.
  intros Hne T r. subst r. unfold ensureProperEnding. fold T.
  assert (Hf : falsy text || falsy T = false).
  { destruct text; [now contradiction Hne|]. subst T.
    destruct (trim (n :: text)); [now contradiction Hne | reflexivity]. }
  rewrite Hf. clearbody T. clear Hf Hne text.
  destruct (test properEndings T) eqn:Hproper; [now left|].
  destruct (endsWith T (lit "...")) eqn:Hdots.
  { apply endsWith_app in Hdots. destruct Hdots as (pre & Hpre). exfalso.
    assert (H : test properEndings T = true).
    { rewrite Hpre. change (lit "...") with ([period; period] ++ [period]).
      rewrite app_assoc. now apply proper_tail. }
    congruence. }
  set (lc := Z.max (Z.max (lastIndexOf T period) (lastIndexOf T question))
                   (lastIndexOf T exclamation)).
  destruct (test incompleteEndings T);
    [destruct (Z.ltb_spec (Z.of_nat (length T)) (2 * lc)) as [Hhalf|Hhalf]|].
  - right. right. right.
    destruct (last_complete_spec T ltac:(fold lc; lia)) as (c & Hc & Hn). fold lc in Hn.
    exists (Z.to_nat lc), c. split; [exact Hn|]. split; [exact Hc|]. split; [lia|].
    replace (Z.to_nat (lc + 1)) with (S (Z.to_nat lc)) by lia.
    unfold substring. cbn [Nat.leb skipn]. rewrite Nat.sub_0_r.
    destruct (nth_error T (S (Z.to_nat lc))) as [q|] eqn:Eq; [|now left].
    destruct ((q =? dq)%N || (q =? sq)%N) eqn:Hq; [|now left].
    right. exists q. split; [reflexivity|]. split; [|reflexivity].
    unfold one_of. cbn [existsb]. now rewrite orb_false_r.
  - destruct (_ && _); auto.
  - destruct (_ && _); auto.
Qed.

(** [ensureProperEnding] does what its name says on every text that is
    not blank: the answer ends with a period, a question mark or an
    exclamation mark, possibly followed by a quote; it is trimmed; it is
    the trimmed text, the trimmed text with a period (and a double quote)
    added, or the trimmed text cut after a sentence end past its middle.
    Blank text comes back unchanged, and the function is idempotent. *)
Theorem ensureProperEnding_ends_properly (text : str) :
  (trim text = [] -> ensureProperEnding text = text)
  /\ (trim text <> [] ->
      test properEndings (ensureProperEnding text) = true
      /\ trim (ensureProperEnding text) = ensureProperEnding text
      /\ (trim text `prefix_of` ensureProperEnding text
          /\ length (ensureProperEnding text) <= length (trim text) + 2
          \/ ensureProperEnding text `prefix_of` trim text
             /\ length (trim text) < 2 * length (ensureProperEnding text)))
  /\ ensureProperEnding (ensureProperEnding text) = ensureProperEnding text.
Proof.
  assert (Hblank : trim text = [] -> ensureProperEnding text = text).
  { intros H. unfold ensureProperEnding. rewrite H. cbn [falsy]. now rewrite orb_true_r. }
  assert (Hmain : trim text <> [] ->
            test properEndings (ensureProperEnding text) = true
            /\ trim (ensureProperEnding text) = ensureProperEnding text
            /\ ensureProperEnding text <> []
            /\ (trim text `prefix_of` ensureProperEnding text
                /\ length (ensureProperEnding text) <= length (trim text) + 2
                \/ ensureProperEnding text `prefix_of` trim text
                   /\ length (trim text) < 2 * length (ensureProperEnding text))).
  { intros Hne. destruct (trim_ends text Hne) as (c0 & t0 & r0 & d0 & Hhd & Hlast & Hc0 & Hd0).
    destruct (ending_cases text Hne) as [[-> Hp] | [-> | [-> | (k & c & Hn & Hc & Hhalf & Hr)]]].
    - split; [exact Hp|]. split; [|split; [exact Hne|]].
      + rewrite Hhd at 1 2. apply (trim_fixed c0 t0 r0 d0); congruence.
      + left. split; [reflexivity | lia].
    - split; [now apply proper_tail|]. split; [|split].
      + rewrite Hhd. cbn [app]. apply (trim_fixed c0 (t0 ++ [period]) (c0 :: t0) period);
          [reflexivity | exact Hc0 | reflexivity].
      + rewrite Hhd. discriminate.
      + left. split; [now exists [period] | rewrite length_app; simpl; lia].
    - split; [now apply proper_tail_quote|]. split; [|split].
      + rewrite Hhd. cbn [app].
        apply (trim_fixed c0 (t0 ++ [period; dq]) (c0 :: t0 ++ [period]) dq);
          [cbn [app]; now rewrite <- app_assoc | exact Hc0 | reflexivity].
      + rewrite Hhd. discriminate.
      + left. split; [now exists [period; dq] | rewrite length_app; simpl; lia].
    - assert (Hk : k < length (trim text)) by (apply nth_error_Some; congruence).
      assert (Hwsc : is_ws c = false).
      { unfold one_of in Hc. change (lit ".!?") with [period; exclamation; question] in Hc.
        cbn [existsb] in Hc. rewrite orb_false_r in Hc.
        repeat (apply orb_prop in Hc; destruct Hc as [Hc|Hc]);
          apply N.eqb_eq in Hc; subst c; reflexivity. }
      destruct Hr as [-> | (q & Hq & Hqq & ->)].
      + rewrite (firstn_S_nth _ _ _ Hn).
        split; [now apply proper_tail|]. split; [|split].
        * rewrite <- (firstn_S_nth _ _ _ Hn). rewrite Hhd. cbn [firstn].
          apply (trim_fixed c0 (firstn k t0) (firstn k (c0 :: t0)) c);
            [|exact Hc0|exact Hwsc].
          change (c0 :: firstn k t0) with (firstn (S k) (c0 :: t0)).
          rewrite <- Hhd. now apply firstn_S_nth.
        * destruct (firstn k (trim text)); discriminate.
        * right. rewrite <- (firstn_S_nth _ _ _ Hn). split.
          -- exists (skipn (S k) (trim text)). symmetry. apply firstn_skipn.
          -- rewrite length_take. lia.
      + assert (Hk2 : S k < length (trim text)) by (apply nth_error_Some; congruence).
        assert (Hwsq : is_ws q = false).
        { unfold one_of in Hqq. cbn [existsb] in Hqq. rewrite orb_false_r in Hqq.
          apply orb_prop in Hqq. destruct Hqq as [Hqq|Hqq];
            apply N.eqb_eq in Hqq; subst q; reflexivity. }
        assert (E : firstn (S (S k)) (trim text) = firstn k (trim text) ++ [c; q]).
        { rewrite (firstn_S_nth _ _ _ Hq), (firstn_S_nth _ _ _ Hn).
          now rewrite <- app_assoc. }
        split; [rewrite E; now apply proper_tail_quote|]. split; [|split].
        * rewrite Hhd. cbn [firstn].
          apply (trim_fixed c0 (firstn (S k) t0) (firstn (S k) (c0 :: t0)) q);
            [|exact Hc0|exact Hwsq].
          change (c0 :: firstn (S k) t0) with (firstn (S (S k)) (c0 :: t0)).
          rewrite <- Hhd. now apply firstn_S_nth.
        * rewrite E. destruct (firstn k (trim text)); discriminate.
        * right. split.
          -- exists (skipn (S (S k)) (trim text)). symmetry. apply firstn_skipn.
          -- rewrite length_take. lia. }
  split; [exact Hblank|]. split; [intros Hne; destruct (Hmain Hne); tauto|].
  destruct (decide (trim text = [])) as [Et|Et].
  - rewrite (Hblank Et). apply Hblank. exact Et.
  - destruct (Hmain Et) as (Hp & Ht & Hne & _).
    set (r := ensureProperEnding text) in *.
    unfold ensureProperEnding at 1. rewrite Ht, Hp.
    destruct r as [|x r']; [now contradiction Hne|]. reflexivity.
Qed.

Lemma ensureProperEnding_ends_properly_witness :
  test properEndings (ensureProperEnding (lit "He walked away and left. And,")) = true.
Proof.
  destruct (ensureProperEnding_ends_properly (lit "He walked away and left. And,"))
    as (_ & H & _).
  destruct H as [H _]; [vm_compute; discriminate | exact H].
Defined.

End EndingFacts.

(** ** The prefill of a request *)

Module PrefillFacts.
Import Js Regex Prefill JsFacts RegexFacts EndingFacts.

Lemma exec_ahead_length (r : re) (ahead : N -> bool) (i : nat) (rest : str)
      (len : nat) (cs : caps) :
  exec_ahead r ahead i rest = Some (len, cs) ->
  len < length rest /\ exists c, nth_error rest len = Some c /\ ahead c = true.
Proof.
  unfold exec_ahead. intros H. apply m_consumes in H.
  destruct H as (w & rest' & cs' & -> & H).
  destruct rest' as [|c t]; [discriminate|]. destruct (ahead c) eqn:Ha; [|discriminate].
  injection H as <- _. replace (i + length w - i) with (length w) by lia.
  rewrite length_app. cbn [length]. split; [lia|].
  exists c. split; [|exact Ha].
  rewrite nth_error_app2 by lia. now rewrite Nat.sub_diag.
Qed.

Lemma matchAll_bounds (r : re) (ahead : N -> bool) (rest : str) :
  forall skip i index matched,
    In (index, matched) (matchAll_from r ahead skip i rest) ->
    i <= index /\ index + length matched < i + length rest
    /\ exists c, nth_error rest (index + length matched - i) = Some c /\ ahead c = true.
Proof.
  induction rest as [|c t IH]; intros skip i index matched Hin.
  - cbn [matchAll_from] in Hin. destruct skip; [|contradiction].
    destruct (exec_ahead r ahead i []) as [[len cs]|] eqn:E; [|contradiction].
    apply exec_ahead_length in E. cbn in E. lia.
  - cbn [matchAll_from] in Hin.
    assert (Hstep : forall n, In (index, matched) (matchAll_from r ahead n (S i) t) ->
              i <= index /\ index + length matched < i + length (c :: t)
              /\ exists c0, nth_error (c :: t) (index + length matched - i) = Some c0
                            /\ ahead c0 = true).
    { intros n H. destruct (IH _ _ _ _ H) as (H1 & H2 & x & Hx & Ha).
      cbn [length]. split; [lia|]. split; [lia|]. exists x. split; [|exact Ha].
      replace (index + length matched - i) with (S (index + length matched - S i)) by lia.
      exact Hx. }
    destruct skip as [|n]; [|now apply Hstep in Hin].
    destruct (exec_ahead r ahead i (c :: t)) as [[len cs]|] eqn:E;
      [|now apply Hstep in Hin].
    destruct Hin as [[= <- <-] | Hin].
    + apply exec_ahead_length in E. destruct E as (Hl & x & Hx & Ha).
      rewrite length_firstn. rewrite Nat.min_l by lia. split; [lia|]. split; [lia|].
      exists x. split; [|exact Ha]. now replace (i + len - i) with len by lia.
    + destruct len; now apply Hstep in Hin.
Qed.

Lemma last_In {A} (l : list A) (x : A) : last l = Some x -> In x l.
Proof.
  intros H. apply last_Some in H. destruct H as [l' ->]. apply in_or_app. right. now left.
Qed.

Lemma lastIndexOf_str_from_spec (p s : str) :
  forall i acc,
    lastIndexOf_str_from s p i acc = acc
    \/ ((i <= lastIndexOf_str_from s p i acc < i + Z.of_nat (length s))%Z
        /\ startsWith (skipn (Z.to_nat (lastIndexOf_str_from s p i acc - i)) s) p = true).
Proof.
  induction s as [|x s IH]; intros i acc; [now left|]. cbn [lastIndexOf_str_from].
  destruct (IH (i + 1)%Z (if startsWith (x :: s) p then i else acc)) as [H | [Hr Hs]].
  - rewrite H. destruct (startsWith (x :: s) p) eqn:E; [|now left]. right.
    cbn [length]. split; [lia|]. now rewrite Z.sub_diag.
  - right. cbn [length]. split; [lia|].
    replace (Z.to_nat (lastIndexOf_str_from s p (i + 1)
                         (if startsWith (x :: s) p then i else acc) - i))
      with (S (Z.to_nat (lastIndexOf_str_from s p (i + 1)
                           (if startsWith (x :: s) p then i else acc) - (i + 1)))) by lia.
    exact Hs.
Qed.

Lemma indexOf_from_spec (c : N) (s : str) :
  forall i,
    indexOf_from s c i = (-1)%Z
    \/ ((i <= indexOf_from s c i < i + Z.of_nat (length s))%Z
        /\ nth_error s (Z.to_nat (indexOf_from s c i - i)) = Some c).
Proof.
  induction s as [|x s IH]; intros i; [now left|]. cbn [indexOf_from].
  destruct (N.eqb_spec x c) as [->|Hne].
  - right. cbn [length]. split; [lia|]. now rewrite Z.sub_diag.
  - destruct (IH (i + 1)%Z) as [H | [Hr Hn]]; [now left|]. right.
    cbn [length]. split; [lia|].
    replace (Z.to_nat (indexOf_from s c (i + 1) - i))
      with (S (Z.to_nat (indexOf_from s c (i + 1) - (i + 1)))) by lia.
    exact Hn.
Qed.

Lemma skipn_suffix {A} (n : nat) (l : list A) : skipn n l `suffix_of` l.
Proof. exists (firstn n l). now rewrite firstn_skipn. Qed.

Lemma nth_error_last {A} (r : list A) (d x : A) (n : nat) :
  nth_error (r ++ [d]) n = Some x -> S n = length (r ++ [d]) -> x = d.
Proof.
  rewrite length_app. cbn [length]. intros H Hn.
  rewrite nth_error_app2 in H by lia. replace (n - length r) with 0 in H by lia.
  now injection H.
Qed.

Lemma skipn_nonempty {A} (n : nat) (l : list A) : n < length l -> skipn n l <> [].
Proof.
  intros H E. apply (f_equal (@length A)) in E. rewrite length_skipn in E.
  cbn in E. lia.
Qed.

Lemma getLastSentence_cases (text : str) :
  getLastSentence text `suffix_of` trim text
  /\ (trim text <> [] -> getLastSentence text <> []).
Proof.
  unfold getLastSentence.
  destruct (falsy text || falsy (trim text)) eqn:Hf.
  { split; [apply suffix_nil|]. intros Hne. apply orb_true_iff in Hf.
    destruct Hf as [Hf | Hf].
    - destruct text; [|discriminate]. now contradiction Hne.
    - destruct (trim text); [now contradiction Hne | discriminate]. }
  apply orb_false_iff in Hf. destruct Hf as [_ Hf].
  assert (Hne : trim text <> []) by (destruct (trim text); [discriminate | discriminate]).
  destruct (trim_ends text Hne) as (c0 & t0 & r & d & _ & Hr & _ & Hd).
  set (T := trim text) in *. clearbody T. clear text Hf.
  cbv zeta. unfold substring1.
  destruct (last (matchAll_from sentenceEnders sentence_start 0 0 T))
    as [[index matched]|] eqn:Hlast.
  { apply last_In, matchAll_bounds in Hlast. destruct Hlast as (_ & Hlt & _).
    split; [apply skipn_suffix|]. intros _. apply skipn_nonempty. lia. }
  destruct (negb (lastIndexOf_str T [nl; nl] =? -1)%Z
            && (Z.of_nat (length T) - 500 <? lastIndexOf_str T [nl; nl])%Z) eqn:Hpar.
  { split; [apply skipn_suffix|]. intros _. apply skipn_nonempty.
    apply andb_true_iff in Hpar. destruct Hpar as [Hpar _].
    apply negb_true_iff, Z.eqb_neq in Hpar. unfold lastIndexOf_str in *.
    destruct (lastIndexOf_str_from_spec [nl; nl] T 0 (-1)) as [H | [Hb Hs]];
      [contradiction|].
    rewrite Z.sub_0_r in Hs. set (j := lastIndexOf_str_from T [nl; nl] 0 (-1)) in *.
    apply startsWith_prefix in Hs. destruct Hs as [k Hk].
    assert (HT : T = firstn (Z.to_nat j) T ++ [nl; nl] ++ k)
      by (now rewrite <- Hk, firstn_skipn).
    assert (Hlen : length T = Z.to_nat j + 2 + length k).
    { rewrite HT at 1. rewrite !length_app, length_firstn. cbn [length]. lia. }
    destruct k as [|x k]; [|cbn [length] in Hlen; lia].
    exfalso. rewrite Hr in HT. rewrite app_nil_r in HT.
    change [nl; nl] with ([nl] ++ [nl]) in HT. rewrite app_assoc in HT.
    apply app_inj_tail in HT. destruct HT as [_ ->]. discriminate. }
  destruct (200 <? length T)%nat eqn:Hlong; [|split; [reflexivity | auto]].
  apply Nat.ltb_lt in Hlong.
  destruct (negb (indexOf (skipn (length T - 200) T) 32 =? -1)%Z) eqn:Hsp.
  - split.
    + etransitivity; apply skipn_suffix.
    + intros _. apply skipn_nonempty.
      apply negb_true_iff, Z.eqb_neq in Hsp. unfold indexOf in *.
      destruct (indexOf_from_spec 32 (skipn (length T - 200) T) 0) as [H | [Hb Hn]];
        [contradiction|].
      rewrite Z.sub_0_r in Hn. set (j := indexOf_from (skipn (length T - 200) T) 32 0) in *.
      assert (Hsk : skipn (length T - 200) T = skipn (length T - 200) r ++ [d]).
      { rewrite Hr. rewrite length_app. cbn [length]. rewrite skipn_app.
        replace (length r + 1 - 200 - length r) with 0 by lia. reflexivity. }
      destruct (Nat.eq_dec (S (Z.to_nat j)) (length (skipn (length T - 200) T))) as [E|E];
        [|lia].
      exfalso. rewrite Hsk in Hn, E. apply nth_error_last in Hn; [|exact E].
      subst d. discriminate.
  - split; [apply skipn_suffix|]. intros _. apply skipn_nonempty. lia.
Qed.

(** [getLastSentence] returns a suffix of the trimmed text, empty exactly
    when the text is blank; so the request of [generateText] carries a
    model turn exactly when the text before the caret is not blank, and its
    prefill is then that non-empty suffix. *)
Theorem prefill_is_tail_of_context (userPrompt text : str) :
  getLastSentence text `suffix_of` trim text
  /\ (getLastSentence text = [] <-> trim text = [])
  /\ contents userPrompt text
     = (User, userPrompt)
       :: (if falsy (trim text) then [] else [(Model, getLastSentence text)]).
Proof.
  destruct (getLastSentence_cases text) as [Hsuf Hne].
  assert (Hiff : getLastSentence text = [] <-> trim text = []).
  { split.
    - intros E. destruct (decide (trim text = [])) as [H|H]; [exact H|].
      now apply Hne in H.
    - intros E. rewrite E in Hsuf. now apply suffix_nil_inv in Hsuf. }
  split; [exact Hsuf|]. split; [exact Hiff|].
  unfold contents. f_equal.
  destruct (trim text) eqn:Et.
  - cbn [falsy]. now rewrite andb_false_r.
  - cbn [falsy negb]. rewrite andb_true_r.
    destruct (getLastSentence text) eqn:Eg; [|reflexivity].
    exfalso. destruct Hiff as [H _]. specialize (H eq_refl). discriminate.
Qed.

End PrefillFacts.

(** ** Limits of a generation *)

Module RateLimitFacts.
Import Js RateLimit Prefill.

(** For a user who is not an administrator, the words passed on by
    [handleGenerate] are at most 375 and the request of [generateText] asks
    for at most 563 output tokens; from 334 requested words on it asks for
    more than [MAX_TOKENS_PER_GENERATION]. *)
Theorem clamped_words_token_budget (s : state) (requestedWords : nat) :
  isAdmin s = false ->
  clampMaxWords s requestedWords <= 375
  /\ maxOutputTokens (clampMaxWords s requestedWords) <= 563
  /\ (334 <= requestedWords ->
      MAX_TOKENS_PER_GENERATION < maxOutputTokens (clampMaxWords s requestedWords)).
Proof.
  intros Ha. unfold clampMaxWords, maxOutputTokens, MAX_TOKENS_PER_GENERATION.
  rewrite Ha. change (500 * 3 / 4) with 375.
  assert (Hc : Nat.min requestedWords 375 <= 375) by lia.
  split; [exact Hc|]. split.
  - destruct (Nat.eqb_spec (Nat.min requestedWords 375) 0) as [E|E].
    + change ((3 * 150 + 1) / 2) with 225. lia.
    + apply Nat.Div0.div_le_upper_bound. lia.
  - intros Hw. destruct (Nat.eqb_spec (Nat.min requestedWords 375) 0) as [E|E]; [lia|].
    apply Nat.div_le_lower_bound; lia.
Qed.

Lemma clamped_words_token_budget_witness :
  clampMaxWords initial 400 <= 375
  /\ MAX_TOKENS_PER_GENERATION < maxOutputTokens (clampMaxWords initial 400).
Proof.
  destruct (clamped_words_token_budget initial 400) as (H1 & _ & H3).
  - reflexivity.
  - split; [exact H1 | apply H3; lia].
Defined.

(** [canGenerate] and [getRemainingGenerations] agree: a generation is
    refused exactly when none remains; counting one generation takes one
    from a positive remainder, leaves an administrator unlimited, and never
    lifts a refusal. *)
Theorem remaining_matches_allowance (JSON_stringify : Storage.json -> str) (now : N)
        (s : state) (localStorage : gmap str str) :
  let s' := fst (incrementGenerationCount JSON_stringify now s localStorage) in
  (allowed (canGenerate s) = false <-> getRemainingGenerations s = Finite 0)
  /\ (forall n, getRemainingGenerations s = Finite (S n) ->
                getRemainingGenerations s' = Finite n)
  /\ (getRemainingGenerations s = Infinity ->
      getRemainingGenerations s' = Infinity /\ allowed (canGenerate s') = true)
  /\ (allowed (canGenerate s) = false -> allowed (canGenerate s') = false).
Proof.
  destruct s as [i n a]. unfold incrementGenerationCount, canGenerate,
    getRemainingGenerations, MAX_GENERATIONS_PER_IP.
  cbn [fst isAdmin generationCount].
  destruct a.
  - cbn [allowed]. split; [split; discriminate|]. split; [discriminate|].
    split; [auto|discriminate].
  - destruct (Nat.leb_spec 10 n) as [H|H]; cbn [allowed].
    + split; [split; [intros _; f_equal; lia | reflexivity]|].
      split; [intros k [= E]; lia|]. split; [discriminate|]. intros _.
      destruct (Nat.leb_spec 10 (S n)); [reflexivity | lia].
    + split; [split; [discriminate | intros [= E]; lia]|].
      split; [intros k [= E]; f_equal; lia|]. split; discriminate.
Qed.

End RateLimitFacts.
